(** * Verification of the gameplay core of figma-make-doom

    A shallow embedding of [src/game/core/GameStateManager.ts]: the dungeon
    generator, the fixed-step clock, combat, enemy AI and floor progression.

    Modelling conventions.
    - A JavaScript [number] that only ever holds an integer in the source
      (grid cells, ids, ammunition, frame counters, player health) is a [Z];
      every other [number] is an exact rational [Q] (no rounding, no NaN, no
      infinities).  Rationals written back into the game state are kept in
      lowest terms ([num]).
    - [Math.random] is an oracle: a stream [Rand] of the values it returns,
      consumed in the order in which the source calls it.
    - [Math.sqrt], [Math.cos], [Math.sin] and [Math.atan2] belong to the host
      and are a parameter ([HostMath]) of the whole development.
    - An expression that raises in JavaScript (reading a property of
      [undefined], [Array(n)] with a negative [n]) makes the computation
      return [None]; so does a loop that exceeds its fuel and a write outside
      the [size] columns of a row, which the embedding does not follow. *)

From Stdlib Require Import ZArith QArith Qround Qreduction Qabs Lia Lqa.
From stdpp Require Import base list gmap strings.

Open Scope Z_scope.

(** ** Numbers *)

Definition num (q : Q) : Q := Qred q.

Definition Qltb (a b : Q) : bool := negb (Qle_bool b a).
Definition Qgtb (a b : Q) : bool := Qltb b a.
Definition Qleb (a b : Q) : bool := Qle_bool a b.
Definition Qgeb (a b : Q) : bool := Qle_bool b a.

(** [Math.PI], the exact value of the double. *)
Definition Math_PI : Q := 884279719003555 # 281474976710656.

Class HostMath := {
  Math_sqrt : Q -> Q;
  Math_cos : Q -> Q;
  Math_sin : Q -> Q;
  Math_atan2 : Q -> Q -> Q
}.

(** ** Randomness and exceptions *)

Definition Rand := nat -> Q.

(** Every value [Math.random] returns lies in [0, 1). *)
Definition valid_rand (r : Rand) : Prop := forall i, (0 <= r i)%Q /\ (r i < 1)%Q.

Definition Eff (A : Type) : Type := Rand -> nat -> option (A * nat).

Definition ret {A} (a : A) : Eff A := fun _ k => Some (a, k).
Definition throw {A} : Eff A := fun _ _ => None.
Definition bind {A B} (c : Eff A) (f : A -> Eff B) : Eff B :=
  fun r k => match c r k with
             | Some (a, k') => f a r k'
             | None => None
             end.
Definition lift {A} (o : option A) : Eff A :=
  match o with Some a => ret a | None => throw end.

Notation "'let*' x ':=' c 'in' k" := (bind c (fun x => k))
  (at level 10, x pattern, c at level 100, k at level 200).

(** [Math.random()] *)
Definition random : Eff Q := fun r k => Some (r k, S k).
(** [Math.floor(Math.random() * n)] *)
Definition randomInt (n : Z) : Eff Z :=
  let* u := random in ret (Qfloor (u * inject_Z n)).
(** [Math.random() < p] *)
Definition chance (p : Q) : Eff bool :=
  let* u := random in ret (Qltb u p).

Fixpoint foldM {A S} (body : A -> S -> Eff S) (l : list A) (s : S) : Eff S :=
  match l with
  | [] => ret s
  | a :: l' => let* s' := body a s in foldM body l' s'
  end.

(** [for (let i = lo; i < hi; i++) body] *)
Definition forZ {S} (lo hi : Z) (body : Z -> S -> Eff S) (s : S) : Eff S :=
  foldM body (seqZ lo (hi - lo)) s.

(** ** The tile grid: [number[][]] *)

Abbreviation Grid := (list (list Z)) (only parsing).

(** The [boolean[][]] of the flood fill *)
Abbreviation Visited := (list (list bool)) (only parsing).

(** [Array(size).fill(null).map(() => Array(size).fill(v))] *)
Definition newArray2 {A} (size : Z) (v : A) : option (list (list A)) :=
  if size <? 0 then None
  else Some (replicate (Z.to_nat size) (replicate (Z.to_nat size) v)).

Definition index {A} (l : list A) (i : Z) : option A :=
  if i <? 0 then None else l !! Z.to_nat i.

(** [m[y][x]] as an r-value: [None] when [m[y]] is undefined (a TypeError),
    [Some None] when the row exists and the column does not ([undefined]). *)
Definition read2 {A} (m : list (list A)) (y x : Z) : option (option A) :=
  match index m y with
  | None => None
  | Some row => Some (index row x)
  end.

(** [m[y][x] = v] *)
Definition write2 {A} (m : list (list A)) (y x : Z) (v : A) : option (list (list A)) :=
  match index m y with
  | None => None
  | Some row =>
      if (0 <=? x) && (x <? Z.of_nat (length row))
      then Some (<[Z.to_nat y := <[Z.to_nat x := v]> row]> m)
      else None
  end.

(** [map[y][x] === 0] *)
Definition isFloor (map : Grid) (y x : Z) : Eff bool :=
  let* c := lift (read2 map y x) in
  ret (match c with Some 0 => true | _ => false end).

(** [map[y][x] !== 0] *)
Definition notFloor (map : Grid) (y x : Z) : Eff bool :=
  let* b := isFloor map y x in ret (negb b).

Definition setCell (map : Grid) (y x v : Z) : Eff Grid := lift (write2 map y x v).

(** ** Dungeon generation *)

Module Zone.
Record t := mk {
  x : Z; y : Z; width : Z; height : Z;
  theme : option string; (* [undefined] when the index was out of range *)
  colorIndex : Z
}.
End Zone.

Module Room.
Record t := mk {
  x : Z; y : Z; width : Z; height : Z; wallType : Z; theme : option string
}.
End Room.

Module WallTypes.
Record t := mk { border : Z; primary : Z; secondary : Z; accent : Z }.
End WallTypes.

Section Generator.
Context `{HostMath}.

Definition zoneThemes : list string :=
  ["tech"; "industrial"; "energy"; "warning"; "danger"; "alien"]%string.

Definition createThemedZones (size : Z) : Eff (list Zone.t) :=
  let* k := randomInt 3 in
  let zoneCount := 4 + k in
  let zonesPerRow := Qceiling (Math_sqrt (inject_Z zoneCount)) in
  let zoneWidth := size / zonesPerRow in
  let zoneHeight := size / zonesPerRow in
  forZ 0 zoneCount (fun i zones =>
    let row := i / zonesPerRow in
    let col := Z.rem i zonesPerRow in
    let* t := randomInt (Z.of_nat (length zoneThemes)) in
    let theme := index zoneThemes t in
    let* c := randomInt 4 in
    ret (zones ++ [Zone.mk (col * zoneWidth) (row * zoneHeight)
                           zoneWidth zoneHeight theme c])) [].

Definition inZone (x y : Q) (zone : Zone.t) : bool :=
  Qgeb x (inject_Z (Zone.x zone)) &&
  Qltb x (inject_Z (Zone.x zone + Zone.width zone)) &&
  Qgeb y (inject_Z (Zone.y zone)) &&
  Qltb y (inject_Z (Zone.y zone + Zone.height zone)).

Definition getZoneAt (x y : Q) (zones : list Zone.t) : option string * Z :=
  match List.find (inZone x y) zones with
  | Some zone => (Zone.theme zone, Zone.colorIndex zone)
  | None => (Some "tech"%string, 0)
  end.

Definition themeRanges (theme : option string) : option (list Z) :=
  match theme with
  | Some t =>
      if String.eqb t "tech" then Some [2; 3; 4; 5]
      else if String.eqb t "industrial" then Some [6; 7; 8; 9]
      else if String.eqb t "energy" then Some [10; 11; 12; 13]
      else if String.eqb t "warning" then Some [14; 15; 16; 17]
      else if String.eqb t "danger" then Some [18; 19; 20; 21]
      else if String.eqb t "alien" then Some [22; 23; 24; 25]
      else None
  | None => None
  end.

Definition getThemeWallType (theme : option string) (colorIndex : Z) : Z :=
  match themeRanges theme with
  | Some themeColors =>
      if (0 <=? colorIndex) && (colorIndex <? Z.of_nat (length themeColors))
      then default 2 (index themeColors colorIndex)
      else 2
  | None => 2
  end.

Definition wallTypeAt (x y : Q) (zones : list Zone.t) : Z :=
  let '(theme, colorIndex) := getZoneAt x y zones in
  getThemeWallType theme colorIndex.

Definition createEnhancedRoom (map : Grid) (room : Room.t) : Eff Grid :=
  let rx := Room.x room in
  let ry := Room.y room in
  let w := Room.width room in
  let h := Room.height room in
  let wt := Room.wallType room in
  let* map := forZ ry (ry + h) (fun y map =>
      forZ rx (rx + w) (fun x map =>
        if (x =? rx) || (x =? rx + w - 1) || (y =? ry) || (y =? ry + h - 1)
        then setCell map y x wt
        else setCell map y x 0) map) map in
  if (8 <? w) && (8 <? h) then
    let centerX := rx + w / 2 in
    let centerY := ry + h / 2 in
    let* pillar := chance 0.3 in
    let* map := if pillar then setCell map centerY centerX wt else ret map in
    let* walls := chance 0.2 in
    if walls then
      let* map := forZ (rx + 2) (rx + w - 2) (fun x map =>
          let* b := chance 0.6 in
          if b then setCell map centerY x wt else ret map) map in
      let* map := setCell map centerY (rx + w / 3) 0 in
      setCell map centerY (rx + (2 * w) / 3) 0
    else ret map
  else ret map.

Definition samePoint (a b : Z * Z) : bool := (a.1 =? b.1) && (a.2 =? b.2).

(** The doors are kept as [(x, y)]; the [side] label of the source is never
    read. *)
Fixpoint additionalDoorLoop (n : nat) (validDoors doorPositions : list (Z * Z))
  : Eff (list (Z * Z)) :=
  match n with
  | O => ret doorPositions
  | S n' =>
      if (length doorPositions <? length validDoors)%nat then
        let availableDoors :=
          filter (fun door => existsb (samePoint door) doorPositions = false) validDoors in
        if (0 <? length availableDoors)%nat then
          let* k := randomInt (Z.of_nat (length availableDoors)) in
          let* additionalDoor := lift (index availableDoors k) in
          additionalDoorLoop n' validDoors (doorPositions ++ [additionalDoor])
        else additionalDoorLoop n' validDoors doorPositions
      else ret doorPositions
  end.

Definition generateRoomDoors (map : Grid) (room : Room.t) (mapSize : Z) : Eff Grid :=
  let startX := Room.x room in
  let startY := Room.y room in
  let roomWidth := Room.width room in
  let roomHeight := Room.height room in
  let possibleDoors :=
    ((fun i => (startX + 1 + i, startY)) <$> seqZ 0 (roomWidth - 2)) ++
    ((fun i => (startX + roomWidth - 1, startY + 1 + i)) <$> seqZ 0 (roomHeight - 2)) ++
    ((fun i => (startX + 1 + i, startY + roomHeight - 1)) <$> seqZ 0 (roomWidth - 2)) ++
    ((fun i => (startX, startY + 1 + i)) <$> seqZ 0 (roomHeight - 2)) in
  let validDoors :=
    filter (fun door : Z * Z => (0 <? door.1) && (door.1 <? mapSize - 1) &&
                        (0 <? door.2) && (door.2 <? mapSize - 1) = true) possibleDoors in
  if (length validDoors =? 0)%nat then ret map
  else
    let* g := randomInt (Z.of_nat (length validDoors)) in
    let* guaranteedDoor := lift (index validDoors g) in
    let* additionalDoors := randomInt 3 in
    let* doorPositions :=
      additionalDoorLoop (Z.to_nat additionalDoors) validDoors [guaranteedDoor] in
    foldM (fun door map => setCell map door.2 door.1 0) doorPositions map.

Definition overlaps (startX startY roomWidth roomHeight : Z) (existingRoom : Room.t) : bool :=
  negb ((startX + roomWidth + 1 <? Room.x existingRoom) ||
        (Room.x existingRoom + Room.width existingRoom + 1 <? startX) ||
        (startY + roomHeight + 1 <? Room.y existingRoom) ||
        (Room.y existingRoom + Room.height existingRoom + 1 <? startY)).

Definition roomDimensions : Eff (Z * Z) :=
  let* sizeCategory := random in
  if Qltb sizeCategory 0.4 then
    let* a := randomInt 4 in let* b := randomInt 4 in ret (3 + a, 3 + b)
  else if Qltb sizeCategory 0.8 then
    let* a := randomInt 6 in let* b := randomInt 6 in ret (6 + a, 6 + b)
  else
    let* a := randomInt 8 in let* b := randomInt 8 in ret (10 + a, 10 + b).

(** The placement loop of [generateRooms]; [n] counts the attempts left. *)
Fixpoint placeRooms (n : nat) (size roomCount : Z) (zones : list Zone.t)
    (rooms : list Room.t) (map : Grid) : Eff (list Room.t * Grid) :=
  match n with
  | O => ret (rooms, map)
  | S n' =>
      if Z.of_nat (length rooms) <? roomCount then
        let* (roomWidth, roomHeight) := roomDimensions in
        let* sx := randomInt (size - roomWidth - 4) in
        let startX := 2 + sx in
        let* sy := randomInt (size - roomHeight - 4) in
        let startY := 2 + sy in
        if existsb (overlaps startX startY roomWidth roomHeight) rooms
        then placeRooms n' size roomCount zones rooms map
        else
          let wallType :=
            wallTypeAt (inject_Z startX + inject_Z roomWidth / 2)
                       (inject_Z startY + inject_Z roomHeight / 2) zones in
          let theme :=
            (getZoneAt (inject_Z startX + inject_Z roomWidth / 2)
                       (inject_Z startY + inject_Z roomHeight / 2) zones).1 in
          let roomInfo := Room.mk startX startY roomWidth roomHeight wallType theme in
          let* map := createEnhancedRoom map roomInfo in
          placeRooms n' size roomCount zones (rooms ++ [roomInfo]) map
      else ret (rooms, map)
  end.

Definition corridorDirections : list (Z * Z) :=
  [(1, 0); (0, 1); (-1, 0); (0, -1); (1, 1); (-1, 1); (1, -1); (-1, -1)].

(** The inner loop of [generateDenseCorridors].  [dir] is the object
    [directions[direction]]: assigning to [dir.dx] and [dir.dy] changes that
    entry of [directions], which later draws of [newDir] can select. *)
Fixpoint carveCorridor (n : nat) (size direction : Z) (directions : list (Z * Z))
    (x y : Z) (map : Grid) : Eff Grid :=
  match n with
  | O => ret map
  | S n' =>
      let* map :=
        if (2 <=? x) && (x <? size - 2) && (2 <=? y) && (y <? size - 2) then
          let* map := setCell map y x 0 in
          let* map := if x + 1 <? size - 1 then setCell map y (x + 1) 0 else ret map in
          if y + 1 <? size - 1 then setCell map (y + 1) x 0 else ret map
        else ret map in
      let* dir := lift (index directions direction) in
      let x := x + dir.1 in
      let y := y + dir.2 in
      let* turn := chance 0.1 in
      let* directions :=
        if turn then
          let* k := randomInt 8 in
          let* newDir := lift (index directions k) in
          ret (<[Z.to_nat direction := newDir]> directions)
        else ret directions in
      if (x <=? 2) || (size - 3 <=? x) || (y <=? 2) || (size - 3 <=? y)
      then ret map
      else carveCorridor n' size direction directions x y map
  end.

Definition generateDenseCorridors (map : Grid) (size : Z) : Eff Grid :=
  let* c := randomInt 8 in
  let corridorCount := 12 + c in
  forZ 0 corridorCount (fun _ map =>
    let* sx := randomInt (size - 4) in
    let startX := 2 + sx in
    let* sy := randomInt (size - 4) in
    let startY := 2 + sy in
    let* l := randomInt 20 in
    let length := 15 + l in
    let* direction := randomInt 8 in
    carveCorridor (Z.to_nat length) size direction corridorDirections startX startY map) map.

Definition generateEnhancedConnectivity (map : Grid) (rooms : list Room.t) (size : Z)
  : Eff Grid :=
  let* map := foldM (fun room map => generateRoomDoors map room size) rooms map in
  generateDenseCorridors map size.

Definition generateRooms (map : Grid) (size : Z) : Eff Grid :=
  let* zones := createThemedZones size in
  let* c := randomInt 10 in
  let roomCount := 15 + c in
  let attempts := roomCount * 10 in
  let* (rooms, map) := placeRooms (Z.to_nat attempts) size roomCount zones [] map in
  generateEnhancedConnectivity map rooms size.

Definition generateMaze (map : Grid) (size : Z) : Eff Grid :=
  generateDenseCorridors map size.

Definition clusterOffsets : list (Z * Z) :=
  [(1, 0); (-1, 0); (0, 1); (0, -1); (1, 1); (-1, -1); (1, -1); (-1, 1)].

(** [for (let j = 0; j < 2 + Math.floor(Math.random() * 3); j++)]: the bound
    is drawn again at every test, and is at most 4, so five tests suffice. *)
Fixpoint pillarCluster (fuel : nat) (j size x y pillarType : Z) (map : Grid) : Eff Grid :=
  match fuel with
  | O => throw
  | S fuel' =>
      let* k := randomInt 3 in
      if j <? 2 + k then
        let* o := randomInt (Z.of_nat (length clusterOffsets)) in
        let* offset := lift (index clusterOffsets o) in
        let newX := x + offset.1 in
        let newY := y + offset.2 in
        let* place :=
          if (2 <=? newX) && (newX <? size - 2) && (2 <=? newY) && (newY <? size - 2) then
            let* free := isFloor map newY newX in
            if free then chance 0.6 else ret false
          else ret false in
        let* map := if place then setCell map newY newX pillarType else ret map in
        pillarCluster fuel' (j + 1) size x y pillarType map
      else ret map
  end.

Definition generatePillars (map : Grid) (size : Z) : Eff Grid :=
  let* zones := createThemedZones size in
  let* c := randomInt 15 in
  let pillarCount := 20 + c in
  forZ 0 pillarCount (fun _ map =>
    let* px := randomInt (size - 6) in
    let x := 3 + px in
    let* py := randomInt (size - 6) in
    let y := 3 + py in
    let pillarType := wallTypeAt (inject_Z x) (inject_Z y) zones in
    let* free := isFloor map y x in
    if free then
      let* map := setCell map y x pillarType in
      let* cluster := chance 0.3 in
      if cluster then pillarCluster 5 0 size x y pillarType map else ret map
    else ret map) map.

Definition specialRoomTemplates : list (list (list Z)) :=
  [ (* Cross-shaped room *)
    [ [0; 0; 1; 1; 1; 0; 0];
      [0; 0; 1; 0; 1; 0; 0];
      [1; 1; 1; 0; 1; 1; 1];
      [1; 0; 0; 0; 0; 0; 1];
      [1; 1; 1; 0; 1; 1; 1];
      [0; 0; 1; 0; 1; 0; 0];
      [0; 0; 1; 1; 1; 0; 0] ];
    (* L-shaped room *)
    [ [1; 1; 1; 1; 1];
      [1; 0; 0; 0; 1];
      [1; 0; 0; 0; 1];
      [1; 0; 0; 0; 0];
      [1; 1; 1; 0; 0] ];
    (* Circular room *)
    [ [0; 1; 1; 1; 0];
      [1; 0; 0; 0; 1];
      [1; 0; 0; 0; 1];
      [1; 0; 0; 0; 1];
      [0; 1; 1; 1; 0] ];
    (* H-shaped room *)
    [ [1; 0; 0; 0; 1];
      [1; 0; 0; 0; 1];
      [1; 1; 1; 1; 1];
      [1; 0; 0; 0; 1];
      [1; 0; 0; 0; 1] ];
    (* Diamond room *)
    [ [0; 0; 1; 0; 0];
      [0; 1; 0; 1; 0];
      [1; 0; 0; 0; 1];
      [0; 1; 0; 1; 0];
      [0; 0; 1; 0; 0] ];
    (* Complex structure *)
    [ [1; 1; 1; 1; 1; 1; 1];
      [1; 0; 0; 1; 0; 0; 1];
      [1; 0; 0; 1; 0; 0; 1];
      [1; 1; 1; 0; 1; 1; 1];
      [1; 0; 0; 1; 0; 0; 1];
      [1; 0; 0; 1; 0; 0; 1];
      [1; 1; 1; 1; 1; 1; 1] ] ].

(** The cells [(x, y, pattern[y][x])] of a template in the order of the
    nested loops [for y ... for x ...]. *)
Definition patternCells (pattern : list (list Z)) : list (Z * Z * Z) :=
  concat (imap (fun y row => imap (fun x v => (Z.of_nat x, Z.of_nat y, v)) row) pattern).

Definition rowLength (pattern : list (list Z)) (y : Z) : Z :=
  match index pattern y with Some row => Z.of_nat (length row) | None => 0 end.

(** [pattern[y][x] === 0], for a row [y] that exists *)
Definition patternIsZero (pattern : list (list Z)) (y x : Z) : bool :=
  match read2 pattern y x with Some (Some 0) => true | _ => false end.

Definition isPerimeter (pattern : list (list Z)) (x y : Z) : bool :=
  (x =? 0) || (x =? rowLength pattern y - 1) ||
  (y =? 0) || (y =? Z.of_nat (length pattern) - 1) ||
  ((0 <? x) && patternIsZero pattern y (x - 1)) ||
  ((x <? rowLength pattern y - 1) && patternIsZero pattern y (x + 1)) ||
  ((0 <? y) && patternIsZero pattern (y - 1) x) ||
  ((y <? Z.of_nat (length pattern) - 1) && patternIsZero pattern (y + 1) x).

Fixpoint openPerimeter (n : nat) (perimeterCells : list (Z * Z)) (map : Grid) : Eff Grid :=
  match n with
  | O => ret map
  | S n' =>
      let* doorIndex := randomInt (Z.of_nat (length perimeterCells)) in
      let* door := lift (index perimeterCells doorIndex) in
      let* map := setCell map door.2 door.1 0 in
      let perimeterCells := delete (Z.to_nat doorIndex) perimeterCells in
      if (length perimeterCells =? 0)%nat then ret map
      else openPerimeter n' perimeterCells map
  end.

Definition ensureSpecialRoomConnectivity (map : Grid) (startX startY : Z)
    (pattern : list (list Z)) (mapSize : Z) : Eff Grid :=
  let perimeterCells :=
    omap (fun c : Z * Z * Z =>
            let '(x, y, v) := c in
            let worldX := startX + x in
            let worldY := startY + y in
            if (0 <? v) && isPerimeter pattern x y &&
               (0 <? worldX) && (worldX <? mapSize - 1) &&
               (0 <? worldY) && (worldY <? mapSize - 1)
            then Some (worldX, worldY) else None)
         (patternCells pattern) in
  if (0 <? length perimeterCells)%nat then
    let* d := randomInt (Z.min 3 (Z.of_nat (length perimeterCells))) in
    let doorCount := 1 + d in
    openPerimeter (Z.to_nat doorCount) perimeterCells map
  else ret map.

Definition generateSpecialRooms (map : Grid) (size : Z) : Eff Grid :=
  let* zones := createThemedZones size in
  let* c := randomInt 6 in
  let roomCount := 6 + c in
  forZ 0 roomCount (fun _ map =>
    let* t := randomInt (Z.of_nat (length specialRoomTemplates)) in
    let* pattern := lift (index specialRoomTemplates t) in
    let* sx := randomInt (size - rowLength pattern 0 - 6) in
    let startX := 3 + sx in
    let* sy := randomInt (size - Z.of_nat (length pattern) - 6) in
    let startY := 3 + sy in
    let centerX := startX + rowLength pattern 0 / 2 in
    let centerY := startY + Z.of_nat (length pattern) / 2 in
    let wallType := wallTypeAt (inject_Z centerX) (inject_Z centerY) zones in
    let inside (mapX mapY : Z) :=
      (0 <=? mapX) && (mapX <? size) && (0 <=? mapY) && (mapY <? size) in
    let* (wallCells, totalCells) :=
      foldM (fun (c : Z * Z * Z) (acc : Z * Z) =>
               let '(x, y, _) := c in
               let mapX := startX + x in
               let mapY := startY + y in
               if inside mapX mapY then
                 let* wall := notFloor map mapY mapX in
                 ret (if wall then acc.1 + 1 else acc.1, acc.2 + 1)
               else ret acc)
            (patternCells pattern) (0, 0) in
    let canPlace := negb (Qgtb (inject_Z wallCells / inject_Z totalCells) 0.3) in
    if canPlace then
      let* map :=
        foldM (fun (c : Z * Z * Z) map =>
                 let '(x, y, v) := c in
                 let mapX := startX + x in
                 let mapY := startY + y in
                 if inside mapX mapY then
                   if v =? 1 then setCell map mapY mapX wallType
                   else if v =? 0 then setCell map mapY mapX 0
                   else ret map
                 else ret map)
              (patternCells pattern) map in
      ensureSpecialRoomConnectivity map startX startY pattern size
    else ret map) map.

(** *** Connectivity repair *)

Definition floodDirections : list (Z * Z) := [(0, -1); (1, 0); (0, 1); (-1, 0)].

(** One pass of the [for (const dir of directions)] loop for the cell
    [(cx, cy)] taken from the queue. *)
Definition floodNeighbours (map : Grid) (size cx cy : Z) (st : Visited * list (Z * Z))
  : Eff (Visited * list (Z * Z)) :=
  foldM (fun (dir : Z * Z) (st : Visited * list (Z * Z)) =>
           let newX := cx + dir.1 in
           let newY := cy + dir.2 in
           if (0 <=? newX) && (newX <? size) && (0 <=? newY) && (newY <? size) then
             let* seen := lift (read2 st.1 newY newX) in
             if negb (default false seen) then
               let* free := isFloor map newY newX in
               if free then
                 let* visited := lift (write2 st.1 newY newX true) in
                 ret (visited, st.2 ++ [(newX, newY)])
               else ret st
             else ret st
           else ret st)
        floodDirections st.

(** [while (queue.length > 0)]; every iteration takes one cell off the queue
    and each cell enters the queue once, so [size * size + 1] iterations are
    enough fuel. *)
Fixpoint floodLoop (fuel : nat) (map : Grid) (size : Z) (visited : Visited)
    (queue : list (Z * Z)) : Eff Visited :=
  match queue with
  | [] => ret visited
  | current :: queue =>
      match fuel with
      | O => throw
      | S fuel' =>
          let* st := floodNeighbours map size current.1 current.2 (visited, queue) in
          floodLoop fuel' map size st.1 st.2
      end
  end.

Definition floodFill (map : Grid) (startX startY size : Z) : Eff Visited :=
  let* visited := lift (newArray2 size false) in
  let* visited := lift (write2 visited startY startX true) in
  floodLoop (Z.to_nat (size * size) + 1) map size visited [(startX, startY)].

(** [reachable[y][x]] used as a condition *)
Definition isReachable (reachable : Visited) (y x : Z) : Eff bool :=
  let* v := lift (read2 reachable y x) in ret (default false v).

(** [while (currentX !== to.x)] of [createPath]; returns the grid, the
    column reached is [toX]. *)
Fixpoint pathHorizontal (fuel : nat) (size toX currentX currentY : Z) (map : Grid)
  : Eff Grid :=
  if currentX =? toX then ret map
  else match fuel with
       | O => throw
       | S fuel' =>
           let* map :=
             if (0 <? currentX) && (currentX <? size - 1) &&
                (0 <? currentY) && (currentY <? size - 1)
             then setCell map currentY currentX 0 else ret map in
           pathHorizontal fuel' size toX
             (currentX + (if currentX <? toX then 1 else -1)) currentY map
       end.

(** [while (currentY !== to.y)] of [createPath] *)
Fixpoint pathVertical (fuel : nat) (size toY currentX currentY : Z) (map : Grid)
  : Eff Grid :=
  if currentY =? toY then ret map
  else match fuel with
       | O => throw
       | S fuel' =>
           let* map :=
             if (0 <? currentX) && (currentX <? size - 1) &&
                (0 <? currentY) && (currentY <? size - 1)
             then setCell map currentY currentX 0 else ret map in
           pathVertical fuel' size toY currentX
             (currentY + (if currentY <? toY then 1 else -1)) map
       end.

Definition createPath (map : Grid) (from to : Z * Z) (size : Z) : Eff Grid :=
  let* map := pathHorizontal (Z.abs_nat (to.1 - from.1)) size to.1 from.1 from.2 map in
  pathVertical (Z.abs_nat (to.2 - from.2)) size to.2 to.1 from.2 map.

(** All [(x, y)] with [1 <= x, y < size - 1], rows first. *)
Definition interiorCells (size : Z) : list (Z * Z) :=
  y ← seqZ 1 (size - 2); (fun x => (x, y)) <$> seqZ 1 (size - 2).

Definition closestReachable (reachable : Visited) (size : Z) (area : Z * Z)
  : Eff (option (Z * Z)) :=
  let* best :=
    foldM (fun (c : Z * Z) (best : option Z * option (Z * Z)) =>
             let* r := isReachable reachable c.2 c.1 in
             if r then
               let distance := Z.abs (c.1 - area.1) + Z.abs (c.2 - area.2) in
               match best.1 with
               | Some d => if distance <? d then ret (Some distance, Some c) else ret best
               | None => ret (Some distance, Some c)
               end
             else ret best)
          (interiorCells size) (None, None) in
  ret best.2.

Definition connectUnreachableAreas (map : Grid) (reachable : Visited) (size : Z)
  : Eff Grid :=
  let* unreachableAreas :=
    foldM (fun (c : Z * Z) (areas : list (Z * Z)) =>
             let* free := isFloor map c.2 c.1 in
             if free then
               let* r := isReachable reachable c.2 c.1 in
               if r then ret areas else ret (areas ++ [c])
             else ret areas)
          (interiorCells size) [] in
  foldM (fun area map =>
           let* closest := closestReachable reachable size area in
           match closest with
           | Some target => createPath map area target size
           | None => ret map
           end)
        unreachableAreas map.

Definition createEmergencyConnections (map : Grid) (size : Z) : Eff Grid :=
  let midPoint := size / 2 in
  let* map := forZ 1 (size - 1) (fun x map =>
      let* clear := chance 0.3 in
      if clear then setCell map midPoint x 0 else ret map) map in
  let* map := forZ 1 (size - 1) (fun y map =>
      let* clear := chance 0.3 in
      if clear then setCell map y midPoint 0 else ret map) map in
  forZ (-1) 2 (fun dy map =>
    forZ (-1) 2 (fun dx map =>
      let x := midPoint + dx in
      let y := midPoint + dy in
      if (0 <? x) && (x <? size - 1) && (0 <? y) && (y <? size - 1)
      then setCell map y x 0 else ret map) map) map.

Definition ensureMapConnectivity (map : Grid) (size : Z) : Eff Grid :=
  let playerStartX := size / 2 in
  let playerStartY := size / 2 in
  let* reachable := floodFill map playerStartX playerStartY size in
  let* map := connectUnreachableAreas map reachable size in
  createEmergencyConnections map size.

Definition fillBorders (map : Grid) (size border : Z) : Eff Grid :=
  forZ 0 size (fun y map =>
    forZ 0 size (fun x map =>
      if (x =? 0) || (x =? size - 1) || (y =? 0) || (y =? size - 1)
      then setCell map y x border else ret map) map) map.

Definition generateWorldMap (size : Z) : Eff Grid :=
  let* map := lift (newArray2 size 0) in
  let* map := fillBorders map size 1 in
  let* map := generateRooms map size in
  let* map := generateMaze map size in
  let* map := generatePillars map size in
  let* map := generateSpecialRooms map size in
  ensureMapConnectivity map size.

Definition getThemeWallTypes (theme : string) : WallTypes.t :=
  if String.eqb theme "tech_base" then WallTypes.mk 1 2 3 4
  else if String.eqb theme "hell_fortress" then WallTypes.mk 1 18 19 20
  else if String.eqb theme "ancient_ruins" then WallTypes.mk 1 14 15 16
  else if String.eqb theme "cyber_facility" then WallTypes.mk 1 10 11 13
  else if String.eqb theme "void_realm" then WallTypes.mk 1 22 23 24
  else if String.eqb theme "industrial_complex" then WallTypes.mk 1 6 7 8
  else WallTypes.mk 1 2 3 4.

Definition generateWorldMapWithTheme (size : Z) (theme : string) : Eff Grid :=
  let* map := lift (newArray2 size 0) in
  let wallTypes := getThemeWallTypes theme in
  let* map := fillBorders map size (WallTypes.border wallTypes) in
  let* map := generateRooms map size in
  let* map := generateMaze map size in
  let* map := generatePillars map size in
  let* map := generateSpecialRooms map size in
  ensureMapConnectivity map size.

Definition getFloorTheme (floor : Z) : string :=
  let themes := ["tech_base"; "hell_fortress"; "ancient_ruins";
                 "cyber_facility"; "void_realm"]%string in
  let themeIndex := Z.rem ((floor - 1) / 5) (Z.of_nat (length themes)) in
  default "undefined"%string (index themes themeIndex).

End Generator.

(** ** The game state *)

Inductive Weapon := Pistol | Shotgun | Chaingun.
Inductive GameStatus := Playing | Paused | Victory | Defeat.
Inductive EnemyState := Idle | Patrolling | Chasing | Attacking | Spawning.
Inductive EnemyType :=
  Grunt | Soldier | Captain | BossDemon | BossCyberdemon | BossSpiderMastermind.
Inductive PickupType := HealthPickup | AmmoPickup | WeaponPickup.

#[global] Instance Weapon_eq_dec : EqDecision Weapon.
Proof. solve_decision. Defined.
#[global] Instance GameStatus_eq_dec : EqDecision GameStatus.
Proof. solve_decision. Defined.
#[global] Instance EnemyState_eq_dec : EqDecision EnemyState.
Proof. solve_decision. Defined.
#[global] Instance EnemyType_eq_dec : EqDecision EnemyType.
Proof. solve_decision. Defined.

#[global] Instance Weapon_countable : Countable Weapon.
Proof.
  refine (inj_countable'
            (fun w => match w with Pistol => 0%nat | Shotgun => 1%nat | Chaingun => 2%nat end)
            (fun n => match n with 0%nat => Pistol | 1%nat => Shotgun | _ => Chaingun end) _).
  intros []; reflexivity.
Defined.

Module Ammo.
Record t := mk {
  pistol : Z; shotgun : Z; chaingun : Z
}.
Definition set_pistol (v : Z) (r : t) : t :=
  mk v (shotgun r) (chaingun r).
Definition set_shotgun (v : Z) (r : t) : t :=
  mk (pistol r) v (chaingun r).
Definition set_chaingun (v : Z) (r : t) : t :=
  mk (pistol r) (shotgun r) v.
End Ammo.

Module Player.
Record t := mk {
  x : Q; y : Q; angle : Q; health : Z; ammo : Ammo.t; maxHealth : Z; maxAmmo : Ammo.t;
  weapon : Weapon; availableWeapons : gset Weapon; isAttacking : bool; attackTimer : Z;
  muzzleFlash : bool; muzzleFlashTimer : Z
}.
Definition set_x (v : Q) (r : t) : t :=
  mk v (y r) (angle r) (health r) (ammo r) (maxHealth r) (maxAmmo r) (weapon r)
    (availableWeapons r) (isAttacking r) (attackTimer r) (muzzleFlash r)
    (muzzleFlashTimer r).
Definition set_y (v : Q) (r : t) : t :=
  mk (x r) v (angle r) (health r) (ammo r) (maxHealth r) (maxAmmo r) (weapon r)
    (availableWeapons r) (isAttacking r) (attackTimer r) (muzzleFlash r)
    (muzzleFlashTimer r).
Definition set_angle (v : Q) (r : t) : t :=
  mk (x r) (y r) v (health r) (ammo r) (maxHealth r) (maxAmmo r) (weapon r)
    (availableWeapons r) (isAttacking r) (attackTimer r) (muzzleFlash r)
    (muzzleFlashTimer r).
Definition set_health (v : Z) (r : t) : t :=
  mk (x r) (y r) (angle r) v (ammo r) (maxHealth r) (maxAmmo r) (weapon r)
    (availableWeapons r) (isAttacking r) (attackTimer r) (muzzleFlash r)
    (muzzleFlashTimer r).
Definition set_ammo (v : Ammo.t) (r : t) : t :=
  mk (x r) (y r) (angle r) (health r) v (maxHealth r) (maxAmmo r) (weapon r)
    (availableWeapons r) (isAttacking r) (attackTimer r) (muzzleFlash r)
    (muzzleFlashTimer r).
Definition set_weapon (v : Weapon) (r : t) : t :=
  mk (x r) (y r) (angle r) (health r) (ammo r) (maxHealth r) (maxAmmo r) v
    (availableWeapons r) (isAttacking r) (attackTimer r) (muzzleFlash r)
    (muzzleFlashTimer r).
Definition set_availableWeapons (v : gset Weapon) (r : t) : t :=
  mk (x r) (y r) (angle r) (health r) (ammo r) (maxHealth r) (maxAmmo r) (weapon r) v
    (isAttacking r) (attackTimer r) (muzzleFlash r) (muzzleFlashTimer r).
Definition set_isAttacking (v : bool) (r : t) : t :=
  mk (x r) (y r) (angle r) (health r) (ammo r) (maxHealth r) (maxAmmo r) (weapon r)
    (availableWeapons r) v (attackTimer r) (muzzleFlash r) (muzzleFlashTimer r).
Definition set_attackTimer (v : Z) (r : t) : t :=
  mk (x r) (y r) (angle r) (health r) (ammo r) (maxHealth r) (maxAmmo r) (weapon r)
    (availableWeapons r) (isAttacking r) v (muzzleFlash r) (muzzleFlashTimer r).
Definition set_muzzleFlash (v : bool) (r : t) : t :=
  mk (x r) (y r) (angle r) (health r) (ammo r) (maxHealth r) (maxAmmo r) (weapon r)
    (availableWeapons r) (isAttacking r) (attackTimer r) v (muzzleFlashTimer r).
Definition set_muzzleFlashTimer (v : Z) (r : t) : t :=
  mk (x r) (y r) (angle r) (health r) (ammo r) (maxHealth r) (maxAmmo r) (weapon r)
    (availableWeapons r) (isAttacking r) (attackTimer r) (muzzleFlash r) v.
End Player.

Module Enemy.
Record t := mk {
  id : Z; x : Q; y : Q; health : Q; maxHealth : Q; state : EnemyState; lastPlayerX : Q;
  lastPlayerY : Q; attackCooldown : Z; patrolTarget : option (Q * Q);
  enemyType : EnemyType; explorationCooldown : Z;
  explorationDirection : option (Z * Z); isBoss : bool; spawnCooldown : Q;
  spawnsRemaining : Z; phaseTransitions : list Q; currentPhase : Z; isHurt : bool;
  hurtTimer : Z
}.
Definition set_x (v : Q) (r : t) : t :=
  mk (id r) v (y r) (health r) (maxHealth r) (state r) (lastPlayerX r) (lastPlayerY r)
    (attackCooldown r) (patrolTarget r) (enemyType r) (explorationCooldown r)
    (explorationDirection r) (isBoss r) (spawnCooldown r) (spawnsRemaining r)
    (phaseTransitions r) (currentPhase r) (isHurt r) (hurtTimer r).
Definition set_y (v : Q) (r : t) : t :=
  mk (id r) (x r) v (health r) (maxHealth r) (state r) (lastPlayerX r) (lastPlayerY r)
    (attackCooldown r) (patrolTarget r) (enemyType r) (explorationCooldown r)
    (explorationDirection r) (isBoss r) (spawnCooldown r) (spawnsRemaining r)
    (phaseTransitions r) (currentPhase r) (isHurt r) (hurtTimer r).
Definition set_health (v : Q) (r : t) : t :=
  mk (id r) (x r) (y r) v (maxHealth r) (state r) (lastPlayerX r) (lastPlayerY r)
    (attackCooldown r) (patrolTarget r) (enemyType r) (explorationCooldown r)
    (explorationDirection r) (isBoss r) (spawnCooldown r) (spawnsRemaining r)
    (phaseTransitions r) (currentPhase r) (isHurt r) (hurtTimer r).
Definition set_state (v : EnemyState) (r : t) : t :=
  mk (id r) (x r) (y r) (health r) (maxHealth r) v (lastPlayerX r) (lastPlayerY r)
    (attackCooldown r) (patrolTarget r) (enemyType r) (explorationCooldown r)
    (explorationDirection r) (isBoss r) (spawnCooldown r) (spawnsRemaining r)
    (phaseTransitions r) (currentPhase r) (isHurt r) (hurtTimer r).
Definition set_lastPlayerX (v : Q) (r : t) : t :=
  mk (id r) (x r) (y r) (health r) (maxHealth r) (state r) v (lastPlayerY r)
    (attackCooldown r) (patrolTarget r) (enemyType r) (explorationCooldown r)
    (explorationDirection r) (isBoss r) (spawnCooldown r) (spawnsRemaining r)
    (phaseTransitions r) (currentPhase r) (isHurt r) (hurtTimer r).
Definition set_lastPlayerY (v : Q) (r : t) : t :=
  mk (id r) (x r) (y r) (health r) (maxHealth r) (state r) (lastPlayerX r) v
    (attackCooldown r) (patrolTarget r) (enemyType r) (explorationCooldown r)
    (explorationDirection r) (isBoss r) (spawnCooldown r) (spawnsRemaining r)
    (phaseTransitions r) (currentPhase r) (isHurt r) (hurtTimer r).
Definition set_attackCooldown (v : Z) (r : t) : t :=
  mk (id r) (x r) (y r) (health r) (maxHealth r) (state r) (lastPlayerX r) (lastPlayerY
    r) v (patrolTarget r) (enemyType r) (explorationCooldown r) (explorationDirection
    r) (isBoss r) (spawnCooldown r) (spawnsRemaining r) (phaseTransitions r)
    (currentPhase r) (isHurt r) (hurtTimer r).
Definition set_patrolTarget (v : option (Q * Q)) (r : t) : t :=
  mk (id r) (x r) (y r) (health r) (maxHealth r) (state r) (lastPlayerX r) (lastPlayerY
    r) (attackCooldown r) v (enemyType r) (explorationCooldown r) (explorationDirection
    r) (isBoss r) (spawnCooldown r) (spawnsRemaining r) (phaseTransitions r)
    (currentPhase r) (isHurt r) (hurtTimer r).
Definition set_explorationCooldown (v : Z) (r : t) : t :=
  mk (id r) (x r) (y r) (health r) (maxHealth r) (state r) (lastPlayerX r) (lastPlayerY
    r) (attackCooldown r) (patrolTarget r) (enemyType r) v (explorationDirection r)
    (isBoss r) (spawnCooldown r) (spawnsRemaining r) (phaseTransitions r) (currentPhase
    r) (isHurt r) (hurtTimer r).
Definition set_explorationDirection (v : option (Z * Z)) (r : t) : t :=
  mk (id r) (x r) (y r) (health r) (maxHealth r) (state r) (lastPlayerX r) (lastPlayerY
    r) (attackCooldown r) (patrolTarget r) (enemyType r) (explorationCooldown r) v
    (isBoss r) (spawnCooldown r) (spawnsRemaining r) (phaseTransitions r) (currentPhase
    r) (isHurt r) (hurtTimer r).
Definition set_spawnCooldown (v : Q) (r : t) : t :=
  mk (id r) (x r) (y r) (health r) (maxHealth r) (state r) (lastPlayerX r) (lastPlayerY
    r) (attackCooldown r) (patrolTarget r) (enemyType r) (explorationCooldown r)
    (explorationDirection r) (isBoss r) v (spawnsRemaining r) (phaseTransitions r)
    (currentPhase r) (isHurt r) (hurtTimer r).
Definition set_spawnsRemaining (v : Z) (r : t) : t :=
  mk (id r) (x r) (y r) (health r) (maxHealth r) (state r) (lastPlayerX r) (lastPlayerY
    r) (attackCooldown r) (patrolTarget r) (enemyType r) (explorationCooldown r)
    (explorationDirection r) (isBoss r) (spawnCooldown r) v (phaseTransitions r)
    (currentPhase r) (isHurt r) (hurtTimer r).
Definition set_currentPhase (v : Z) (r : t) : t :=
  mk (id r) (x r) (y r) (health r) (maxHealth r) (state r) (lastPlayerX r) (lastPlayerY
    r) (attackCooldown r) (patrolTarget r) (enemyType r) (explorationCooldown r)
    (explorationDirection r) (isBoss r) (spawnCooldown r) (spawnsRemaining r)
    (phaseTransitions r) v (isHurt r) (hurtTimer r).
Definition set_isHurt (v : bool) (r : t) : t :=
  mk (id r) (x r) (y r) (health r) (maxHealth r) (state r) (lastPlayerX r) (lastPlayerY
    r) (attackCooldown r) (patrolTarget r) (enemyType r) (explorationCooldown r)
    (explorationDirection r) (isBoss r) (spawnCooldown r) (spawnsRemaining r)
    (phaseTransitions r) (currentPhase r) v (hurtTimer r).
Definition set_hurtTimer (v : Z) (r : t) : t :=
  mk (id r) (x r) (y r) (health r) (maxHealth r) (state r) (lastPlayerX r) (lastPlayerY
    r) (attackCooldown r) (patrolTarget r) (enemyType r) (explorationCooldown r)
    (explorationDirection r) (isBoss r) (spawnCooldown r) (spawnsRemaining r)
    (phaseTransitions r) (currentPhase r) (isHurt r) v.
End Enemy.

Module Pickup.
Record t := mk {
  id : Z; x : Q; y : Q; type : PickupType; value : Z; spawnTime : Q;
  animationOffset : Q; weaponType : option Weapon
}.
End Pickup.

Module GameState.
Record t := mk {
  player : Player.t; enemies : list Enemy.t; pickups : list Pickup.t;
  gameStatus : GameStatus; worldMap : Grid; lastUpdateTime : Q; accumulator : Q;
  isPaused : bool; nextPickupId : Z; nextEnemyId : Z; worldSize : Z; currentFloor : Z;
  floorTheme : string; isBossFloor : bool; bossDefeated : bool
}.
Definition set_player (v : Player.t) (r : t) : t :=
  mk v (enemies r) (pickups r) (gameStatus r) (worldMap r) (lastUpdateTime r)
    (accumulator r) (isPaused r) (nextPickupId r) (nextEnemyId r) (worldSize r)
    (currentFloor r) (floorTheme r) (isBossFloor r) (bossDefeated r).
Definition set_enemies (v : list Enemy.t) (r : t) : t :=
  mk (player r) v (pickups r) (gameStatus r) (worldMap r) (lastUpdateTime r)
    (accumulator r) (isPaused r) (nextPickupId r) (nextEnemyId r) (worldSize r)
    (currentFloor r) (floorTheme r) (isBossFloor r) (bossDefeated r).
Definition set_pickups (v : list Pickup.t) (r : t) : t :=
  mk (player r) (enemies r) v (gameStatus r) (worldMap r) (lastUpdateTime r)
    (accumulator r) (isPaused r) (nextPickupId r) (nextEnemyId r) (worldSize r)
    (currentFloor r) (floorTheme r) (isBossFloor r) (bossDefeated r).
Definition set_gameStatus (v : GameStatus) (r : t) : t :=
  mk (player r) (enemies r) (pickups r) v (worldMap r) (lastUpdateTime r) (accumulator
    r) (isPaused r) (nextPickupId r) (nextEnemyId r) (worldSize r) (currentFloor r)
    (floorTheme r) (isBossFloor r) (bossDefeated r).
Definition set_worldMap (v : Grid) (r : t) : t :=
  mk (player r) (enemies r) (pickups r) (gameStatus r) v (lastUpdateTime r)
    (accumulator r) (isPaused r) (nextPickupId r) (nextEnemyId r) (worldSize r)
    (currentFloor r) (floorTheme r) (isBossFloor r) (bossDefeated r).
Definition set_lastUpdateTime (v : Q) (r : t) : t :=
  mk (player r) (enemies r) (pickups r) (gameStatus r) (worldMap r) v (accumulator r)
    (isPaused r) (nextPickupId r) (nextEnemyId r) (worldSize r) (currentFloor r)
    (floorTheme r) (isBossFloor r) (bossDefeated r).
Definition set_accumulator (v : Q) (r : t) : t :=
  mk (player r) (enemies r) (pickups r) (gameStatus r) (worldMap r) (lastUpdateTime r)
    v (isPaused r) (nextPickupId r) (nextEnemyId r) (worldSize r) (currentFloor r)
    (floorTheme r) (isBossFloor r) (bossDefeated r).
Definition set_isPaused (v : bool) (r : t) : t :=
  mk (player r) (enemies r) (pickups r) (gameStatus r) (worldMap r) (lastUpdateTime r)
    (accumulator r) v (nextPickupId r) (nextEnemyId r) (worldSize r) (currentFloor r)
    (floorTheme r) (isBossFloor r) (bossDefeated r).
Definition set_nextPickupId (v : Z) (r : t) : t :=
  mk (player r) (enemies r) (pickups r) (gameStatus r) (worldMap r) (lastUpdateTime r)
    (accumulator r) (isPaused r) v (nextEnemyId r) (worldSize r) (currentFloor r)
    (floorTheme r) (isBossFloor r) (bossDefeated r).
Definition set_nextEnemyId (v : Z) (r : t) : t :=
  mk (player r) (enemies r) (pickups r) (gameStatus r) (worldMap r) (lastUpdateTime r)
    (accumulator r) (isPaused r) (nextPickupId r) v (worldSize r) (currentFloor r)
    (floorTheme r) (isBossFloor r) (bossDefeated r).
Definition set_worldSize (v : Z) (r : t) : t :=
  mk (player r) (enemies r) (pickups r) (gameStatus r) (worldMap r) (lastUpdateTime r)
    (accumulator r) (isPaused r) (nextPickupId r) (nextEnemyId r) v (currentFloor r)
    (floorTheme r) (isBossFloor r) (bossDefeated r).
Definition set_currentFloor (v : Z) (r : t) : t :=
  mk (player r) (enemies r) (pickups r) (gameStatus r) (worldMap r) (lastUpdateTime r)
    (accumulator r) (isPaused r) (nextPickupId r) (nextEnemyId r) (worldSize r) v
    (floorTheme r) (isBossFloor r) (bossDefeated r).
Definition set_floorTheme (v : string) (r : t) : t :=
  mk (player r) (enemies r) (pickups r) (gameStatus r) (worldMap r) (lastUpdateTime r)
    (accumulator r) (isPaused r) (nextPickupId r) (nextEnemyId r) (worldSize r)
    (currentFloor r) v (isBossFloor r) (bossDefeated r).
Definition set_isBossFloor (v : bool) (r : t) : t :=
  mk (player r) (enemies r) (pickups r) (gameStatus r) (worldMap r) (lastUpdateTime r)
    (accumulator r) (isPaused r) (nextPickupId r) (nextEnemyId r) (worldSize r)
    (currentFloor r) (floorTheme r) v (bossDefeated r).
Definition set_bossDefeated (v : bool) (r : t) : t :=
  mk (player r) (enemies r) (pickups r) (gameStatus r) (worldMap r) (lastUpdateTime r)
    (accumulator r) (isPaused r) (nextPickupId r) (nextEnemyId r) (worldSize r)
    (currentFloor r) (floorTheme r) (isBossFloor r) v.
End GameState.


(** [ammo[w]] and [ammo[w] = v] for a weapon name [w] *)
Definition ammoOf (a : Ammo.t) (w : Weapon) : Z :=
  match w with
  | Pistol => Ammo.pistol a
  | Shotgun => Ammo.shotgun a
  | Chaingun => Ammo.chaingun a
  end.

Definition setAmmoOf (w : Weapon) (v : Z) (a : Ammo.t) : Ammo.t :=
  match w with
  | Pistol => Ammo.set_pistol v a
  | Shotgun => Ammo.set_shotgun v a
  | Chaingun => Ammo.set_chaingun v a
  end.

Module WeaponStats.
Record t := mk {
  damage : Z; ammoUse : Z; attackDuration : Z; muzzleDuration : Z; range : Z; accuracy : Q
}.
End WeaponStats.

Definition WEAPON_STATS (w : Weapon) : WeaponStats.t :=
  match w with
  | Pistol => WeaponStats.mk 12 1 15 8 15 0.2
  | Shotgun => WeaponStats.mk 22 1 25 12 8 0.3
  | Chaingun => WeaponStats.mk 7 1 8 5 12 0.2
  end.

(** 60 FPS in milliseconds *)
Definition FIXED_TIMESTEP : Q := 1000 / 60.

(** The callbacks handed to [setTimeout]. *)
Inductive Callback := CallCheckFloorProgression | CallProgressToNextFloor.

(** A [GameStateManager]: its state, the snapshots handed to the listeners
    so far (latest first) and the pending [setTimeout] callbacks with their
    delays in milliseconds. *)
Module Manager.
Record t := mk {
  state : GameState.t;
  published : list GameState.t;
  timers : list (Z * Callback)
}.
Definition set_state (v : GameState.t) (r : t) : t := mk v (published r) (timers r).
Definition with_player (f : Player.t -> Player.t) (r : t) : t :=
  set_state (GameState.set_player (f (GameState.player (state r))) (state r)) r.
End Manager.

(** [getState()]: a shallow copy of the state. *)
Definition getState (m : Manager.t) : GameState.t := Manager.state m.

(** [notifyListeners()]: every listener receives [getState()]. *)
Definition notifyListeners (m : Manager.t) : Manager.t :=
  Manager.mk (Manager.state m) (getState m :: Manager.published m) (Manager.timers m).

(** [setTimeout(callback, delay)] *)
Definition setTimeout (c : Callback) (delay : Z) (m : Manager.t) : Manager.t :=
  Manager.mk (Manager.state m) (Manager.published m) (Manager.timers m ++ [(delay, c)]).

Module MovementInput.
Record t := mk {
  forward : bool; backward : bool; left : bool; right : bool;
  rotateLeft : bool; rotateRight : bool
}.
End MovementInput.

Section Game.
Context `{HostMath}.

(** [Math.sqrt((x1 - x2) ** 2 + (y1 - y2) ** 2)] *)
Definition distance (x1 y1 x2 y2 : Q) : Q :=
  Math_sqrt ((x1 - x2) ^ 2 + (y1 - y2) ^ 2).

(** *** Pause, weapons, shooting *)

Definition pause (m : Manager.t) : Manager.t :=
  let s := Manager.state m in
  if decide (GameState.gameStatus s = Playing) then
    let s := GameState.set_isPaused true s in
    let s := GameState.set_gameStatus Paused s in
    notifyListeners (Manager.set_state s m)
  else m.

Definition resume (m : Manager.t) : Manager.t :=
  let s := Manager.state m in
  if decide (GameState.gameStatus s = Paused) then
    let s := GameState.set_isPaused false s in
    let s := GameState.set_gameStatus Playing s in
    (* Reset accumulator to avoid time jump *)
    let s := GameState.set_accumulator 0 s in
    notifyListeners (Manager.set_state s m)
  else m.

Definition togglePause (m : Manager.t) : Manager.t :=
  if GameState.isPaused (Manager.state m) then resume m else pause m.

Definition switchWeapon (weapon : Weapon) (m : Manager.t) : bool * Manager.t :=
  let p := GameState.player (Manager.state m) in
  if decide (weapon ∈ Player.availableWeapons p) then
    (true, notifyListeners (Manager.with_player (Player.set_weapon weapon) m))
  else (false, m).

Definition shoot (m : Manager.t) : bool * Manager.t :=
  let s := Manager.state m in
  let p := GameState.player s in
  if negb (bool_decide (GameState.gameStatus s = Playing)) ||
     GameState.isPaused s ||
     (ammoOf (Player.ammo p) (Player.weapon p) <=? 0)
  then (false, m)
  else
    let stats := WEAPON_STATS (Player.weapon p) in
    let p := Player.set_ammo
               (setAmmoOf (Player.weapon p)
                  (ammoOf (Player.ammo p) (Player.weapon p) - WeaponStats.ammoUse stats)
                  (Player.ammo p)) p in
    let p := Player.set_isAttacking true p in
    let p := Player.set_attackTimer (WeaponStats.attackDuration stats) p in
    let p := Player.set_muzzleFlash true p in
    let p := Player.set_muzzleFlashTimer (WeaponStats.muzzleDuration stats) p in
    (true, notifyListeners (Manager.with_player (fun _ => p) m)).


(** *** The fixed logic step *)

Definition updatePlayerAttackState (s : GameState.t) : GameState.t :=
  let p := GameState.player s in
  let p :=
    if 0 <? Player.attackTimer p then
      let p := Player.set_attackTimer (Player.attackTimer p - 1) p in
      if Player.attackTimer p =? 0 then Player.set_isAttacking false p else p
    else p in
  let p :=
    if 0 <? Player.muzzleFlashTimer p then
      let p := Player.set_muzzleFlashTimer (Player.muzzleFlashTimer p - 1) p in
      if Player.muzzleFlashTimer p =? 0 then Player.set_muzzleFlash false p else p
    else p in
  GameState.set_player p s.

Definition updateGameStatus (s : GameState.t) : GameState.t :=
  if Player.health (GameState.player s) <=? 0 then
    GameState.set_isPaused false (GameState.set_gameStatus Defeat s)
  else if (length (GameState.enemies s) =? 0)%nat then
    GameState.set_isPaused false (GameState.set_gameStatus Victory s)
  else s.

Definition collectPickup (pickup : Pickup.t) (s : GameState.t) : GameState.t :=
  let p := GameState.player s in
  match Pickup.type pickup with
  | HealthPickup =>
      GameState.set_player
        (Player.set_health
           (Z.min (Player.health p + Pickup.value pickup) (Player.maxHealth p)) p) s
  | AmmoPickup =>
      let currentWeapon := Player.weapon p in
      GameState.set_player
        (Player.set_ammo
           (setAmmoOf currentWeapon
              (Z.min (ammoOf (Player.ammo p) currentWeapon + Pickup.value pickup)
                     (ammoOf (Player.maxAmmo p) currentWeapon))
              (Player.ammo p)) p) s
  | WeaponPickup =>
      match Pickup.weaponType pickup with
      | Some weaponType =>
          let p := Player.set_availableWeapons
                     ({[ weaponType ]} ∪ Player.availableWeapons p) p in
          let p := Player.set_weapon weaponType p in
          let p := Player.set_ammo
                     (setAmmoOf weaponType
                        (Z.min (ammoOf (Player.ammo p) weaponType + Pickup.value pickup)
                               (ammoOf (Player.maxAmmo p) weaponType))
                        (Player.ammo p)) p in
          GameState.set_player p s
      | None => s
      end
  end.

Definition PICKUP_RANGE : Q := 0.8.

(** [for (let i = this.state.pickups.length - 1; i >= 0; i--)], [n] being
    [i + 1]. *)
Fixpoint collectFrom (n : nat) (s : GameState.t) : GameState.t :=
  match n with
  | O => s
  | S i =>
      let s :=
        match GameState.pickups s !! i with
        | Some pickup =>
            let p := GameState.player s in
            if Qltb (distance (Pickup.x pickup) (Pickup.y pickup) (Player.x p) (Player.y p))
                    PICKUP_RANGE
            then
              let s := collectPickup pickup s in
              GameState.set_pickups (delete i (GameState.pickups s)) s
            else s
        | None => s
        end in
      collectFrom i s
  end.

Definition updatePickupCollection (s : GameState.t) : GameState.t :=
  collectFrom (length (GameState.pickups s)) s.

Definition fixedUpdate (s : GameState.t) : GameState.t :=
  if decide (GameState.gameStatus s = Playing) then
    updateGameStatus (updatePickupCollection (updatePlayerAttackState s))
  else s.

(** [while (this.state.accumulator >= this.FIXED_TIMESTEP)] *)
Fixpoint fixedLoop (fuel : nat) (s : GameState.t) : option GameState.t :=
  if Qgeb (GameState.accumulator s) FIXED_TIMESTEP then
    match fuel with
    | O => None
    | S fuel' =>
        let s := fixedUpdate s in
        fixedLoop fuel'
          (GameState.set_accumulator (num (GameState.accumulator s - FIXED_TIMESTEP)) s)
    end
  else Some s.

(** *** Pickups *)

Definition spawnPickup (x y : Q) (type : PickupType) (value : Z)
    (weaponType : option Weapon) (s : GameState.t) : Eff GameState.t :=
  let* u := random in
  let offsetX := ((u - 0.5) * 0.4)%Q in
  let* v := random in
  let offsetY := ((v - 0.5) * 0.4)%Q in
  let id := GameState.nextPickupId s in
  let s := GameState.set_nextPickupId (id + 1) s in
  let* a := random in
  let pickup :=
    Pickup.mk id (num (x + offsetX)) (num (y + offsetY)) type value
              (GameState.lastUpdateTime s) (num (a * Math_PI * 2)) weaponType in
  ret (GameState.set_pickups (GameState.pickups s ++ [pickup]) s).

Definition dropChances (enemyType : EnemyType) : Q * Q * Q :=
  match enemyType with
  | Grunt => (0.5, 0.7, 0.05)
  | Soldier => (0.7, 0.8, 0.15)
  | Captain => (0.8, 0.9, 0.25)
  | BossDemon => (1.0, 1.0, 0.8)
  | BossCyberdemon => (1.0, 1.0, 0.9)
  | BossSpiderMastermind => (1.0, 1.0, 1.0)
  end%Q.

Definition spawnEnemyDrops (x y : Q) (enemyType : EnemyType) (s : GameState.t)
  : Eff GameState.t :=
  let '(healthDropChance, ammoDropChance, weaponDropChance) := dropChances enemyType in
  let* dropHealth := chance healthDropChance in
  let* s :=
    if dropHealth then
      let* k := randomInt 26 in
      spawnPickup x y HealthPickup (15 + k) None s
    else ret s in
  let* dropAmmo := chance ammoDropChance in
  let* s :=
    if dropAmmo then
      let* k := randomInt 18 in
      spawnPickup x y AmmoPickup (8 + k) None s
    else ret s in
  let* dropWeapon := chance weaponDropChance in
  if dropWeapon then
    let* sg := chance 0.7 in
    let weaponType := if sg then Shotgun else Chaingun in
    let ammoValue := if sg then 12 else 30 in
    spawnPickup x y WeaponPickup ammoValue (Some weaponType) s
  else ret s.

Definition pickupTypes : list PickupType := [HealthPickup; AmmoPickup; WeaponPickup].

(** The loop of [generateRandomPickups]; [n] counts the attempts left of the
    200. *)
Fixpoint placePickups (n : nat) (pickupCount : Z) (s : GameState.t) : Eff GameState.t :=
  match n with
  | O => ret s
  | S n' =>
      if Z.of_nat (length (GameState.pickups s)) <? pickupCount then
        let size := GameState.worldSize s in
        let* u := random in
        let x := (2 + u * inject_Z (size - 4))%Q in
        let* v := random in
        let y := (2 + v * inject_Z (size - 4))%Q in
        let* free := isFloor (GameState.worldMap s) (Qfloor y) (Qfloor x) in
        let* s :=
          if free then
            let distanceFromPlayer :=
              distance x y (inject_Z size / 2) (inject_Z size / 2) in
            if Qgtb distanceFromPlayer 3 then
              let* t := randomInt (Z.of_nat (length pickupTypes)) in
              let* type := lift (index pickupTypes t) in
              match type with
              | HealthPickup =>
                  let* k := randomInt 26 in spawnPickup x y type (25 + k) None s
              | AmmoPickup =>
                  let* k := randomInt 21 in spawnPickup x y type (15 + k) None s
              | WeaponPickup =>
                  let* sg := chance 0.7 in
                  let weaponType := if sg then Shotgun else Chaingun in
                  spawnPickup x y type (if sg then 12 else 30) (Some weaponType) s
              end
            else ret s
          else ret s in
        placePickups n' pickupCount s
      else ret s
  end.

Definition generateRandomPickups (s : GameState.t) : Eff GameState.t :=
  let* k := randomInt 6 in
  let pickupCount := 5 + k in
  placePickups 200 pickupCount s.

(** *** Enemy population *)

Definition enemyTypes : list EnemyType := [Grunt; Soldier; Captain].

(** The loop of [generateRandomEnemies]; [n] counts the attempts left of the
    200. *)
Fixpoint placeEnemies (n : nat) (enemyCount : Z) (worldMap : Grid) (size : Z)
    (enemies : list Enemy.t) (s : GameState.t) : Eff (list Enemy.t * GameState.t) :=
  match n with
  | O => ret (enemies, s)
  | S n' =>
      if Z.of_nat (length enemies) <? enemyCount then
        let* u := random in
        let x := (2 + u * inject_Z (size - 4))%Q in
        let* v := random in
        let y := (2 + v * inject_Z (size - 4))%Q in
        let* free := isFloor worldMap (Qfloor y) (Qfloor x) in
        let* (enemies, s) :=
          if free then
            let distanceFromPlayer :=
              distance x y (inject_Z size / 2) (inject_Z size / 2) in
            if Qgtb distanceFromPlayer 5 then
              let* reachable := floodFill worldMap (size / 2) (size / 2) size in
              let* ok := isReachable reachable (Qfloor y) (Qfloor x) in
              if ok then
                let* t := randomInt (Z.of_nat (length enemyTypes)) in
                let* enemyType := lift (index enemyTypes t) in
                let* maxHealth :=
                  match enemyType with
                  | Grunt => let* k := randomInt 16 in ret (20 + k)
                  | Soldier => let* k := randomInt 21 in ret (30 + k)
                  | _ => let* k := randomInt 26 in ret (45 + k)
                  end in
                let id := if GameState.nextEnemyId s =? 0
                          then Z.of_nat (length enemies) + 1
                          else GameState.nextEnemyId s in
                let* e := randomInt 300 in
                let enemy :=
                  Enemy.mk id (num x) (num y) (inject_Z maxHealth) (inject_Z maxHealth)
                           Idle 0 0 0 None enemyType (e + 60) None false 0 0 [] 0
                           false 0 in
                ret (enemies ++ [enemy],
                     GameState.set_nextEnemyId (GameState.nextEnemyId s + 1) s)
              else ret (enemies, s)
            else ret (enemies, s)
          else ret (enemies, s) in
        placeEnemies n' enemyCount worldMap size enemies s
      else ret (enemies, s)
  end.

Definition generateRandomEnemies (worldMap : Grid) (size : Z) (s : GameState.t)
  : Eff (list Enemy.t * GameState.t) :=
  let* k := randomInt 9 in
  let enemyCount := 8 + k in
  placeEnemies 200 enemyCount worldMap size [] s.

Definition bossTypes : list EnemyType := [BossDemon; BossCyberdemon; BossSpiderMastermind].

(** [maxHealth], [spawnsRemaining] and [phaseTransitions] of a boss *)
Definition bossStats (bossType : EnemyType) (floorNumber : Z) : Q * Z * list Q :=
  match bossType with
  | BossDemon =>
      let maxHealth := inject_Z (150 + floorNumber * 20) in
      (maxHealth, 3 + floorNumber / 5,
       [num (maxHealth * 0.75)%Q; num (maxHealth * 0.5)%Q; num (maxHealth * 0.25)%Q])
  | BossCyberdemon =>
      let maxHealth := inject_Z (200 + floorNumber * 25) in
      (maxHealth, 4 + floorNumber / 5,
       [num (maxHealth * 0.8)%Q; num (maxHealth * 0.6)%Q; num (maxHealth * 0.4)%Q;
        num (maxHealth * 0.2)%Q])
  | _ =>
      let maxHealth := inject_Z (250 + floorNumber * 30) in
      (maxHealth, 5 + floorNumber / 5,
       [num (maxHealth * 0.85)%Q; num (maxHealth * 0.7)%Q; num (maxHealth * 0.55)%Q;
        num (maxHealth * 0.4)%Q; num (maxHealth * 0.25)%Q])
  end.

(** The loop of [generateBossEnemy]; [n] counts the attempts left of the
    100.  The boss takes [nextEnemyId] as its id and leaves it as it is. *)
Fixpoint placeBoss (n : nat) (worldMap : Grid) (size floorNumber : Z) (s : GameState.t)
  : Eff (option Enemy.t) :=
  match n with
  | O => ret None
  | S n' =>
      let* u := random in
      let x := (5 + u * inject_Z (size - 10))%Q in
      let* v := random in
      let y := (5 + v * inject_Z (size - 10))%Q in
      let* free := isFloor worldMap (Qfloor y) (Qfloor x) in
      if free && Qgtb (distance x y (inject_Z size / 2) (inject_Z size / 2)) 15 then
        let* bossType :=
          lift (index bossTypes (Z.rem (floorNumber / 5) (Z.of_nat (length bossTypes)))) in
        let '(maxHealth, spawnsRemaining, phaseTransitions) :=
          bossStats bossType floorNumber in
        let id := if GameState.nextEnemyId s =? 0 then 1000 + floorNumber
                  else GameState.nextEnemyId s in
        ret (Some (Enemy.mk id (num x) (num y) maxHealth maxHealth Idle 0 0 0 None
                            bossType 0 None true 0 spawnsRemaining phaseTransitions 0
                            false 0))
      else placeBoss n' worldMap size floorNumber s
  end.

Definition generateBossEnemy (worldMap : Grid) (size floorNumber : Z) (s : GameState.t)
  : Eff (option Enemy.t) :=
  placeBoss 100 worldMap size floorNumber s.

(** [array.slice(0, stop)] *)
Definition slice0 {A} (l : list A) (stop : Z) : list A :=
  if stop <? 0 then take (Z.to_nat (Z.of_nat (length l) + stop)) l
  else take (Z.to_nat stop) l.

(** *** Floor progression *)

Definition canProgress (s : GameState.t) : bool :=
  (length (GameState.enemies s) =? 0)%nat ||
  (GameState.isBossFloor s && GameState.bossDefeated s).

Definition progressToNextFloor (m : Manager.t) : Eff Manager.t :=
  let s := Manager.state m in
  if canProgress s then
    let nextFloor := GameState.currentFloor s + 1 in
    let isBossFloor := Z.rem nextFloor 5 =? 0 in
    let floorTheme := getFloorTheme nextFloor in
    let worldSize := Z.min (64 + nextFloor / 5 * 8) 96 in
    let* worldMap := generateWorldMapWithTheme worldSize floorTheme in
    let p := GameState.player s in
    (* Reset player position to center of new map *)
    let p := Player.set_x (num (inject_Z worldSize / 2)) p in
    let p := Player.set_y (num (inject_Z worldSize / 2)) p in
    let p := Player.set_angle 0 p in
    (* Heal player partially between floors *)
    let p := Player.set_health (Z.min (Player.maxHealth p) (Player.health p + 25)) p in
    (* Give some ammo to all weapons *)
    let a := Player.ammo p in
    let a := Ammo.set_pistol
               (Z.min (Ammo.pistol (Player.maxAmmo p)) (Ammo.pistol a + 20)) a in
    let a := Ammo.set_shotgun
               (Z.min (Ammo.shotgun (Player.maxAmmo p)) (Ammo.shotgun a + 10)) a in
    let a := Ammo.set_chaingun
               (Z.min (Ammo.chaingun (Player.maxAmmo p)) (Ammo.chaingun a + 30)) a in
    let p := Player.set_ammo a p in
    let s := GameState.set_player p s in
    (* Update floor properties *)
    let s := GameState.set_currentFloor nextFloor s in
    let s := GameState.set_floorTheme floorTheme s in
    let s := GameState.set_isBossFloor isBossFloor s in
    let s := GameState.set_bossDefeated false s in
    let s := GameState.set_worldMap worldMap s in
    let s := GameState.set_worldSize worldSize s in
    (* Generate new enemies *)
    let* s :=
      if isBossFloor then
        let* (regularEnemies, s) := generateRandomEnemies worldMap worldSize s in
        let* bossEnemy := generateBossEnemy worldMap worldSize nextFloor s in
        let enemies := slice0 regularEnemies (3 + nextFloor / 10) in
        ret (GameState.set_enemies
               (match bossEnemy with
                | Some boss => enemies ++ [boss]
                | None => enemies
                end) s)
      else
        let* (enemies, s) := generateRandomEnemies worldMap worldSize s in
        ret (GameState.set_enemies enemies s) in
    (* Clear pickups and generate new ones *)
    let s := GameState.set_pickups [] s in
    let* s := generateRandomPickups s in
    (* Reset game status to playing for the new level *)
    let s := GameState.set_gameStatus Playing s in
    ret (notifyListeners (Manager.set_state s m))
  else ret m.

Definition checkFloorProgression (m : Manager.t) : Manager.t :=
  let s := Manager.state m in
  let aliveBosses :=
    filter (fun enemy => Enemy.isBoss enemy && Qgtb (Enemy.health enemy) 0 = true)
           (GameState.enemies s) in
  let aliveEnemies :=
    filter (fun enemy => Qgtb (Enemy.health enemy) 0 = true) (GameState.enemies s) in
  if GameState.isBossFloor s then
    if (length aliveEnemies =? 0)%nat && (length aliveBosses =? 0)%nat then
      setTimeout CallProgressToNextFloor 2000
        (Manager.set_state (GameState.set_bossDefeated true s) m)
    else m
  else
    if (length aliveEnemies =? 0)%nat then setTimeout CallProgressToNextFloor 1500 m
    else m.

(** *** Construction, reset and the clock *)

Definition createInitialState : Eff GameState.t :=
  let worldSize := 64 in
  let currentFloor := 1 in
  let isBossFloor := Z.rem currentFloor 5 =? 0 in
  let floorTheme := getFloorTheme currentFloor in
  let* worldMap := generateWorldMapWithTheme worldSize floorTheme in
  ret (GameState.mk
         (Player.mk (num (inject_Z worldSize / 2)) (num (inject_Z worldSize / 2)) 0
                    100 (Ammo.mk 50 0 0) 100 (Ammo.mk 200 50 200)
                    Pistol {[ Pistol ]} false 0 false 0)
         [] [] Playing worldMap 0 0 false 1 1 worldSize currentFloor floorTheme
         isBossFloor false).

(** [new GameStateManager()] *)
Definition newManager : Eff Manager.t :=
  let* s := createInitialState in ret (Manager.mk s [] []).

Definition reset (m : Manager.t) : Eff Manager.t :=
  let* s := createInitialState in
  ret (notifyListeners (Manager.set_state s m)).

Definition initializeEnemiesAfterState (s : GameState.t) : Eff GameState.t :=
  let* (enemies, s) :=
    generateRandomEnemies (GameState.worldMap s) (GameState.worldSize s) s in
  ret (GameState.set_enemies enemies s).

Definition updateWithDeltaTime (currentTime : Q) (m : Manager.t) : Eff Manager.t :=
  let s := Manager.state m in
  (* Don't update game state if paused *)
  if GameState.isPaused s then
    ret (Manager.set_state (GameState.set_lastUpdateTime currentTime s) m)
  else if Qeq_bool (GameState.lastUpdateTime s) 0 then
    let s := GameState.set_lastUpdateTime currentTime s in
    (* Initialize enemies on first update *)
    let* s := if (length (GameState.enemies s) =? 0)%nat
              then initializeEnemiesAfterState s else ret s in
    ret (Manager.set_state s m)
  else
    let deltaTime := (currentTime - GameState.lastUpdateTime s)%Q in
    let s := GameState.set_lastUpdateTime currentTime s in
    let s := GameState.set_accumulator (num (GameState.accumulator s + deltaTime)) s in
    let* s := lift (fixedLoop
                      (Z.to_nat (Qfloor (GameState.accumulator s / FIXED_TIMESTEP))) s) in
    ret (notifyListeners (Manager.set_state s m)).

(** *** Player movement *)

Definition updatePlayer (input : MovementInput.t) (m : Manager.t) : Eff Manager.t :=
  let s := Manager.state m in
  if negb (bool_decide (GameState.gameStatus s = Playing)) || GameState.isPaused s
  then ret m
  else
    let moveSpeed := 0.15%Q in
    let rotationSpeed := 0.03%Q in
    let p := GameState.player s in
    let newX := Player.x p in
    let newY := Player.y p in
    (* Rotation *)
    let p := if MovementInput.rotateLeft input
             then Player.set_angle (num (Player.angle p - rotationSpeed)) p else p in
    let p := if MovementInput.rotateRight input
             then Player.set_angle (num (Player.angle p + rotationSpeed)) p else p in
    let angle := Player.angle p in
    (* Movement *)
    let '(newX, newY) :=
      if MovementInput.forward input
      then (newX + Math_cos angle * moveSpeed, newY + Math_sin angle * moveSpeed)%Q
      else (newX, newY) in
    let '(newX, newY) :=
      if MovementInput.backward input
      then (newX - Math_cos angle * moveSpeed, newY - Math_sin angle * moveSpeed)%Q
      else (newX, newY) in
    (* Strafing *)
    let '(newX, newY) :=
      if MovementInput.left input
      then (newX + Math_cos (angle - Math_PI / 2) * moveSpeed,
            newY + Math_sin (angle - Math_PI / 2) * moveSpeed)%Q
      else (newX, newY) in
    let '(newX, newY) :=
      if MovementInput.right input
      then (newX - Math_cos (angle - Math_PI / 2) * moveSpeed,
            newY - Math_sin (angle - Math_PI / 2) * moveSpeed)%Q
      else (newX, newY) in
    (* Collision detection *)
    let* freeX := isFloor (GameState.worldMap s) (Qfloor newY) (Qfloor newX) in
    let p := if freeX then Player.set_x (num newX) p else p in
    let* freeY := isFloor (GameState.worldMap s) (Qfloor newY) (Qfloor (Player.x p)) in
    let p := if freeY then Player.set_y (num newY) p else p in
    ret (notifyListeners (Manager.set_state (GameState.set_player p s) m)).

Definition updateMouseLook (deltaX : Q) (m : Manager.t) : Manager.t :=
  let s := Manager.state m in
  if negb (bool_decide (GameState.gameStatus s = Playing)) || GameState.isPaused s
  then m
  else
    let rotationSpeed := 0.005%Q in
    notifyListeners
      (Manager.with_player
         (fun p => Player.set_angle (num (Player.angle p + deltaX * rotationSpeed)) p) m).

(** *** Enemy AI *)

(** [for (let i = 1; i <= distance; i++)] of [isPathClear], as a scan of
    the steps [i] in order. *)
Fixpoint pathClear (steps : list Z) (startX startY : Q) (directionX directionY : Z)
    (s : GameState.t) : Eff bool :=
  match steps with
  | [] => ret true
  | i :: steps =>
      let checkX := Qfloor (startX + inject_Z directionX * inject_Z i) in
      let checkY := Qfloor (startY + inject_Z directionY * inject_Z i) in
      if (checkX <? 1) || (GameState.worldSize s - 1 <=? checkX) ||
         (checkY <? 1) || (GameState.worldSize s - 1 <=? checkY)
      then ret false
      else
        let* wall := notFloor (GameState.worldMap s) checkY checkX in
        if wall then ret false
        else pathClear steps startX startY directionX directionY s
  end.

Definition isPathClear (startX startY : Q) (directionX directionY distance : Z)
    (s : GameState.t) : Eff bool :=
  pathClear (seqZ 1 distance) startX startY directionX directionY s.

Definition explorationDirections : list (Z * Z) :=
  [(1, 0); (-1, 0); (0, 1); (0, -1); (1, 1); (-1, 1); (1, -1); (-1, -1)].

Definition startEnemyExploration (enemy : Enemy.t) (s : GameState.t) : Eff Enemy.t :=
  let* d := randomInt (Z.of_nat (length explorationDirections)) in
  let* k := randomInt 4 in
  let explorationDistance := 3 + k in
  let* direction := lift (index explorationDirections d) in
  let* clear := isPathClear (Enemy.x enemy) (Enemy.y enemy) direction.1 direction.2
                            explorationDistance s in
  if clear then
    ret (Enemy.set_explorationCooldown (explorationDistance * 30)
           (Enemy.set_explorationDirection (Some direction) enemy))
  else
    let* w := randomInt 180 in
    ret (Enemy.set_explorationCooldown (120 + w) enemy).

Definition continueEnemyExploration (enemy : Enemy.t) (baseSpeed : Q) (s : GameState.t)
  : Eff Enemy.t :=
  match Enemy.explorationDirection enemy with
  | None => ret enemy
  | Some direction =>
      let explorationSpeed := (baseSpeed * 0.7)%Q in
      let newX := (Enemy.x enemy + inject_Z direction.1 * explorationSpeed)%Q in
      let newY := (Enemy.y enemy + inject_Z direction.2 * explorationSpeed)%Q in
      let* free := isFloor (GameState.worldMap s) (Qfloor newY) (Qfloor newX) in
      let* enemy :=
        if free then ret (Enemy.set_y (num newY) (Enemy.set_x (num newX) enemy))
        else
          let* w := randomInt 240 in
          ret (Enemy.set_explorationCooldown (180 + w)
                 (Enemy.set_explorationDirection None enemy)) in
      if Enemy.explorationCooldown enemy <=? 0 then
        let* w := randomInt 360 in
        ret (Enemy.set_explorationCooldown (240 + w)
               (Enemy.set_explorationDirection None enemy))
      else ret enemy
  end.

Definition checkBossPhaseTransition (boss : Enemy.t) : Enemy.t :=
  if negb (Enemy.isBoss boss) || (length (Enemy.phaseTransitions boss) =? 0)%nat
  then boss
  else
    match index (Enemy.phaseTransitions boss) (Enemy.currentPhase boss) with
    | Some nextThreshold =>
        if negb (Qeq_bool nextThreshold 0) && Qleb (Enemy.health boss) nextThreshold then
          let boss := Enemy.set_currentPhase (Enemy.currentPhase boss + 1) boss in
          match Enemy.enemyType boss with
          | BossDemon => Enemy.set_spawnCooldown 60 boss
          | BossCyberdemon =>
              Enemy.set_attackCooldown (Z.max 10 (Enemy.attackCooldown boss - 20)) boss
          | BossSpiderMastermind =>
              Enemy.set_spawnsRemaining (Enemy.spawnsRemaining boss + 2)
                (Enemy.set_spawnCooldown 30 boss)
          | _ => boss
          end
        else boss
    | None => boss
    end.

Definition minionKind (bossType : EnemyType) : Eff (EnemyType * Q) :=
  match bossType with
  | BossDemon =>
      let* g := chance 0.7 in ret (if g then (Grunt, 25%Q) else (Soldier, 35%Q))
  | BossCyberdemon =>
      let* g := chance 0.5 in ret (if g then (Soldier, 40%Q) else (Captain, 55%Q))
  | BossSpiderMastermind =>
      let* g := chance 0.3 in
      if g then ret (Grunt, 30%Q)
      else let* g := chance 0.6 in ret (if g then (Soldier, 45%Q) else (Captain, 60%Q))
  | _ => ret (Grunt, 25%Q)
  end.

(** The loop of [spawnBossMinion]; [n] counts the attempts left of the 20.
    The minion takes [nextEnemyId], which is then incremented. *)
Fixpoint placeMinion (n : nat) (boss : Enemy.t) (s : GameState.t)
  : Eff (Enemy.t * GameState.t) :=
  match n with
  | O => ret (boss, s)
  | S n' =>
      let* u := random in
      let spawnRadius := (3 + u * 4)%Q in
      let* v := random in
      let spawnAngle := (v * Math_PI * 2)%Q in
      let spawnX := (Enemy.x boss + Math_cos spawnAngle * spawnRadius)%Q in
      let spawnY := (Enemy.y boss + Math_sin spawnAngle * spawnRadius)%Q in
      let mapX := Qfloor spawnX in
      let mapY := Qfloor spawnY in
      let p := GameState.player s in
      let* free :=
        if (0 <=? mapX) && (mapX <? GameState.worldSize s) &&
           (0 <=? mapY) && (mapY <? GameState.worldSize s)
        then isFloor (GameState.worldMap s) mapY mapX else ret false in
      if free && Qgtb (distance spawnX spawnY (Player.x p) (Player.y p)) 4 then
        let* (minionType, minionHealth) := minionKind (Enemy.enemyType boss) in
        let id := GameState.nextEnemyId s in
        let s := GameState.set_nextEnemyId (id + 1) s in
        let minion :=
          Enemy.mk id (num spawnX) (num spawnY) minionHealth minionHealth Chasing
                   (Player.x p) (Player.y p) 0 None minionType 0 None false 0 0 [] 0
                   false 0 in
        let s := GameState.set_enemies (GameState.enemies s ++ [minion]) s in
        let boss := Enemy.set_spawnsRemaining (Enemy.spawnsRemaining boss - 1) boss in
        let* w := random in
        let boss := Enemy.set_spawnCooldown (num (120 + w * 180)) boss in
        ret (boss, s)
      else placeMinion n' boss s
  end.

Definition spawnBossMinion (boss : Enemy.t) (s : GameState.t)
  : Eff (Enemy.t * GameState.t) :=
  if Enemy.spawnsRemaining boss <=? 0 then ret (boss, s)
  else placeMinion 20 boss s.

Definition detectionRangeOf (enemy : Enemy.t) : Q :=
  if Enemy.isBoss enemy then 25
  else match Enemy.enemyType enemy with Captain => 12 | Soldier => 10 | _ => 8 end.

Definition moveSpeedOf (enemy : Enemy.t) : Q :=
  if Enemy.isBoss enemy then 0.045
  else match Enemy.enemyType enemy with
       | Captain => 0.035 | Soldier => 0.03 | _ => 0.025
       end.

(** A move of [step] towards [(tx, ty)], taken when the target is farther
    than 0.1 and the cell entered is free. *)
Definition stepTowards (enemy : Enemy.t) (tx ty step : Q) (s : GameState.t)
  : Eff (option Enemy.t) :=
  let dx := (tx - Enemy.x enemy)%Q in
  let dy := (ty - Enemy.y enemy)%Q in
  let dist := Math_sqrt (dx * dx + dy * dy) in
  if Qgtb dist 0.1 then
    let newX := (Enemy.x enemy + dx / dist * step)%Q in
    let newY := (Enemy.y enemy + dy / dist * step)%Q in
    let* free := isFloor (GameState.worldMap s) (Qfloor newY) (Qfloor newX) in
    ret (Some (if free then Enemy.set_y (num newY) (Enemy.set_x (num newX) enemy)
               else enemy))
  else ret None.

Definition sightPlayer (enemy : Enemy.t) (p : Player.t) : Enemy.t :=
  Enemy.set_lastPlayerY (Player.y p) (Enemy.set_lastPlayerX (Player.x p) enemy).

(** The body of the [forEach] of [updateEnemies] for the enemy at index [i]. *)
Definition updateEnemy (castRay : Q -> Q -> Q -> Q) (i : nat) (s : GameState.t)
  : Eff GameState.t :=
  match GameState.enemies s !! i with
  | None => ret s
  | Some enemy =>
      let p := GameState.player s in
      let distanceToPlayer :=
        distance (Enemy.x enemy) (Enemy.y enemy) (Player.x p) (Player.y p) in
      (* Update attack cooldown *)
      let enemy := if 0 <? Enemy.attackCooldown enemy
                   then Enemy.set_attackCooldown (Enemy.attackCooldown enemy - 1) enemy
                   else enemy in
      (* Update exploration cooldown *)
      let enemy := if 0 <? Enemy.explorationCooldown enemy
                   then Enemy.set_explorationCooldown
                          (Enemy.explorationCooldown enemy - 1) enemy
                   else enemy in
      (* Update hurt flash timer *)
      let enemy :=
        if 0 <? Enemy.hurtTimer enemy then
          let enemy := Enemy.set_hurtTimer (Enemy.hurtTimer enemy - 1) enemy in
          if Enemy.hurtTimer enemy =? 0 then Enemy.set_isHurt false enemy else enemy
        else enemy in
      (* Update boss-specific properties *)
      let* (enemy, s) :=
        if Enemy.isBoss enemy then
          let enemy := if Qgtb (Enemy.spawnCooldown enemy) 0
                       then Enemy.set_spawnCooldown (num (Enemy.spawnCooldown enemy - 1)) enemy
                       else enemy in
          let enemy := checkBossPhaseTransition enemy in
          if (0 <? Enemy.spawnsRemaining enemy) && Qleb (Enemy.spawnCooldown enemy) 0 &&
             Qltb distanceToPlayer 20 && Qgtb distanceToPlayer 8
          then spawnBossMinion enemy s
          else ret (enemy, s)
        else ret (enemy, s) in
      (* Line of sight check *)
      let angleToPlayer :=
        Math_atan2 (Player.y p - Enemy.y enemy) (Player.x p - Enemy.x enemy) in
      let hit := castRay (Enemy.x enemy) (Enemy.y enemy) angleToPlayer in
      let canSeePlayer := Qgtb hit distanceToPlayer in
      let detectionRange := detectionRangeOf enemy in
      let moveSpeed := moveSpeedOf enemy in
      let* (enemy, s) :=
        match Enemy.state enemy with
        | Idle =>
            if canSeePlayer && Qltb distanceToPlayer detectionRange then
              ret (sightPlayer (Enemy.set_state Chasing enemy) p, s)
            else if Enemy.explorationCooldown enemy <=? 0 then
              let* enemy := startEnemyExploration enemy s in ret (enemy, s)
            else
              let* patrol := chance 0.001 in
              if patrol then
                let* u := random in
                let* v := random in
                ret (Enemy.set_patrolTarget
                       (Some (num (Enemy.x enemy + (u - 0.5) * 6),
                              num (Enemy.y enemy + (v - 0.5) * 6)))
                       (Enemy.set_state Patrolling enemy), s)
              else ret (enemy, s)
        | Patrolling =>
            if canSeePlayer && Qltb distanceToPlayer detectionRange then
              ret (sightPlayer (Enemy.set_state Chasing enemy) p, s)
            else if Enemy.explorationCooldown enemy <=? 0 then
              let* enemy := startEnemyExploration enemy s in ret (enemy, s)
            else
              match Enemy.patrolTarget enemy with
              | Some target =>
                  let* moved := stepTowards enemy target.1 target.2 moveSpeed s in
                  match moved with
                  | Some enemy => ret (enemy, s)
                  | None =>
                      ret (Enemy.set_patrolTarget None (Enemy.set_state Idle enemy), s)
                  end
              | None => ret (enemy, s)
              end
        | Chasing =>
            let enemy := if canSeePlayer then sightPlayer enemy p else enemy in
            if Qltb distanceToPlayer 1.5 then ret (Enemy.set_state Attacking enemy, s)
            else
              let* moved :=
                stepTowards enemy (Enemy.lastPlayerX enemy) (Enemy.lastPlayerY enemy)
                            (moveSpeed * 1.5) s in
              let enemy := default enemy moved in
              if negb canSeePlayer && Qgtb distanceToPlayer 10
              then ret (Enemy.set_state Idle enemy, s)
              else ret (enemy, s)
        | Attacking =>
            if Qgtb distanceToPlayer 2.5 then ret (Enemy.set_state Chasing enemy, s)
            else if Enemy.attackCooldown enemy =? 0 then
              let damage :=
                match Enemy.enemyType enemy with
                | Captain => 15 | Soldier => 12 | _ => 10
                end in
              let p := GameState.player s in
              let s := GameState.set_player
                         (Player.set_health (Player.health p - damage) p) s in
              let cooldown :=
                match Enemy.enemyType enemy with Captain => 45 | _ => 60 end in
              ret (Enemy.set_attackCooldown cooldown enemy, s)
            else ret (enemy, s)
        | Spawning => ret (enemy, s)
        end in
      (* Handle exploration movement *)
      let* enemy :=
        match Enemy.explorationDirection enemy, Enemy.state enemy with
        | Some _, Idle | Some _, Patrolling => continueEnemyExploration enemy moveSpeed s
        | _, _ => ret enemy
        end in
      ret (GameState.set_enemies (<[i := enemy]> (GameState.enemies s)) s)
  end.

(** [this.state.enemies.forEach(...)]: the indices visited are those of the
    array when the loop starts; minions pushed by a boss are not visited. *)
Definition updateEnemies (castRay : Q -> Q -> Q -> Q) (m : Manager.t) : Eff Manager.t :=
  let s := Manager.state m in
  if negb (bool_decide (GameState.gameStatus s = Playing)) || GameState.isPaused s
  then ret m
  else
    let* s := foldM (updateEnemy castRay) (seq 0 (length (GameState.enemies s))) s in
    ret (notifyListeners (Manager.set_state s m)).

(** *** Combat *)

Definition findEnemyIndex (enemyId : Z) (enemies : list Enemy.t) : option (nat * Enemy.t) :=
  list_find (fun e => Enemy.id e = enemyId) enemies.

Definition damageEnemy (enemyId : Z) (damage : Q) (m : Manager.t)
  : Eff (bool * Manager.t) :=
  let s := Manager.state m in
  match findEnemyIndex enemyId (GameState.enemies s) with
  | None => ret (false, m)
  | Some (i, enemy) =>
      let enemy := Enemy.set_health (num (Enemy.health enemy - damage)) enemy in
      (* Set hurt flash effect for 5 frames *)
      let enemy := Enemy.set_isHurt true enemy in
      let enemy := Enemy.set_hurtTimer 5 enemy in
      let s := GameState.set_enemies (<[i := enemy]> (GameState.enemies s)) s in
      let* m :=
        if Qleb (Enemy.health enemy) 0 then
          (* Spawn pickups when enemy dies *)
          let* s := spawnEnemyDrops (Enemy.x enemy) (Enemy.y enemy)
                                    (Enemy.enemyType enemy) s in
          let s :=
            match findEnemyIndex enemyId (GameState.enemies s) with
            | Some (index, _) => GameState.set_enemies (delete index (GameState.enemies s)) s
            | None => s
            end in
          (* Check if floor should progress after enemy death *)
          ret (setTimeout CallCheckFloorProgression 100 (Manager.set_state s m))
        else ret (Manager.set_state s m) in
      ret (true, notifyListeners m)
  end.

(** A pending [setTimeout] callback runs. *)
Definition runCallback (c : Callback) (m : Manager.t) : Eff Manager.t :=
  match c with
  | CallCheckFloorProgression => ret (checkFloorProgression m)
  | CallProgressToNextFloor => progressToNextFloor m
  end.

Definition fireTimer (i : nat) (m : Manager.t) : Eff Manager.t :=
  match Manager.timers m !! i with
  | Some (_, c) =>
      runCallback c (Manager.mk (Manager.state m) (Manager.published m)
                                (delete i (Manager.timers m)))
  | None => ret m
  end.

End Game.

(** ** Public operations and reachable states *)

Section Reachability.
Context `{HostMath}.

(** The public methods of [GameStateManager] that change it, with their
    arguments, and the firing of a pending timer. *)
Inductive Op :=
| OpUpdateWithDeltaTime (currentTime : Q)
| OpUpdatePlayer (input : MovementInput.t)
| OpUpdateMouseLook (deltaX : Q)
| OpShoot
| OpUpdateEnemies (castRayFunction : Q -> Q -> Q -> Q)
| OpDamageEnemy (enemyId : Z) (damage : Q)
| OpSwitchWeapon (weapon : Weapon)
| OpPause
| OpResume
| OpTogglePause
| OpProgressToNextFloor
| OpCheckFloorProgression
| OpReset
| OpFireTimer (i : nat).

Definition perform (op : Op) (m : Manager.t) : Eff Manager.t :=
  match op with
  | OpUpdateWithDeltaTime currentTime => updateWithDeltaTime currentTime m
  | OpUpdatePlayer input => updatePlayer input m
  | OpUpdateMouseLook deltaX => ret (updateMouseLook deltaX m)
  | OpShoot => ret (shoot m).2
  | OpUpdateEnemies castRayFunction => updateEnemies castRayFunction m
  | OpDamageEnemy enemyId damage =>
      let* res := damageEnemy enemyId damage m in ret res.2
  | OpSwitchWeapon weapon => ret (switchWeapon weapon m).2
  | OpPause => ret (pause m)
  | OpResume => ret (resume m)
  | OpTogglePause => ret (togglePause m)
  | OpProgressToNextFloor => progressToNextFloor m
  | OpCheckFloorProgression => ret (checkFloorProgression m)
  | OpReset => reset m
  | OpFireTimer i => fireTimer i m
  end.

(** The managers a program can hold: a fresh one, or one obtained from a
    reachable one by a call that returns.  Each call comes with the values
    [Math.random] returns during it. *)
Inductive Reachable : Manager.t -> Prop :=
| reach_new r m k :
    valid_rand r -> newManager r 0%nat = Some (m, k) -> Reachable m
| reach_call op r m m' k :
    Reachable m -> valid_rand r -> perform op m r 0%nat = Some (m', k) -> Reachable m'.

(** Running a script of calls; a call that raises ends the script. *)
Fixpoint runCalls (calls : list (Op * Rand)) (m : Manager.t) : option Manager.t :=
  match calls with
  | [] => Some m
  | (op, r) :: calls =>
      match perform op m r 0%nat with
      | Some (m', _) => runCalls calls m'
      | None => None
      end
  end.

Definition runFrom (r0 : Rand) (calls : list (Op * Rand)) : option Manager.t :=
  match newManager r0 0%nat with
  | Some (m, _) => runCalls calls m
  | None => None
  end.

End Reachability.

(** ** A host for evaluation

    Rational approximations of the host functions, exact on squares of
    rationals and at angle 0; they serve to run the model on concrete
    inputs.  No general theorem below depends on them. *)

Definition roundQ (q : Q) : Q :=
  Qred (Qfloor (q * inject_Z (2 ^ 60)) # Z.to_pos (2 ^ 60)).

Definition sqrt_approx (q : Q) : Q :=
  if Qle_bool q 0 then 0%Q
  else Qred (Z.sqrt (Qnum q * Zpos (Qden q) * 4 ^ 60)
               # Z.to_pos (Zpos (Qden q) * 2 ^ 60)).

(** [acc + term_0 + ... + term_(n-1)] with [term_(k+1) = term_k * step k] *)
Fixpoint series (n : nat) (k : Z) (term acc : Q) (step : Z -> Q) : Q :=
  match n with
  | O => acc
  | S n' => series n' (k + 1) (roundQ (term * step k)) (acc + term)%Q step
  end.

Definition reduce_angle (x : Q) : Q :=
  let twoPi := (2 * Math_PI)%Q in
  (x - inject_Z (Qfloor ((x + Math_PI) / twoPi)) * twoPi)%Q.

Definition cos_approx (x : Q) : Q :=
  let y := reduce_angle x in
  roundQ (series 16 0 1%Q 0%Q
            (fun k => - (y * y) / inject_Z ((2 * k + 1) * (2 * k + 2)))%Q).

Definition sin_approx (x : Q) : Q :=
  let y := reduce_angle x in
  roundQ (series 16 0 y 0%Q
            (fun k => - (y * y) / inject_Z ((2 * k + 2) * (2 * k + 3)))%Q).

(** [u - u^3/3 + u^5/5 - ...], [n] terms from the [k]-th *)
Fixpoint atan_series (n : nat) (k : Z) (u pow acc : Q) : Q :=
  match n with
  | O => acc
  | S n' =>
      atan_series n' (k + 1) u (roundQ (- pow * u * u)) (acc + pow / inject_Z (2 * k + 1))%Q
  end.

Definition halve_tan (t : Q) : Q := (t / (1 + sqrt_approx (1 + t * t)))%Q.

Definition atan_unit (t : Q) : Q :=
  let u := halve_tan (halve_tan t) in (4 * atan_series 24 0 u u 0)%Q.

Definition atan_approx (t : Q) : Q :=
  if Qle_bool (Qabs t) 1 then atan_unit t
  else if Qle_bool 0 t then (Math_PI / 2 - atan_unit (/ t))%Q
  else (- (Math_PI / 2) - atan_unit (/ t))%Q.

Definition atan2_approx (y x : Q) : Q :=
  roundQ (
    if Qle_bool x 0 then
      if Qle_bool 0 x then
        if Qle_bool y 0 then (if Qle_bool 0 y then 0 else - (Math_PI / 2))%Q
        else (Math_PI / 2)%Q
      else if Qle_bool 0 y then (atan_approx (y / x) + Math_PI)%Q
      else (atan_approx (y / x) - Math_PI)%Q
    else atan_approx (y / x)).

Definition approxMath : HostMath :=
  {| Math_sqrt := sqrt_approx; Math_cos := cos_approx; Math_sin := sin_approx;
     Math_atan2 := atan2_approx |}.

(** A [Math.random] stream that returns [d] except at the listed calls. *)
Definition streamOf (d : Q) (l : list (nat * Q)) : Rand :=
  fun i => match List.find (fun p => Nat.eqb p.1 i) l with
           | Some p => p.2
           | None => d
           end.

(** ** Connectivity of a grid *)

(** Cells are [(x, y)]; a cell is passable when the grid holds 0 there. *)
Definition passable (g : Grid) (c : Z * Z) : Prop := read2 g c.2 c.1 = Some (Some 0).

Definition adjacent (c d : Z * Z) : Prop :=
  (d.1 = c.1 /\ (d.2 = c.2 + 1 \/ d.2 = c.2 - 1)) \/
  (d.2 = c.2 /\ (d.1 = c.1 + 1 \/ d.1 = c.1 - 1)).

(** [connectedTo g start c]: [c] is reached from [start] by steps between
    4-adjacent cells, each step entering a passable cell. *)
Inductive connectedTo (g : Grid) (start : Z * Z) : Z * Z -> Prop :=
| connected_start : connectedTo g start start
| connected_step c d :
    connectedTo g start c -> adjacent c d -> passable g d -> connectedTo g start d.

(** The property the generator is meant to establish. *)
Definition fullyConnected (g : Grid) (size : Z) : Prop :=
  forall c, passable g c -> connectedTo g (size / 2, size / 2) c.

(** A [Math.random] sequence for one call of the generator: 1/2 throughout,
    except that the first five pillars land on (10,32), (9,32), (11,32),
    (10,31) and (10,33), and that the emergency pass clears column 10 of
    the middle row. *)
Definition isolatingStream : Rand :=
  streamOf (1 # 2)
    [ (1959%nat, 15 # 116); (1962%nat, 13 # 116); (1965%nat, 17 # 116);
      (1968%nat, 15 # 116); (1969%nat, 57 # 116);
      (1971%nat, 15 # 116); (1972%nat, 61 # 116);
      (2070%nat, 1 # 10) ]%Q.

(** ** Specifications of computations *)

(** [total c Q]: whatever [Math.random] returns, [c] returns normally and its
    result satisfies [Q]. *)
Definition total {A} (c : Eff A) (Q : A -> Prop) : Prop :=
  forall r k, valid_rand r -> exists a k', c r k = Some (a, k') /\ Q a.

(** [post c Q]: every result [c] returns satisfies [Q]. *)
Definition post {A} (c : Eff A) (Q : A -> Prop) : Prop :=
  forall r k a k', valid_rand r -> c r k = Some (a, k') -> Q a.

(** A [size] by [size] array of arrays. *)
Definition wfGrid {A} (size : Z) (g : list (list A)) : Prop :=
  Z.of_nat (length g) = size /\
  Forall (fun row => Z.of_nat (length row) = size) g.

(** A room that lies inside the grid. *)
Definition roomFits (size : Z) (room : Room.t) : Prop :=
  0 <= Room.x room /\ 0 <= Room.y room /\
  3 <= Room.width room /\ 3 <= Room.height room /\
  Room.x room + Room.width room <= size /\ Room.y room + Room.height room <= size.

(** The cells of a [visited] array still [false]. *)
Fixpoint countFalse (row : list bool) : nat :=
  match row with
  | [] => 0
  | b :: row => (if b then 0 else 1) + countFalse row
  end.

Fixpoint unvisited (v : Visited) : nat :=
  match v with
  | [] => 0
  | row :: v => countFalse row + unvisited v
  end.

(** A cell strictly inside the border. *)
Definition interior (size : Z) (c : Z * Z) : Prop :=
  1 <= c.1 < size - 1 /\ 1 <= c.2 < size - 1.

(** ** Invariants of the game state *)

Definition enemyAlive (e : Enemy.t) : Prop := (0 < Enemy.health e)%Q.

Definition pickupSound (p : Pickup.t) : Prop := 0 <= Pickup.value p.

(** The bounds on health and ammunition that the code maintains: both have
    their upper bound, ammunition is never negative. *)
Definition playerBounded (p : Player.t) : Prop :=
  Player.health p <= Player.maxHealth p /\
  forall w, 0 <= ammoOf (Player.ammo p) w <= ammoOf (Player.maxAmmo p) w.

Definition stateInv (s : GameState.t) : Prop :=
  playerBounded (GameState.player s) /\
  Forall enemyAlive (GameState.enemies s) /\
  Forall pickupSound (GameState.pickups s) /\
  1 <= GameState.currentFloor s /\
  64 <= GameState.worldSize s /\
  wfGrid (GameState.worldSize s) (GameState.worldMap s) /\
  GameState.worldSize s = Z.min (64 + GameState.currentFloor s / 5 * 8) 96.

Definition managerInv (m : Manager.t) : Prop :=
  stateInv (Manager.state m) /\
  Forall (fun s => Forall enemyAlive (GameState.enemies s)) (Manager.published m).

(** [s'] is [s] up to the pickups and the pickup counter. *)
Definition pickupsChanged (s s' : GameState.t) : Prop :=
  exists ps n, s' = GameState.set_pickups ps (GameState.set_nextPickupId n s).

(** [s'] is [s] up to the enemy counter. *)
Definition enemyIdChanged (s s' : GameState.t) : Prop :=
  exists n, s' = GameState.set_nextEnemyId n s.

(** What [progressToNextFloor] does to a manager when it advances. *)
Definition advanced (m m' : Manager.t) : Prop :=
  let s := Manager.state m in
  let s' := Manager.state m' in
  let p := GameState.player s in
  let p' := GameState.player s' in
  let nextFloor := GameState.currentFloor s + 1 in
  GameState.currentFloor s' = nextFloor /\
  GameState.worldSize s' = Z.min (64 + nextFloor / 5 * 8) 96 /\
  wfGrid (GameState.worldSize s') (GameState.worldMap s') /\
  GameState.floorTheme s' = getFloorTheme nextFloor /\
  GameState.isBossFloor s' = (Z.rem nextFloor 5 =? 0) /\
  GameState.bossDefeated s' = false /\
  GameState.gameStatus s' = Playing /\
  Player.health p' = Z.min (Player.maxHealth p) (Player.health p + 25) /\
  Ammo.pistol (Player.ammo p') =
    Z.min (Ammo.pistol (Player.maxAmmo p)) (Ammo.pistol (Player.ammo p) + 20) /\
  Ammo.shotgun (Player.ammo p') =
    Z.min (Ammo.shotgun (Player.maxAmmo p)) (Ammo.shotgun (Player.ammo p) + 10) /\
  Ammo.chaingun (Player.ammo p') =
    Z.min (Ammo.chaingun (Player.maxAmmo p)) (Ammo.chaingun (Player.ammo p) + 30) /\
  Player.maxHealth p' = Player.maxHealth p /\
  Player.maxAmmo p' = Player.maxAmmo p /\
  Player.weapon p' = Player.weapon p /\
  Player.availableWeapons p' = Player.availableWeapons p /\
  Forall enemyAlive (GameState.enemies s') /\
  Forall pickupSound (GameState.pickups s') /\
  Manager.published m' = s' :: Manager.published m /\
  Manager.timers m' = Manager.timers m.

(** ** Concrete runs

    Scripts of public calls, each with the values [Math.random] returns
    during the call, run on the evaluation host. *)

Definition returns {A} (o : option A) : bool :=
  match o with Some _ => true | None => false end.

(** Constant [Math.random] streams. *)
Definition quarter : Rand := streamOf (1 # 4) [].
Definition half : Rand := streamOf (1 # 2) [].

(** The ray caster handed to [updateEnemies]: it reports the next wall at
    distance 1000 in every direction, as on an open map. *)
Definition sees : Q -> Q -> Q -> Q := fun _ _ _ => 1000%Q.

(** A fresh manager whose generator drew 1/4 at every call: an open map
    with one small room. *)
Definition freshManager : option Manager.t :=
  match newManager (H := approxMath) quarter 0%nat with
  | Some (m, _) => Some m
  | None => None
  end.

(** The first tick places one soldier at (38, 32), six cells east of the
    player; every other attempt falls on the spawn cell and is rejected. *)
Definition firstEnemyStream : Rand := streamOf (1 # 2) [(1%nat, (3 # 5)%Q)].

(** One frame of the game loop at 17 ms per frame. *)
Definition frame (k : Z) : list (Op * Rand) :=
  [ (OpUpdateWithDeltaTime (inject_Z (1 + 17 * k)), half);
    (OpUpdateEnemies sees, half) ].

Definition frames (n : Z) : list (Op * Rand) :=
  (OpUpdateWithDeltaTime 1, firstEnemyStream) :: (seqZ 1 n ≫= frame).

(** Generation of floor 5 (size 72): as [quarter], except that the boss
    lands on (52, 36), sixteen cells east of the player. *)
Definition bossFloorStream : Rand :=
  streamOf (1 # 4) [(2087%nat, (47 # 62)%Q); (2088%nat, (1 # 2)%Q)].

(** Four progressions from a fresh manager, whose enemy list is still empty:
    floors 2, 3 and 4 stay empty, floor 5 holds the boss alone. *)
Definition toBossFloor : list (Op * Rand) :=
  [ (OpProgressToNextFloor, quarter); (OpProgressToNextFloor, quarter);
    (OpProgressToNextFloor, quarter); (OpProgressToNextFloor, bossFloorStream) ].

(** One enemy update on floor 5: the boss spawns its first minion. *)
Definition bossSpawnsMinion : list (Op * Rand) :=
  toBossFloor ++ [(OpUpdateEnemies sees, quarter)].

(** The boss of floor 5 is killed by one hit. *)
Definition bossKilled : list (Op * Rand) :=
  toBossFloor ++ [(OpDamageEnemy 1 1000, quarter)].

(** ... and the timer it starts runs: [checkFloorProgression] sets the
    boss-defeated flag. *)
Definition bossFloorCleared : list (Op * Rand) :=
  bossKilled ++ [(OpFireTimer 0, quarter)].




(** A small manager to instantiate statements: floor 5 with one grunt,
    whose id is 7. *)
Definition demoEnemy : Enemy.t :=
  Enemy.mk 7 3 3 30 30 Idle 0 0 0 None Grunt 90 None false 0 0 [] 0 false 0.

Definition demoManager : Manager.t :=
  Manager.mk
    (GameState.mk
       (Player.mk 2 2 0 80 (Ammo.mk 50 0 0) 100 (Ammo.mk 200 50 200)
                  Pistol {[ Pistol ]} false 0 false 0)
       [demoEnemy] [] Playing
       (replicate 5 (replicate 5 0)) 1 0 false 1 8 5 5 "tech_base" true false)
    [] [].

(** The same with the enemy gone. *)
Definition clearedManager : Manager.t :=
  Manager.set_state (GameState.set_enemies [] (Manager.state demoManager)) demoManager.

(** ** Further definitions *)

(** ** Shape of a generated grid *)

(** The 3 by 3 block around the spawn cell is passable. *)
Definition spawnClear (size : Z) (g : Grid) : Prop :=
  forall dx dy, -1 <= dx <= 1 -> -1 <= dy <= 1 ->
    passable g (size / 2 + dx, size / 2 + dy).

(** A cell of the outermost rows and columns. *)
Definition onBorder (size : Z) (c : Z * Z) : Prop :=
  0 <= c.1 < size /\ 0 <= c.2 < size /\
  (c.1 = 0 \/ c.1 = size - 1 \/ c.2 = 0 \/ c.2 = size - 1).

(** Every border cell holds the wall type [border]. *)
Definition borderSolid (size border : Z) (g : Grid) : Prop :=
  forall c, onBorder size c -> read2 g c.2 c.1 = Some (Some border).

(** [g'] has the border cells of [g]. *)
Definition sameBorder (size : Z) (g g' : Grid) : Prop :=
  forall c, onBorder size c -> read2 g' c.2 c.1 = read2 g c.2 c.1.

(** The cells of [g] that hold [v] hold it in [g'] too. *)
Definition keeps (v : Z) (g g' : Grid) : Prop :=
  forall y x, read2 g y x = Some (Some v) -> read2 g' y x = Some (Some v).

(** A room that lies strictly inside the border. *)
Definition roomInside (size : Z) (room : Room.t) : Prop :=
  1 <= Room.x room /\ 1 <= Room.y room /\
  3 <= Room.width room /\ 3 <= Room.height room /\
  Room.x room + Room.width room <= size - 1 /\
  Room.y room + Room.height room <= size - 1.

(** ** Frames and further invariants of the game state *)

(** [s'] is [s] with the pickups [new] appended, their ids taken in order
    from the pickup counter. *)
Definition pickupsAppended (s s' : GameState.t) (new : list Pickup.t) : Prop :=
  s' = GameState.set_pickups (GameState.pickups s ++ new)
         (GameState.set_nextPickupId
            (GameState.nextPickupId s + Z.of_nat (length new)) s) /\
  Pickup.id <$> new = seqZ (GameState.nextPickupId s) (Z.of_nat (length new)).

Definition isBossType (t : EnemyType) : bool :=
  match t with
  | BossDemon | BossCyberdemon | BossSpiderMastermind => true
  | _ => false
  end.

(** What a dropped pickup can be: its kind with the range of its value. *)
Definition dropSound (p : Pickup.t) : Prop :=
  match Pickup.type p with
  | HealthPickup => 15 <= Pickup.value p <= 40 /\ Pickup.weaponType p = None
  | AmmoPickup => 8 <= Pickup.value p <= 25 /\ Pickup.weaponType p = None
  | WeaponPickup =>
      (Pickup.weaponType p = Some Shotgun /\ Pickup.value p = 12) \/
      (Pickup.weaponType p = Some Chaingun /\ Pickup.value p = 30)
  end.

(** The cell the player stands in. *)
Definition playerCell (s : GameState.t) : Z * Z :=
  (Qfloor (Player.x (GameState.player s)), Qfloor (Player.y (GameState.player s))).

Definition playerOnFloor (s : GameState.t) : Prop :=
  passable (GameState.worldMap s) (playerCell s).

(** The current weapon is one the player has, and the pistol is never lost. *)
Definition weaponOwned (p : Player.t) : Prop :=
  Player.weapon p ∈ Player.availableWeapons p /\ Pistol ∈ Player.availableWeapons p.

(** Pickup ids are distinct and below the pickup counter. *)
Definition pickupIdsFresh (s : GameState.t) : Prop :=
  NoDup (Pickup.id <$> GameState.pickups s) /\
  Forall (fun p => Pickup.id p < GameState.nextPickupId s) (GameState.pickups s).

(** Enemy ids are at most the enemy counter, which is positive. *)
Definition enemyIdsBounded (s : GameState.t) : Prop :=
  1 <= GameState.nextEnemyId s /\
  Forall (fun e => Enemy.id e <= GameState.nextEnemyId s) (GameState.enemies s).

Definition soundState (s : GameState.t) : Prop :=
  playerOnFloor s /\ weaponOwned (GameState.player s) /\
  pickupIdsFresh s /\ enemyIdsBounded s.

(** [e'] is the enemy [e] as far as its identity and health go. *)
Definition sameEnemy (e e' : Enemy.t) : Prop :=
  Enemy.id e' = Enemy.id e /\ Enemy.health e' = Enemy.health e /\
  Enemy.maxHealth e' = Enemy.maxHealth e /\ Enemy.enemyType e' = Enemy.enemyType e /\
  Enemy.isBoss e' = Enemy.isBoss e.

(** What an enemy update can do to the state: the enemies are the same
    ones, possibly followed by new ones whose ids come from the enemy
    counter; the player's health has not gone up; nothing else has changed. *)
Definition enemiesUpdated (s s' : GameState.t) : Prop :=
  s' = GameState.set_enemies (GameState.enemies s')
         (GameState.set_nextEnemyId (GameState.nextEnemyId s')
            (GameState.set_player
               (Player.set_health (Player.health (GameState.player s'))
                                  (GameState.player s))
               s)) /\
  Player.health (GameState.player s') <= Player.health (GameState.player s) /\
  GameState.nextEnemyId s <= GameState.nextEnemyId s' /\
  exists old new,
    GameState.enemies s' = old ++ new /\
    Forall2 sameEnemy (GameState.enemies s) old /\
    Forall (fun e => GameState.nextEnemyId s <= Enemy.id e < GameState.nextEnemyId s') new.

(** The state [s] after the enemy at index [i] has had its turn: that enemy
    is [e'], [newm] holds the minion it spawned, if any, [n'] is the enemy
    counter and [d] the damage dealt to the player. *)
Definition afterTurn (s : GameState.t) (i : nat) (e' : Enemy.t) (newm : list Enemy.t)
    (n' d : Z) : GameState.t :=
  GameState.set_enemies (<[i := e']> (GameState.enemies s) ++ newm)
    (GameState.set_nextEnemyId n'
       (GameState.set_player
          (Player.set_health (Player.health (GameState.player s) - d)
                             (GameState.player s)) s)).

(** At most one minion is spawned in a turn; it takes the enemy counter as
    its id and the counter moves on. *)
Definition minionSpawned (s : GameState.t) (newm : list Enemy.t) (n' : Z) : Prop :=
  (newm = [] /\ n' = GameState.nextEnemyId s) \/
  (exists minion, newm = [minion] /\ Enemy.id minion = GameState.nextEnemyId s /\
                  Enemy.isBoss minion = false /\
                  n' = GameState.nextEnemyId s + 1).


(** The cell [c] is marked in the array of the flood fill. *)
Definition visitedAt (v : Visited) (c : Z * Z) : Prop :=
  read2 v c.2 c.1 = Some (Some true).

(** What the visit of one cell does to the marks and the queue. *)
Definition floodStep (map : Grid) (cx cy : Z) (st st' : Visited * list (Z * Z)) : Prop :=
  exists added,
    st'.2 = st.2 ++ added /\
    (forall c, visitedAt st.1 c -> visitedAt st'.1 c) /\
    (forall c, visitedAt st'.1 c -> visitedAt st.1 c \/ c ∈ added) /\
    (forall c, c ∈ added -> visitedAt st'.1 c /\ adjacent (cx, cy) c /\ passable map c).

(** The invariant of the loop: the marked cells are connected to the start,
    the queued cells are marked, and every marked cell is still queued or
    has all its passable neighbours marked. *)
Definition floodInv (map : Grid) (start : Z * Z) (v : Visited)
    (queue : list (Z * Z)) : Prop :=
  visitedAt v start /\
  (forall c, visitedAt v c -> connectedTo map start c) /\
  (forall c, c ∈ queue -> visitedAt v c) /\
  (forall c, visitedAt v c ->
             c ∈ queue \/ forall d, adjacent c d -> passable map d -> visitedAt v d).


(** [g'] is [g] with some cells set to 0, every one of them in [P]. *)
Definition carved (P : Z * Z -> Prop) (g g' : Grid) : Prop :=
  keeps 0 g g' /\ forall c, passable g' c -> passable g c \/ P c.

(** [x] lies on the way from [a] to [b], [a] included and [b] not. *)
Definition between (a b x : Z) : Prop := a <= x < b \/ b < x <= a.

(** The cell an enemy stands in. *)
Definition enemyCell (e : Enemy.t) : Z * Z := (Qfloor (Enemy.x e), Qfloor (Enemy.y e)).

(** What holds of an enemy the generator has just placed on the map
    [worldMap]: it stands on a floor cell connected to the centre of the
    map, idle and at full health, and its maximal health is in the range of
    its kind. *)
Definition enemyPlaced (worldMap : Grid) (size : Z) (e : Enemy.t) : Prop :=
  passable worldMap (enemyCell e) /\
  connectedTo worldMap (size / 2, size / 2) (enemyCell e) /\
  Enemy.isBoss e = false /\ Enemy.state e = Idle /\
  exists h : Z,
    Enemy.maxHealth e = inject_Z h /\ Enemy.health e = inject_Z h /\
    match Enemy.enemyType e with
    | Grunt => 20 <= h <= 35
    | Soldier => 30 <= h <= 50
    | Captain => 45 <= h <= 70
    | _ => False
    end.

(** A small map to instantiate statements: a U-shaped corridor. *)
Definition demoGrid : Grid :=
  [ [1; 1; 1; 1; 1];
    [1; 0; 1; 0; 1];
    [1; 0; 1; 0; 1];
    [1; 0; 0; 0; 1];
    [1; 1; 1; 1; 1] ].

(** An open map of the smallest size the game uses. *)
Definition openGrid : Grid := replicate 64 (replicate 64 0).








(** The pickup is close enough to the player to be collected. *)
Definition inPickupRange `{HostMath} (p : Player.t) (pickup : Pickup.t) : bool :=
  Qltb (distance (Pickup.x pickup) (Pickup.y pickup) (Player.x p) (Player.y p))
       PICKUP_RANGE.

(** One logic step of a flag with its countdown: the countdown goes down by
    one while it is positive and the flag is lowered when it reaches 0. *)
Definition tick (ft : bool * Z) : bool * Z :=
  if 0 <? ft.2 then (if ft.2 - 1 =? 0 then false else ft.1, ft.2 - 1) else ft.

Definition attackFlag (p : Player.t) : bool * Z :=
  (Player.isAttacking p, Player.attackTimer p).

Definition muzzleFlag (p : Player.t) : bool * Z :=
  (Player.muzzleFlash p, Player.muzzleFlashTimer p).


(** ** The summary of the state for the music *)

Module GameStateForMusic.
Record t := mk {
  playerHealth : Z;
  playerMaxHealth : Z;
  enemyCount : Z;
  nearbyEnemyCount : Z;
  closestEnemyDistance : Q;
  isInCombat : bool;
  isBossLevel : bool;
  currentFloor : Z;
  gameStatus : GameStatus
}.
End GameStateForMusic.

Section Music.
Context `{HostMath}.

(** The distance of an enemy from the player *)
Definition enemyDistance (p : Player.t) (enemy : Enemy.t) : Q :=
  distance (Enemy.x enemy) (Enemy.y enemy) (Player.x p) (Player.y p).

(** The [forEach] that looks for the closest enemy; [None] stands for
    [Infinity]. *)
Definition closestEnemy (p : Player.t) (enemies : list Enemy.t) : option Q :=
  foldl (fun closest enemy =>
           let distance := enemyDistance p enemy in
           match closest with
           | None => Some distance
           | Some c => if Qltb distance c then Some distance else closest
           end)
        None enemies.

Definition getGameStateForMusic (m : Manager.t) : GameStateForMusic.t :=
  let s := Manager.state m in
  let p := GameState.player s in
  (* Calculate nearby enemies (within 10 units) *)
  let nearbyEnemies :=
    filter (fun enemy => Qleb (enemyDistance p enemy) 10 = true) (GameState.enemies s) in
  (* Find closest enemy distance *)
  let closestEnemyDistance := closestEnemy p (GameState.enemies s) in
  let isInCombat :=
    Player.isAttacking p || (0 <? Player.attackTimer p) ||
    existsb (fun enemy =>
               bool_decide (Enemy.state enemy = Attacking) ||
               bool_decide (Enemy.state enemy = Chasing))
            (GameState.enemies s) in
  GameStateForMusic.mk
    (Player.health p) (Player.maxHealth p)
    (Z.of_nat (length (GameState.enemies s)))
    (Z.of_nat (length nearbyEnemies))
    (match closestEnemyDistance with None => 100 | Some c => c end)
    isInCombat (GameState.isBossFloor s) (GameState.currentFloor s)
    (GameState.gameStatus s).

End Music.


(** ** The engine: a shot *)

(** [Math.max] *)
Definition Math_max (a b : Q) : Q := if Qltb a b then b else a.

(** The damage of a shot at an enemy at distance [enemyDistance]:
    [Math.floor(weaponDamage * rangeFactor)], the range factor falling off
    with the distance, steeply for the shotgun. *)
Definition shotDamage (weapon : Weapon) (weaponDamage weaponRange : Z)
    (enemyDistance : Q) : Z :=
  match weapon with
  | Shotgun =>
      let rangeFactor :=
        Math_max 0.3 (1 - (enemyDistance / inject_Z weaponRange) * 0.7) in
      Qfloor (inject_Z weaponDamage * rangeFactor)
  | _ =>
      let rangeFactor :=
        Math_max 0.8 (1 - (enemyDistance / inject_Z weaponRange) * 0.2) in
      Qfloor (inject_Z weaponDamage * rangeFactor)
  end.

Section Engine.
Context `{HostMath}.





End Engine.


(** The shape of the map of a state: walls all around, the block around
    the centre free, and every cell holding 0 connected to the centre or on
    the middle row or column. *)
Definition mapSound (s : GameState.t) : Prop :=
  let size := GameState.worldSize s in
  let g := GameState.worldMap s in
  borderSolid size 1 g /\ spawnClear size g /\
  forall c, passable g c ->
            connectedTo g (size / 2, size / 2) c \/ c.1 = size / 2 \/ c.2 = size / 2.

(** ** Theorems *)

Lemma Qltb_lt a b : Qltb a b = true <-> (a < b)%Q.
Proof.
  unfold Qltb. rewrite negb_true_iff, <- not_true_iff_false, Qle_bool_iff.
  split; [apply Qnot_le_lt | apply Qlt_not_le].
Qed.

(** Comparisons of rational constants. *)
Ltac qcmp := unfold Qle, Qlt; simpl; lia.

Lemma valid_streamOf d l :
  (0 <= d)%Q /\ (d < 1)%Q ->
  Forall (fun p : nat * Q => (0 <= p.2)%Q /\ (p.2 < 1)%Q) l ->
  valid_rand (streamOf d l).
Proof.
  intros Hd Hl i. unfold streamOf.
  destruct (List.find _ l) as [p|] eqn:E; [|exact Hd].
  apply List.find_some in E as [Hin _].
  rewrite Forall_forall in Hl. apply Hl. by apply list_elem_of_In.
Qed.

Lemma isolatingStream_valid : valid_rand isolatingStream.
Proof.
  apply valid_streamOf; [split; qcmp|].
  repeat constructor; qcmp.
Qed.

Lemma connectedTo_passable g start c :
  connectedTo g start c -> c = start \/ passable g c.
Proof. destruct 1; auto. Qed.

(** A passable cell whose four neighbours are walls is cut off from every
    other cell. *)
Lemma enclosed_not_connected g start c :
  c <> start ->
  (forall b, adjacent b c -> b <> start /\ ~ passable g b) ->
  ~ connectedTo g start c.
Proof.
  intros Hne Hwalls Hc. inversion Hc as [|b d Hb Hadj Hd]; subst; [done|].
  destruct (Hwalls b Hadj) as [Hbs Hbp].
  destruct (connectedTo_passable _ _ _ Hb); done.
Qed.

Lemma isolating_run_cells :
  match generateWorldMapWithTheme (H := approxMath) 64 (getFloorTheme 1)
          isolatingStream 0%nat with
  | Some (g, _) =>
      [read2 g 32 10; read2 g 32 9; read2 g 32 11; read2 g 31 10; read2 g 33 10]
  | None => []
  end = [Some (Some 0); Some (Some 16); Some (Some 16); Some (Some 16); Some (Some 16)].
Proof. vm_compute. reflexivity. Qed.

(** C1 (fails on the code).  With the [Math.random] values of
    [isolatingStream], the generator called as in [createInitialState]
    (size 64, theme of floor 1) returns a grid in which the cell (10,32) is
    passable and cannot be reached from the spawn cell (32,32): the emergency
    pass clears it after the connectivity repair, between four pillars. *)
Theorem generated_grid_not_connected :
  valid_rand isolatingStream /\
  exists g k,
    generateWorldMapWithTheme (H := approxMath) 64 (getFloorTheme 1)
      isolatingStream 0%nat = Some (g, k) /\
    passable g (10, 32) /\
    ~ connectedTo g (64 / 2, 64 / 2) (10, 32) /\
    ~ fullyConnected g 64.
Proof.
  split; [apply isolatingStream_valid|].
  pose proof isolating_run_cells as Hcells.
  destruct (generateWorldMapWithTheme _ _ _ _) as [[g k]|]; [|discriminate].
  injection Hcells as Hc Hw He Hn Hs.
  assert (Hiso : ~ connectedTo g (64 / 2, 64 / 2) (10, 32)).
  { apply enclosed_not_connected; [discriminate|].
    intros [bx by_] Hadj. unfold adjacent in Hadj; simpl in Hadj.
    change (64 / 2) with 32. unfold passable.
    assert (Hb : (bx = 10 /\ by_ = 31) \/ (bx = 10 /\ by_ = 33) \/
                 (bx = 9 /\ by_ = 32) \/ (bx = 11 /\ by_ = 32)) by lia.
    destruct Hb as [[-> ->]|[[-> ->]|[[-> ->]|[-> ->]]]]; simpl;
      (split; [discriminate | congruence]). }
  exists g, k. repeat split; [exact Hc | exact Hiso |].
  intros Hall. apply Hiso, Hall. exact Hc.
Qed.

(** *** Rules for [total] and [post] *)

Lemma total_ret {A} (a : A) (Q : A -> Prop) : Q a -> total (ret a) Q.
Proof. intros HQ r k _. by exists a, k. Qed.

Lemma total_bind {A B} (c : Eff A) (f : A -> Eff B) (P : A -> Prop) (Q : B -> Prop) :
  total c P -> (forall a, P a -> total (f a) Q) -> total (bind c f) Q.
Proof.
  intros Hc Hf r k Hr. destruct (Hc r k Hr) as (a & k1 & E & HP).
  unfold bind. rewrite E. by apply Hf.
Qed.

Lemma total_bind_ret {A B} (a : A) (f : A -> Eff B) (Q : B -> Prop) :
  total (f a) Q -> total (bind (ret a) f) Q.
Proof. intros Hf r k Hr. exact (Hf r k Hr). Qed.

Lemma total_weaken {A} (c : Eff A) (P Q : A -> Prop) :
  total c P -> (forall a, P a -> Q a) -> total c Q.
Proof.
  intros Hc HPQ r k Hr. destruct (Hc r k Hr) as (a & k1 & E & HP). eauto.
Qed.

Lemma total_post {A} (c : Eff A) (Q : A -> Prop) : total c Q -> post c Q.
Proof.
  intros Hc r k a k' Hr E. destruct (Hc r k Hr) as (a' & k1 & E' & HQ). congruence.
Qed.

Lemma post_ret {A} (a : A) (Q : A -> Prop) : Q a -> post (ret a) Q.
Proof. intros HQ r k a' k' _ [= <- _]. done. Qed.

Lemma post_throw {A} (Q : A -> Prop) : post throw Q.
Proof. intros r k a k' _ [=]. Qed.

Lemma post_bind {A B} (c : Eff A) (f : A -> Eff B) (P : A -> Prop) (Q : B -> Prop) :
  post c P -> (forall a, P a -> post (f a) Q) -> post (bind c f) Q.
Proof.
  intros Hc Hf r k b k' Hr. unfold bind.
  destruct (c r k) as [[a k1]|] eqn:E; [|done]. intros Hb.
  eapply Hf; eauto.
Qed.

Lemma post_weaken {A} (c : Eff A) (P Q : A -> Prop) :
  post c P -> (forall a, P a -> Q a) -> post c Q.
Proof. intros Hc HPQ r k a k' Hr E. eauto. Qed.

Lemma post_true {A} (c : Eff A) : post c (fun _ => True).
Proof. by intros r k a k' _ _. Qed.

Lemma total_random : total random (fun u => (0 <= u)%Q /\ (u < 1)%Q).
Proof. intros r k Hr. exists (r k), (S k). split; [done|apply Hr]. Qed.

Lemma floor_scale_nonneg (u : Q) (n : Z) :
  (0 <= u)%Q -> 0 <= n -> 0 <= Qfloor (u * inject_Z n).
Proof.
  intros Hu Hn. rewrite <- (Qfloor_Z 0). apply Qfloor_resp_le.
  apply Qmult_le_0_compat; [done|].
  change 0%Q with (inject_Z 0). by rewrite <- Zle_Qle.
Qed.

Lemma floor_scale_lt (u : Q) (n : Z) :
  (u < 1)%Q -> 0 < n -> Qfloor (u * inject_Z n) < n.
Proof.
  intros Hu Hn.
  assert (Hlt : (u * inject_Z n < inject_Z n)%Q).
  { rewrite <- (Qmult_1_l (inject_Z n)) at 2.
    apply Qmult_lt_compat_r; [|done].
    change 0%Q with (inject_Z 0). by rewrite <- Zlt_Qlt. }
  pose proof (Qfloor_le (u * inject_Z n)) as Hf.
  rewrite Zlt_Qlt. eapply Qle_lt_trans; eauto.
Qed.

Lemma total_randomInt n :
  total (randomInt n) (fun z => (0 <= n -> 0 <= z) /\ (0 < n -> z < n)).
Proof.
  unfold randomInt. eapply total_bind; [apply total_random|].
  intros u [H0 H1]. apply total_ret. split; intros.
  - by apply floor_scale_nonneg.
  - by apply floor_scale_lt.
Qed.

Lemma total_randomInt_range n :
  0 < n -> total (randomInt n) (fun z => 0 <= z < n).
Proof.
  intros Hn. eapply total_weaken; [apply total_randomInt|].
  intros z [H0 H1]. split; [apply H0; lia | by apply H1].
Qed.

Lemma total_chance p : total (chance p) (fun _ => True).
Proof.
  unfold chance. eapply total_bind; [apply total_random|].
  intros. by apply total_ret.
Qed.

Lemma total_lift {A} (o : option A) (Q : A -> Prop) :
  (exists a, o = Some a /\ Q a) -> total (lift o) Q.
Proof. intros (a & -> & HQ). by apply total_ret. Qed.

Lemma post_lift {A} (o : option A) (Q : A -> Prop) :
  (forall a, o = Some a -> Q a) -> post (lift o) Q.
Proof. destruct o; simpl; intros; [apply post_ret; auto | apply post_throw]. Qed.

Lemma total_foldM {A S} (body : A -> S -> Eff S) (I : S -> Prop) (l : list A) (s : S) :
  I s ->
  (forall a s, a ∈ l -> I s -> total (body a s) I) ->
  total (foldM body l s) I.
Proof.
  revert s. induction l as [|a l IH]; intros s Hs Hbody; simpl.
  - by apply total_ret.
  - eapply total_bind; [apply Hbody; [left|done]|].
    intros s' Hs'. apply IH; [done|]. intros. apply Hbody; [by right|done].
Qed.

Lemma post_foldM {A S} (body : A -> S -> Eff S) (I : S -> Prop) (l : list A) (s : S) :
  I s ->
  (forall a s, a ∈ l -> I s -> post (body a s) I) ->
  post (foldM body l s) I.
Proof.
  revert s. induction l as [|a l IH]; intros s Hs Hbody; simpl.
  - by apply post_ret.
  - eapply post_bind; [apply Hbody; [left|done]|].
    intros s' Hs'. apply IH; [done|]. intros. apply Hbody; [by right|done].
Qed.

Lemma total_forZ {S} (lo hi : Z) (body : Z -> S -> Eff S) (I : S -> Prop) (s : S) :
  I s ->
  (forall i s, lo <= i < hi -> I s -> total (body i s) I) ->
  total (forZ lo hi body s) I.
Proof.
  intros Hs Hbody. apply total_foldM; [done|].
  intros i s' Hi. apply Hbody. apply elem_of_seqZ in Hi. lia.
Qed.

Lemma post_forZ {S} (lo hi : Z) (body : Z -> S -> Eff S) (I : S -> Prop) (s : S) :
  I s ->
  (forall i s, lo <= i < hi -> I s -> post (body i s) I) ->
  post (forZ lo hi body s) I.
Proof.
  intros Hs Hbody. apply post_foldM; [done|].
  intros i s' Hi. apply Hbody. apply elem_of_seqZ in Hi. lia.
Qed.

(** *** Arrays of arrays *)

Lemma index_Some {A} (l : list A) (i : Z) :
  0 <= i < Z.of_nat (length l) -> exists a, index l i = Some a.
Proof.
  intros Hi. unfold index. destruct (Z.ltb_spec i 0); [lia|].
  apply lookup_lt_is_Some_2. lia.
Qed.

Lemma index_elem_of {A} (l : list A) (i : Z) (a : A) : index l i = Some a -> a ∈ l.
Proof.
  unfold index. destruct (i <? 0); [done|]. apply list_elem_of_lookup_2.
Qed.

Lemma index_row {A} (size : Z) (g : list (list A)) (y : Z) :
  wfGrid size g -> 0 <= y < size ->
  exists row, index g y = Some row /\ Z.of_nat (length row) = size.
Proof.
  intros [Hlen Hrows] Hy. destruct (index_Some g y) as [row E]; [lia|].
  exists row. split; [done|].
  rewrite Forall_forall in Hrows. apply Hrows. by eapply index_elem_of.
Qed.

Lemma write2_wf {A} (size : Z) (g : list (list A)) (y x : Z) (v : A) :
  wfGrid size g -> 0 <= y < size -> 0 <= x < size ->
  exists g', write2 g y x v = Some g' /\ wfGrid size g'.
Proof.
  intros Hg Hy Hx. destruct (index_row size g y Hg Hy) as (row & E & Hrow).
  unfold write2. rewrite E.
  destruct (Z.leb_spec 0 x); [|lia]. destruct (Z.ltb_spec x (Z.of_nat (length row))); [|lia].
  eexists. split; [done|]. destruct Hg as [Hlen Hrows]. split.
  - by rewrite length_insert.
  - apply Forall_insert; [done|]. by rewrite length_insert.
Qed.

Lemma read2_row {A} (size : Z) (g : list (list A)) (y x : Z) :
  wfGrid size g -> 0 <= y < size -> exists o, read2 g y x = Some o.
Proof.
  intros Hg Hy. destruct (index_row size g y Hg Hy) as (row & E & _).
  unfold read2. rewrite E. eauto.
Qed.

Lemma read2_wf {A} (size : Z) (g : list (list A)) (y x : Z) :
  wfGrid size g -> 0 <= y < size -> 0 <= x < size ->
  exists v, read2 g y x = Some (Some v).
Proof.
  intros Hg Hy Hx. destruct (index_row size g y Hg Hy) as (row & E & Hrow).
  unfold read2. rewrite E. destruct (index_Some row x) as [v ->]; [lia|]. eauto.
Qed.

Lemma newArray2_wf {A} (size : Z) (v : A) :
  0 <= size -> exists g, newArray2 size v = Some g /\ wfGrid size g.
Proof.
  intros Hs. unfold newArray2. destruct (Z.ltb_spec size 0); [lia|].
  eexists. split; [done|]. split.
  - rewrite length_replicate. lia.
  - apply Forall_replicate. rewrite length_replicate. lia.
Qed.

Lemma total_setCell size g y x v :
  wfGrid size g -> 0 <= y < size -> 0 <= x < size ->
  total (setCell g y x v) (wfGrid size).
Proof. intros. apply total_lift. by apply write2_wf. Qed.

Lemma total_isFloor size g y x :
  wfGrid size g -> 0 <= y < size -> total (isFloor g y x) (fun _ => True).
Proof.
  intros Hg Hy. unfold isFloor.
  destruct (read2_row size g y x Hg Hy) as [o E].
  eapply total_bind with (P := fun _ => True); [apply total_lift; eauto|].
  intros. by apply total_ret.
Qed.

Lemma total_notFloor size g y x :
  wfGrid size g -> 0 <= y < size -> total (notFloor g y x) (fun _ => True).
Proof.
  intros. unfold notFloor. eapply total_bind; [by eapply total_isFloor|].
  intros. by apply total_ret.
Qed.

(** Boolean tests read as propositions. *)
Ltac zbool :=
  repeat match goal with
  | H : (_ && _) = true |- _ => apply andb_true_iff in H as [? ?]
  | H : (_ || _) = false |- _ => apply orb_false_iff in H as [? ?]
  | H : negb _ = true |- _ => apply negb_true_iff in H
  | H : negb _ = false |- _ => apply negb_false_iff in H
  | H : (_ <? _) = true |- _ => apply Z.ltb_lt in H
  | H : (_ <? _) = false |- _ => apply Z.ltb_ge in H
  | H : (_ <=? _) = true |- _ => apply Z.leb_le in H
  | H : (_ <=? _) = false |- _ => apply Z.leb_gt in H
  | H : (_ =? _) = true |- _ => apply Z.eqb_eq in H
  | H : (_ =? _) = false |- _ => apply Z.eqb_neq in H
  | H : (_ <? _)%nat = true |- _ => apply Nat.ltb_lt in H
  | H : (_ <? _)%nat = false |- _ => apply Nat.ltb_ge in H
  | H : (_ =? _)%nat = true |- _ => apply Nat.eqb_eq in H
  | H : (_ =? _)%nat = false |- _ => apply Nat.eqb_neq in H
  end.

(** One step of a totality proof: the next call or test of the code. *)
Ltac total_step :=
  cbv zeta;
  lazymatch goal with
  | |- total (ret _) _ => apply total_ret
  | |- total (bind (ret _) _) _ => apply total_bind_ret
  | |- total (bind (randomInt _) _) _ =>
      eapply total_bind;
      [apply total_randomInt_range; first [lia | (simpl; lia) | (zbool; lia)]
      | intros ? ?; cbv beta in *]
  | |- total (bind (chance _) _) _ =>
      eapply total_bind; [apply total_chance | intros ? _]
  | |- total (bind random _) _ =>
      eapply total_bind; [apply total_random | intros ? [? ?]]
  | |- total (bind (setCell _ _ _ _) _) _ =>
      eapply total_bind;
      [eapply total_setCell; [eassumption | zbool; lia | zbool; lia] | intros ? ?]
  | |- total (bind (isFloor _ _ _) _) _ =>
      eapply total_bind;
      [eapply total_isFloor; [eassumption | zbool; lia] | intros ? _]
  | |- total (bind (notFloor _ _ _) _) _ =>
      eapply total_bind;
      [eapply total_notFloor; [eassumption | zbool; lia] | intros ? _]
  | |- total (setCell _ _ _ _) _ =>
      eapply total_setCell; [eassumption | zbool; lia | zbool; lia]
  | |- total (bind (if ?b then _ else _) _) _ => destruct b eqn:?
  | |- total (if ?b then _ else _) _ => destruct b eqn:?
  end.

Section GeneratorTotal.
Context `{HostMath}.
Variable size : Z.
Hypothesis size_large : 64 <= size.

Lemma total_createThemedZones : total (createThemedZones size) (fun _ => True).
Proof.
  unfold createThemedZones. total_step.
  apply total_forZ; [done|]. intros i zones _ _.
  repeat total_step. done.
Qed.

Lemma total_createEnhancedRoom map room :
  wfGrid size map -> roomFits size room ->
  total (createEnhancedRoom map room) (wfGrid size).
Proof.
  intros Hmap (Hx & Hy & Hw & Hh & Hxw & Hyh). unfold createEnhancedRoom.
  eapply total_bind.
  { apply total_forZ; [exact Hmap|]. intros y m Hy' Hm.
    apply total_forZ; [exact Hm|]. intros x m' Hx' Hm'.
    repeat total_step. }
  intros m Hm.
  assert (0 <= Room.width room / 2 < Room.width room)
    by (split; [apply Z.div_pos | apply Z.div_lt_upper_bound]; lia).
  assert (0 <= Room.height room / 2 < Room.height room)
    by (split; [apply Z.div_pos | apply Z.div_lt_upper_bound]; lia).
  assert (0 <= Room.width room / 3 < Room.width room)
    by (split; [apply Z.div_pos | apply Z.div_lt_upper_bound]; lia).
  assert (0 <= 2 * Room.width room / 3 < Room.width room)
    by (split; [apply Z.div_pos | apply Z.div_lt_upper_bound]; lia).
  total_step; [|by total_step].
  total_step.
  eapply total_bind with (P := wfGrid size).
  { repeat total_step. done. }
  intros m1 Hm1. total_step. total_step; [|by total_step].
  eapply total_bind.
  { apply total_forZ; [exact Hm1|]. intros x m' Hx' Hm'.
    repeat total_step. done. }
  intros m2 Hm2. repeat total_step.
Qed.

Lemma total_index {A} (l : list A) (i : Z) (Q : A -> Prop) :
  0 <= i < Z.of_nat (length l) -> (forall a, a ∈ l -> Q a) ->
  total (lift (index l i)) Q.
Proof.
  intros Hi HQ. apply total_lift. destruct (index_Some l i Hi) as [a E].
  exists a. split; [done|]. apply HQ. by eapply index_elem_of.
Qed.

Lemma total_additionalDoorLoop n (validDoors doorPositions : list (Z * Z)) :
  Forall (fun d => d ∈ validDoors) doorPositions ->
  total (additionalDoorLoop n validDoors doorPositions)
        (Forall (fun d => d ∈ validDoors)).
Proof.
  revert doorPositions. induction n as [|n IH]; intros doors Hdoors; simpl.
  - by apply total_ret.
  - total_step; [|by apply total_ret].
    total_step; [|by apply IH].
    total_step.
    eapply total_bind.
    { apply total_index; [zbool; lia|]. intros ? Hin. exact Hin. }
    intros door Hdoor. apply IH. apply Forall_app. split; [done|].
    apply Forall_singleton. apply list_elem_of_filter in Hdoor. tauto.
Qed.

Lemma total_generateRoomDoors map room :
  wfGrid size map -> total (generateRoomDoors map room size) (wfGrid size).
Proof.
  intros Hmap. unfold generateRoomDoors.
  set (possibleDoors := _ ++ _ ++ _ ++ _).
  set (validDoors := filter _ possibleDoors).
  assert (Hvalid : forall d : Z * Z, d ∈ validDoors ->
                     0 < d.1 < size - 1 /\ 0 < d.2 < size - 1).
  { intros d Hd. apply list_elem_of_filter in Hd as [Hd _]. zbool. lia. }
  total_step; [by total_step|].
  total_step.
  eapply total_bind.
  { apply total_index; [zbool; lia|]. intros ? Hin. exact Hin. }
  intros door Hdoor. total_step.
  eapply total_bind.
  { apply total_additionalDoorLoop. by apply Forall_singleton. }
  intros doors Hdoors. rewrite Forall_forall in Hdoors.
  apply total_foldM; [done|]. intros d m Hd Hm.
  destruct (Hvalid d (Hdoors d Hd)). total_step.
Qed.

Lemma total_roomDimensions :
  total roomDimensions (fun d => 3 <= d.1 <= 17 /\ 3 <= d.2 <= 17).
Proof.
  unfold roomDimensions. total_step. repeat total_step; simpl; lia.
Qed.

Lemma total_placeRooms n roomCount zones rooms map :
  wfGrid size map ->
  total (placeRooms n size roomCount zones rooms map) (fun res => wfGrid size res.2).
Proof.
  revert rooms map. induction n as [|n IH]; intros rooms map Hmap; simpl.
  - by apply total_ret.
  - total_step; [|by apply total_ret].
    eapply total_bind; [apply total_roomDimensions|].
    intros [w h] [Hw Hh]. simpl in Hw, Hh.
    do 2 total_step.
    total_step; [by apply IH|].
    eapply total_bind.
    { apply total_createEnhancedRoom; [done|]. unfold roomFits; simpl. lia. }
    intros m Hm. by apply IH.
Qed.

Lemma total_carveCorridor n direction directions x y map :
  wfGrid size map -> length directions = 8%nat -> 0 <= direction < 8 ->
  total (carveCorridor n size direction directions x y map) (wfGrid size).
Proof.
  revert directions x y map.
  induction n as [|n IH]; intros directions x y map Hmap Hlen Hdir; simpl.
  - by apply total_ret.
  - eapply total_bind with (P := wfGrid size).
    { repeat total_step; done. }
    intros m Hm.
    eapply total_bind with (P := fun _ => True).
    { apply total_index; [lia|done]. }
    intros dir _. total_step.
    eapply total_bind with (P := fun ds => length ds = 8%nat).
    { total_step; [|by total_step]. total_step.
      eapply total_bind with (P := fun _ => True).
      { apply total_index; [lia|done]. }
      intros newDir _. total_step. by rewrite length_insert. }
    intros ds Hds. total_step; [by total_step|]. by apply IH.
Qed.

Lemma total_generateDenseCorridors map :
  wfGrid size map -> total (generateDenseCorridors map size) (wfGrid size).
Proof.
  intros Hmap. unfold generateDenseCorridors. total_step.
  apply total_forZ; [done|]. intros i m _ Hm.
  do 4 total_step. by apply total_carveCorridor.
Qed.

Lemma total_generateRooms map :
  wfGrid size map -> total (generateRooms map size) (wfGrid size).
Proof.
  intros Hmap. unfold generateRooms.
  eapply total_bind; [apply total_createThemedZones|]. intros zones _.
  total_step.
  eapply total_bind; [by apply total_placeRooms|].
  intros [rooms m] Hm. simpl in Hm. unfold generateEnhancedConnectivity.
  eapply total_bind.
  { apply total_foldM; [exact Hm|]. intros room m' _ Hm'.
    by apply total_generateRoomDoors. }
  intros m' Hm'. by apply total_generateDenseCorridors.
Qed.

Lemma total_pillarCluster fuel j x y pillarType map :
  wfGrid size map -> 0 <= j <= 4 -> 5 <= j + Z.of_nat fuel ->
  total (pillarCluster fuel j size x y pillarType map) (wfGrid size).
Proof.
  revert j map. induction fuel as [|fuel IH]; intros j map Hmap Hj Hfuel; [lia|].
  simpl. total_step. total_step; [|by total_step].
  total_step.
  eapply total_bind with (P := fun _ => True).
  { apply total_index; [simpl in *; lia|done]. }
  intros offset _.
  eapply total_bind with
    (P := fun place : bool =>
            place = true -> 2 <= x + offset.1 < size - 2 /\ 2 <= y + offset.2 < size - 2).
  { total_step; [|total_step; done].
    total_step. total_step; [|total_step; done].
    eapply total_weaken; [apply total_chance|]. intros. zbool. lia. }
  intros place Hplace.
  eapply total_bind with (P := wfGrid size).
  { destruct place; [|by total_step]. destruct Hplace; [done|]. total_step. }
  intros m Hm. apply IH; [done| zbool; lia | lia].
Qed.

Lemma total_generatePillars map :
  wfGrid size map -> total (generatePillars map size) (wfGrid size).
Proof.
  intros Hmap. unfold generatePillars.
  eapply total_bind; [apply total_createThemedZones|]. intros zones _.
  total_step. apply total_forZ; [done|]. intros i m _ Hm.
  do 3 total_step. total_step; [|by total_step].
  do 2 total_step. total_step; [|by total_step].
  apply total_pillarCluster; [done|lia|simpl; lia].
Qed.

Lemma templates_small :
  Forall (fun pattern : list (list Z) =>
            5 <= rowLength pattern 0 <= 7 /\ 5 <= Z.of_nat (length pattern) <= 7)
         specialRoomTemplates.
Proof.
  unfold specialRoomTemplates.
  repeat (apply List.Forall_cons; [repeat split; vm_compute; discriminate|]).
  apply List.Forall_nil.
Qed.

Lemma total_openPerimeter n (perimeterCells : list (Z * Z)) map :
  wfGrid size map ->
  Forall (interior size) perimeterCells ->
  (0 < length perimeterCells)%nat ->
  total (openPerimeter n perimeterCells map) (wfGrid size).
Proof.
  revert perimeterCells map.
  induction n as [|n IH]; intros cells map Hmap Hcells Hlen; simpl.
  - by apply total_ret.
  - total_step.
    eapply total_bind.
    { apply total_index; [lia|]. intros c Hc. rewrite Forall_forall in Hcells.
      exact (Hcells c Hc). }
    intros door [Hx Hy]. total_step. total_step; [by total_step|].
    apply IH; [done| by apply Forall_delete | zbool; lia].
Qed.

Lemma total_ensureSpecialRoomConnectivity map startX startY pattern :
  wfGrid size map ->
  total (ensureSpecialRoomConnectivity map startX startY pattern size) (wfGrid size).
Proof.
  intros Hmap. unfold ensureSpecialRoomConnectivity.
  set (cells := omap _ _).
  assert (Hcells : Forall (interior size) cells).
  { apply Forall_forall. intros c Hc.
    apply list_elem_of_omap in Hc as ([[x y] v] & _ & Hc).
    destruct (_ && _) eqn:E in Hc; [|done]. injection Hc as <-.
    unfold interior; simpl. zbool. lia. }
  total_step; [|by total_step].
  total_step. apply total_openPerimeter; [done|done|zbool; lia].
Qed.

Lemma total_generateSpecialRooms map :
  wfGrid size map -> total (generateSpecialRooms map size) (wfGrid size).
Proof.
  intros Hmap. unfold generateSpecialRooms.
  eapply total_bind; [apply total_createThemedZones|]. intros zones _.
  total_step. apply total_forZ; [done|]. intros i m _ Hm.
  total_step.
  eapply total_bind with
    (P := fun pattern : list (list Z) =>
            5 <= rowLength pattern 0 <= 7 /\ 5 <= Z.of_nat (length pattern) <= 7).
  { apply total_index; [done|].
    apply Forall_forall, templates_small. }
  intros pattern [Hw Hh]. do 2 total_step.
  eapply total_bind with (P := fun _ => True).
  { apply total_foldM; [done|]. intros [[x y] v] acc _ _.
    total_step; [|by total_step]. total_step. by total_step. }
  intros [wallCells totalCells] _. total_step; [|by total_step].
  eapply total_bind.
  { apply total_foldM; [exact Hm|]. intros [[x y] v] m' _ Hm'.
    repeat total_step; done. }
  intros m' Hm'. by apply total_ensureSpecialRoomConnectivity.
Qed.

(** *** The flood fill terminates *)

Lemma countFalse_mark (row : list bool) (i : nat) :
  row !! i = Some false -> (countFalse (<[i := true]> row) + 1 = countFalse row)%nat.
Proof.
  revert i. induction row as [|b row IH]; intros [|i] Hi; simpl in *; try done.
  - injection Hi as ->. lia.
  - specialize (IH i Hi). lia.
Qed.

Lemma unvisited_mark_row (v : Visited) (i : nat) (row row' : list bool) :
  v !! i = Some row -> (countFalse row' + 1 = countFalse row)%nat ->
  (unvisited (<[i := row']> v) + 1 = unvisited v)%nat.
Proof.
  revert i. induction v as [|r v IH]; intros [|i] Hi Hc; simpl in *;
    simplify_eq; try lia.
  rewrite <- Nat.add_assoc. f_equal. exact (IH i Hi Hc).
Qed.

Lemma unvisited_mark (v v' : Visited) (y x : Z) :
  read2 v y x = Some (Some false) -> write2 v y x true = Some v' ->
  (unvisited v' + 1 = unvisited v)%nat.
Proof.
  unfold read2, write2, index.
  destruct (y <? 0); simpl; [done|].
  destruct (v !! Z.to_nat y) as [row|] eqn:Ey; simpl; [|done].
  destruct (x <? 0) eqn:Ex; simpl; [done|]. intros [= Hx].
  destruct (_ && _); [|done]. intros [= <-].
  eapply unvisited_mark_row; [done|]. by apply countFalse_mark.
Qed.

Lemma countFalse_le (row : list bool) : (countFalse row <= length row)%nat.
Proof. induction row as [|[] row IH]; simpl; lia. Qed.

Lemma unvisited_le (v : Visited) (n : nat) :
  Forall (fun row => length row = n) v -> (unvisited v <= length v * n)%nat.
Proof.
  induction 1 as [|row v Hrow _ IH]; simpl; [lia|].
  pose proof (countFalse_le row). lia.
Qed.

Lemma unvisited_wf (v : Visited) :
  wfGrid size v -> Z.of_nat (unvisited v) <= size * size.
Proof.
  intros [Hlen Hrows].
  assert (Hn : Forall (fun row : list bool => length row = Z.to_nat size) v).
  { eapply Forall_impl; [exact Hrows|]. simpl. intros. lia. }
  pose proof (unvisited_le v _ Hn). nia.
Qed.

Lemma total_floodNeighbours map cx cy (st : Visited * list (Z * Z)) :
  wfGrid size map -> wfGrid size st.1 ->
  total (floodNeighbours map size cx cy st)
        (fun st' => wfGrid size st'.1 /\
                    (unvisited st'.1 + length st'.2 = unvisited st.1 + length st.2)%nat).
Proof.
  intros Hmap Hv. unfold floodNeighbours.
  apply total_foldM; [done|]. intros dir [v q] _ [Hv' Hsum]. simpl in Hv', Hsum |- *.
  total_step; [|by total_step].
  destruct (read2_wf size v (cy + dir.2) (cx + dir.1) Hv') as [b Eb]; [zbool; lia..|].
  rewrite Eb. simpl. apply total_bind_ret. simpl.
  destruct b; simpl; [by total_step|].
  total_step. total_step; [|by total_step].
  destruct (write2_wf size v (cy + dir.2) (cx + dir.1) true Hv') as (v1 & E1 & Hv1);
    [zbool; lia..|].
  rewrite E1. simpl. apply total_bind_ret. apply total_ret. simpl.
  split; [done|]. pose proof (unvisited_mark _ _ _ _ Eb E1).
  rewrite length_app. simpl. lia.
Qed.

Lemma total_floodLoop fuel map visited queue :
  wfGrid size map -> wfGrid size visited ->
  (unvisited visited + length queue <= fuel)%nat ->
  total (floodLoop fuel map size visited queue) (wfGrid size).
Proof.
  intros Hmap. revert visited queue.
  induction fuel as [|fuel IH]; intros visited [|c queue] Hv Hfuel; simpl in *;
    try by apply total_ret.
  - lia.
  - eapply total_bind; [by apply (total_floodNeighbours map c.1 c.2 (visited, queue))|].
    intros [v q] [Hv' Hsum]. simpl in *. apply IH; [done|lia].
Qed.

Lemma total_floodFill map startX startY :
  wfGrid size map -> 0 <= startX < size -> 0 <= startY < size ->
  total (floodFill map startX startY size) (wfGrid size).
Proof.
  intros Hmap Hx Hy. unfold floodFill.
  destruct (newArray2_wf size false) as (v0 & E0 & Hv0); [lia|].
  rewrite E0. simpl. apply total_bind_ret.
  destruct (write2_wf size v0 startY startX true Hv0) as (v1 & E1 & Hv1); [done..|].
  rewrite E1. simpl. apply total_bind_ret.
  apply total_floodLoop; [done..|].
  pose proof (unvisited_wf v1 Hv1). simpl. nia.
Qed.

(** *** Connectivity repair and the whole generator *)

Lemma elem_of_interiorCells (c : Z * Z) : c ∈ interiorCells size -> interior size c.
Proof.
  unfold interiorCells. intros Hc.
  apply list_elem_of_bind in Hc as (y & Hc & Hy).
  apply list_elem_of_fmap in Hc as (x & -> & Hx).
  apply elem_of_seqZ in Hx, Hy. unfold interior; simpl. lia.
Qed.

Lemma total_isReachable reachable y x :
  wfGrid size reachable -> 0 <= y < size ->
  total (isReachable reachable y x) (fun _ => True).
Proof.
  intros Hv Hy. unfold isReachable.
  destruct (read2_row size reachable y x Hv Hy) as [o E]. rewrite E. simpl.
  apply total_bind_ret. by apply total_ret.
Qed.

Lemma total_closestReachable reachable area :
  wfGrid size reachable ->
  total (closestReachable reachable size area)
        (fun closest => forall c, closest = Some c -> interior size c).
Proof.
  intros Hv. unfold closestReachable.
  eapply total_bind with
    (P := fun best : option Z * option (Z * Z) =>
            forall c, best.2 = Some c -> interior size c).
  - apply total_foldM; [done|]. intros c best Hc Hbest.
    apply elem_of_interiorCells in Hc. pose proof Hc as [Hx Hy].
    eapply total_bind; [apply total_isReachable; [done|lia]|]. intros r _.
    destruct r; [|by apply total_ret].
    destruct best.1; [destruct (_ <? _)|]; apply total_ret; simpl;
      try done; by intros ? [= <-].
  - intros best Hbest. by apply total_ret.
Qed.

Lemma total_pathHorizontal fuel toX currentX currentY map :
  wfGrid size map -> fuel = Z.abs_nat (toX - currentX) ->
  total (pathHorizontal fuel size toX currentX currentY map) (wfGrid size).
Proof.
  revert currentX map. induction fuel as [|fuel IH]; intros cx map Hmap Hfuel; simpl.
  - destruct (Z.eqb_spec cx toX); [by apply total_ret|lia].
  - destruct (Z.eqb_spec cx toX); [by apply total_ret|].
    eapply total_bind with (P := wfGrid size); [repeat total_step; done|].
    intros m Hm. apply IH; [done|]. destruct (Z.ltb_spec cx toX); lia.
Qed.

Lemma total_pathVertical fuel toY currentX currentY map :
  wfGrid size map -> fuel = Z.abs_nat (toY - currentY) ->
  total (pathVertical fuel size toY currentX currentY map) (wfGrid size).
Proof.
  revert currentY map. induction fuel as [|fuel IH]; intros cy map Hmap Hfuel; simpl.
  - destruct (Z.eqb_spec cy toY); [by apply total_ret|lia].
  - destruct (Z.eqb_spec cy toY); [by apply total_ret|].
    eapply total_bind with (P := wfGrid size); [repeat total_step; done|].
    intros m Hm. apply IH; [done|]. destruct (Z.ltb_spec cy toY); lia.
Qed.

Lemma total_createPath map from to :
  wfGrid size map -> total (createPath map from to size) (wfGrid size).
Proof.
  intros Hmap. unfold createPath.
  eapply total_bind; [by apply total_pathHorizontal|].
  intros m Hm. by apply total_pathVertical.
Qed.

Lemma total_connectUnreachableAreas map reachable :
  wfGrid size map -> wfGrid size reachable ->
  total (connectUnreachableAreas map reachable size) (wfGrid size).
Proof.
  intros Hmap Hv. unfold connectUnreachableAreas.
  eapply total_bind with (P := fun _ => True).
  - apply total_foldM; [done|]. intros c areas Hc _.
    apply elem_of_interiorCells in Hc as [Hx Hy].
    total_step. total_step; [|by total_step].
    eapply total_bind; [apply total_isReachable; [done|lia]|]. intros r _.
    by destruct r; apply total_ret.
  - intros areas _. apply total_foldM; [done|]. intros area m _ Hm.
    eapply total_bind; [by apply total_closestReachable|]. intros closest _.
    destruct closest; [by apply total_createPath | by apply total_ret].
Qed.

Lemma total_createEmergencyConnections map :
  wfGrid size map -> total (createEmergencyConnections map size) (wfGrid size).
Proof.
  intros Hmap. unfold createEmergencyConnections.
  assert (0 < size / 2 < size - 1)
    by (split; [apply Z.div_str_pos | apply Z.div_lt_upper_bound]; lia).
  eapply total_bind.
  { apply total_forZ; [exact Hmap|]. intros x m Hx Hm. repeat total_step; done. }
  intros m1 Hm1. eapply total_bind.
  { apply total_forZ; [exact Hm1|]. intros y m Hy Hm. repeat total_step; done. }
  intros m2 Hm2.
  apply total_forZ; [exact Hm2|]. intros dy m Hdy Hm.
  apply total_forZ; [exact Hm|]. intros dx m' Hdx Hm'. repeat total_step; done.
Qed.

Lemma total_ensureMapConnectivity map :
  wfGrid size map -> total (ensureMapConnectivity map size) (wfGrid size).
Proof.
  intros Hmap. unfold ensureMapConnectivity.
  assert (0 <= size / 2 < size)
    by (split; [apply Z.div_pos | apply Z.div_lt_upper_bound]; lia).
  eapply total_bind; [by apply total_floodFill|]. intros reachable Hv.
  eapply total_bind; [by apply total_connectUnreachableAreas|]. intros m Hm.
  by apply total_createEmergencyConnections.
Qed.

Lemma total_fillBorders map border :
  wfGrid size map -> total (fillBorders map size border) (wfGrid size).
Proof.
  intros Hmap. unfold fillBorders.
  apply total_forZ; [exact Hmap|]. intros y m Hy Hm.
  apply total_forZ; [exact Hm|]. intros x m' Hx Hm'. repeat total_step; done.
Qed.

(** For any size from 64 up and any theme the generator returns a [size] by
    [size] grid. *)
Lemma total_generateWorldMapWithTheme theme :
  total (generateWorldMapWithTheme size theme) (wfGrid size).
Proof.
  unfold generateWorldMapWithTheme.
  destruct (newArray2_wf size 0) as (m0 & E0 & Hm0); [lia|].
  rewrite E0. simpl. apply total_bind_ret.
  eapply total_bind; [by apply total_fillBorders|]. intros m1 Hm1.
  eapply total_bind; [by apply total_generateRooms|]. intros m2 Hm2.
  eapply total_bind; [by apply total_generateDenseCorridors|]. intros m3 Hm3.
  eapply total_bind; [by apply total_generatePillars|]. intros m4 Hm4.
  eapply total_bind; [by apply total_generateSpecialRooms|]. intros m5 Hm5.
  by apply total_ensureMapConnectivity.
Qed.

End GeneratorTotal.

(** *** Populating a floor *)

Lemma floor_offset (a n : Z) (u : Q) :
  (0 <= u)%Q -> (u < 1)%Q -> 0 < n ->
  a <= Qfloor (inject_Z a + u * inject_Z n) < a + n.
Proof.
  intros H0 H1 Hn.
  assert (Hlo : (inject_Z a <= inject_Z a + u * inject_Z n)%Q).
  { rewrite <- (Qplus_0_r (inject_Z a)) at 1. apply Qplus_le_r.
    apply Qmult_le_0_compat; [done|]. change 0%Q with (inject_Z 0).
    rewrite <- Zle_Qle. lia. }
  assert (Hhi : (inject_Z a + u * inject_Z n < inject_Z (a + n))%Q).
  { rewrite inject_Z_plus. apply Qplus_lt_r.
    rewrite <- (Qmult_1_l (inject_Z n)) at 2.
    apply Qmult_lt_compat_r; [|done]. change 0%Q with (inject_Z 0).
    by rewrite <- Zlt_Qlt. }
  split.
  - transitivity (Qfloor (inject_Z a)); [by rewrite Qfloor_Z|].
    by apply Qfloor_resp_le.
  - rewrite Zlt_Qlt. eapply Qle_lt_trans; [apply Qfloor_le|done].
Qed.

Lemma pickupsChanged_refl s : pickupsChanged s s.
Proof. exists (GameState.pickups s), (GameState.nextPickupId s). by destruct s. Qed.

Lemma pickupsChanged_trans s1 s2 s3 :
  pickupsChanged s1 s2 -> pickupsChanged s2 s3 -> pickupsChanged s1 s3.
Proof. intros (ps & n & ->) (ps' & n' & ->). exists ps', n'. by destruct s1. Qed.

Lemma enemyIdChanged_refl s : enemyIdChanged s s.
Proof. exists (GameState.nextEnemyId s). by destruct s. Qed.

Lemma enemyIdChanged_trans s1 s2 s3 :
  enemyIdChanged s1 s2 -> enemyIdChanged s2 s3 -> enemyIdChanged s1 s3.
Proof. intros (n & ->) (n' & ->). exists n'. by destruct s1. Qed.

Section PopulationTotal.
Context `{HostMath}.

Lemma total_spawnPickup x y type value weaponType s :
  0 <= value -> Forall pickupSound (GameState.pickups s) ->
  total (spawnPickup x y type value weaponType s)
        (fun s' => pickupsChanged s s' /\ Forall pickupSound (GameState.pickups s')).
Proof.
  intros Hv Hps. unfold spawnPickup. do 4 total_step. split.
  - eexists _, _. reflexivity.
  - simpl. apply Forall_app. split; [done|]. by apply Forall_singleton.
Qed.

Lemma total_spawnEnemyDrops x y enemyType s :
  Forall pickupSound (GameState.pickups s) ->
  total (spawnEnemyDrops x y enemyType s)
        (fun s' => pickupsChanged s s' /\ Forall pickupSound (GameState.pickups s')).
Proof.
  intros Hps. unfold spawnEnemyDrops.
  destruct (dropChances enemyType) as [[healthDropChance ammoDropChance] weaponDropChance].
  total_step.
  eapply total_bind with
    (P := fun s' => pickupsChanged s s' /\ Forall pickupSound (GameState.pickups s')).
  { total_step; [|total_step; by auto using pickupsChanged_refl].
    total_step. apply total_spawnPickup; [lia|done]. }
  intros s1 [Hc1 Hps1]. total_step.
  eapply total_bind with
    (P := fun s' => pickupsChanged s s' /\ Forall pickupSound (GameState.pickups s')).
  { total_step; [|total_step; by auto].
    total_step. eapply total_weaken; [apply total_spawnPickup; [lia|done]|].
    intros s2 [Hc2 Hps2]. eauto using pickupsChanged_trans. }
  intros s2 [Hc2 Hps2]. total_step.
  total_step; [|total_step; by auto].
  total_step.
  eapply total_weaken.
  { apply total_spawnPickup; [|done].
    match goal with |- context [if ?b then 12 else 30] => by destruct b end. }
  intros s3 [Hc3 Hps3]. eauto using pickupsChanged_trans.
Qed.

Lemma spawn_cell (a size : Z) (u : Q) :
  (0 <= u)%Q -> (u < 1)%Q -> 0 <= a -> 2 * a < size ->
  0 <= Qfloor (inject_Z a + u * inject_Z (size - 2 * a)) < size.
Proof.
  intros H0 H1 Ha Hsize.
  pose proof (floor_offset a (size - 2 * a) u H0 H1 ltac:(lia)). lia.
Qed.

Lemma total_placePickups n pickupCount s :
  wfGrid (GameState.worldSize s) (GameState.worldMap s) ->
  5 <= GameState.worldSize s ->
  Forall pickupSound (GameState.pickups s) ->
  total (placePickups n pickupCount s)
        (fun s' => pickupsChanged s s' /\ Forall pickupSound (GameState.pickups s')).
Proof.
  revert s. induction n as [|n IH]; intros s Hmap Hsize Hps; cbn [placePickups].
  - apply total_ret. auto using pickupsChanged_refl.
  - total_step; [|apply total_ret; by auto using pickupsChanged_refl].
    do 2 total_step.
    eapply total_bind with (P := fun _ => True).
    { eapply total_isFloor; [exact Hmap|].
      apply (spawn_cell 2 (GameState.worldSize s)); [done|done|lia|lia]. }
    intros free _.
    eapply total_bind with
      (P := fun s' => pickupsChanged s s' /\ Forall pickupSound (GameState.pickups s')).
    { destruct free; [|apply total_ret; by auto using pickupsChanged_refl].
      total_step; [|apply total_ret; by auto using pickupsChanged_refl].
      total_step.
      eapply total_bind with (P := fun _ => True); [by apply total_index|].
      intros [] _.
      - total_step. apply total_spawnPickup; [lia|done].
      - total_step. apply total_spawnPickup; [lia|done].
      - total_step. apply total_spawnPickup; [|done].
        match goal with |- context [if ?b then 12 else 30] => by destruct b end. }
    intros s1 [Hc1 Hps1].
    eapply total_weaken.
    { apply IH; [|  |done]; destruct Hc1 as (ps & k & ->); by simpl. }
    intros s2 [Hc2 Hps2]. eauto using pickupsChanged_trans.
Qed.

Lemma total_generateRandomPickups s :
  wfGrid (GameState.worldSize s) (GameState.worldMap s) ->
  5 <= GameState.worldSize s ->
  Forall pickupSound (GameState.pickups s) ->
  total (generateRandomPickups s)
        (fun s' => pickupsChanged s s' /\ Forall pickupSound (GameState.pickups s')).
Proof.
  intros. unfold generateRandomPickups. total_step. by apply total_placePickups.
Qed.

Lemma total_placeEnemies n enemyCount worldMap size enemies s :
  64 <= size -> wfGrid size worldMap -> Forall enemyAlive enemies ->
  total (placeEnemies n enemyCount worldMap size enemies s)
        (fun res => Forall enemyAlive res.1 /\ enemyIdChanged s res.2).
Proof.
  intros Hsize Hmap. revert enemies s.
  induction n as [|n IH]; intros enemies s Hes; cbn [placeEnemies].
  - apply total_ret. auto using enemyIdChanged_refl.
  - total_step; [|apply total_ret; by auto using enemyIdChanged_refl].
    do 2 total_step.
    assert (Hx : 0 <= Qfloor (2 + a * inject_Z (size - 4)) < size)
      by (apply (spawn_cell 2 size); [done|done|lia|lia]).
    assert (Hy : 0 <= Qfloor (2 + a0 * inject_Z (size - 4)) < size)
      by (apply (spawn_cell 2 size); [done|done|lia|lia]).
    eapply total_bind with (P := fun _ => True); [by eapply total_isFloor|].
    intros free _.
    eapply total_bind with
      (P := fun res : list Enemy.t * GameState.t =>
              Forall enemyAlive res.1 /\ enemyIdChanged s res.2).
    { destruct free; [|apply total_ret; by auto using enemyIdChanged_refl].
      total_step; [|apply total_ret; by auto using enemyIdChanged_refl].
      assert (0 <= size / 2 < size)
        by (split; [apply Z.div_pos | apply Z.div_lt_upper_bound]; lia).
      eapply total_bind; [by apply total_floodFill|]. intros reachable Hv.
      eapply total_bind; [by eapply total_isReachable|]. intros ok _.
      destruct ok; [|apply total_ret; by auto using enemyIdChanged_refl].
      total_step.
      eapply total_bind with (P := fun _ => True); [by apply total_index|].
      intros enemyType _.
      eapply total_bind with (P := fun maxHealth => 20 <= maxHealth).
      { destruct enemyType; total_step; total_step; lia. }
      intros maxHealth Hmax. do 2 total_step. simpl. split.
      - apply Forall_app. split; [done|]. apply Forall_singleton.
        unfold enemyAlive; simpl. change 0%Q with (inject_Z 0).
        rewrite <- Zlt_Qlt. lia.
      - by eexists. }
    intros [es1 s1] [Hes1 Hc1]. simpl in Hes1, Hc1.
    eapply total_weaken; [by apply IH|].
    intros [es2 s2] [Hes2 Hc2]. simpl in *. eauto using enemyIdChanged_trans.
Qed.

Lemma total_generateRandomEnemies worldMap size s :
  64 <= size -> wfGrid size worldMap ->
  total (generateRandomEnemies worldMap size s)
        (fun res => Forall enemyAlive res.1 /\ enemyIdChanged s res.2).
Proof.
  intros. unfold generateRandomEnemies. total_step. by apply total_placeEnemies.
Qed.

Lemma bossStats_alive bossType floorNumber :
  0 <= floorNumber -> (0 < (bossStats bossType floorNumber).1.1)%Q.
Proof.
  intros Hf.
  destruct bossType; simpl; change 0%Q with (inject_Z 0); rewrite <- Zlt_Qlt; lia.
Qed.

Lemma total_placeBoss n worldMap size floorNumber s :
  64 <= size -> wfGrid size worldMap -> 0 <= floorNumber ->
  total (placeBoss n worldMap size floorNumber s)
        (fun boss => forall b, boss = Some b ->
                       enemyAlive b /\ Enemy.isBoss b = true /\
                       Enemy.id b = (if GameState.nextEnemyId s =? 0
                                     then 1000 + floorNumber
                                     else GameState.nextEnemyId s)).
Proof.
  intros Hsize Hmap Hfloor. induction n as [|n IH]; cbn [placeBoss].
  - by apply total_ret.
  - do 2 total_step.
    eapply total_bind with (P := fun _ => True).
    { eapply total_isFloor; [exact Hmap|].
      apply (spawn_cell 5 size); [done|done|lia|lia]. }
    intros free _. total_step; [|apply IH].
    assert (0 <= floorNumber / 5) by (apply Z.div_pos; lia).
    eapply total_bind with (P := fun _ => True).
    { apply total_index; [|done]. simpl.
      pose proof (Z.rem_bound_pos (floorNumber / 5) 3). lia. }
    intros bossType _.
    pose proof (bossStats_alive bossType floorNumber Hfloor) as Halive.
    destruct (bossStats bossType floorNumber) as [[maxHealth spawns] phases].
    apply total_ret. intros b [= <-]. by simpl.
Qed.

Lemma Forall_slice0 {A} (P : A -> Prop) (l : list A) (stop : Z) :
  Forall P l -> Forall P (slice0 l stop).
Proof. intros. unfold slice0. destruct (stop <? 0); by apply Forall_take. Qed.

Lemma nextWorldSize_bounds (floor : Z) :
  0 <= floor -> 64 <= Z.min (64 + floor / 5 * 8) 96 <= 96.
Proof. intros. assert (0 <= floor / 5) by (apply Z.div_pos; lia). lia. Qed.

Lemma progressToNextFloor_blocked m :
  canProgress (Manager.state m) = false -> progressToNextFloor m = ret m.
Proof. intros Hc. unfold progressToNextFloor. by rewrite Hc. Qed.

(** When its guard holds, [progressToNextFloor] returns and has advanced the
    floor. *)
Lemma total_progressToNextFloor m :
  canProgress (Manager.state m) = true ->
  0 <= GameState.currentFloor (Manager.state m) ->
  total (progressToNextFloor m) (advanced m).
Proof.
  intros Hc Hfloor. unfold progressToNextFloor. rewrite Hc.
  set (s := Manager.state m).
  set (nextFloor := GameState.currentFloor s + 1).
  set (worldSize := Z.min (64 + nextFloor / 5 * 8) 96).
  assert (Hnext : 1 <= nextFloor) by (unfold nextFloor, s; lia).
  assert (Hsize : 64 <= worldSize <= 96) by (apply nextWorldSize_bounds; lia).
  eapply total_bind; [apply total_generateWorldMapWithTheme; lia|].
  intros worldMap Hmap. cbv zeta.
  set (p' := Player.set_ammo _ _).
  set (s1 := GameState.set_worldSize _ _).
  eapply total_bind with
    (P := fun s2 => exists es n,
            s2 = GameState.set_enemies es (GameState.set_nextEnemyId n s1) /\
            Forall enemyAlive es).
  { destruct (Z.rem nextFloor 5 =? 0).
    - eapply total_bind; [apply total_generateRandomEnemies; [lia|done]|].
      intros [regular s2] [Hreg Hid]. simpl in Hreg, Hid. destruct Hid as (n & ->).
      eapply total_bind; [apply total_placeBoss; [lia|done|lia]|].
      intros boss Hboss. apply total_ret. eexists _, n. split; [done|].
      destruct boss as [b|].
      + apply Forall_app. split; [by apply Forall_slice0|].
        apply Forall_singleton. by apply Hboss.
      + by apply Forall_slice0.
    - eapply total_bind; [apply total_generateRandomEnemies; [lia|done]|].
      intros [es s2] [Hes Hid]. simpl in Hes, Hid. destruct Hid as (n & ->).
      apply total_ret. by eexists _, n. }
  intros s2 (es & n & -> & Hes).
  eapply total_bind.
  { apply total_generateRandomPickups; simpl; [done|lia|constructor]. }
  intros s3 [(ps & k & ->) Hps]. apply total_ret.
  unfold advanced. simpl in *. repeat (split; [done|]). done.
Qed.

End PopulationTotal.

(** *** The invariant holds in every reachable state *)

Lemma post_bind_ret {A B} (a : A) (f : A -> Eff B) (Q : B -> Prop) :
  post (f a) Q -> post (bind (ret a) f) Q.
Proof. intros Hf r k b k' Hr E. exact (Hf r k b k' Hr E). Qed.

(** One step of a proof about the results of a computation. *)
Ltac post_step :=
  cbv zeta;
  lazymatch goal with
  | |- post (ret _) _ => apply post_ret
  | |- post throw _ => apply post_throw
  | |- post (bind (ret _) _) _ => apply post_bind_ret
  | |- post (bind (randomInt _) _) _ =>
      eapply post_bind; [apply total_post, total_randomInt | intros ? [? ?]]
  | |- post (bind (chance _) _) _ =>
      eapply post_bind; [apply post_true | intros ? _]
  | |- post (bind random _) _ =>
      eapply post_bind; [apply total_post, total_random | intros ? [? ?]]
  | |- post (bind (isFloor _ _ _) _) _ =>
      eapply post_bind; [apply post_true | intros ? _]
  | |- post (bind (notFloor _ _ _) _) _ =>
      eapply post_bind; [apply post_true | intros ? _]
  | |- post (bind (lift _) _) _ =>
      eapply post_bind; [apply post_true | intros ? _]
  | |- post (bind (if ?b then _ else _) _) _ => destruct b eqn:?
  | |- post (if ?b then _ else _) _ => destruct b eqn:?
  end.

Lemma ammoOf_setAmmoOf w w' v a :
  ammoOf (setAmmoOf w v a) w' = if decide (w' = w) then v else ammoOf a w'.
Proof. by destruct w, w', a. Qed.

Lemma Qred_pos q : (0 < q)%Q -> (0 < num q)%Q.
Proof. intros. unfold num. by rewrite Qred_correct. Qed.

Lemma Qleb_false_pos q : Qleb q 0 = false -> (0 < q)%Q.
Proof.
  unfold Qleb. intros Hq. apply Qnot_le_lt. intros Hle.
  apply Qle_bool_iff in Hle. congruence.
Qed.

Section Invariant.
Context `{HostMath}.

Lemma stateInv_initial : post createInitialState stateInv.
Proof.
  unfold createInitialState. cbv zeta.
  eapply post_bind;
    [apply total_post, (total_generateWorldMapWithTheme 64); lia|].
  intros worldMap Hmap. apply post_ret. unfold stateInv; simpl.
  split; [split; [simpl; lia | intros []; simpl; lia]|].
  repeat (split; [first [done | lia | constructor]|]). done.
Qed.

Lemma stateInv_set_player p s :
  playerBounded p -> stateInv s -> stateInv (GameState.set_player p s).
Proof. intros Hp (_ & Hrest). by split. Qed.

Lemma stateInv_set_pickups ps s :
  Forall pickupSound ps -> stateInv s -> stateInv (GameState.set_pickups ps s).
Proof. intros Hps (Hb & He & _ & Hrest). by repeat (split; [done|]). Qed.

Lemma stateInv_set_enemies es s :
  Forall enemyAlive es -> stateInv s -> stateInv (GameState.set_enemies es s).
Proof. intros Hes (Hb & _ & Hrest). by repeat (split; [done|]). Qed.

Lemma bounded_set_ammo p w v :
  playerBounded p -> 0 <= v <= ammoOf (Player.maxAmmo p) w ->
  playerBounded (Player.set_ammo (setAmmoOf w v (Player.ammo p)) p).
Proof.
  intros [Hh Ha] Hv. split; [done|]. intros w'. simpl.
  rewrite ammoOf_setAmmoOf. case_decide; [by subst|apply Ha].
Qed.

Lemma collectPickup_inv pickup s :
  pickupSound pickup -> stateInv s -> stateInv (collectPickup pickup s).
Proof.
  intros Hv Hs. pose proof Hs as (Hb & _). pose proof Hb as [Hh Ha].
  unfold pickupSound in Hv. unfold collectPickup.
  destruct (Pickup.type pickup); [| |destruct (Pickup.weaponType pickup) as [wt|]];
    try done; apply stateInv_set_player; try done.
  - split; [simpl; lia|apply Ha].
  - apply bounded_set_ammo; [done|].
    pose proof (Ha (Player.weapon (GameState.player s))). lia.
  - apply (bounded_set_ammo
             (Player.set_weapon wt (Player.set_availableWeapons _ (GameState.player s)))
             wt); [done|].
    simpl. pose proof (Ha wt). lia.
Qed.

Lemma collectFrom_inv n s : stateInv s -> stateInv (collectFrom n s).
Proof.
  revert s. induction n as [|n IH]; intros s Hs; simpl; [done|].
  apply IH. destruct (GameState.pickups s !! n) as [pickup|] eqn:E; [|done].
  destruct (Qltb _ _); [|done].
  assert (Hv : pickupSound pickup).
  { destruct Hs as (_ & _ & Hp & _). rewrite Forall_forall in Hp.
    apply Hp. by eapply list_elem_of_lookup_2. }
  pose proof (collectPickup_inv pickup s Hv Hs) as Hs'.
  apply stateInv_set_pickups; [|done].
  apply Forall_delete. by destruct Hs' as (_ & _ & Hp & _).
Qed.

Lemma fixedUpdate_inv s : stateInv s -> stateInv (fixedUpdate s).
Proof.
  intros Hs. unfold fixedUpdate. case_decide; [|done].
  assert (H1 : stateInv (updatePlayerAttackState s)).
  { unfold updatePlayerAttackState. apply stateInv_set_player; [|done].
    destruct Hs as (Hb & _).
    repeat (destruct (_ <? _) || destruct (_ =? _)); exact Hb. }
  assert (H2 : stateInv (updatePickupCollection (updatePlayerAttackState s)))
    by apply collectFrom_inv, H1.
  unfold updateGameStatus.
  destruct (_ <=? _); [|destruct (_ =? _)%nat]; done.
Qed.

Lemma fixedLoop_inv fuel s s' :
  stateInv s -> fixedLoop fuel s = Some s' -> stateInv s'.
Proof.
  revert s. induction fuel as [|fuel IH]; intros s Hs; simpl;
    destruct (Qgeb _ _); try done; try by intros [= <-].
  apply IH. by apply fixedUpdate_inv in Hs.
Qed.

(** Updates of an enemy that leave its health alone. *)
Ltac alive :=
  unfold enemyAlive in *; simpl;
  repeat (match goal with
          | |- context [if ?c then _ else _] => destruct c; simpl
          | |- context [match ?x with _ => _ end] => destruct x; simpl
          end);
  try assumption.

Lemma startEnemyExploration_alive enemy s :
  enemyAlive enemy -> post (startEnemyExploration enemy s) enemyAlive.
Proof.
  intros He. unfold startEnemyExploration. do 3 post_step.
  eapply post_bind; [apply post_true|]. intros clear _.
  destruct clear; repeat post_step; alive.
Qed.

Lemma continueEnemyExploration_alive enemy baseSpeed s :
  enemyAlive enemy -> post (continueEnemyExploration enemy baseSpeed s) enemyAlive.
Proof.
  intros He. unfold continueEnemyExploration.
  destruct (Enemy.explorationDirection enemy) as [direction|]; [|by apply post_ret].
  post_step.
  eapply post_bind with (P := enemyAlive).
  { destruct a; repeat post_step; alive. }
  intros e1 He1. repeat post_step; alive.
Qed.

Lemma checkBossPhaseTransition_alive boss :
  enemyAlive boss -> enemyAlive (checkBossPhaseTransition boss).
Proof. intros He. unfold checkBossPhaseTransition. alive. Qed.

Lemma minionKind_alive bossType :
  post (minionKind bossType) (fun kind => (0 < kind.2)%Q).
Proof.
  unfold minionKind. destruct bossType; repeat post_step; simpl;
    repeat (match goal with |- context [if ?c then _ else _] => destruct c; simpl end);
    qcmp.
Qed.

Lemma placeMinion_inv n boss s :
  enemyAlive boss -> stateInv s ->
  post (placeMinion n boss s) (fun res => enemyAlive res.1 /\ stateInv res.2).
Proof.
  intros He Hs. induction n as [|n IH]; cbn [placeMinion].
  - by apply post_ret.
  - do 2 post_step.
    eapply post_bind; [apply post_true|]. intros free _.
    post_step; [|exact IH].
    eapply post_bind; [apply minionKind_alive|]. intros [minionType minionHealth] Hm.
    post_step. post_step. simpl. split; [alive|].
    apply stateInv_set_enemies; [|exact Hs].
    apply Forall_app. split; [by destruct Hs as (_ & ? & _)|].
    by apply Forall_singleton.
Qed.

Lemma spawnBossMinion_inv boss s :
  enemyAlive boss -> stateInv s ->
  post (spawnBossMinion boss s) (fun res => enemyAlive res.1 /\ stateInv res.2).
Proof.
  intros. unfold spawnBossMinion. post_step; [by apply post_ret|].
  by apply placeMinion_inv.
Qed.

Lemma stepTowards_alive enemy tx ty step s :
  enemyAlive enemy ->
  post (stepTowards enemy tx ty step s)
       (fun moved => forall e, moved = Some e -> enemyAlive e).
Proof.
  intros He. unfold stepTowards. repeat post_step; [|done].
  intros e [= <-]. alive.
Qed.

Lemma updateEnemy_inv castRay i s :
  stateInv s -> post (updateEnemy castRay i s) stateInv.
Proof.
  intros Hs. unfold updateEnemy.
  destruct (GameState.enemies s !! i) as [enemy|] eqn:Ei; [|by apply post_ret].
  assert (He : enemyAlive enemy).
  { destruct Hs as (_ & Hes & _). rewrite Forall_forall in Hes.
    apply Hes. by eapply list_elem_of_lookup_2. }
  cbv zeta.
  eapply post_bind with (P := fun res => enemyAlive res.1 /\ stateInv res.2).
  { post_step; [|apply post_ret; split; [alive|done]].
    post_step; [|apply post_ret; split; [|done]].
    - apply spawnBossMinion_inv; [|done].
      apply checkBossPhaseTransition_alive. alive.
    - apply checkBossPhaseTransition_alive. alive. }
  intros [e1 s1] [He1 Hs1]. simpl in He1, Hs1.
  eapply post_bind with (P := fun res => enemyAlive res.1 /\ stateInv res.2).
  { destruct (Enemy.state e1).
    - (* idle *)
      post_step; [apply post_ret; split; [alive|done]|].
      post_step.
      + eapply post_bind; [by apply startEnemyExploration_alive|].
        intros e2 He2. by apply post_ret.
      + repeat post_step; (split; [alive|done]).
    - (* patrolling *)
      post_step; [apply post_ret; split; [alive|done]|].
      post_step.
      + eapply post_bind; [by apply startEnemyExploration_alive|].
        intros e2 He2. by apply post_ret.
      + destruct (Enemy.patrolTarget e1) as [target|]; [|by apply post_ret].
        eapply post_bind; [by apply stepTowards_alive|].
        intros [e2|] He2; apply post_ret; (split; [|done]); [by apply He2|alive].
    - (* chasing *)
      post_step; [apply post_ret; split; [alive|done]|].
      eapply post_bind with (P := fun moved => forall e, moved = Some e -> enemyAlive e).
      { apply stepTowards_alive. alive. }
      intros moved Hmoved.
      assert (enemyAlive (default (if Qgtb
                 (castRay (Enemy.x e1) (Enemy.y e1)
                    (Math_atan2 (Player.y (GameState.player s) - Enemy.y e1)
                                (Player.x (GameState.player s) - Enemy.x e1)))
                 (distance (Enemy.x enemy) (Enemy.y enemy)
                    (Player.x (GameState.player s)) (Player.y (GameState.player s)))
               then sightPlayer e1 (GameState.player s) else e1) moved)).
      { destruct moved as [e2|]; simpl; [by apply Hmoved|alive]. }
      post_step; apply post_ret; (split; [|done]); [alive|done].
    - (* attacking *)
      post_step; [apply post_ret; split; [alive|done]|].
      post_step; [|by apply post_ret].
      apply post_ret. split; [alive|]. simpl.
      apply stateInv_set_player; [|done].
      destruct Hs1 as ([Hh Ha] & _). split; [|exact Ha]. simpl.
      destruct (Enemy.enemyType e1); lia.
    - by apply post_ret. }
  intros [e2 s2] [He2 Hs2]. simpl in He2, Hs2.
  eapply post_bind with (P := enemyAlive).
  { destruct (Enemy.explorationDirection e2), (Enemy.state e2);
      try (by apply post_ret); by apply continueEnemyExploration_alive. }
  intros e3 He3. apply post_ret.
  apply stateInv_set_enemies; [|done].
  apply Forall_insert; [by destruct Hs2 as (_ & ? & _)|done].
Qed.

Lemma updateEnemies_inv castRay m :
  managerInv m -> post (updateEnemies castRay m) managerInv.
Proof.
  intros [Hs Hpub]. unfold updateEnemies.
  destruct (_ || _); [by apply post_ret|].
  eapply post_bind with (P := stateInv).
  { apply post_foldM; [done|]. intros i s _ Hs'. by apply updateEnemy_inv. }
  intros s' Hs'. apply post_ret. split; [done|]. simpl.
  constructor; [by destruct Hs' as (_ & ? & _)|done].
Qed.

Lemma list_find_insert_same {A} (P : A -> Prop) `{forall x, Decision (P x)}
    (l : list A) (i : nat) (x y : A) :
  list_find P l = Some (i, x) -> P y -> list_find P (<[i := y]> l) = Some (i, y).
Proof.
  intros Hf Hy. apply list_find_Some in Hf as (Hl & Hx & Hmin).
  apply list_find_insert_Some. right. left.
  repeat split; auto. by eapply lookup_lt_Some.
Qed.

Lemma delete_insert_same {A} (l : list A) (i : nat) (y : A) :
  delete i (<[i := y]> l) = delete i l.
Proof. revert i. induction l; intros [|i]; simpl; f_equal; auto. Qed.

Lemma notifyListeners_inv m : managerInv m -> managerInv (notifyListeners m).
Proof.
  intros [Hs Hpub]. split; [done|]. simpl.
  constructor; [by destruct Hs as (_ & ? & _)|done].
Qed.

Lemma managerInv_set_state s m :
  stateInv s -> managerInv m -> managerInv (Manager.set_state s m).
Proof. intros Hs [_ Hpub]. by split. Qed.

Lemma setTimeout_inv c delay m : managerInv m -> managerInv (setTimeout c delay m).
Proof. by intros [Hs Hpub]. Qed.

Lemma stateInv_replace s s' :
  stateInv s ->
  GameState.player s' = GameState.player s ->
  Forall enemyAlive (GameState.enemies s') ->
  Forall pickupSound (GameState.pickups s') ->
  GameState.currentFloor s' = GameState.currentFloor s ->
  GameState.worldSize s' = GameState.worldSize s ->
  GameState.worldMap s' = GameState.worldMap s ->
  stateInv s'.
Proof.
  intros (Hb & _ & _ & Hf & Hsz & Hmap) Hp Hes Hps Hf' Hsz' Hmap'.
  unfold stateInv. rewrite Hp, Hf', Hsz', Hmap'. by repeat (split; [done|]).
Qed.

Lemma damageEnemy_inv enemyId damage m :
  managerInv m -> post (damageEnemy enemyId damage m) (fun res => managerInv res.2).
Proof.
  intros Hm. pose proof Hm as [Hs Hpub]. unfold damageEnemy.
  destruct (findEnemyIndex _ _) as [[i enemy]|] eqn:Ef; [|by apply post_ret].
  cbv zeta.
  set (enemy' := Enemy.set_hurtTimer 5 _).
  set (s1 := GameState.set_enemies _ _).
  pose proof Hs as (Hb & Hes & Hps & Hrest).
  eapply post_bind with (P := managerInv).
  { destruct (Qleb (Enemy.health enemy') 0) eqn:Hdead.
    - eapply post_bind.
      { apply total_post, total_spawnEnemyDrops. exact Hps. }
      intros s2 [(ps & k & ->) Hps2]. apply post_ret. simpl.
      assert (Hid : Enemy.id enemy' = enemyId).
      { apply list_find_Some in Ef as (_ & Hid & _). exact Hid. }
      unfold findEnemyIndex in *.
      rewrite (list_find_insert_same _ _ i enemy enemy' Ef Hid).
      rewrite delete_insert_same.
      apply setTimeout_inv, managerInv_set_state; [|done].
      apply (stateInv_replace (Manager.state m)); try done.
      by apply Forall_delete.
    - apply post_ret. apply managerInv_set_state; [|done].
      apply stateInv_set_enemies; [|done].
      apply Forall_insert; [done|]. by apply Qleb_false_pos. }
  intros m' Hm'. apply post_ret. by apply notifyListeners_inv.
Qed.

Lemma progressToNextFloor_inv m :
  managerInv m -> post (progressToNextFloor m) managerInv.
Proof.
  intros Hm. pose proof Hm as [Hs Hpub].
  destruct (canProgress (Manager.state m)) eqn:Hc.
  - apply total_post. eapply total_weaken.
    { apply total_progressToNextFloor; [done|]. destruct Hs as (_ & _ & _ & ? & _). lia. }
    intros m' Hadv. destruct Hs as ([Hh Ha] & _ & _ & Hfloor & _).
    destruct Hadv as (Hf & Hsize & Hmap & _ & _ & _ & _ & Hh' & Hp & Hsg & Hcg &
                      Hmh & Hma & _ & _ & Hes & Hps & Hpub' & _).
    split.
    + unfold stateInv. split; [split|].
      * rewrite Hh', Hmh. lia.
      * intros w. rewrite Hma.
        pose proof (Ha Pistol). pose proof (Ha Shotgun). pose proof (Ha Chaingun).
        destruct w; simpl in *; rewrite ?Hp, ?Hsg, ?Hcg; lia.
      * repeat (split; [first [done | lia]|]).
        split; [|split; [done|by rewrite Hsize, Hf]]. rewrite Hsize.
        pose proof (nextWorldSize_bounds
                      (GameState.currentFloor (Manager.state m) + 1)). lia.
    + rewrite Hpub'. by constructor.
  - rewrite progressToNextFloor_blocked by done. by apply post_ret.
Qed.

Lemma checkFloorProgression_inv m : managerInv m -> managerInv (checkFloorProgression m).
Proof.
  intros Hm. unfold checkFloorProgression.
  destruct (GameState.isBossFloor _); [destruct (_ && _)|destruct (_ =? _)%nat];
    try done; by apply setTimeout_inv.
Qed.

Lemma updateWithDeltaTime_inv currentTime m :
  managerInv m -> post (updateWithDeltaTime currentTime m) managerInv.
Proof.
  intros Hm. pose proof Hm as [Hs Hpub]. unfold updateWithDeltaTime. cbv zeta.
  destruct (GameState.isPaused _); [by apply post_ret|].
  destruct (Qeq_bool _ _).
  - eapply post_bind with (P := stateInv).
    { destruct (_ =? _)%nat; [|by apply post_ret].
      unfold initializeEnemiesAfterState.
      destruct Hs as (Hb & Hes & Hps & Hf & Hsize & Hmap).
      eapply post_bind.
      { apply total_post, total_generateRandomEnemies; [exact Hsize|exact (proj1 Hmap)]. }
      intros [enemies s'] [Hes' Hid]. simpl in Hes', Hid. destruct Hid as (n & ->).
      apply post_ret. by repeat (split; [done|]). }
    intros s' Hs'. apply post_ret. by apply managerInv_set_state.
  - eapply post_bind with (P := stateInv).
    { apply post_lift. intros s' Hloop. by eapply fixedLoop_inv in Hloop. }
    intros s' Hs'. apply post_ret.
    by apply notifyListeners_inv, managerInv_set_state.
Qed.

Lemma updatePlayer_inv input m :
  managerInv m -> post (updatePlayer input m) managerInv.
Proof.
  intros Hm. pose proof Hm as [Hs Hpub]. unfold updatePlayer.
  destruct (_ || _); [by apply post_ret|]. cbv zeta.
  repeat match goal with
         | |- context [let '(_, _) := ?c in _] => destruct c
         end.
  do 3 post_step.
  apply notifyListeners_inv, managerInv_set_state; [|done].
  apply stateInv_set_player; [|done].
  destruct Hs as (Hb & _).
  repeat match goal with
         | |- context [if ?c then _ else _] => destruct c
         end; exact Hb.
Qed.

Lemma updateMouseLook_inv deltaX m : managerInv m -> managerInv (updateMouseLook deltaX m).
Proof.
  intros Hm. unfold updateMouseLook. destruct (_ || _); [done|].
  apply notifyListeners_inv, managerInv_set_state; [|done].
  apply stateInv_set_player; [|by destruct Hm]. by destruct Hm as ((Hb & _) & _).
Qed.

Lemma shoot_inv m : managerInv m -> managerInv (shoot m).2.
Proof.
  intros Hm. pose proof Hm as [Hs Hpub]. unfold shoot.
  destruct (_ || _) eqn:Hguard; [done|]. simpl. zbool.
  apply notifyListeners_inv, managerInv_set_state; [|done].
  apply stateInv_set_player; [|done].
  destruct Hs as (Hb & _).
  apply (bounded_set_ammo (GameState.player (Manager.state m))) ; [done|].
  destruct Hb as [_ Ha].
  pose proof (Ha (Player.weapon (GameState.player (Manager.state m)))).
  destruct (Player.weapon _); simpl in *; lia.
Qed.

Lemma switchWeapon_inv weapon m : managerInv m -> managerInv (switchWeapon weapon m).2.
Proof.
  intros Hm. unfold switchWeapon. case_decide; [|done]. simpl.
  apply notifyListeners_inv, managerInv_set_state; [|done].
  apply stateInv_set_player; [|by destruct Hm]. by destruct Hm as ((Hb & _) & _).
Qed.

Lemma pause_inv m : managerInv m -> managerInv (pause m).
Proof.
  intros Hm. unfold pause. case_decide; [|done].
  apply notifyListeners_inv, managerInv_set_state; [|done]. exact (proj1 Hm).
Qed.

Lemma resume_inv m : managerInv m -> managerInv (resume m).
Proof.
  intros Hm. unfold resume. case_decide; [|done].
  apply notifyListeners_inv, managerInv_set_state; [|done]. exact (proj1 Hm).
Qed.

Lemma reset_inv m : managerInv m -> post (reset m) managerInv.
Proof.
  intros Hm. unfold reset. eapply post_bind; [apply stateInv_initial|].
  intros s Hs. apply post_ret. by apply notifyListeners_inv, managerInv_set_state.
Qed.

Lemma newManager_inv : post newManager managerInv.
Proof.
  unfold newManager. eapply post_bind; [apply stateInv_initial|].
  intros s Hs. apply post_ret. split; [done|constructor].
Qed.

Lemma fireTimer_inv i m : managerInv m -> post (fireTimer i m) managerInv.
Proof.
  intros Hm. unfold fireTimer.
  destruct (Manager.timers m !! i) as [[delay c]|]; [|by apply post_ret].
  assert (Hm' : managerInv (Manager.mk (Manager.state m) (Manager.published m)
                                       (delete i (Manager.timers m)))) by exact Hm.
  destruct c; simpl.
  - apply post_ret. by apply checkFloorProgression_inv.
  - by apply progressToNextFloor_inv.
Qed.

Lemma perform_inv op m : managerInv m -> post (perform op m) managerInv.
Proof.
  intros Hm. destruct op; simpl.
  - by apply updateWithDeltaTime_inv.
  - by apply updatePlayer_inv.
  - apply post_ret. by apply updateMouseLook_inv.
  - apply post_ret. by apply shoot_inv.
  - by apply updateEnemies_inv.
  - eapply post_bind; [by apply damageEnemy_inv|]. intros res Hres. by apply post_ret.
  - apply post_ret. by apply switchWeapon_inv.
  - apply post_ret. by apply pause_inv.
  - apply post_ret. by apply resume_inv.
  - apply post_ret. unfold togglePause.
    destruct (GameState.isPaused _); [by apply resume_inv | by apply pause_inv].
  - by apply progressToNextFloor_inv.
  - apply post_ret. by apply checkFloorProgression_inv.
  - by apply reset_inv.
  - by apply fireTimer_inv.
Qed.

(** Every reachable manager satisfies the invariant. *)
Lemma reachable_inv m : Reachable m -> managerInv m.
Proof.
  induction 1 as [r m k Hr Hnew | op r m m' k _ IH Hr Hcall].
  - by eapply newManager_inv.
  - by eapply perform_inv.
Qed.

Lemma runCalls_reachable calls m m' :
  Reachable m -> Forall (fun c : Op * Rand => valid_rand c.2) calls ->
  runCalls calls m = Some m' -> Reachable m'.
Proof.
  revert m. induction calls as [|[op r] calls IH]; intros m Hm Hvalid; simpl.
  - by intros [= <-].
  - apply Forall_cons in Hvalid as [Hr Hvalid]. simpl in Hr.
    destruct (perform op m r 0%nat) as [[m1 k]|] eqn:E; [|done].
    apply IH; [|done]. by eapply reach_call.
Qed.

Lemma runFrom_reachable r0 calls m :
  valid_rand r0 -> Forall (fun c : Op * Rand => valid_rand c.2) calls ->
  runFrom r0 calls = Some m -> Reachable m.
Proof.
  intros Hr0 Hvalid. unfold runFrom.
  destruct (newManager r0 0%nat) as [[m0 k]|] eqn:E; [|done].
  apply runCalls_reachable; [|done]. by eapply reach_new.
Qed.

End Invariant.

(** ** The claims on concrete runs and in general *)

(** *** Streams and scripts *)

Lemma quarter_valid : valid_rand quarter.
Proof. apply valid_streamOf; [qcmp|constructor]. Qed.

Lemma half_valid : valid_rand half.
Proof. apply valid_streamOf; [qcmp|constructor]. Qed.

Lemma firstEnemyStream_valid : valid_rand firstEnemyStream.
Proof. apply valid_streamOf; [qcmp|]. repeat constructor; qcmp. Qed.

Lemma bossFloorStream_valid : valid_rand bossFloorStream.
Proof. apply valid_streamOf; [qcmp|]. repeat constructor; qcmp. Qed.

Lemma frames_valid n : Forall (fun c : Op * Rand => valid_rand c.2) (frames n).
Proof.
  unfold frames. constructor; [apply firstEnemyStream_valid|].
  apply Forall_forall. intros c Hc.
  apply list_elem_of_bind in Hc as (k & Hc & _).
  unfold frame in Hc. repeat (apply elem_of_cons in Hc as [->|Hc]);
    [apply half_valid | apply half_valid | by apply elem_of_nil in Hc].
Qed.

Lemma toBossFloor_valid : Forall (fun c : Op * Rand => valid_rand c.2) toBossFloor.
Proof.
  unfold toBossFloor.
  repeat (apply List.Forall_cons; [first [apply quarter_valid | apply bossFloorStream_valid]|]).
  apply List.Forall_nil.
Qed.

Lemma freshManager_returns : returns freshManager = true.
Proof. vm_compute. reflexivity. Qed.

Lemma freshManager_reachable m : freshManager = Some m -> Reachable (H := approxMath) m.
Proof.
  unfold freshManager. intros E.
  destruct (newManager quarter 0%nat) as [[m' k]|] eqn:En; [|discriminate].
  injection E as ->. exact (reach_new quarter m k quarter_valid En).
Qed.

(** *** C2: health and ammunition bounds *)

(** After 584 frames next to a soldier that sees the player, the player's
    health is -8 and the game is still in status [Playing]; the snapshot
    published last shows it. *)
Lemma frames_584_health :
  match runFrom (H := approxMath) quarter (frames 584) with
  | Some m =>
      (Player.health (GameState.player (Manager.state m)),
       GameState.gameStatus (Manager.state m),
       Player.health ∘ GameState.player <$> head (Manager.published m))
  | None => (0, Defeat, None)
  end = (-8, Playing, Some (-8)).
Proof. vm_compute. reflexivity. Qed.

(** C2 (counterexample).  A manager reached through [updateWithDeltaTime]
    and [updateEnemies] alone in which the player's health is negative: the
    attack of an enemy subtracts its damage without a lower bound. *)
Lemma health_negative_reachable :
  exists m, Reachable (H := approxMath) m /\
    Player.health (GameState.player (Manager.state m)) < 0 /\
    GameState.gameStatus (Manager.state m) = Playing.
Proof.
  pose proof frames_584_health as Hrun.
  pose proof (runFrom_reachable (H := approxMath) quarter (frames 584)) as Hreach.
  destruct (runFrom quarter (frames 584)) as [m|]; [|discriminate].
  exists m. split.
  - apply Hreach; [apply quarter_valid | apply frames_valid | reflexivity].
  - injection Hrun as Hh Hs _. rewrite Hh. by split.
Qed.

(** C2 (as the code has it).  In every reachable state the player's health
    is at most [maxHealth] and, for every weapon, the ammunition lies between
    0 and that weapon's maximum.  Health has no lower bound. *)
Theorem health_ammo_bounds `{HostMath} (m : Manager.t) :
  Reachable m ->
  let p := GameState.player (Manager.state m) in
  Player.health p <= Player.maxHealth p /\
  forall w, 0 <= ammoOf (Player.ammo p) w <= ammoOf (Player.maxAmmo p) w.
Proof. intros Hm. by destruct (reachable_inv m Hm) as [[Hb _] _]. Qed.

Lemma health_ammo_bounds_witness :
  exists m, freshManager = Some m /\
    let p := GameState.player (Manager.state m) in
    Player.health p <= Player.maxHealth p /\
    forall w, 0 <= ammoOf (Player.ammo p) w <= ammoOf (Player.maxAmmo p) w.
Proof.
  pose proof freshManager_returns as Hret.
  destruct freshManager as [m|] eqn:E; [|discriminate].
  exists m. split; [reflexivity|].
  apply (health_ammo_bounds (H := approxMath) m), freshManager_reachable, E.
Defined.
(** *** C3: [shoot] *)

Lemma set_player_restore (p : Player.t) (s : GameState.t) :
  GameState.set_player (GameState.player s) (GameState.set_player p s) = s.
Proof. by destruct s. Qed.

Lemma freshManager_player :
  (fun m => let s := Manager.state m in
            (GameState.gameStatus s, GameState.isPaused s,
             Player.weapon (GameState.player s),
             Ammo.pistol (Player.ammo (GameState.player s)))) <$> freshManager
  = Some (Playing, false, Pistol, 50).
Proof. vm_compute. reflexivity. Qed.

(** C3.  [shoot] returns [false] and leaves the manager as it is (state,
    published snapshots, timers) when the status is not [Playing], the game
    is paused or the current weapon has no ammunition.  Otherwise, in a
    reachable state, it returns [true]; the current weapon's ammunition has
    gone down by the weapon's [ammoUse], the other weapons' is unchanged,
    the attack and muzzle-flash timers hold the weapon's [attackDuration] and
    [muzzleDuration], both flags are set, nothing but these player fields has
    changed, and the new state has been published. *)
Theorem shoot_spec `{HostMath} (m : Manager.t) :
  let s := Manager.state m in
  let p := GameState.player s in
  let w := Player.weapon p in
  let stats := WEAPON_STATS w in
  (GameState.gameStatus s <> Playing \/ GameState.isPaused s = true \/
   ammoOf (Player.ammo p) w = 0 ->
   shoot m = (false, m)) /\
  (Reachable m ->
   GameState.gameStatus s = Playing -> GameState.isPaused s = false ->
   ammoOf (Player.ammo p) w <> 0 ->
   exists m',
     shoot m = (true, m') /\
     let s' := Manager.state m' in
     let p' := GameState.player s' in
     ammoOf (Player.ammo p') w = ammoOf (Player.ammo p) w - WeaponStats.ammoUse stats /\
     (forall w', w' <> w -> ammoOf (Player.ammo p') w' = ammoOf (Player.ammo p) w') /\
     Player.attackTimer p' = WeaponStats.attackDuration stats /\
     Player.muzzleFlashTimer p' = WeaponStats.muzzleDuration stats /\
     Player.isAttacking p' = true /\
     Player.muzzleFlash p' = true /\
     p' = Player.set_muzzleFlashTimer (Player.muzzleFlashTimer p')
            (Player.set_muzzleFlash true
               (Player.set_attackTimer (Player.attackTimer p')
                  (Player.set_isAttacking true
                     (Player.set_ammo (Player.ammo p') p)))) /\
     GameState.set_player p s' = s /\
     Manager.published m' = s' :: Manager.published m /\
     Manager.timers m' = Manager.timers m).
Proof.
  intros s p w stats. split.
  - intros Hblocked. unfold shoot. fold s p w.
    destruct Hblocked as [Hs|[Hp|Ha]].
    + rewrite bool_decide_eq_false_2 by done. reflexivity.
    + rewrite Hp. by rewrite orb_true_r.
    + rewrite Ha. by rewrite !orb_true_r.
  - intros Hreach Hs Hp Ha.
    assert (Hpos : 0 < ammoOf (Player.ammo p) w).
    { destruct (reachable_inv m Hreach) as [[[_ Hb] _] _].
      pose proof (Hb w). unfold p, s in *. lia. }
    unfold shoot. fold s p w stats.
    rewrite bool_decide_eq_true_2 by done. rewrite Hp.
    replace (ammoOf (Player.ammo p) w <=? 0) with false by (symmetry; lia).
    simpl. eexists. split; [reflexivity|]. simpl.
    split; [rewrite ammoOf_setAmmoOf; by rewrite decide_True|].
    split; [intros w' Hw'; rewrite ammoOf_setAmmoOf; by rewrite decide_False|].
    repeat (split; [reflexivity|]).
    split; [apply set_player_restore|done].
Qed.

Lemma shoot_spec_witness :
  shoot (pause demoManager) = (false, pause demoManager) /\
  exists m m',
    freshManager = Some m /\ shoot m = (true, m') /\
    Ammo.pistol (Player.ammo (GameState.player (Manager.state m'))) = 49 /\
    Player.attackTimer (GameState.player (Manager.state m')) = 15 /\
    Player.muzzleFlashTimer (GameState.player (Manager.state m')) = 8.
Proof.
  split.
  - apply (shoot_spec (H := approxMath) (pause demoManager)).
    right. left. reflexivity.
  - pose proof freshManager_player as Hobs.
    destruct freshManager as [m|] eqn:E; [|discriminate].
    injection Hobs as Hs Hp Hw Ha.
    destruct (proj2 (shoot_spec (H := approxMath) m)) as (m' & Hshoot & Hammo & _ & Hat & Hmt & _).
    + by apply freshManager_reachable.
    + exact Hs.
    + exact Hp.
    + rewrite Hw. simpl. rewrite Ha. lia.
    + exists m, m'. rewrite Hw in Hammo, Hat, Hmt. simpl in Hammo, Hat, Hmt.
      rewrite Ha in Hammo. by repeat split.
Defined.

(** *** C9: [switchWeapon] *)

(** C9.  [switchWeapon w] with [w] not among the available weapons returns
    [false] and leaves the manager as it is; with [w] available it returns
    [true], the current weapon is [w], nothing else in the state has changed
    and the new state has been published. *)
Theorem switchWeapon_spec (w : Weapon) (m : Manager.t) :
  let s := Manager.state m in
  let p := GameState.player s in
  (w ∉ Player.availableWeapons p -> switchWeapon w m = (false, m)) /\
  (w ∈ Player.availableWeapons p ->
   exists m',
     switchWeapon w m = (true, m') /\
     let s' := Manager.state m' in
     Player.weapon (GameState.player s') = w /\
     GameState.player s' = Player.set_weapon w p /\
     GameState.set_player p s' = s /\
     Manager.published m' = s' :: Manager.published m /\
     Manager.timers m' = Manager.timers m).
Proof.
  intros s p. unfold switchWeapon. fold s p. split; intros Hw.
  - by rewrite decide_False.
  - rewrite decide_True by done. eexists. split; [reflexivity|]. simpl.
    repeat (split; [reflexivity|]). split; [apply set_player_restore|done].
Qed.

Lemma switchWeapon_spec_witness :
  switchWeapon Shotgun demoManager = (false, demoManager) /\
  exists m', switchWeapon Pistol demoManager = (true, m') /\
             Player.weapon (GameState.player (Manager.state m')) = Pistol.
Proof.
  split.
  - apply (switchWeapon_spec Shotgun demoManager). simpl. set_solver.
  - destruct (proj2 (switchWeapon_spec Pistol demoManager)) as (m' & Hsw & Hw & _).
    + simpl. set_solver.
    + by exists m'.
Defined.

(** *** C10: [damageEnemy] with an id no enemy carries *)

(** C10.  When no enemy of the live set carries [enemyId], [damageEnemy]
    returns [false] whatever the damage; the manager is the one it was given
    (no health changed, nothing dropped or removed, nothing published, no
    timer started) and [Math.random] has not been called. *)
Theorem damageEnemy_absent (enemyId : Z) (damage : Q) (m : Manager.t)
    (r : Rand) (k : nat) :
  (forall e, e ∈ GameState.enemies (Manager.state m) -> Enemy.id e <> enemyId) ->
  damageEnemy enemyId damage m r k = Some ((false, m), k).
Proof.
  intros Habsent. unfold damageEnemy.
  destruct (findEnemyIndex _ _) as [[i e]|] eqn:Ef; [|reflexivity].
  apply list_find_Some in Ef as (Hl & Hid & _).
  exfalso. eapply Habsent; [|exact Hid]. by eapply list_elem_of_lookup_2.
Qed.

Lemma damageEnemy_absent_witness :
  damageEnemy 8 (25 # 2) demoManager quarter 0%nat = Some ((false, demoManager), 0%nat).
Proof.
  apply (damageEnemy_absent 8 (25 # 2) demoManager quarter 0%nat).
  intros e He. simpl in He. apply list_elem_of_singleton in He as ->. simpl. lia.
Defined.
(** *** C4: dead enemies leave the live set *)






(** *** C5: the guard of [progressToNextFloor] *)

Lemma bossKilled_valid : Forall (fun c : Op * Rand => valid_rand c.2) bossKilled.
Proof.
  apply Forall_app. split; [apply toBossFloor_valid|].
  apply Forall_singleton, quarter_valid.
Qed.

Lemma bossFloorCleared_valid :
  Forall (fun c : Op * Rand => valid_rand c.2) bossFloorCleared.
Proof.
  apply Forall_app. split; [apply bossKilled_valid|].
  apply Forall_singleton, quarter_valid.
Qed.

Lemma bossSpawnsMinion_valid :
  Forall (fun c : Op * Rand => valid_rand c.2) bossSpawnsMinion.
Proof.
  apply Forall_app. split; [apply toBossFloor_valid|].
  apply Forall_singleton, quarter_valid.
Qed.

(** Floor 5 after its boss was killed, and the floor [progressToNextFloor]
    leads to from there. *)
Lemma bossDead_progress :
  match runFrom (H := approxMath) quarter bossKilled with
  | Some m =>
      match progressToNextFloor (H := approxMath) m quarter 0%nat with
      | Some (m', _) =>
          Some (GameState.currentFloor (Manager.state m),
                GameState.isBossFloor (Manager.state m),
                GameState.bossDefeated (Manager.state m),
                length (GameState.enemies (Manager.state m)),
                GameState.currentFloor (Manager.state m'))
      | None => None
      end
  | None => None
  end = Some (5, true, false, 0%nat, 6).
Proof. vm_compute. reflexivity. Qed.

(** C5 (counterexample).  On the boss floor 5, once the boss is dead and
    before [checkFloorProgression] has set the boss-defeated flag,
    [progressToNextFloor] advances to floor 6. *)
Lemma boss_floor_advances_unflagged :
  exists m m' k,
    Reachable (H := approxMath) m /\
    GameState.isBossFloor (Manager.state m) = true /\
    GameState.bossDefeated (Manager.state m) = false /\
    progressToNextFloor (H := approxMath) m quarter 0%nat = Some (m', k) /\
    GameState.currentFloor (Manager.state m) = 5 /\
    GameState.currentFloor (Manager.state m') = 6.
Proof.
  pose proof bossDead_progress as Hobs.
  pose proof (runFrom_reachable (H := approxMath) quarter bossKilled) as Hreach.
  destruct (runFrom quarter bossKilled) as [m|]; [|discriminate].
  destruct (progressToNextFloor m quarter 0%nat) as [[m' k]|] eqn:Hrun; [|discriminate].
  injection Hobs as Hf Hb Hd _ Hf'.
  exists m, m', k. split.
  - apply Hreach; [apply quarter_valid | apply bossKilled_valid | reflexivity].
  - by repeat split.
Qed.

(** C5 (as the code has it).  On a floor whose number is not negative,
    [progressToNextFloor] advances when the enemy list is empty, or on a boss
    floor whose boss-defeated flag is set: it then returns, whatever
    [Math.random] gives, with the floor number one higher and the changes of
    [advanced].  Otherwise, with an enemy left and
    the floor not a boss floor or the flag unset, it returns with the manager
    as it was.  On a regular floor it therefore advances exactly when no
    enemy is left; on a boss floor an empty enemy list suffices, flag or
    not. *)
Theorem progression_gate `{HostMath} (m : Manager.t) (r : Rand) (k : nat) :
  valid_rand r ->
  0 <= GameState.currentFloor (Manager.state m) ->
  let s := Manager.state m in
  (GameState.enemies s = [] \/
   (GameState.isBossFloor s = true /\ GameState.bossDefeated s = true) ->
   exists m' k',
     progressToNextFloor m r k = Some (m', k') /\
     GameState.currentFloor (Manager.state m') = GameState.currentFloor s + 1 /\
     advanced m m') /\
  (GameState.enemies s <> [] ->
   GameState.isBossFloor s = false \/ GameState.bossDefeated s = false ->
   progressToNextFloor m r k = Some (m, k)).
Proof.
  intros Hr Hfloor s. split.
  - intros Hgate.
    assert (Hc : canProgress s = true).
    { unfold canProgress. destruct Hgate as [->|[-> ->]]; [done|by rewrite orb_true_r]. }
    destruct (total_progressToNextFloor m Hc Hfloor r k Hr) as (m' & k' & Hrun & Hadv).
    exists m', k'. split; [exact Hrun|]. split; [|exact Hadv]. by destruct Hadv as (Hf & _).
  - intros Hes Hflag.
    assert (Hc : canProgress s = false).
    { unfold canProgress. destruct (GameState.enemies s); [done|].
      simpl. by destruct Hflag as [->| ->]; [|rewrite andb_false_r]. }
    by rewrite progressToNextFloor_blocked.
Qed.

Lemma progression_gate_witness :
  (exists m' k',
     progressToNextFloor (H := approxMath) clearedManager quarter 0%nat = Some (m', k') /\
     GameState.currentFloor (Manager.state m') = 6) /\
  progressToNextFloor (H := approxMath) demoManager quarter 0%nat = Some (demoManager, 0%nat).
Proof.
  split.
  - destruct (proj1 (progression_gate (H := approxMath) clearedManager quarter 0%nat
                       quarter_valid ltac:(simpl; lia)))
      as (m' & k' & Hrun & Hf & _).
    + left. reflexivity.
    + exists m', k'. split; [exact Hrun | exact Hf].
  - refine (proj2 (progression_gate (H := approxMath) demoManager quarter 0%nat
                     quarter_valid _) _ _).
    + simpl. lia.
    + discriminate.
    + right. reflexivity.
Defined.

(** *** C6: from floor 5 to floor 6 *)

(** Floor 5 once cleared and flagged, and floor 6 after it. *)
Lemma floorFiveCleared_progress :
  match runFrom (H := approxMath) quarter bossFloorCleared with
  | Some m =>
      match progressToNextFloor (H := approxMath) m quarter 0%nat with
      | Some (m', _) =>
          Some (GameState.currentFloor (Manager.state m),
                GameState.bossDefeated (Manager.state m),
                length (GameState.enemies (Manager.state m)),
                GameState.worldSize (Manager.state m),
                GameState.currentFloor (Manager.state m'),
                GameState.worldSize (Manager.state m'))
      | None => None
      end
  | None => None
  end = Some (5, true, 0%nat, 72, 6, 72).
Proof. vm_compute. reflexivity. Qed.

(** C6 (counterexample).  Floor 5 is cleared, its flag set, and progression
    runs: floor 6 has the world size of floor 5, 72. *)
Lemma floor_six_not_larger :
  exists m m' k,
    Reachable (H := approxMath) m /\
    GameState.currentFloor (Manager.state m) = 5 /\
    GameState.enemies (Manager.state m) = [] /\
    GameState.bossDefeated (Manager.state m) = true /\
    progressToNextFloor (H := approxMath) m quarter 0%nat = Some (m', k) /\
    GameState.currentFloor (Manager.state m') = 6 /\
    ~ GameState.worldSize (Manager.state m) < GameState.worldSize (Manager.state m').
Proof.
  pose proof floorFiveCleared_progress as Hobs.
  pose proof (runFrom_reachable (H := approxMath) quarter bossFloorCleared) as Hreach.
  destruct (runFrom quarter bossFloorCleared) as [m|]; [|discriminate].
  destruct (progressToNextFloor m quarter 0%nat) as [[m' k]|] eqn:Hrun; [|discriminate].
  injection Hobs as Hf Hd Hn Hsz Hf' Hsz'.
  exists m, m', k. split.
  - apply Hreach; [apply quarter_valid | apply bossFloorCleared_valid | reflexivity].
  - repeat split; try done.
    + by destruct (GameState.enemies (Manager.state m)).
    + lia.
Qed.

(** C6 (as the code has it).  In a reachable state on floor 5 with no enemy
    left, [progressToNextFloor] returns with floor 6, whose world size is 72
    as that of floor 5; the player's health is 25 higher, capped at
    [maxHealth], and the pistol, shotgun and chaingun ammunition is 20, 10
    and 30 higher, each capped at its maximum. *)
Theorem floor_five_progression `{HostMath} (m : Manager.t) (r : Rand) (k : nat) :
  Reachable m ->
  valid_rand r ->
  GameState.currentFloor (Manager.state m) = 5 ->
  GameState.enemies (Manager.state m) = [] ->
  exists m' k',
    progressToNextFloor m r k = Some (m', k') /\
    let s := Manager.state m in
    let s' := Manager.state m' in
    let p := GameState.player s in
    let p' := GameState.player s' in
    GameState.currentFloor s' = 6 /\
    GameState.worldSize s = 72 /\
    GameState.worldSize s' = 72 /\
    Player.health p' = Z.min (Player.maxHealth p) (Player.health p + 25) /\
    Ammo.pistol (Player.ammo p') =
      Z.min (Ammo.pistol (Player.maxAmmo p)) (Ammo.pistol (Player.ammo p) + 20) /\
    Ammo.shotgun (Player.ammo p') =
      Z.min (Ammo.shotgun (Player.maxAmmo p)) (Ammo.shotgun (Player.ammo p) + 10) /\
    Ammo.chaingun (Player.ammo p') =
      Z.min (Ammo.chaingun (Player.maxAmmo p)) (Ammo.chaingun (Player.ammo p) + 30) /\
    Player.maxHealth p' = Player.maxHealth p /\
    Player.maxAmmo p' = Player.maxAmmo p.
Proof.
  intros Hreach Hr Hfloor Hes.
  assert (Hc : canProgress (Manager.state m) = true).
  { unfold canProgress. by rewrite Hes. }
  destruct (total_progressToNextFloor m Hc ltac:(lia) r k Hr) as (m' & k' & Hrun & Hadv).
  destruct (reachable_inv m Hreach) as [(_ & _ & _ & _ & _ & _ & Hsize) _].
  destruct Hadv as (Hf & Hsize' & _ & _ & _ & _ & _ & Hh & Hp & Hsg & Hcg & Hmh & Hma & _).
  exists m', k'. split; [exact Hrun|]. cbv zeta.
  rewrite Hfloor in Hf, Hsize, Hsize'.
  repeat (split; [done|]). done.
Qed.

Lemma floor_five_progression_witness :
  exists m m' k',
    runFrom (H := approxMath) quarter bossFloorCleared = Some m /\
    progressToNextFloor (H := approxMath) m quarter 0%nat = Some (m', k') /\
    GameState.currentFloor (Manager.state m') = 6 /\
    GameState.worldSize (Manager.state m') = 72.
Proof.
  pose proof floorFiveCleared_progress as Hobs.
  pose proof (runFrom_reachable (H := approxMath) quarter bossFloorCleared) as Hreach.
  destruct (runFrom quarter bossFloorCleared) as [m|]; [|discriminate].
  assert (Hf : GameState.currentFloor (Manager.state m) = 5 /\
               GameState.enemies (Manager.state m) = []).
  { destruct (progressToNextFloor m quarter 0%nat) as [[m' k]|]; [|discriminate].
    injection Hobs as Hf _ Hn _ _ _.
    split; [done|]. by destruct (GameState.enemies (Manager.state m)). }
  destruct (floor_five_progression (H := approxMath) m quarter 0%nat)
    as (m' & k' & Hrun & Hf' & _ & Hsz' & _).
  - apply Hreach; [apply quarter_valid | apply bossFloorCleared_valid | reflexivity].
  - apply quarter_valid.
  - apply Hf.
  - apply Hf.
  - exists m, m', k'. repeat split; [exact Hrun | exact Hf' | exact Hsz'].
Defined.

(** *** C7: enemy ids *)

Lemma bossSpawnsMinion_enemies :
  match runFrom (H := approxMath) quarter bossSpawnsMinion with
  | Some m =>
      Some ((fun e => (Enemy.id e, Enemy.isBoss e, Enemy.enemyType e))
              <$> GameState.enemies (Manager.state m),
            GameState.nextEnemyId (Manager.state m))
  | None => None
  end = Some ([(1, true, BossCyberdemon); (1, false, Soldier)], 2).
Proof. vm_compute. reflexivity. Qed.

(** C7 (fails on the code).  Four progressions from a fresh manager lead to
    floor 5, whose boss takes the id 1 from [nextEnemyId] without advancing
    the counter; the first minion the boss spawns takes the id 1 as well.
    The live set then holds two enemies with the same id, and the enemy
    created later has an id that is not greater than the earlier one's. *)
Theorem boss_and_minion_share_id :
  exists m boss minion,
    Reachable (H := approxMath) m /\
    GameState.enemies (Manager.state m) = [boss; minion] /\
    Enemy.isBoss boss = true /\ Enemy.isBoss minion = false /\
    Enemy.id boss = 1 /\ Enemy.id minion = 1 /\
    ~ NoDup (Enemy.id <$> GameState.enemies (Manager.state m)).
Proof.
  pose proof bossSpawnsMinion_enemies as Hobs.
  pose proof (runFrom_reachable (H := approxMath) quarter bossSpawnsMinion) as Hreach.
  destruct (runFrom quarter bossSpawnsMinion) as [m|]; [|discriminate].
  injection Hobs as Hes _.
  destruct (GameState.enemies (Manager.state m)) as [|boss [|minion [|]]] eqn:E;
    try discriminate.
  injection Hes as Hib Hbb _ Him Hbm _.
  exists m, boss, minion. split.
  - apply Hreach; [apply quarter_valid | apply bossSpawnsMinion_valid | reflexivity].
  - rewrite E. repeat (split; [done|]). simpl. rewrite Hib, Him.
    intros Hnd. apply NoDup_cons in Hnd as [Hnotin _]. apply Hnotin. by left.
Qed.
(** *** C8: the fixed-timestep clock *)

Section Clock.
Context `{HostMath}.
Local Open Scope Q_scope.











End Clock.




(** ** Further properties of the game state manager *)

(** *** Pausing *)

(** X1.  From a running, unpaused game, [pause] followed by [resume] gives
    back the state it started from with the accumulator at zero, and two
    snapshots have been published; pausing twice is pausing once; [pause]
    outside status [Playing] and [resume] outside status [Paused] do
    nothing. *)
Theorem pause_resume_round_trip (m : Manager.t) :
  (GameState.gameStatus (Manager.state m) = Playing ->
   GameState.isPaused (Manager.state m) = false ->
   Manager.state (resume (pause m)) = GameState.set_accumulator 0 (Manager.state m) /\
   Manager.published (resume (pause m))
     = [Manager.state (resume (pause m)); Manager.state (pause m)] ++ Manager.published m /\
   Manager.timers (resume (pause m)) = Manager.timers m /\
   pause (pause m) = pause m) /\
  (GameState.gameStatus (Manager.state m) <> Playing -> pause m = m) /\
  (GameState.gameStatus (Manager.state m) <> Paused -> resume m = m).
Proof.
  split; [|split].
  - intros Hs Hp. unfold pause. rewrite decide_True by done.
    unfold resume. simpl.
    destruct m as [s pub ts]. simpl in *. destruct s. simpl in *. subst.
    by repeat split.
  - intros Hs. unfold pause. by rewrite decide_False.
  - intros Hs. unfold resume. by rewrite decide_False.
Qed.

Lemma pause_resume_round_trip_witness :
  Manager.state (resume (pause demoManager))
    = GameState.set_accumulator 0 (Manager.state demoManager) /\
  pause (pause demoManager) = pause demoManager /\
  pause (Manager.set_state (GameState.set_gameStatus Defeat (Manager.state demoManager))
                           demoManager)
    = Manager.set_state (GameState.set_gameStatus Defeat (Manager.state demoManager))
                        demoManager /\
  resume demoManager = demoManager.
Proof.
  destruct (pause_resume_round_trip demoManager) as (Hrt & _ & Hres).
  destruct Hrt as (Hst & _ & _ & Hpp); [reflexivity..|].
  split; [exact Hst|]. split; [exact Hpp|]. split.
  - refine (proj1 (proj2 (pause_resume_round_trip _)) _). discriminate.
  - apply Hres. discriminate.
Defined.

(** ** Further properties of the generator *)

(** *** Reading a cell after a write *)

Lemma index_insert {A} (l : list A) (i j : Z) (a : A) :
  0 <= i < Z.of_nat (length l) ->
  index (<[Z.to_nat i := a]> l) j = if decide (j = i) then Some a else index l j.
Proof.
  intros Hi. unfold index. destruct (Z.ltb_spec j 0).
  - by rewrite decide_False by lia.
  - case_decide as Hj.
    + subst. apply list_lookup_insert_eq. lia.
    + apply list_lookup_insert_ne. lia.
Qed.

Lemma index_length {A} (l : list A) (i : Z) (a : A) :
  index l i = Some a -> 0 <= i < Z.of_nat (length l).
Proof.
  unfold index. destruct (Z.ltb_spec i 0); [done|]. intros Hl.
  apply lookup_lt_Some in Hl. lia.
Qed.

Lemma read2_write2 {A} (g g' : list (list A)) (y x y' x' : Z) (v : A) :
  write2 g y x v = Some g' ->
  read2 g' y' x' = if decide (y' = y /\ x' = x) then Some (Some v) else read2 g y' x'.
Proof.
  unfold write2, read2. destruct (index g y) as [row|] eqn:Ey; [|done].
  destruct (_ && _) eqn:Ex; [|done]. intros [= <-].
  pose proof (index_length _ _ _ Ey) as Hy.
  rewrite index_insert by done.
  destruct (decide (y' = y)) as [->|Hne].
  - rewrite Ey. rewrite index_insert by (zbool; lia).
    destruct (decide (x' = x)) as [->|Hx].
    + by rewrite decide_True.
    + by rewrite decide_False by tauto.
  - by rewrite decide_False by tauto.
Qed.

Lemma post_setCell_written g y x v :
  post (setCell g y x v) (fun g' => read2 g' y x = Some (Some v)).
Proof.
  apply post_lift. intros g' Hw. rewrite (read2_write2 _ _ _ _ _ _ _ Hw).
  by rewrite decide_True.
Qed.

Lemma post_setCell_keeps g y x v :
  post (setCell g y x v) (keeps v g).
Proof.
  apply post_lift. intros g' Hw y' x' Hv. rewrite (read2_write2 _ _ _ _ _ _ _ Hw).
  by case_decide.
Qed.

Lemma post_setCell_elsewhere g y x v :
  post (setCell g y x v)
       (fun g' => forall y' x', (y', x') <> (y, x) -> read2 g' y' x' = read2 g y' x').
Proof.
  apply post_lift. intros g' Hw y' x' Hne. rewrite (read2_write2 _ _ _ _ _ _ _ Hw).
  rewrite decide_False; [done|]. intros [-> ->]. done.
Qed.

Lemma keeps_refl v g : keeps v g g.
Proof. by intros y x. Qed.

Lemma keeps_trans v g1 g2 g3 : keeps v g1 g2 -> keeps v g2 g3 -> keeps v g1 g3.
Proof. intros H1 H2 y x Hv. by apply H2, H1. Qed.

Lemma post_and {A} (c : Eff A) (P Q : A -> Prop) :
  post c P -> post c Q -> post c (fun a => P a /\ Q a).
Proof. intros HP HQ r k a k' Hr E. split; eauto. Qed.

Lemma total_and_post {A} (c : Eff A) (P Q : A -> Prop) :
  total c P -> post c Q -> total c (fun a => P a /\ Q a).
Proof.
  intros HP HQ r k Hr. destruct (HP r k Hr) as (a & k' & E & Ha).
  exists a, k'. repeat split; eauto.
Qed.

(** A loop whose body establishes [P a] at step [a] and keeps what has been
    established ([R]) ends with [P a] for every [a] visited. *)
Lemma post_foldM_each {A S} (body : A -> S -> Eff S) (P : A -> S -> Prop)
    (R : S -> S -> Prop) (l : list A) (s : S) :
  (forall s, R s s) ->
  (forall s1 s2 s3, R s1 s2 -> R s2 s3 -> R s1 s3) ->
  (forall a s s', P a s -> R s s' -> P a s') ->
  (forall a s, a ∈ l -> post (body a s) (fun s' => P a s' /\ R s s')) ->
  post (foldM body l s) (fun s' => (forall a, a ∈ l -> P a s') /\ R s s').
Proof.
  intros Hrefl Htrans Hkeep. revert s.
  induction l as [|a l IH]; intros s Hbody; simpl.
  - apply post_ret. split; [|done]. intros a Ha. by apply elem_of_nil in Ha.
  - eapply post_bind; [apply Hbody; by left|]. intros s1 [HP HR].
    eapply post_weaken; [apply IH; intros; apply Hbody; by right|].
    intros s2 [Hall HR2]. split; [|by eapply Htrans].
    intros b Hb. apply elem_of_cons in Hb as [->|Hb]; [by eapply Hkeep|by apply Hall].
Qed.

Section GeneratorShape.
Context `{HostMath}.
Variable size : Z.
Hypothesis size_large : 64 <= size.

Lemma midPoint_interior : 1 < size / 2 < size - 2.
Proof.
  pose proof (Z.div_le_lower_bound size 2 2 ltac:(lia) ltac:(lia)).
  pose proof (Z.div_lt_upper_bound size 2 (size - 2) ltac:(lia) ltac:(lia)). lia.
Qed.

(** *** The spawn block *)

Lemma createEmergencyConnections_spawnClear map :
  post (createEmergencyConnections map size) (spawnClear size).
Proof.
  pose proof midPoint_interior as Hmid.
  unfold createEmergencyConnections. cbv zeta.
  eapply post_bind; [apply post_true|]. intros m1 _.
  eapply post_bind; [apply post_true|]. intros m2 _.
  eapply post_weaken.
  { apply (post_foldM_each _
             (fun dy g => forall dx, -1 <= dx < 2 ->
                            read2 g (size / 2 + dy) (size / 2 + dx) = Some (Some 0))
             (keeps 0));
      [apply keeps_refl | apply keeps_trans | by intros dy g g' HP HR dx Hdx; apply HR, HP |].
    intros dy g Hdy. apply elem_of_seqZ in Hdy.
    eapply post_weaken.
    { apply (post_foldM_each _
               (fun dx g => read2 g (size / 2 + dy) (size / 2 + dx) = Some (Some 0))
               (keeps 0));
        [apply keeps_refl | apply keeps_trans | by intros dx g1 g2 HP HR; apply HR |].
      intros dx g1 Hdx. apply elem_of_seqZ in Hdx.
      destruct (_ && _) eqn:E.
      - apply post_and; [apply post_setCell_written | apply post_setCell_keeps].
      - exfalso. apply not_true_iff_false in E. apply E.
        repeat (apply andb_true_iff; split); lia. }
    intros g' [Hall HR]. split; [|done]. intros dx Hdx. apply Hall.
    apply elem_of_seqZ. lia. }
  intros g [Hall _] dx dy Hdx Hdy. unfold passable; simpl.
  apply (Hall dy); [apply elem_of_seqZ; lia | lia].
Qed.

Lemma generateWorldMapWithTheme_spawnClear theme :
  post (generateWorldMapWithTheme size theme) (spawnClear size).
Proof.
  unfold generateWorldMapWithTheme, ensureMapConnectivity. cbv zeta.
  do 8 (eapply post_bind; [apply post_true|]; intros ? _).
  apply createEmergencyConnections_spawnClear.
Qed.

End GeneratorShape.

(** *** The border *)

Lemma sameBorder_refl size g : sameBorder size g g.
Proof. by intros c. Qed.

Lemma sameBorder_trans size g1 g2 g3 :
  sameBorder size g1 g2 -> sameBorder size g2 g3 -> sameBorder size g1 g3.
Proof. intros H1 H2 c Hc. by rewrite H2, H1. Qed.

Lemma setCell_sameBorder size g y x v :
  0 < y < size - 1 -> 0 < x < size - 1 ->
  post (setCell g y x v) (sameBorder size g).
Proof.
  intros Hy Hx. eapply post_weaken; [apply post_setCell_elsewhere|].
  intros g' Hg' [cx cy] (Hcx & Hcy & Hc). simpl in *.
  apply Hg'. intros [= -> ->]. lia.
Qed.

Lemma post_bind_sameBorder size g (c : Eff Grid) (f : Grid -> Eff Grid) :
  post c (sameBorder size g) ->
  (forall g', post (f g') (sameBorder size g')) ->
  post (bind c f) (sameBorder size g).
Proof.
  intros Hc Hf. eapply post_bind; [exact Hc|]. intros g' Hg'.
  eapply post_weaken; [apply Hf|]. intros a Ha. by eapply sameBorder_trans.
Qed.

Lemma post_foldM_sameBorder {A} size (body : A -> Grid -> Eff Grid) (l : list A) g :
  (forall a g', a ∈ l -> post (body a g') (sameBorder size g')) ->
  post (foldM body l g) (sameBorder size g).
Proof.
  intros Hbody. apply post_foldM; [apply sameBorder_refl|].
  intros a g' Ha Hg'. eapply post_weaken; [by apply Hbody|].
  intros g2 Hg2. by eapply sameBorder_trans.
Qed.

Lemma post_forZ_sameBorder size lo hi (body : Z -> Grid -> Eff Grid) g :
  (forall i g', lo <= i < hi -> post (body i g') (sameBorder size g')) ->
  post (forZ lo hi body g) (sameBorder size g).
Proof.
  intros Hbody. apply post_foldM_sameBorder. intros i g' Hi. apply Hbody.
  apply elem_of_seqZ in Hi. lia.
Qed.

(** One step of a proof that a generator pass leaves the border alone. *)
Ltac border_step :=
  cbv zeta;
  lazymatch goal with
  | |- post (ret _) _ => apply post_ret, sameBorder_refl
  | |- post (bind (ret _) _) _ => apply post_bind_ret
  | |- post (bind (setCell _ _ _ _) _) (sameBorder ?size _) =>
      apply post_bind_sameBorder;
      [apply setCell_sameBorder; zbool; lia | intros ?]
  | |- post (setCell _ _ _ _) _ => apply setCell_sameBorder; zbool; lia
  | |- post (bind (randomInt _) _) _ =>
      eapply post_bind; [apply total_post, total_randomInt | intros ? [? ?]]
  | |- post (bind (chance _) _) _ =>
      eapply post_bind; [apply post_true | intros ? _]
  | |- post (bind random _) _ =>
      eapply post_bind; [apply post_true | intros ? _]
  | |- post (bind (isFloor _ _ _) _) _ =>
      eapply post_bind; [apply post_true | intros ? _]
  | |- post (bind (notFloor _ _ _) _) _ =>
      eapply post_bind; [apply post_true | intros ? _]
  | |- post (bind (if ?b then _ else _) _) _ => destruct b eqn:?
  | |- post (if ?b then _ else _) _ => destruct b eqn:?
  end.

Section GeneratorBorder.
Context `{HostMath}.
Variable size : Z.
Hypothesis size_large : 64 <= size.


Lemma createEnhancedRoom_sameBorder map room :
  roomInside size room -> post (createEnhancedRoom map room) (sameBorder size map).
Proof.
  intros (Hx & Hy & Hw & Hh & Hxw & Hyh). unfold createEnhancedRoom. cbv zeta.
  assert (0 <= Room.width room / 2 < Room.width room)
    by (split; [apply Z.div_pos | apply Z.div_lt_upper_bound]; lia).
  assert (0 <= Room.height room / 2 < Room.height room)
    by (split; [apply Z.div_pos | apply Z.div_lt_upper_bound]; lia).
  assert (0 <= Room.width room / 3 < Room.width room)
    by (split; [apply Z.div_pos | apply Z.div_lt_upper_bound]; lia).
  assert (0 <= 2 * Room.width room / 3 < Room.width room)
    by (split; [apply Z.div_pos | apply Z.div_lt_upper_bound]; lia).
  apply post_bind_sameBorder.
  { apply post_forZ_sameBorder. intros y g Hy'.
    apply post_forZ_sameBorder. intros x g' Hx'. repeat border_step. }
  intros g1. border_step; [|border_step].
  border_step.
  apply post_bind_sameBorder; [repeat border_step|]. intros g2.
  border_step. border_step; [|border_step].
  apply post_bind_sameBorder.
  { apply post_forZ_sameBorder. intros x g Hx'. repeat border_step. }
  intros g3. repeat border_step.
Qed.

Lemma generateRoomDoors_sameBorder map room :
  post (generateRoomDoors map room size) (sameBorder size map).
Proof.
  unfold generateRoomDoors.
  set (possibleDoors := _ ++ _ ++ _ ++ _).
  set (validDoors := filter _ possibleDoors).
  assert (Hvalid : forall d : Z * Z, d ∈ validDoors ->
                     0 < d.1 < size - 1 /\ 0 < d.2 < size - 1).
  { intros d Hd. apply list_elem_of_filter in Hd as [Hd _]. zbool. lia. }
  border_step; [border_step|]. border_step.
  eapply post_bind with (P := fun d => d ∈ validDoors).
  { apply post_lift. intros d Hd. by eapply index_elem_of. }
  intros door Hdoor. border_step.
  eapply post_bind.
  { apply total_post, total_additionalDoorLoop. by apply Forall_singleton. }
  intros doors Hdoors. rewrite Forall_forall in Hdoors.
  apply post_foldM_sameBorder. intros d g Hd.
  destruct (Hvalid d (Hdoors d Hd)). border_step.
Qed.

Lemma placeRooms_sameBorder n roomCount zones rooms map :
  post (placeRooms n size roomCount zones rooms map)
       (fun res => sameBorder size map res.2).
Proof.
  revert rooms map. induction n as [|n IH]; intros rooms map; simpl.
  - apply post_ret, sameBorder_refl.
  - border_step; [|apply post_ret, sameBorder_refl].
    eapply post_bind; [apply total_post, total_roomDimensions|].
    intros [w h] [Hw Hh]. simpl in Hw, Hh.
    do 2 border_step.
    border_step; [apply IH|].
    eapply post_bind.
    { apply createEnhancedRoom_sameBorder. unfold roomInside; simpl. lia. }
    intros g Hg. eapply post_weaken; [apply IH|].
    intros res Hres. by eapply sameBorder_trans.
Qed.

Lemma carveCorridor_sameBorder n direction directions x y map :
  post (carveCorridor n size direction directions x y map) (sameBorder size map).
Proof.
  revert directions x y map. induction n as [|n IH]; intros directions x y map; simpl.
  - apply post_ret, sameBorder_refl.
  - apply post_bind_sameBorder; [repeat border_step|]. intros g.
    eapply post_bind; [apply post_true|]. intros dir _. border_step.
    eapply post_bind; [apply post_true|]. intros ds _.
    border_step; [border_step|apply IH].
Qed.

Lemma generateDenseCorridors_sameBorder map :
  post (generateDenseCorridors map size) (sameBorder size map).
Proof.
  unfold generateDenseCorridors. border_step.
  apply post_forZ_sameBorder. intros i g _.
  do 4 border_step. apply carveCorridor_sameBorder.
Qed.

Lemma generateRooms_sameBorder map :
  post (generateRooms map size) (sameBorder size map).
Proof.
  unfold generateRooms, generateEnhancedConnectivity.
  eapply post_bind; [apply post_true|]. intros zones _. border_step.
  eapply post_bind; [apply placeRooms_sameBorder|].
  intros [rooms g] Hg. simpl in Hg.
  eapply post_weaken with (P := sameBorder size g);
    [|intros; by eapply sameBorder_trans].
  apply post_bind_sameBorder.
  { apply post_foldM_sameBorder. intros room g' _. apply generateRoomDoors_sameBorder. }
  intros g'. apply generateDenseCorridors_sameBorder.
Qed.

Lemma pillarCluster_sameBorder fuel j x y pillarType map :
  post (pillarCluster fuel j size x y pillarType map) (sameBorder size map).
Proof.
  revert j map. induction fuel as [|fuel IH]; intros j map; simpl; [apply post_throw|].
  border_step. border_step; [|border_step].
  border_step.
  eapply post_bind; [apply post_true|]. intros offset _.
  eapply post_bind with
    (P := fun place : bool =>
            place = true -> 2 <= x + offset.1 < size - 2 /\ 2 <= y + offset.2 < size - 2).
  { destruct (_ && _) eqn:E; [|by apply post_ret].
    eapply post_bind; [apply post_true|]. intros free _.
    destruct free; [|by apply post_ret].
    eapply post_weaken; [apply post_true|]. intros. zbool. lia. }
  intros place Hplace.
  apply post_bind_sameBorder.
  { destruct place; [|border_step]. destruct Hplace; [done|]. border_step. }
  intros g. apply IH.
Qed.

Lemma generatePillars_sameBorder map :
  post (generatePillars map size) (sameBorder size map).
Proof.
  unfold generatePillars.
  eapply post_bind; [apply post_true|]. intros zones _.
  border_step. apply post_forZ_sameBorder. intros i g _.
  do 3 border_step. border_step; [|border_step].
  border_step. border_step. border_step; [|border_step].
  apply pillarCluster_sameBorder.
Qed.


Lemma templates_cells :
  Forall (fun pattern : list (list Z) =>
            Forall (fun c : Z * Z * Z =>
                      0 <= c.1.1 < rowLength pattern 0 /\
                      0 <= c.1.2 < Z.of_nat (length pattern))
                   (patternCells pattern))
         specialRoomTemplates.
Proof.
  unfold specialRoomTemplates.
  repeat (apply List.Forall_cons;
          [repeat (apply List.Forall_cons; [vm_compute; by repeat split|]);
           apply List.Forall_nil|]).
  apply List.Forall_nil.
Qed.

Lemma openPerimeter_sameBorder n (perimeterCells : list (Z * Z)) map :
  Forall (interior size) perimeterCells ->
  post (openPerimeter n perimeterCells map) (sameBorder size map).
Proof.
  revert perimeterCells map.
  induction n as [|n IH]; intros cells map Hcells; simpl.
  - apply post_ret, sameBorder_refl.
  - border_step.
    eapply post_bind with (P := interior size).
    { apply post_lift. intros c Hc. rewrite Forall_forall in Hcells.
      apply Hcells. by eapply index_elem_of. }
    intros door [Hx Hy]. border_step. border_step; [border_step|].
    apply IH. by apply Forall_delete.
Qed.

Lemma ensureSpecialRoomConnectivity_sameBorder map startX startY pattern :
  post (ensureSpecialRoomConnectivity map startX startY pattern size)
       (sameBorder size map).
Proof.
  unfold ensureSpecialRoomConnectivity.
  set (cells := omap _ _).
  assert (Hcells : Forall (interior size) cells).
  { apply Forall_forall. intros c Hc.
    apply list_elem_of_omap in Hc as ([[x y] v] & _ & Hc).
    destruct (_ && _) eqn:E in Hc; [|done]. injection Hc as <-.
    unfold interior; simpl. zbool. lia. }
  border_step; [|border_step].
  border_step. by apply openPerimeter_sameBorder.
Qed.

Lemma generateSpecialRooms_sameBorder map :
  post (generateSpecialRooms map size) (sameBorder size map).
Proof.
  unfold generateSpecialRooms.
  eapply post_bind; [apply post_true|]. intros zones _.
  border_step. apply post_forZ_sameBorder. intros i g _.
  border_step.
  eapply post_bind with
    (P := fun pattern : list (list Z) =>
            (5 <= rowLength pattern 0 <= 7 /\ 5 <= Z.of_nat (length pattern) <= 7) /\
            Forall (fun c : Z * Z * Z =>
                      0 <= c.1.1 < rowLength pattern 0 /\
                      0 <= c.1.2 < Z.of_nat (length pattern))
                   (patternCells pattern)).
  { apply post_lift. intros pattern Hp. apply index_elem_of in Hp. split.
    - pose proof templates_small as Hs. rewrite Forall_forall in Hs. by apply Hs.
    - pose proof templates_cells as Hc. rewrite Forall_forall in Hc. by apply Hc. }
  intros pattern [[Hw Hh] Hcells]. rewrite Forall_forall in Hcells.
  do 2 border_step.
  eapply post_bind; [apply post_true|]. intros [wallCells totalCells] _.
  border_step; [|border_step].
  apply post_bind_sameBorder; [|intros; apply ensureSpecialRoomConnectivity_sameBorder].
  apply post_foldM_sameBorder. intros [[x y] v] g' Hc.
  destruct (Hcells _ Hc) as [Hx Hy]. simpl in Hx, Hy.
  repeat border_step.
Qed.

Lemma pathHorizontal_sameBorder fuel toX currentX currentY map :
  post (pathHorizontal fuel size toX currentX currentY map) (sameBorder size map).
Proof.
  revert currentX map. induction fuel as [|fuel IH]; intros currentX map; simpl.
  - destruct (_ =? _); [apply post_ret, sameBorder_refl | apply post_throw].
  - destruct (_ =? _); [apply post_ret, sameBorder_refl|].
    apply post_bind_sameBorder; [repeat border_step|]. intros g. apply IH.
Qed.

Lemma pathVertical_sameBorder fuel toY currentX currentY map :
  post (pathVertical fuel size toY currentX currentY map) (sameBorder size map).
Proof.
  revert currentY map. induction fuel as [|fuel IH]; intros currentY map; simpl.
  - destruct (_ =? _); [apply post_ret, sameBorder_refl | apply post_throw].
  - destruct (_ =? _); [apply post_ret, sameBorder_refl|].
    apply post_bind_sameBorder; [repeat border_step|]. intros g. apply IH.
Qed.

Lemma createPath_sameBorder map from to :
  post (createPath map from to size) (sameBorder size map).
Proof.
  unfold createPath.
  apply post_bind_sameBorder; [apply pathHorizontal_sameBorder|].
  intros g. apply pathVertical_sameBorder.
Qed.

Lemma connectUnreachableAreas_sameBorder map reachable :
  post (connectUnreachableAreas map reachable size) (sameBorder size map).
Proof.
  unfold connectUnreachableAreas.
  eapply post_bind; [apply post_true|]. intros areas _.
  apply post_foldM_sameBorder. intros area g _.
  eapply post_bind; [apply post_true|]. intros [target|] _.
  - apply createPath_sameBorder.
  - apply post_ret, sameBorder_refl.
Qed.

Lemma createEmergencyConnections_sameBorder map :
  post (createEmergencyConnections map size) (sameBorder size map).
Proof.
  pose proof (midPoint_interior size size_large) as Hmid.
  unfold createEmergencyConnections. cbv zeta.
  apply post_bind_sameBorder.
  { apply post_forZ_sameBorder. intros x g Hx. repeat border_step. }
  intros g1. apply post_bind_sameBorder.
  { apply post_forZ_sameBorder. intros y g Hy. repeat border_step. }
  intros g2. apply post_forZ_sameBorder. intros dy g Hdy.
  apply post_forZ_sameBorder. intros dx g' Hdx. repeat border_step.
Qed.

Lemma ensureMapConnectivity_sameBorder map :
  post (ensureMapConnectivity map size) (sameBorder size map).
Proof.
  unfold ensureMapConnectivity. cbv zeta.
  eapply post_bind; [apply post_true|]. intros reachable _.
  apply post_bind_sameBorder; [apply connectUnreachableAreas_sameBorder|].
  intros g. apply createEmergencyConnections_sameBorder.
Qed.

Lemma fillBorders_borderSolid map border :
  post (fillBorders map size border) (borderSolid size border).
Proof.
  unfold fillBorders.
  eapply post_weaken.
  { apply (post_foldM_each _
             (fun y g => forall x, 0 <= x < size -> onBorder size (x, y) ->
                           read2 g y x = Some (Some border))
             (keeps border));
      [apply keeps_refl | apply keeps_trans | by intros y g g' HP HR x Hx Hb; apply HR, HP |].
    intros y g Hy. apply elem_of_seqZ in Hy.
    eapply post_weaken.
    { apply (post_foldM_each _
               (fun x g => onBorder size (x, y) -> read2 g y x = Some (Some border))
               (keeps border));
        [apply keeps_refl | apply keeps_trans | by intros x g1 g2 HP HR Hb; apply HR, HP |].
      intros x g1 Hx. apply elem_of_seqZ in Hx.
      destruct (_ || _) eqn:E.
      - eapply post_weaken;
          [apply post_and; [apply post_setCell_written | apply post_setCell_keeps]|].
        intros g2 [Hw Hk]. by split.
      - apply post_ret. split; [|apply keeps_refl].
        intros (_ & _ & Hb). simpl in Hb. zbool. lia. }
    intros g' [Hall HR]. split; [|done]. intros x Hx. apply Hall.
    apply elem_of_seqZ. lia. }
  intros g [Hall _] [x y] Hb. pose proof Hb as (Hx & Hy & _). simpl in *.
  apply (Hall y); [apply elem_of_seqZ; lia | lia | done].
Qed.

Lemma generateWorldMapWithTheme_border theme :
  post (generateWorldMapWithTheme size theme)
       (borderSolid size (WallTypes.border (getThemeWallTypes theme))).
Proof.
  unfold generateWorldMapWithTheme. cbv zeta.
  eapply post_bind; [apply post_true|]. intros g0 _.
  eapply post_bind; [apply fillBorders_borderSolid|]. intros g1 Hg1.
  eapply post_weaken with (P := sameBorder size g1).
  { apply post_bind_sameBorder; [apply generateRooms_sameBorder|]. intros g2.
    apply post_bind_sameBorder; [apply generateDenseCorridors_sameBorder|]. intros g3.
    apply post_bind_sameBorder; [apply generatePillars_sameBorder|]. intros g4.
    apply post_bind_sameBorder; [apply generateSpecialRooms_sameBorder|]. intros g5.
    apply ensureMapConnectivity_sameBorder. }
  intros g Hg c Hc. rewrite (Hg c Hc). by apply Hg1.
Qed.

Lemma border_is_wall theme : WallTypes.border (getThemeWallTypes theme) = 1.
Proof.
  unfold getThemeWallTypes.
  repeat (match goal with |- context [if ?b then _ else _] => destruct b end);
    reflexivity.
Qed.

End GeneratorBorder.

(** ** Pickups *)

Lemma pickupsAppended_nil s : pickupsAppended s s [].
Proof.
  split; [|done]. simpl. rewrite app_nil_r, Z.add_0_r. by destruct s.
Qed.

Lemma pickupsAppended_app s1 s2 s3 new1 new2 :
  pickupsAppended s1 s2 new1 -> pickupsAppended s2 s3 new2 ->
  pickupsAppended s1 s3 (new1 ++ new2).
Proof.
  intros [-> Hid1] [-> Hid2]. simpl in *. split.
  - rewrite length_app, Nat2Z.inj_add, app_assoc, Z.add_assoc. by destruct s1.
  - rewrite fmap_app, Hid1, Hid2, length_app, Nat2Z.inj_add.
    rewrite seqZ_app by lia. done.
Qed.

Lemma spawnPickup_appended x y type value weaponType s :
  total (spawnPickup x y type value weaponType s)
        (fun s' => exists p,
           pickupsAppended s s' [p] /\ Pickup.type p = type /\
           Pickup.value p = value /\ Pickup.weaponType p = weaponType).
Proof.
  unfold spawnPickup. do 4 total_step.
  match goal with |- context [[?p]] => exists p end.
  split; [|done]. split; [|done]. simpl. by destruct s.
Qed.

Lemma chance_one : total (chance 1.0) (fun b => b = true).
Proof.
  unfold chance. eapply total_bind; [apply total_random|].
  intros u [_ Hu]. apply total_ret. apply Qltb_lt.
  unfold Qlt in *. simpl in *. lia.
Qed.

(** What the enemy of type [enemyType] drops when it dies. *)
Lemma spawnEnemyDrops_appended x y enemyType s :
  total (spawnEnemyDrops x y enemyType s)
        (fun s' => exists new,
           pickupsAppended s s' new /\
           Forall dropSound new /\
           sublist (Pickup.type <$> new) [HealthPickup; AmmoPickup; WeaponPickup] /\
           (isBossType enemyType = true ->
            take 2 (Pickup.type <$> new) = [HealthPickup; AmmoPickup])).
Proof.
  unfold spawnEnemyDrops.
  destruct (dropChances enemyType) as [[healthDropChance ammoDropChance] weaponDropChance]
    eqn:Ec.
  assert (Hboss : isBossType enemyType = true ->
                  healthDropChance = 1.0%Q /\ ammoDropChance = 1.0%Q).
  { destruct enemyType; simpl in *; try done; by injection Ec as <- <- <-. }
  eapply total_bind with (P := fun b => isBossType enemyType = true -> b = true).
  { destruct (isBossType enemyType) eqn:Eb.
    - destruct Hboss as [-> _]; [done|].
      eapply total_weaken; [apply chance_one|]. auto.
    - eapply total_weaken; [apply total_chance|]. done. }
  intros dropHealth Hh.
  eapply total_bind with
    (P := fun s1 => exists new,
            pickupsAppended s s1 new /\ Forall dropSound new /\
            (Pickup.type <$> new) = (if dropHealth then [HealthPickup] else [])).
  { destruct dropHealth.
    - total_step. eapply total_weaken; [apply spawnPickup_appended|].
      intros s1 (p & Happ & Ht & Hv & Hw). exists [p]. split; [done|].
      split; [|by simpl; rewrite Ht].
      apply Forall_singleton. unfold dropSound. rewrite Ht, Hv, Hw. split; [lia|done].
    - apply total_ret. exists []. auto using pickupsAppended_nil. }
  intros s1 (new1 & Happ1 & Hs1 & Ht1).
  eapply total_bind with (P := fun b => isBossType enemyType = true -> b = true).
  { destruct (isBossType enemyType) eqn:Eb.
    - destruct Hboss as [_ ->]; [done|].
      eapply total_weaken; [apply chance_one|]. auto.
    - eapply total_weaken; [apply total_chance|]. done. }
  intros dropAmmo Ha.
  eapply total_bind with
    (P := fun s2 => exists new,
            pickupsAppended s s2 new /\ Forall dropSound new /\
            (Pickup.type <$> new) = (if dropHealth then [HealthPickup] else []) ++
                                    (if dropAmmo then [AmmoPickup] else [])).
  { destruct dropAmmo.
    - total_step. eapply total_weaken; [apply spawnPickup_appended|].
      intros s2 (p & Happ & Ht & Hv & Hw). exists (new1 ++ [p]).
      split; [by eapply pickupsAppended_app|]. split.
      + apply Forall_app. split; [done|].
        apply Forall_singleton. unfold dropSound. rewrite Ht, Hv, Hw. split; [lia|done].
      + rewrite fmap_app, Ht1. simpl. by rewrite Ht.
    - apply total_ret. exists new1. rewrite app_nil_r. auto. }
  intros s2 (new2 & Happ2 & Hs2 & Ht2).
  total_step.
  assert (Hsub : forall w : list PickupType,
            sublist w [WeaponPickup] ->
            sublist (((if dropHealth then [HealthPickup] else []) ++
                      (if dropAmmo then [AmmoPickup] else [])) ++ w)
                    [HealthPickup; AmmoPickup; WeaponPickup]).
  { intros w Hw. change [HealthPickup; AmmoPickup; WeaponPickup]
      with (([HealthPickup] ++ [AmmoPickup]) ++ [WeaponPickup]).
    apply sublist_app; [|done]. apply sublist_app.
    - destruct dropHealth; [done|apply sublist_nil_l].
    - destruct dropAmmo; [done|apply sublist_nil_l]. }
  assert (Htake : forall w : list PickupType,
            isBossType enemyType = true ->
            take 2 (((if dropHealth then [HealthPickup] else []) ++
                     (if dropAmmo then [AmmoPickup] else [])) ++ w)
            = [HealthPickup; AmmoPickup]).
  { intros w Hb. by rewrite (Hh Hb), (Ha Hb). }
  total_step.
  - total_step. eapply total_weaken; [apply spawnPickup_appended|].
    intros s3 (p & Happ & Ht & Hv & Hw). exists (new2 ++ [p]).
    split; [by eapply pickupsAppended_app|]. split; [|split].
    + apply Forall_app. split; [done|].
      apply Forall_singleton. unfold dropSound. rewrite Ht, Hv, Hw.
      match goal with |- context [if ?b then Shotgun else Chaingun] => destruct b end;
        auto.
    + rewrite fmap_app, Ht2. simpl. rewrite Ht. by apply Hsub.
    + rewrite fmap_app, Ht2. by apply Htake.
  - total_step. exists new2. split; [done|]. split; [done|].
    rewrite Ht2. rewrite <- (app_nil_r (_ ++ _)). split.
    + apply Hsub, sublist_nil_l.
    + by apply Htake.
Qed.

(** ** Further invariants of the reachable states *)

Lemma Qfloor_num q : Qfloor (num q) = Qfloor q.
Proof. unfold num. by rewrite Qred_correct. Qed.

Lemma Qfloor_half (a : Z) : Qfloor (num (inject_Z a / 2)) = a / 2.
Proof.
  rewrite Qfloor_num. unfold Qdiv, Qmult, Qinv, inject_Z, Qfloor. simpl.
  by rewrite Z.mul_1_r.
Qed.

Lemma playerOnFloor_frame s s' :
  GameState.worldMap s' = GameState.worldMap s ->
  Player.x (GameState.player s') = Player.x (GameState.player s) ->
  Player.y (GameState.player s') = Player.y (GameState.player s) ->
  playerOnFloor s -> playerOnFloor s'.
Proof. unfold playerOnFloor, playerCell. by intros -> -> ->. Qed.

Lemma weaponOwned_frame p p' :
  Player.weapon p' = Player.weapon p ->
  Player.availableWeapons p' = Player.availableWeapons p ->
  weaponOwned p -> weaponOwned p'.
Proof. unfold weaponOwned. by intros -> ->. Qed.

Lemma pickupIdsFresh_frame s s' :
  GameState.pickups s' = GameState.pickups s ->
  GameState.nextPickupId s' = GameState.nextPickupId s ->
  pickupIdsFresh s -> pickupIdsFresh s'.
Proof. unfold pickupIdsFresh. by intros -> ->. Qed.

Lemma enemyIdsBounded_frame s s' :
  GameState.enemies s' = GameState.enemies s ->
  GameState.nextEnemyId s' = GameState.nextEnemyId s ->
  enemyIdsBounded s -> enemyIdsBounded s'.
Proof. unfold enemyIdsBounded. by intros -> ->. Qed.

(** A change of the player that keeps position and weapons. *)
Lemma soundState_set_player p s :
  Player.x p = Player.x (GameState.player s) ->
  Player.y p = Player.y (GameState.player s) ->
  weaponOwned p ->
  soundState s -> soundState (GameState.set_player p s).
Proof.
  intros Hx Hy Hw (Hfloor & _ & Hpick & Hen).
  split; [|split; [|split]]; try done.
  by apply (playerOnFloor_frame s).
Qed.

(** A change outside the map, the player, the pickups and the enemies. *)
Lemma soundState_frame s s' :
  GameState.worldMap s' = GameState.worldMap s ->
  GameState.player s' = GameState.player s ->
  GameState.pickups s' = GameState.pickups s ->
  GameState.nextPickupId s' = GameState.nextPickupId s ->
  GameState.enemies s' = GameState.enemies s ->
  GameState.nextEnemyId s' = GameState.nextEnemyId s ->
  soundState s -> soundState s'.
Proof.
  intros Hmap Hp Hps Hn Hes Hne (Hfloor & Hw & Hpick & Hen).
  split; [|split; [|split]].
  - apply (playerOnFloor_frame s); by rewrite ?Hp.
  - by rewrite Hp.
  - by apply (pickupIdsFresh_frame s).
  - by apply (enemyIdsBounded_frame s).
Qed.

Lemma pickupIdsFresh_delete i s :
  pickupIdsFresh s ->
  pickupIdsFresh (GameState.set_pickups (delete i (GameState.pickups s)) s).
Proof.
  intros [Hnd Hlt]. split; simpl.
  - eapply sublist_NoDup; [exact Hnd|]. apply fmap_sublist, sublist_delete.
  - by apply Forall_delete.
Qed.

Lemma pickupIdsFresh_appended s s' new :
  pickupsAppended s s' new -> pickupIdsFresh s -> pickupIdsFresh s'.
Proof.
  intros [-> Hids] [Hnd Hlt]. split; simpl.
  - rewrite fmap_app, Hids. apply NoDup_app. split; [done|]. split; [|apply NoDup_seqZ].
    intros x Hx Hx'. apply elem_of_seqZ in Hx'.
    apply list_elem_of_fmap in Hx as (p & -> & Hp).
    rewrite Forall_forall in Hlt. specialize (Hlt p Hp). lia.
  - apply Forall_app. split.
    + eapply Forall_impl; [exact Hlt|]. simpl. intros. lia.
    + apply Forall_forall. intros p Hp.
      assert (Hin : Pickup.id p ∈ Pickup.id <$> new) by (by apply list_elem_of_fmap_2).
      rewrite Hids in Hin. apply elem_of_seqZ in Hin. lia.
Qed.

Section Sound.
Context `{HostMath}.

Lemma collectPickup_sound pickup s : soundState s -> soundState (collectPickup pickup s).
Proof.
  intros Hs. pose proof Hs as (_ & [Hw Hp] & _). unfold collectPickup.
  destruct (Pickup.type pickup); [| |destruct (Pickup.weaponType pickup) as [wt|]];
    try done; apply soundState_set_player; try done.
  split; simpl; set_solver.
Qed.

Lemma collectPickup_position pickup s :
  Player.x (GameState.player (collectPickup pickup s)) = Player.x (GameState.player s) /\
  Player.y (GameState.player (collectPickup pickup s)) = Player.y (GameState.player s) /\
  GameState.pickups (collectPickup pickup s) = GameState.pickups s.
Proof.
  unfold collectPickup.
  by destruct (Pickup.type pickup); [| |destruct (Pickup.weaponType pickup)].
Qed.

Lemma soundState_set_pickups_delete i s :
  soundState s -> soundState (GameState.set_pickups (delete i (GameState.pickups s)) s).
Proof.
  intros (Hfloor & Hw & Hpick & Hen).
  split; [|split; [|split]]; try done. by apply pickupIdsFresh_delete.
Qed.

Lemma collectFrom_sound n s : soundState s -> soundState (collectFrom n s).
Proof.
  revert s. induction n as [|i IH]; intros s Hs; [done|].
  cbn [collectFrom]. apply IH.
  destruct (GameState.pickups s !! i) as [pickup|]; [|done].
  destruct (Qltb _ _); [|done].
  by apply soundState_set_pickups_delete, collectPickup_sound.
Qed.

Lemma fixedUpdate_sound s : soundState s -> soundState (fixedUpdate s).
Proof.
  intros Hs. unfold fixedUpdate. case_decide; [|done].
  assert (H1 : soundState (updatePlayerAttackState s)).
  { unfold updatePlayerAttackState. cbv zeta.
    apply soundState_set_player;
      repeat (match goal with |- context [if ?c then _ else _] => destruct c end);
      simpl; try done; by destruct Hs as (_ & ? & _). }
  assert (H2 : soundState (updatePickupCollection (updatePlayerAttackState s)))
    by (by apply collectFrom_sound).
  unfold updateGameStatus.
  destruct (_ <=? 0); [by apply (soundState_frame _ _ eq_refl eq_refl eq_refl eq_refl eq_refl eq_refl)|].
  destruct (_ =? _)%nat; [|done].
  by apply (soundState_frame _ _ eq_refl eq_refl eq_refl eq_refl eq_refl eq_refl).
Qed.

Lemma fixedLoop_sound fuel s s' :
  soundState s -> fixedLoop fuel s = Some s' -> soundState s'.
Proof.
  revert s. induction fuel as [|fuel IH]; intros s Hs; simpl;
    destruct (Qgeb _ _); try done; try by intros [= <-].
  apply IH.
  apply (soundState_frame (fixedUpdate s)); try done. by apply fixedUpdate_sound.
Qed.

Lemma isFloor_spec map y x :
  post (isFloor map y x) (fun b => b = true <-> read2 map y x = Some (Some 0)).
Proof.
  unfold isFloor. eapply post_bind with (P := fun c => read2 map y x = Some c).
  { by apply post_lift. }
  intros c Hc. apply post_ret. rewrite Hc.
  destruct c as [[| |]|]; split; intros; congruence.
Qed.

Lemma updatePlayer_sound input m :
  soundState (Manager.state m) ->
  post (updatePlayer input m) (fun m' => soundState (Manager.state m')).
Proof.
  intros Hs. unfold updatePlayer.
  destruct (_ || _); [by apply post_ret|]. cbv zeta.
  set (s := Manager.state m) in *.
  set (p0 := if MovementInput.rotateRight input then _ else _).
  assert (Hp0 : Player.x p0 = Player.x (GameState.player s) /\
                Player.y p0 = Player.y (GameState.player s) /\
                Player.weapon p0 = Player.weapon (GameState.player s) /\
                Player.availableWeapons p0 = Player.availableWeapons (GameState.player s)).
  { unfold p0. by destruct (MovementInput.rotateRight input),
                          (MovementInput.rotateLeft input). }
  destruct Hp0 as (Hx0 & Hy0 & Hw0 & Ha0).
  repeat match goal with
         | |- context [let '(_, _) := ?c in _] => destruct c
         end.
  eapply post_bind; [apply isFloor_spec|]. intros freeX HfreeX.
  eapply post_bind; [apply isFloor_spec|]. intros freeY HfreeY.
  apply post_ret. simpl. destruct Hs as (Hfloor & Hw & Hpick & Hen).
  split; [|split; [|split]]; simpl.
  - unfold playerOnFloor, playerCell, passable in *. simpl.
    destruct freeX, freeY; simpl in *; rewrite ?Qfloor_num in *.
    + by apply HfreeY.
    + exfalso. destruct HfreeY as [_ HfreeY]. destruct HfreeX as [HfreeX _].
      specialize (HfreeX eq_refl). specialize (HfreeY HfreeX). done.
    + rewrite Hx0. rewrite Hx0 in HfreeY. by apply HfreeY.
    + by rewrite Hx0, Hy0.
  - apply (weaponOwned_frame (GameState.player s)); [| |done];
      by destruct freeX, freeY.
  - done.
  - done.
Qed.

End Sound.

(** ** What an enemy update changes *)

Lemma sameEnemy_refl e : sameEnemy e e.
Proof. by repeat split. Qed.

Lemma sameEnemy_trans e1 e2 e3 : sameEnemy e1 e2 -> sameEnemy e2 e3 -> sameEnemy e1 e3.
Proof.
  intros (? & ? & ? & ? & ?) (? & ? & ? & ? & ?). repeat split; congruence.
Qed.

(** Updates of an enemy that leave its id, health and kind alone. *)
Ltac same_fields :=
  unfold sameEnemy; simpl;
  repeat (match goal with
          | |- context [if ?c then _ else _] => destruct c eqn:?; simpl
          | |- context [match ?x with _ => _ end] => destruct x eqn:?; simpl
          end);
  simpl in *; repeat split; congruence.

Ltac same_enemy :=
  first
    [ assumption
    | solve [same_fields]
    | match goal with
      | He : sameEnemy _ ?x |- sameEnemy _ _ =>
          apply (sameEnemy_trans _ x _ He); solve [same_fields]
      end ].

Section EnemyTurn.
Context `{HostMath}.

Lemma startEnemyExploration_same e0 enemy s :
  sameEnemy e0 enemy -> post (startEnemyExploration enemy s) (sameEnemy e0).
Proof.
  intros He. unfold startEnemyExploration. do 3 post_step.
  eapply post_bind; [apply post_true|]. intros clear _.
  destruct clear; repeat post_step; same_enemy.
Qed.

Lemma continueEnemyExploration_same e0 enemy baseSpeed s :
  sameEnemy e0 enemy -> post (continueEnemyExploration enemy baseSpeed s) (sameEnemy e0).
Proof.
  intros He. unfold continueEnemyExploration.
  destruct (Enemy.explorationDirection enemy) as [direction|]; [|by apply post_ret].
  post_step.
  eapply post_bind with (P := sameEnemy e0).
  { destruct a; repeat post_step; same_enemy. }
  intros e1 He1. repeat post_step; same_enemy.
Qed.

Lemma checkBossPhaseTransition_same e0 boss :
  sameEnemy e0 boss -> sameEnemy e0 (checkBossPhaseTransition boss).
Proof. intros He. unfold checkBossPhaseTransition. same_enemy. Qed.

Lemma stepTowards_same e0 enemy tx ty step s :
  sameEnemy e0 enemy ->
  post (stepTowards enemy tx ty step s)
       (fun moved => forall e, moved = Some e -> sameEnemy e0 e).
Proof.
  intros He. unfold stepTowards. repeat post_step; [|done].
  intros e [= <-]. same_enemy.
Qed.

Lemma placeMinion_spawned n e0 boss s :
  sameEnemy e0 boss ->
  post (placeMinion n boss s)
       (fun res => sameEnemy e0 res.1 /\
                   exists newm n', minionSpawned s newm n' /\
                     res.2 = GameState.set_enemies (GameState.enemies s ++ newm)
                               (GameState.set_nextEnemyId n' s)).
Proof.
  intros He. induction n as [|n IH]; cbn [placeMinion].
  - apply post_ret. split; [done|]. exists [], (GameState.nextEnemyId s).
    split; [by left|]. simpl. rewrite app_nil_r. by destruct s.
  - do 2 post_step.
    eapply post_bind; [apply post_true|]. intros free _.
    post_step; [|exact IH].
    eapply post_bind; [apply post_true|]. intros [minionType minionHealth] _.
    post_step. post_step. cbn [fst snd]. split; [same_enemy|].
    match goal with
    | |- context [_ ++ [?minion]] =>
        exists [minion], (GameState.nextEnemyId s + 1);
        split; [right; exists minion; by repeat split|]
    end.
    by destruct s.
Qed.

Lemma spawnBossMinion_spawned e0 boss s :
  sameEnemy e0 boss ->
  post (spawnBossMinion boss s)
       (fun res => sameEnemy e0 res.1 /\
                   exists newm n', minionSpawned s newm n' /\
                     res.2 = GameState.set_enemies (GameState.enemies s ++ newm)
                               (GameState.set_nextEnemyId n' s)).
Proof.
  intros He. unfold spawnBossMinion. post_step; [|by apply placeMinion_spawned].
  apply post_ret. split; [done|]. exists [], (GameState.nextEnemyId s).
  split; [by left|]. simpl. rewrite app_nil_r. by destruct s.
Qed.

(** The turn of the enemy at index [i]. *)
Lemma updateEnemy_turn castRay i s :
  post (updateEnemy castRay i s)
       (fun s' =>
          match GameState.enemies s !! i with
          | None => s' = s
          | Some e =>
              exists e' newm n' d,
                sameEnemy e e' /\ minionSpawned s newm n' /\ 0 <= d <= 15 /\
                s' = afterTurn s i e' newm n' d
          end).
Proof.
  unfold updateEnemy.
  destruct (GameState.enemies s !! i) as [enemy|] eqn:Ei; [|by apply post_ret].
  cbv zeta.
  set (P := fun (d : Z) (res : Enemy.t * GameState.t) =>
              sameEnemy enemy res.1 /\
              exists newm n', minionSpawned s newm n' /\
                res.2 = GameState.set_enemies (GameState.enemies s ++ newm)
                          (GameState.set_nextEnemyId n'
                             (GameState.set_player
                                (Player.set_health
                                   (Player.health (GameState.player s) - d)
                                   (GameState.player s)) s))).
  assert (Hsame : forall s0 : GameState.t,
            GameState.set_player
              (Player.set_health (Player.health (GameState.player s0) - 0)
                                 (GameState.player s0)) s0 = s0).
  { intros [p0]. rewrite Z.sub_0_r. by destruct p0. }
  eapply post_bind with (P := P 0).
  { assert (Hnone : forall e1, sameEnemy enemy e1 -> P 0 (e1, s)).
    { intros e1 He1. split; [done|]. exists [], (GameState.nextEnemyId s).
      split; [by left|]. rewrite Hsame. simpl. rewrite app_nil_r. by destruct s. }
    post_step; [|apply post_ret; apply Hnone; same_enemy].
    post_step; [|apply post_ret; apply Hnone, checkBossPhaseTransition_same;
                  same_enemy].
    eapply post_weaken.
    { apply (spawnBossMinion_spawned enemy). apply checkBossPhaseTransition_same.
      same_enemy. }
    intros [e1 s1] [He1 (newm & n' & Hm & Hs1)]. split; [done|].
    exists newm, n'. split; [done|]. by rewrite Hsame. }
  intros [e1 s1] [He1 (newm & n' & Hm & Hs1)]. simpl in He1, Hs1.
  eapply post_bind with
    (P := fun res => exists d, 0 <= d <= 15 /\ P d res).
  { assert (Hstay : forall e2, sameEnemy enemy e2 ->
                      exists d, 0 <= d <= 15 /\ P d (e2, s1)).
    { intros e2 He2. exists 0. split; [lia|]. split; [done|]. by exists newm, n'. }
    destruct (Enemy.state e1).
    - (* idle *)
      post_step; [apply post_ret, Hstay; same_enemy|].
      post_step.
      + eapply post_bind; [by apply (startEnemyExploration_same enemy)|].
        intros e2 He2. by apply post_ret, Hstay.
      + repeat post_step; apply Hstay; same_enemy.
    - (* patrolling *)
      post_step; [apply post_ret, Hstay; same_enemy|].
      post_step.
      + eapply post_bind; [by apply (startEnemyExploration_same enemy)|].
        intros e2 He2. by apply post_ret, Hstay.
      + destruct (Enemy.patrolTarget e1) as [target|]; [|by apply post_ret, Hstay].
        eapply post_bind; [by apply (stepTowards_same enemy)|].
        intros [e2|] He2; apply post_ret, Hstay; [by apply He2|same_enemy].
    - (* chasing *)
      post_step; [apply post_ret, Hstay; same_enemy|].
      eapply post_bind with (P := fun moved => forall e, moved = Some e -> sameEnemy enemy e).
      { apply stepTowards_same. same_enemy. }
      intros moved Hmoved.
      match goal with
      | |- context [default ?e0 moved] =>
          assert (Hdef : sameEnemy enemy (default e0 moved))
            by (destruct moved as [e2|]; simpl; [by apply Hmoved|same_enemy])
      end.
      post_step; apply post_ret, Hstay; [same_enemy|done].
    - (* attacking *)
      post_step; [apply post_ret, Hstay; same_enemy|].
      post_step; [|by apply post_ret, Hstay].
      apply post_ret.
      exists (match Enemy.enemyType e1 with Captain => 15 | Soldier => 12 | _ => 10 end).
      split; [destruct (Enemy.enemyType e1); lia|].
      split; [same_enemy|]. exists newm, n'. split; [done|]. cbn [fst snd].
      rewrite Hs1. simpl. rewrite Z.sub_0_r. by destruct s.
    - by apply post_ret, Hstay. }
  intros [e2 s2] (d & Hd & He2 & newm2 & n2 & Hm2 & Hs2). simpl in He2, Hs2.
  eapply post_bind with (P := sameEnemy enemy).
  { destruct (Enemy.explorationDirection e2), (Enemy.state e2);
      try (by apply post_ret); by apply continueEnemyExploration_same. }
  intros e3 He3. apply post_ret.
  exists e3, newm2, n2, d. repeat (split; [done|]).
  rewrite Hs2. unfold afterTurn. simpl.
  rewrite insert_app_l by (by eapply lookup_lt_Some). done.
Qed.

End EnemyTurn.


Lemma minionSpawned_counter s newm n' :
  minionSpawned s newm n' ->
  GameState.nextEnemyId s <= n' /\
  Forall (fun e => GameState.nextEnemyId s <= Enemy.id e < n') newm.
Proof.
  intros [[-> ->]|(minion & -> & Hid & _ & ->)]; (split; [lia|]).
  - constructor.
  - apply Forall_singleton. lia.
Qed.

Lemma sameEnemies_refl l : Forall2 sameEnemy l l.
Proof. induction l; constructor; [apply sameEnemy_refl|done]. Qed.

Lemma sameEnemies_trans l1 l2 l3 :
  Forall2 sameEnemy l1 l2 -> Forall2 sameEnemy l2 l3 -> Forall2 sameEnemy l1 l3.
Proof.
  intros H12. revert l3. induction H12 as [|e1 e2 l1 l2 He _ IH]; intros l3 H23.
  - by inversion H23.
  - inversion H23 as [|? e3 ? l3' He' H23']; subst.
    constructor; [by eapply sameEnemy_trans|by apply IH].
Qed.

Lemma sameEnemies_insert l i e e' :
  l !! i = Some e -> sameEnemy e e' -> Forall2 sameEnemy l (<[i := e']> l).
Proof.
  revert i. induction l as [|a l IH]; intros [|i] Hi He; simpl in *; try done.
  - injection Hi as ->. constructor; [done|apply sameEnemies_refl].
  - constructor; [apply sameEnemy_refl|by eapply IH].
Qed.

Lemma enemiesUpdated_refl s : enemiesUpdated s s.
Proof.
  split; [|split; [lia|split; [lia|]]].
  - destruct s as [p]. by destruct p.
  - exists (GameState.enemies s), []. rewrite app_nil_r. split; [done|]. split.
    + apply sameEnemies_refl.
    + constructor.
Qed.

Lemma enemiesUpdated_trans s1 s2 s3 :
  enemiesUpdated s1 s2 -> enemiesUpdated s2 s3 -> enemiesUpdated s1 s3.
Proof.
  intros (Hf1 & Hh1 & Hn1 & old1 & new1 & He1 & Hold1 & Hnew1)
         (Hf2 & Hh2 & Hn2 & old2 & new2 & He2 & Hold2 & Hnew2).
  split; [|split; [lia|split; [lia|]]].
  - remember (GameState.enemies s2) as es2 eqn:E1.
    remember (GameState.nextEnemyId s2) as n2 eqn:E2.
    remember (Player.health (GameState.player s2)) as h2 eqn:E3.
    clear E1 E2 E3 He1 Hh1 Hh2 Hn1 Hn2 Hold2 Hnew1 Hnew2. subst s2.
    destruct s1 as [p1]. destruct p1. exact Hf2.
  - rewrite He1 in Hold2.
    apply Forall2_app_inv_l in Hold2 as (o1 & o2 & Ho1 & Ho2 & ->).
    exists o1, (o2 ++ new2). split; [by rewrite He2, app_assoc|]. split.
    + by eapply sameEnemies_trans.
    + apply Forall_app. split.
      * clear -Hnew1 Ho2 Hn2. induction Ho2 as [|e e' l l' He _ IH]; [constructor|].
        apply Forall_cons in Hnew1 as [Hid Hnew1]. constructor; [|by apply IH].
        destruct He as (-> & _). lia.
      * eapply Forall_impl; [exact Hnew2|]. simpl. intros. lia.
Qed.

Lemma afterTurn_updated s i e e' newm n' d :
  GameState.enemies s !! i = Some e ->
  sameEnemy e e' -> minionSpawned s newm n' -> 0 <= d ->
  enemiesUpdated s (afterTurn s i e' newm n' d).
Proof.
  intros Hi He Hm Hd. destruct (minionSpawned_counter _ _ _ Hm) as [Hn Hnew].
  unfold afterTurn. split; [|split; [simpl; lia|split; [done|]]].
  - destruct s as [p]. by destruct p.
  - exists (<[i := e']> (GameState.enemies s)), newm. simpl. split; [done|].
    split; [|done].
    by eapply sameEnemies_insert.
Qed.

Section EnemyUpdate.
Context `{HostMath}.

Lemma updateEnemy_updated castRay i s :
  post (updateEnemy castRay i s)
       (fun s' => enemiesUpdated s s' /\
                  Player.health (GameState.player s) - 15
                  <= Player.health (GameState.player s')).
Proof.
  eapply post_weaken; [apply updateEnemy_turn|]. intros s' Hs'.
  destruct (GameState.enemies s !! i) as [e|] eqn:Ei.
  - destruct Hs' as (e' & newm & n' & d & He & Hm & Hd & ->).
    split; [by eapply afterTurn_updated; [done|done|done|lia]|]. simpl. lia.
  - subst. split; [apply enemiesUpdated_refl|lia].
Qed.

Lemma updateEnemy_fold castRay (l : list nat) s :
  post (foldM (updateEnemy castRay) l s)
       (fun s' => enemiesUpdated s s' /\
                  Player.health (GameState.player s) - 15 * Z.of_nat (length l)
                  <= Player.health (GameState.player s')).
Proof.
  revert s. induction l as [|i l IH]; intros s; simpl foldM.
  - apply post_ret. split; [apply enemiesUpdated_refl|simpl; lia].
  - eapply post_bind; [apply updateEnemy_updated|]. intros s1 [Hu1 Hh1].
    eapply post_weaken; [apply IH|]. intros s2 [Hu2 Hh2].
    split; [by eapply enemiesUpdated_trans|].
    rewrite length_cons, Nat2Z.inj_succ. lia.
Qed.

Lemma soundState_updated s s' :
  enemiesUpdated s s' -> soundState s -> soundState s'.
Proof.
  intros (Hf & Hh & Hn & old & new & He & Hold & Hnew) (Hfloor & Hw & Hpick & Hen).
  assert (Hfields :
    GameState.worldMap s' = GameState.worldMap s /\
    Player.x (GameState.player s') = Player.x (GameState.player s) /\
    Player.y (GameState.player s') = Player.y (GameState.player s) /\
    Player.weapon (GameState.player s') = Player.weapon (GameState.player s) /\
    Player.availableWeapons (GameState.player s')
      = Player.availableWeapons (GameState.player s) /\
    GameState.pickups s' = GameState.pickups s /\
    GameState.nextPickupId s' = GameState.nextPickupId s).
  { rewrite Hf. simpl. by repeat split. }
  destruct Hfields as (Hmap & Hx & Hy & Hwp & Hav & Hps & Hnp).
  split; [|split; [|split]].
  - by apply (playerOnFloor_frame s).
  - by apply (weaponOwned_frame (GameState.player s)).
  - by apply (pickupIdsFresh_frame s).
  - destruct Hen as [H1 Hids]. split; [lia|]. rewrite He. apply Forall_app. split.
    + clear -Hold Hids Hn. induction Hold as [|e e' l l' Hee _ IH]; [constructor|].
      apply Forall_cons in Hids as [Hid Hids]. constructor; [|by apply IH].
      destruct Hee as (-> & _). lia.
    + eapply Forall_impl; [exact Hnew|]. simpl. intros. lia.
Qed.

Lemma updateEnemies_sound castRay m :
  soundState (Manager.state m) ->
  post (updateEnemies castRay m) (fun m' => soundState (Manager.state m')).
Proof.
  intros Hs. unfold updateEnemies.
  destruct (_ || _); [by apply post_ret|].
  eapply post_bind; [apply updateEnemy_fold|]. intros s' [Hu _].
  apply post_ret. simpl. by eapply soundState_updated.
Qed.

End EnemyUpdate.

(** ** Populating a floor: ids and counts *)

Section Population.
Context `{HostMath}.

Lemma placeEnemies_ids n enemyCount worldMap size enemies s :
  1 <= GameState.nextEnemyId s ->
  Forall (fun e => Enemy.id e < GameState.nextEnemyId s /\ Enemy.isBoss e = false)
         enemies ->
  post (placeEnemies n enemyCount worldMap size enemies s)
       (fun res =>
          enemyIdChanged s res.2 /\
          GameState.nextEnemyId s <= GameState.nextEnemyId res.2 /\
          Forall (fun e => Enemy.id e < GameState.nextEnemyId res.2 /\
                           Enemy.isBoss e = false) res.1 /\
          Z.of_nat (length res.1) <= Z.max (Z.of_nat (length enemies)) enemyCount).
Proof.
  revert enemies s. induction n as [|n IH]; intros enemies s Hn Hes; cbn [placeEnemies].
  - apply post_ret. cbn [fst snd]. split; [apply enemyIdChanged_refl|].
    repeat split; [lia|done|lia].
  - post_step; [|apply post_ret; cbn [fst snd]; split; [apply enemyIdChanged_refl|];
                 repeat split; [lia|done|lia]].
    do 2 post_step.
    eapply post_bind; [apply post_true|]. intros free _.
    eapply post_bind with
      (P := fun res : list Enemy.t * GameState.t =>
              enemyIdChanged s res.2 /\
              GameState.nextEnemyId s <= GameState.nextEnemyId res.2 /\
              Forall (fun e => Enemy.id e < GameState.nextEnemyId res.2 /\
                               Enemy.isBoss e = false) res.1 /\
              Z.of_nat (length res.1) <= enemyCount).
    { assert (Hstay : enemyIdChanged s s /\
                      GameState.nextEnemyId s <= GameState.nextEnemyId s /\
                      Forall (fun e => Enemy.id e < GameState.nextEnemyId s /\
                                       Enemy.isBoss e = false) enemies /\
                      Z.of_nat (length enemies) <= enemyCount).
      { split; [apply enemyIdChanged_refl|]. repeat split; [lia|done|zbool; lia]. }
      destruct free; [|by apply post_ret].
      post_step; [|by apply post_ret].
      eapply post_bind; [apply post_true|]. intros reachable _.
      eapply post_bind; [apply post_true|]. intros ok _.
      destruct ok; [|by apply post_ret].
      post_step.
      eapply post_bind; [apply post_true|]. intros enemyType _.
      eapply post_bind; [apply post_true|]. intros maxHealth _.
      do 2 post_step. cbn [fst snd]. split; [by eexists|]. simpl.
      split; [lia|]. split.
      - apply Forall_app. split.
        + eapply Forall_impl; [exact Hes|]. simpl. intros e [? ?]. split; [lia|done].
        + apply Forall_singleton. simpl. split; [|done].
          destruct (Z.eqb_spec (GameState.nextEnemyId s) 0); lia.
      - rewrite length_app. simpl. zbool. lia. }
    intros [es1 s1] (Hc1 & Hn1 & Hes1 & Hlen1). simpl in Hc1, Hn1, Hes1, Hlen1.
    eapply post_weaken; [apply IH; [lia|done]|].
    intros [es2 s2] (Hc2 & Hn2 & Hes2 & Hlen2). simpl in *.
    split; [by eapply enemyIdChanged_trans|]. repeat split; [lia|done|lia].
Qed.

Lemma generateRandomEnemies_ids worldMap size s :
  1 <= GameState.nextEnemyId s ->
  post (generateRandomEnemies worldMap size s)
       (fun res =>
          enemyIdChanged s res.2 /\
          GameState.nextEnemyId s <= GameState.nextEnemyId res.2 /\
          Forall (fun e => Enemy.id e < GameState.nextEnemyId res.2 /\
                           Enemy.isBoss e = false) res.1 /\
          Z.of_nat (length res.1) <= 16).
Proof.
  intros Hn. unfold generateRandomEnemies. post_step.
  eapply post_weaken; [by apply placeEnemies_ids|].
  intros res (Hc & Hn' & Hes & Hlen). simpl in Hlen.
  repeat split; try done. lia.
Qed.

Lemma placeBoss_id n worldMap size floorNumber s :
  post (placeBoss n worldMap size floorNumber s)
       (fun boss => forall b, boss = Some b ->
          Enemy.isBoss b = true /\
          Enemy.id b = (if GameState.nextEnemyId s =? 0 then 1000 + floorNumber
                        else GameState.nextEnemyId s)).
Proof.
  induction n as [|n IH]; cbn [placeBoss].
  - by apply post_ret.
  - do 2 post_step.
    eapply post_bind; [apply post_true|]. intros free _.
    post_step; [|exact IH].
    eapply post_bind; [apply post_true|]. intros bossType _.
    destruct (bossStats bossType floorNumber) as [[maxHealth spawns] phases].
    apply post_ret. by intros b [= <-].
Qed.

Lemma placePickups_appended n pickupCount s :
  post (placePickups n pickupCount s) (fun s' => exists new, pickupsAppended s s' new).
Proof.
  revert s. induction n as [|n IH]; intros s; cbn [placePickups].
  - apply post_ret. exists []. apply pickupsAppended_nil.
  - post_step; [|apply post_ret; exists []; apply pickupsAppended_nil].
    do 2 post_step.
    eapply post_bind; [apply post_true|]. intros free _.
    eapply post_bind with (P := fun s' => exists new, pickupsAppended s s' new).
    { destruct free; [|apply post_ret; exists []; apply pickupsAppended_nil].
      post_step; [|apply post_ret; exists []; apply pickupsAppended_nil].
      post_step.
      eapply post_bind; [apply post_true|]. intros [] _; post_step;
        (eapply post_weaken; [apply total_post, spawnPickup_appended|]);
        intros s1 (p & Hp & _); by exists [p]. }
    intros s1 (new1 & Hnew1).
    eapply post_weaken; [apply IH|]. intros s2 (new2 & Hnew2).
    exists (new1 ++ new2). by eapply pickupsAppended_app.
Qed.

Lemma generateRandomPickups_appended s :
  post (generateRandomPickups s) (fun s' => exists new, pickupsAppended s s' new).
Proof. unfold generateRandomPickups. post_step. apply placePickups_appended. Qed.

End Population.

(** ** The further invariants hold in every reachable state *)

Section SoundReachable.
Context `{HostMath}.

Lemma createInitialState_sound : post createInitialState soundState.
Proof.
  unfold createInitialState. cbv zeta.
  eapply post_bind; [apply (generateWorldMapWithTheme_spawnClear 64); lia|].
  intros worldMap Hclear. apply post_ret.
  split; [|split; [|split]].
  - exact (Hclear 0 0 ltac:(lia) ltac:(lia)).
  - split; simpl; set_solver.
  - split; simpl; constructor.
  - split; simpl; [lia|constructor].
Qed.

Lemma progressToNextFloor_sound m :
  0 <= GameState.currentFloor (Manager.state m) ->
  soundState (Manager.state m) ->
  post (progressToNextFloor m) (fun m' => soundState (Manager.state m')).
Proof.
  intros Hfloor Hs. pose proof Hs as (_ & Hw & [Hnd Hlt] & [Hn Hids]).
  unfold progressToNextFloor.
  destruct (canProgress _); [|by apply post_ret]. cbv zeta.
  set (s := Manager.state m) in *.
  set (nextFloor := GameState.currentFloor s + 1).
  set (worldSize := Z.min (64 + nextFloor / 5 * 8) 96).
  assert (Hsize : 64 <= worldSize) by (apply nextWorldSize_bounds; unfold nextFloor; lia).
  clearbody worldSize.
  eapply post_bind; [by apply (generateWorldMapWithTheme_spawnClear worldSize)|].
  intros worldMap Hclear.
  set (s0 := GameState.set_worldSize _ _).
  assert (Hn0 : GameState.nextEnemyId s0 = GameState.nextEnemyId s) by done.
  eapply post_bind with
    (P := fun s1 => enemyIdsBounded s1 /\
                    exists es n, s1 = GameState.set_enemies es (GameState.set_nextEnemyId n s0)).
  { destruct (Z.rem nextFloor 5 =? 0).
    - eapply post_bind; [apply generateRandomEnemies_ids; by rewrite Hn0|].
      intros [regular s1] ((n & Hs1) & Hn1 & Hes1 & _). simpl in Hs1, Hn1, Hes1.
      eapply post_bind; [apply placeBoss_id|]. intros boss Hboss.
      apply post_ret. split; [|subst s1; by eexists _, _].
      split; simpl; [lia|].
      assert (Hsl : Forall (fun e => Enemy.id e <= GameState.nextEnemyId s1)
                           (slice0 regular (3 + nextFloor / 10))).
      { apply Forall_slice0. eapply Forall_impl; [exact Hes1|]. simpl. intros e [? _]. lia. }
      destruct boss as [b|]; [|done].
      apply Forall_app. split; [done|]. apply Forall_singleton.
      destruct (Hboss b eq_refl) as [_ ->].
      destruct (Z.eqb_spec (GameState.nextEnemyId s1) 0); lia.
    - eapply post_bind; [apply generateRandomEnemies_ids; by rewrite Hn0|].
      intros [enemies s1] ((n & Hs1) & Hn1 & Hes1 & _). simpl in Hs1, Hn1, Hes1.
      apply post_ret. split; [|subst s1; by eexists _, _].
      split; simpl; [lia|].
      eapply Forall_impl; [exact Hes1|]. simpl. intros e [? _]. lia. }
  intros s1 ([Hn1 Hids1] & es & n & Hs1).
  eapply post_bind; [apply generateRandomPickups_appended|].
  intros s2 (new & Happ). apply post_ret. simpl.
  assert (Hfresh : pickupIdsFresh (GameState.set_pickups [] s1)).
  { split; simpl; constructor. }
  apply (pickupIdsFresh_appended _ _ _ Happ) in Hfresh.
  destruct Happ as [-> _]. subst s1.
  split; [|split; [|split]].
  - unfold playerOnFloor, playerCell. subst s0.
    destruct (GameState.player s). cbn. rewrite Qfloor_half.
    specialize (Hclear 0 0 ltac:(lia) ltac:(lia)). by rewrite !Z.add_0_r in Hclear.
  - subst s0. unfold weaponOwned in *. by destruct (GameState.player s).
  - exact Hfresh.
  - split; [exact Hn1|exact Hids1].
Qed.

Lemma damageEnemy_sound enemyId damage m :
  soundState (Manager.state m) ->
  post (damageEnemy enemyId damage m) (fun res => soundState (Manager.state res.2)).
Proof.
  intros Hs. pose proof Hs as (Hfloor & Hw & Hpick & [Hn Hids]).
  unfold damageEnemy.
  destruct (findEnemyIndex _ _) as [[i enemy]|] eqn:Ef; [|by apply post_ret].
  cbv zeta.
  set (enemy' := Enemy.set_hurtTimer 5 _).
  set (s1 := GameState.set_enemies _ _).
  assert (Hs1 : soundState s1).
  { split; [|split; [|split]]; try done. split; [done|]. simpl.
    apply list_find_Some in Ef as (Hl & _ & _).
    apply Forall_insert; [done|]. simpl.
    rewrite Forall_forall in Hids. apply Hids. by eapply list_elem_of_lookup_2. }
  eapply post_bind with (P := fun m' => soundState (Manager.state m')).
  { destruct (Qleb _ _); [|by apply post_ret].
    eapply post_bind; [apply total_post, spawnEnemyDrops_appended|].
    intros s2 (new & Happ & _). apply post_ret. simpl.
    pose proof (pickupIdsFresh_appended _ _ _ Happ (proj1 (proj2 (proj2 Hs1)))) as Hfresh.
    destruct Happ as [-> _].
    destruct Hs1 as (Hfloor1 & Hw1 & _ & [Hn1 Hids1]).
    assert (Hbase : soundState
              (GameState.set_pickups (GameState.pickups s1 ++ new)
                 (GameState.set_nextPickupId
                    (GameState.nextPickupId s1 + Z.of_nat (length new)) s1)))
      by (by split; [|split; [|split]]).
    match goal with
    | |- soundState (match ?f with _ => _ end) => destruct f as [[index e]|]
    end; [|exact Hbase].
    destruct Hbase as (? & ? & ? & [? Hidsb]).
    split; [|split; [|split]]; try done. split; [done|]. by apply Forall_delete. }
  intros m' Hm'. by apply post_ret.
Qed.

Lemma updateWithDeltaTime_sound currentTime m :
  soundState (Manager.state m) ->
  post (updateWithDeltaTime currentTime m) (fun m' => soundState (Manager.state m')).
Proof.
  intros Hs. unfold updateWithDeltaTime. cbv zeta.
  destruct (GameState.isPaused _).
  { apply post_ret. by apply (soundState_frame (Manager.state m)). }
  destruct (Qeq_bool _ _).
  - eapply post_bind with (P := soundState).
    { destruct (_ =? _)%nat eqn:Elen;
        [|apply post_ret; by apply (soundState_frame (Manager.state m))].
      unfold initializeEnemiesAfterState.
      destruct Hs as (Hfloor & Hw & Hpick & [Hn Hids]).
      eapply post_bind; [apply generateRandomEnemies_ids; by simpl|].
      intros [enemies s'] ((n & Hs') & Hn' & Hes' & _). simpl in Hs', Hn', Hes'.
      apply post_ret. subst s'. split; [|split; [|split]]; try done.
      split; simpl in *; [lia|].
      eapply Forall_impl; [exact Hes'|]. simpl. intros e [? _]. lia. }
    intros s' Hs'. by apply post_ret.
  - eapply post_bind with (P := soundState).
    { apply post_lift. intros s' Hloop. eapply fixedLoop_sound; [|exact Hloop].
      by apply (soundState_frame (Manager.state m)). }
    intros s' Hs'. by apply post_ret.
Qed.

Lemma checkFloorProgression_sound m :
  soundState (Manager.state m) -> soundState (Manager.state (checkFloorProgression m)).
Proof.
  intros Hs. unfold checkFloorProgression.
  destruct (GameState.isBossFloor _); [destruct (_ && _)|destruct (_ =? _)%nat];
    done.
Qed.

Lemma shoot_sound m : soundState (Manager.state m) -> soundState (Manager.state (shoot m).2).
Proof.
  intros Hs. unfold shoot. destruct (_ || _); [done|]. simpl.
  apply soundState_set_player; try done. by destruct Hs as (_ & ? & _).
Qed.

Lemma switchWeapon_sound weapon m :
  soundState (Manager.state m) -> soundState (Manager.state (switchWeapon weapon m).2).
Proof.
  intros Hs. unfold switchWeapon. case_decide as Hw; [|done]. simpl.
  apply soundState_set_player; try done.
  destruct Hs as (_ & [_ Hp] & _). by split.
Qed.

Lemma pause_sound m : soundState (Manager.state m) -> soundState (Manager.state (pause m)).
Proof.
  intros Hs. unfold pause. case_decide; [|done]. simpl.
  by apply (soundState_frame (Manager.state m)).
Qed.

Lemma resume_sound m : soundState (Manager.state m) -> soundState (Manager.state (resume m)).
Proof.
  intros Hs. unfold resume. case_decide; [|done]. simpl.
  by apply (soundState_frame (Manager.state m)).
Qed.

Lemma updateMouseLook_sound deltaX m :
  soundState (Manager.state m) -> soundState (Manager.state (updateMouseLook deltaX m)).
Proof.
  intros Hs. unfold updateMouseLook. destruct (_ || _); [done|]. simpl.
  apply soundState_set_player; try done. by destruct Hs as (_ & ? & _).
Qed.

Lemma perform_sound op m :
  managerInv m -> soundState (Manager.state m) ->
  post (perform op m) (fun m' => soundState (Manager.state m')).
Proof.
  intros Hm Hs.
  assert (Hfloor : 0 <= GameState.currentFloor (Manager.state m)).
  { destruct Hm as [(_ & _ & _ & ? & _) _]. lia. }
  destruct op; simpl.
  - by apply updateWithDeltaTime_sound.
  - by apply updatePlayer_sound.
  - apply post_ret. by apply updateMouseLook_sound.
  - apply post_ret. by apply shoot_sound.
  - by apply updateEnemies_sound.
  - eapply post_bind; [by apply damageEnemy_sound|]. intros res Hres. by apply post_ret.
  - apply post_ret. by apply switchWeapon_sound.
  - apply post_ret. by apply pause_sound.
  - apply post_ret. by apply resume_sound.
  - apply post_ret. unfold togglePause.
    destruct (GameState.isPaused _); [by apply resume_sound | by apply pause_sound].
  - by apply progressToNextFloor_sound.
  - apply post_ret. by apply checkFloorProgression_sound.
  - unfold reset. eapply post_bind; [apply createInitialState_sound|].
    intros s' Hs'. by apply post_ret.
  - unfold fireTimer.
    destruct (Manager.timers m !! i) as [[delay c]|]; [|by apply post_ret].
    destruct c; simpl.
    + apply post_ret.
      by apply (checkFloorProgression_sound
                  (Manager.mk (Manager.state m) (Manager.published m)
                              (delete i (Manager.timers m)))).
    + by apply (progressToNextFloor_sound
                  (Manager.mk (Manager.state m) (Manager.published m)
                              (delete i (Manager.timers m)))).
Qed.

Lemma reachable_sound m : Reachable m -> soundState (Manager.state m).
Proof.
  induction 1 as [r m k Hr Hnew | op r m m' k Hreach IH Hr Hcall].
  - revert Hnew. unfold newManager. intros Hnew.
    eapply (post_bind createInitialState (fun s => ret (Manager.mk s [] []))
              soundState (fun m' => soundState (Manager.state m')));
      [apply createInitialState_sound | intros s' Hs'; by apply post_ret | done | done].
  - eapply perform_sound; [by apply reachable_inv|exact IH|done|done].
Qed.

End SoundReachable.

(** ** Further properties of the generator and of reachable states *)

(** X2.  Called with a size of at least 64, the themed generator returns
    a [size] by [size] grid whose outermost rows and columns hold wall
    type 1 in every cell, whatever [Math.random] returns and whatever the
    theme. *)
Theorem generated_map_enclosed `{HostMath} (size : Z) (theme : string) :
  64 <= size ->
  total (generateWorldMapWithTheme size theme)
        (fun g => wfGrid size g /\
                  forall x y, 0 <= x < size -> 0 <= y < size ->
                              x = 0 \/ x = size - 1 \/ y = 0 \/ y = size - 1 ->
                              read2 g y x = Some (Some 1)).
Proof.
  intros Hsize. apply total_and_post; [by apply total_generateWorldMapWithTheme|].
  eapply post_weaken; [by apply generateWorldMapWithTheme_border|].
  intros g Hg x y Hx Hy Hedge. rewrite border_is_wall in Hg.
  by apply (Hg (x, y)).
Qed.

Lemma generated_map_enclosed_witness :
  exists g k,
    generateWorldMapWithTheme (H := approxMath) 64 "tech_base" quarter 0%nat
      = Some (g, k) /\
    wfGrid 64 g /\
    forall x y, 0 <= x < 64 -> 0 <= y < 64 ->
                x = 0 \/ x = 64 - 1 \/ y = 0 \/ y = 64 - 1 ->
                read2 g y x = Some (Some 1).
Proof.
  destruct (generated_map_enclosed (H := approxMath) 64 "tech_base" ltac:(lia)
              quarter 0%nat quarter_valid) as (g & k & Hrun & Hwf & Hg).
  exists g, k. split; [exact Hrun|]. split; [exact Hwf|exact Hg].
Defined.

(** X3.  In the grid the themed generator returns for a size of at
    least 64, the nine cells of the 3 by 3 block around the centre
    [(size / 2, size / 2)], where the player is put, hold 0. *)
Theorem generated_spawn_clear `{HostMath} (size : Z) (theme : string) :
  64 <= size ->
  total (generateWorldMapWithTheme size theme)
        (fun g => forall dx dy, -1 <= dx <= 1 -> -1 <= dy <= 1 ->
                                read2 g (size / 2 + dy) (size / 2 + dx) = Some (Some 0)).
Proof.
  intros Hsize.
  eapply total_weaken;
    [apply total_and_post;
       [by apply total_generateWorldMapWithTheme
       |by apply (generateWorldMapWithTheme_spawnClear size)]|].
  intros g [_ Hg] dx dy Hdx Hdy. exact (Hg dx dy Hdx Hdy).
Qed.

Lemma generated_spawn_clear_witness :
  exists g k,
    generateWorldMapWithTheme (H := approxMath) 96 "hell" quarter 0%nat = Some (g, k) /\
    forall dx dy, -1 <= dx <= 1 -> -1 <= dy <= 1 ->
                  read2 g (96 / 2 + dy) (96 / 2 + dx) = Some (Some 0).
Proof.
  destruct (generated_spawn_clear (H := approxMath) 96 "hell" ltac:(lia)
              quarter 0%nat quarter_valid) as (g & k & Hrun & Hg).
  exists g, k. split; [exact Hrun|exact Hg].
Defined.

(** X4.  In every reachable state the cell the player stands in holds 0:
    the player is never inside a wall and never outside the map. *)
Theorem player_stays_on_floor `{HostMath} (m : Manager.t) :
  Reachable m ->
  let s := Manager.state m in
  read2 (GameState.worldMap s)
        (Qfloor (Player.y (GameState.player s)))
        (Qfloor (Player.x (GameState.player s))) = Some (Some 0).
Proof. intros Hm. by destruct (reachable_sound m Hm) as (Hfloor & _). Qed.

Lemma player_stays_on_floor_witness :
  exists m, freshManager = Some m /\
    let s := Manager.state m in
    read2 (GameState.worldMap s)
          (Qfloor (Player.y (GameState.player s)))
          (Qfloor (Player.x (GameState.player s))) = Some (Some 0).
Proof.
  pose proof freshManager_returns as Hret.
  destruct freshManager as [m|] eqn:E; [|discriminate].
  exists m. split; [reflexivity|].
  apply (player_stays_on_floor (H := approxMath) m), freshManager_reachable, E.
Defined.

(** X5.  In every reachable state the weapon in hand is one of the
    player's available weapons, and the pistol is among them. *)
Theorem current_weapon_owned `{HostMath} (m : Manager.t) :
  Reachable m ->
  let p := GameState.player (Manager.state m) in
  Player.weapon p ∈ Player.availableWeapons p /\ Pistol ∈ Player.availableWeapons p.
Proof. intros Hm. by destruct (reachable_sound m Hm) as (_ & Hw & _). Qed.

Lemma current_weapon_owned_witness :
  exists m, freshManager = Some m /\
    let p := GameState.player (Manager.state m) in
    Player.weapon p ∈ Player.availableWeapons p /\ Pistol ∈ Player.availableWeapons p.
Proof.
  pose proof freshManager_returns as Hret.
  destruct freshManager as [m|] eqn:E; [|discriminate].
  exists m. split; [reflexivity|].
  apply (current_weapon_owned (H := approxMath) m), freshManager_reachable, E.
Defined.



(** X7.  Whenever [updateEnemies] returns, the state differs from the
    one before in the enemies, the enemy counter and the player's health
    only.  The enemies there were are still there, in their order, each with
    its id, health, maximal health, type and boss flag; new ones follow
    them, with ids from the old counter up to the new one.  The player's
    health has not gone up, and has gone down by at most 15 for each enemy
    there was. *)
Theorem updateEnemies_frame `{HostMath} (castRay : Q -> Q -> Q -> Q) (m : Manager.t) :
  post (updateEnemies castRay m)
       (fun m' =>
          let s := Manager.state m in
          let s' := Manager.state m' in
          enemiesUpdated s s' /\
          Player.health (GameState.player s) - 15 * Z.of_nat (length (GameState.enemies s))
          <= Player.health (GameState.player s') /\
          Manager.timers m' = Manager.timers m).
Proof.
  unfold updateEnemies. cbv zeta.
  destruct (_ || _).
  { apply post_ret. split; [apply enemiesUpdated_refl|]. split; [lia|done]. }
  eapply post_bind; [apply updateEnemy_fold|]. intros s' [Hu Hh].
  apply post_ret. simpl. rewrite length_seq in Hh. by split.
Qed.

(** X8.  [spawnEnemyDrops] always returns.  It appends at most three
    pickups, a health, an ammo and a weapon pickup in this order, with
    consecutive ids taken from the pickup counter, and changes nothing
    else; a health drop is worth 15 to 40, an ammo drop 8 to 25, a weapon
    drop is a shotgun with 12 rounds or a chaingun with 30.  A boss always
    drops health and ammunition. *)
Theorem enemy_drops `{HostMath} (x y : Q) (enemyType : EnemyType) (s : GameState.t) :
  total (spawnEnemyDrops x y enemyType s)
        (fun s' => exists new,
           pickupsAppended s s' new /\
           Forall dropSound new /\
           sublist (Pickup.type <$> new) [HealthPickup; AmmoPickup; WeaponPickup] /\
           (isBossType enemyType = true ->
            take 2 (Pickup.type <$> new) = [HealthPickup; AmmoPickup])).
Proof. apply spawnEnemyDrops_appended. Qed.

(** ** The flood fill marks the cells connected to its start *)

Lemma read2_inside {A} (size : Z) (g : list (list A)) (y x : Z) (a : A) :
  wfGrid size g -> read2 g y x = Some (Some a) -> 0 <= x < size /\ 0 <= y < size.
Proof.
  intros [Hlen Hrows] Hr. unfold read2 in Hr.
  destruct (index g y) as [row|] eqn:Ey; [|done].
  injection Hr as Hx.
  pose proof (index_length _ _ _ Ey). pose proof (index_length _ _ _ Hx).
  rewrite Forall_forall in Hrows.
  pose proof (Hrows row (index_elem_of _ _ _ Ey)). lia.
Qed.

Lemma read2_replicate {A} (n m : nat) (a b : A) (y x : Z) :
  read2 (replicate n (replicate m a)) y x = Some (Some b) -> b = a.
Proof.
  unfold read2, index. destruct (y <? 0); [done|].
  destruct (replicate n _ !! _) as [row|] eqn:Ey; [|done].
  apply lookup_replicate in Ey as [-> _].
  destruct (x <? 0); [done|]. intros [= Hx].
  by apply lookup_replicate in Hx as [-> _].
Qed.

Lemma adjacent_direction (cx cy : Z) (d : Z * Z) :
  adjacent (cx, cy) d <->
  exists dir, dir ∈ floodDirections /\ d = (cx + dir.1, cy + dir.2).
Proof.
  unfold adjacent, floodDirections. destruct d as [dx dy]. simpl. split.
  - intros [[-> [->| ->]]|[-> [->| ->]]].
    + exists (0, 1). split; [set_solver|simpl; f_equal; lia].
    + exists (0, -1). split; [set_solver|simpl; f_equal; lia].
    + exists (1, 0). split; [set_solver|simpl; f_equal; lia].
    + exists (-1, 0). split; [set_solver|simpl; f_equal; lia].
  - intros (dir & Hdir & [= -> ->]).
    repeat (apply elem_of_cons in Hdir as [->|Hdir]); simpl; [lia..|].
    by apply elem_of_nil in Hdir.
Qed.

Section FloodFill.
Context `{HostMath}.
Variable size : Z.
Variable map : list (list Z).
Hypothesis map_wf : wfGrid size map.

Lemma floodStep_refl cx cy st : floodStep map cx cy st st.
Proof.
  exists []. rewrite app_nil_r. split; [done|]. split; [auto|]. split; [auto|].
  intros c Hc. by apply elem_of_nil in Hc.
Qed.

Lemma floodStep_trans cx cy st1 st2 st3 :
  floodStep map cx cy st1 st2 -> floodStep map cx cy st2 st3 -> floodStep map cx cy st1 st3.
Proof.
  intros (a1 & E1 & M1 & N1 & A1) (a2 & E2 & M2 & N2 & A2).
  exists (a1 ++ a2). split; [by rewrite E2, E1, app_assoc|]. split; [auto|]. split.
  - intros c Hc. destruct (N2 c Hc) as [Hc2|Hc2].
    + destruct (N1 c Hc2); [by left|right; apply elem_of_app; by left].
    + right. apply elem_of_app. by right.
  - intros c Hc. apply elem_of_app in Hc as [Hc|Hc].
    + destruct (A1 c Hc) as (? & ? & ?). auto.
    + by apply A2.
Qed.

Lemma floodNeighbours_step cx cy (st : list (list bool) * list (Z * Z)) :
  post (floodNeighbours map size cx cy st)
       (fun st' =>
          (forall d, adjacent (cx, cy) d -> passable map d -> visitedAt st'.1 d) /\
          floodStep map cx cy st st').
Proof.
  unfold floodNeighbours.
  eapply post_weaken;
    [apply (post_foldM_each _
              (fun (dir : Z * Z) (st' : list (list bool) * list (Z * Z)) =>
                 passable map (cx + dir.1, cy + dir.2) ->
                 visitedAt st'.1 (cx + dir.1, cy + dir.2))
              (floodStep map cx cy))|].
  - apply floodStep_refl.
  - apply floodStep_trans.
  - intros dir s s' HP (_ & _ & Hmono & _) Hpass. by apply Hmono, HP.
  - intros dir s Hdir. cbv zeta.
    destruct (_ && _) eqn:Ein.
    + eapply post_bind with (P := fun seen => read2 s.1 (cy + dir.2) (cx + dir.1) = Some seen);
        [by apply post_lift|].
      intros seen Hseen.
      destruct (negb (default false seen)) eqn:Es.
      * eapply post_bind; [apply isFloor_spec|]. intros free Hfree.
        destruct free.
        -- eapply post_bind with
             (P := fun v' => write2 s.1 (cy + dir.2) (cx + dir.1) true = Some v');
             [by apply post_lift|].
           intros v' Hw. apply post_ret. simpl.
           assert (Hnew : visitedAt v' (cx + dir.1, cy + dir.2)).
           { unfold visitedAt. rewrite (read2_write2 _ _ _ _ _ _ _ Hw).
             by rewrite decide_True. }
           split; [done|]. exists [(cx + dir.1, cy + dir.2)]. simpl.
           split; [done|]. split; [|split].
           ++ intros c Hc. unfold visitedAt in *.
              rewrite (read2_write2 _ _ _ _ _ _ _ Hw). by case_decide.
           ++ intros c Hc. unfold visitedAt in *.
              rewrite (read2_write2 _ _ _ _ _ _ _ Hw) in Hc.
              case_decide as Hd; [|by left]. right.
              destruct c as [x y], Hd as [Hy Hx]. simpl in *. subst.
              by apply list_elem_of_singleton.
           ++ intros c Hc. apply list_elem_of_singleton in Hc as ->.
              split; [done|]. split.
              ** apply adjacent_direction. by exists dir.
              ** by apply Hfree.
        -- apply post_ret. split; [|apply floodStep_refl].
           intros Hpass. apply Hfree in Hpass. done.
      * apply post_ret. split; [|apply floodStep_refl]. intros _.
        unfold visitedAt. simpl. rewrite Hseen.
        destruct seen as [[|]|]; done.
    + apply post_ret. split; [|apply floodStep_refl]. intros Hpass.
      destruct (read2_inside size map _ _ _ map_wf Hpass). simpl in *.
      zbool; lia.
  - intros st' [Hall Hstep]. split; [|done].
    intros d Hadj. apply adjacent_direction in Hadj as (dir & Hdir & ->).
    by apply Hall.
Qed.

Lemma floodLoop_marks start fuel v queue :
  floodInv map start v queue ->
  post (floodLoop fuel map size v queue)
       (fun v' => forall c, visitedAt v' c <-> connectedTo map start c).
Proof.
  revert v queue. induction fuel as [|fuel IH]; intros v queue (H0 & Hs & Hq & Hc).
  all: destruct queue as [|current queue]; simpl.
  1,3: apply post_ret; intros c; split; [apply Hs|];
       induction 1 as [|c d _ IHc Hadj Hd]; [done|];
       destruct (Hc c IHc) as [Hin|Hcl]; [by apply elem_of_nil in Hin|by eapply Hcl].
  - apply post_throw.
  - eapply post_bind; [apply floodNeighbours_step|].
    intros [v' queue'] [Hdone (added & Eq & Hmono & Hnew & Hadd)]. simpl in *.
    apply IH. destruct current as [cx cy]. simpl in *.
    split; [auto|]. split; [|split].
    + intros c Hv. destruct (Hnew c Hv) as [Hold|Hin]; [auto|].
      destruct (Hadd c Hin) as (_ & Hadj & Hpass).
      eapply connected_step; [|exact Hadj|exact Hpass].
      apply Hs, Hq. by left.
    + intros c Hin. rewrite Eq in Hin. apply elem_of_app in Hin as [Hin|Hin].
      * apply Hmono, Hq. by right.
      * by apply Hadd.
    + intros c Hv. rewrite Eq.
      destruct (Hnew c Hv) as [Hold|Hin]; [|left; apply elem_of_app; by right].
      destruct (Hc c Hold) as [Hin|Hcl].
      * apply elem_of_cons in Hin as [->|Hin]; [right; exact Hdone|left; apply elem_of_app; by left].
      * right. intros d Hadj Hpass. by apply Hmono, (Hcl d).
Qed.

Lemma floodFill_marks startX startY :
  post (floodFill map startX startY size)
       (fun v => forall c, visitedAt v c <-> connectedTo map (startX, startY) c).
Proof.
  unfold floodFill.
  eapply post_bind with
    (P := fun v0 => forall c, ~ visitedAt v0 c).
  { apply post_lift. intros v0. unfold newArray2. destruct (size <? 0); [done|].
    intros [= <-] c Hc. by apply read2_replicate in Hc. }
  intros v0 Hv0.
  eapply post_bind with (P := fun v1 => write2 v0 startY startX true = Some v1);
    [by apply post_lift|].
  intros v1 Hw. apply floodLoop_marks.
  assert (Hv1 : forall c, visitedAt v1 c <-> c = (startX, startY)).
  { intros [x y]. unfold visitedAt. simpl.
    rewrite (read2_write2 _ _ _ _ _ _ _ Hw). case_decide as Hd.
    - destruct Hd as [-> ->]. done.
    - split; [intros Hc; by destruct (Hv0 (x, y))|]. intros [= -> ->]. tauto. }
  split; [by apply Hv1|]. split; [|split].
  - intros c Hc. apply Hv1 in Hc as ->. constructor.
  - intros c Hc. apply list_elem_of_singleton in Hc as ->. by apply Hv1.
  - intros c Hc. apply Hv1 in Hc as ->. left. by apply list_elem_of_singleton.
Qed.

End FloodFill.

(** ** What the connectivity repair achieves *)

Lemma connectedTo_trans g a b c :
  connectedTo g a b -> connectedTo g b c -> connectedTo g a c.
Proof. intros Hab. induction 1; [done|]. by eapply connected_step. Qed.

Lemma connectedTo_keeps g g' s c :
  keeps 0 g g' -> connectedTo g s c -> connectedTo g' s c.
Proof.
  intros Hk. induction 1 as [|c d _ IH Hadj Hd]; [constructor|].
  eapply connected_step; [exact IH|exact Hadj|]. by apply Hk.
Qed.

Lemma carved_refl P g : carved P g g.
Proof. split; [apply keeps_refl|]. by left. Qed.

Lemma carved_trans P g1 g2 g3 : carved P g1 g2 -> carved P g2 g3 -> carved P g1 g3.
Proof.
  intros [Hk1 Hn1] [Hk2 Hn2]. split; [by eapply keeps_trans|].
  intros c Hc. destruct (Hn2 c Hc) as [Hc2|Hc2]; [by apply Hn1|by right].
Qed.

Lemma carved_weaken (P Q : Z * Z -> Prop) g g' :
  (forall c, P c -> Q c) -> carved P g g' -> carved Q g g'.
Proof.
  intros HPQ [Hk Hn]. split; [done|].
  intros c Hc. destruct (Hn c Hc); [by left|right; auto].
Qed.

Lemma setCell_carved g y x :
  post (setCell g y x 0) (carved (fun c => c = (x, y)) g).
Proof.
  apply post_lift. intros g' Hw. split.
  - intros y' x' Hv. rewrite (read2_write2 _ _ _ _ _ _ _ Hw). by case_decide.
  - intros [cx cy] Hc. unfold passable in *. simpl in *.
    rewrite (read2_write2 _ _ _ _ _ _ _ Hw) in Hc.
    case_decide as Hd; [right|by left]. by destruct Hd as [-> ->].
Qed.

Lemma pathHorizontal_carves fuel size toX currentX currentY map :
  post (pathHorizontal fuel size toX currentX currentY map)
       (fun map' =>
          carved (fun c => c.2 = currentY /\ between currentX toX c.1) map map' /\
          forall x, between currentX toX x -> 0 < x < size - 1 ->
                    0 < currentY < size - 1 -> passable map' (x, currentY)).
Proof.
  revert currentX map. induction fuel as [|fuel IH]; intros currentX map; simpl.
  all: destruct (Z.eqb_spec currentX toX) as [->|Hne].
  1,3: apply post_ret; split; [apply carved_refl|];
       intros x Hb; unfold between in Hb; lia.
  - apply post_throw.
  - eapply post_bind with
      (P := fun g1 => carved (fun c => c = (currentX, currentY)) map g1 /\
                      (0 < currentX < size - 1 -> 0 < currentY < size - 1 ->
                       passable g1 (currentX, currentY))).
    { destruct (_ && _) eqn:E.
      - apply post_and; [apply setCell_carved|].
        eapply post_weaken; [apply post_setCell_written|]. by intros g1 Hg1 _ _.
      - apply post_ret. split; [apply carved_refl|]. intros Hx Hy.
        apply not_true_iff_false in E. destruct E.
        repeat (apply andb_true_iff; split); lia. }
    intros g1 [Hc1 Hw1].
    eapply post_weaken; [apply IH|]. intros g2 [Hc2 Hw2]. split.
    + eapply carved_trans; (eapply carved_weaken; [|eassumption]); simpl.
      * intros c ->. simpl. split; [done|]. unfold between. lia.
      * intros c [Hy Hb]. split; [done|].
        destruct (Z.ltb_spec currentX toX); unfold between in *; lia.
    + intros x Hb Hx Hy. destruct (decide (x = currentX)) as [->|Hxne].
      * destruct Hc2 as [Hk2 _]. apply Hk2. by apply Hw1.
      * apply Hw2; [|done|done].
        destruct (Z.ltb_spec currentX toX); unfold between in *; lia.
Qed.

Lemma pathVertical_carves fuel size toY currentX currentY map :
  post (pathVertical fuel size toY currentX currentY map)
       (fun map' =>
          carved (fun c => c.1 = currentX /\ between currentY toY c.2) map map' /\
          forall y, between currentY toY y -> 0 < currentX < size - 1 ->
                    0 < y < size - 1 -> passable map' (currentX, y)).
Proof.
  revert currentY map. induction fuel as [|fuel IH]; intros currentY map; simpl.
  all: destruct (Z.eqb_spec currentY toY) as [->|Hne].
  1,3: apply post_ret; split; [apply carved_refl|];
       intros y Hb; unfold between in Hb; lia.
  - apply post_throw.
  - eapply post_bind with
      (P := fun g1 => carved (fun c => c = (currentX, currentY)) map g1 /\
                      (0 < currentX < size - 1 -> 0 < currentY < size - 1 ->
                       passable g1 (currentX, currentY))).
    { destruct (_ && _) eqn:E.
      - apply post_and; [apply setCell_carved|].
        eapply post_weaken; [apply post_setCell_written|]. by intros g1 Hg1 _ _.
      - apply post_ret. split; [apply carved_refl|]. intros Hx Hy.
        apply not_true_iff_false in E. destruct E.
        repeat (apply andb_true_iff; split); lia. }
    intros g1 [Hc1 Hw1].
    eapply post_weaken; [apply IH|]. intros g2 [Hc2 Hw2]. split.
    + eapply carved_trans; (eapply carved_weaken; [|eassumption]); simpl.
      * intros c ->. simpl. split; [done|]. unfold between. lia.
      * intros c [Hx Hb]. split; [done|].
        destruct (Z.ltb_spec currentY toY); unfold between in *; lia.
    + intros y Hb Hx Hy. destruct (decide (y = currentY)) as [->|Hyne].
      * destruct Hc2 as [Hk2 _]. apply Hk2. by apply Hw1.
      * apply Hw2; [|done|done].
        destruct (Z.ltb_spec currentY toY); unfold between in *; lia.
Qed.

(** A straight run of passable cells links its ends. *)
Lemma line_row g s y a b :
  connectedTo g s (a, y) ->
  (forall x, between b a x -> passable g (x, y)) ->
  connectedTo g s (b, y).
Proof.
  intros Ha. remember (Z.abs_nat (b - a)) as n eqn:En. revert b En.
  induction n as [|n IH]; intros b En Hline.
  - by replace b with a by lia.
  - eapply (connected_step _ _ (if a <? b then b - 1 else b + 1, y)).
    + apply IH; [destruct (Z.ltb_spec a b); lia|].
      intros x Hx. apply Hline. destruct (Z.ltb_spec a b); unfold between in *; lia.
    + right. simpl. destruct (Z.ltb_spec a b); lia.
    + apply Hline. unfold between. lia.
Qed.

Lemma line_col g s x a b :
  connectedTo g s (x, a) ->
  (forall y, between b a y -> passable g (x, y)) ->
  connectedTo g s (x, b).
Proof.
  intros Ha. remember (Z.abs_nat (b - a)) as n eqn:En. revert b En.
  induction n as [|n IH]; intros b En Hline.
  - by replace b with a by lia.
  - eapply (connected_step _ _ (x, if a <? b then b - 1 else b + 1)).
    + apply IH; [destruct (Z.ltb_spec a b); lia|].
      intros y Hy. apply Hline. destruct (Z.ltb_spec a b); unfold between in *; lia.
    + left. simpl. destruct (Z.ltb_spec a b); lia.
    + apply Hline. unfold between. lia.
Qed.

Lemma createPath_connects size map from to :
  interior size from -> interior size to ->
  post (createPath map from to size)
       (fun map' => keeps 0 map map' /\ connectedTo map' to from /\
                    forall c, passable map' c -> passable map c \/ connectedTo map' to c).
Proof.
  destruct from as [fx fy], to as [tx ty]. unfold interior, createPath. simpl.
  intros [Hfx Hfy] [Htx Hty].
  eapply post_bind; [apply pathHorizontal_carves|]. intros g1 [Hc1 Hw1].
  eapply post_weaken; [apply pathVertical_carves|]. intros g2 [Hc2 Hw2].
  assert (HV : forall y, between fy ty y -> connectedTo g2 (tx, ty) (tx, y)).
  { intros y Hy. apply line_col with (a := ty); [constructor|].
    intros y' Hy'. apply Hw2; unfold between in *; lia. }
  assert (Hcorner : connectedTo g2 (tx, ty) (tx, fy)).
  { destruct (decide (fy = ty)) as [->|]; [constructor|].
    apply HV. unfold between. lia. }
  assert (HH : forall x, between fx tx x -> connectedTo g2 (tx, ty) (x, fy)).
  { intros x Hx. apply line_row with (a := tx); [done|].
    intros x' Hx'. destruct Hc2 as [Hk2 _]. apply Hk2.
    apply Hw1; unfold between in *; lia. }
  split; [eapply keeps_trans; [apply Hc1|apply Hc2]|]. split.
  - destruct (decide (fx = tx)) as [->|]; [done|]. apply HH. unfold between. lia.
  - intros c Hc. destruct Hc2 as [_ Hn2]. destruct (Hn2 c Hc) as [Hg1|[Hx Hy]].
    + destruct Hc1 as [_ Hn1]. destruct (Hn1 c Hg1) as [?|[Hy Hx]]; [by left|right].
      destruct c; simpl in *; subst. by apply HH.
    + right. destruct c; simpl in *; subst. by apply HV.
Qed.

Lemma isReachable_spec reachable y x :
  post (isReachable reachable y x)
       (fun b => b = true <-> read2 reachable y x = Some (Some true)).
Proof.
  unfold isReachable.
  eapply post_bind with (P := fun o => read2 reachable y x = Some o);
    [by apply post_lift|].
  intros o Ho. apply post_ret. rewrite Ho.
  destruct o as [[|]|]; simpl; split; congruence.
Qed.

Lemma interior_interiorCells size c : interior size c -> c ∈ interiorCells size.
Proof.
  destruct c as [x y]. unfold interior, interiorCells. simpl. intros [Hx Hy].
  apply list_elem_of_bind. exists y. split; [|apply elem_of_seqZ; lia].
  apply list_elem_of_fmap. exists x. split; [done|]. apply elem_of_seqZ. lia.
Qed.

Section Repair.
Variable size : Z.
Variable reachable : list (list bool).

(** The inner loop of [closestReachable]. *)
Lemma closestReachable_fold (area : Z * Z) (l : list (Z * Z))
    (best : option Z * option (Z * Z)) :
  (forall c, c ∈ l -> interior size c) ->
  (forall t, best.2 = Some t -> visitedAt reachable t /\ interior size t) ->
  (best.1 <> None -> best.2 <> None) ->
  post (foldM (fun (c : Z * Z) (best : option Z * option (Z * Z)) =>
                 let* r := isReachable reachable c.2 c.1 in
                 if r then
                   let distance := Z.abs (c.1 - area.1) + Z.abs (c.2 - area.2) in
                   match best.1 with
                   | Some d => if distance <? d then ret (Some distance, Some c)
                               else ret best
                   | None => ret (Some distance, Some c)
                   end
                 else ret best)
              l best)
       (fun best' =>
          (forall t, best'.2 = Some t -> visitedAt reachable t /\ interior size t) /\
          (best.2 <> None \/ (exists c, c ∈ l /\ visitedAt reachable c) -> best'.2 <> None)).
Proof.
  revert best. induction l as [|c l IH]; intros best Hl Hgood Hboth; simpl foldM.
  - apply post_ret. split; [done|]. intros [Hb|(c & Hc & _)]; [done|].
    by apply elem_of_nil in Hc.
  - eapply post_bind with
      (P := fun best1 =>
              (forall t, best1.2 = Some t -> visitedAt reachable t /\ interior size t) /\
              (best1.1 <> None -> best1.2 <> None) /\
              (best.2 <> None \/ visitedAt reachable c -> best1.2 <> None)).
    { eapply post_bind; [apply isReachable_spec|]. intros r Hr. cbv zeta.
      assert (Hc : interior size c) by (apply Hl; by left).
      destruct r.
      - assert (Hv : visitedAt reachable c) by (by apply Hr).
        destruct best as [[d|] t0]; simpl in *.
        + destruct (_ <? _); apply post_ret; simpl.
          * split; [by intros t [= <-]|]. by split.
          * split; [done|]. split; [done|]. intros _. by apply Hboth.
        + apply post_ret. simpl. split; [by intros t [= <-]|]. by split.
      - apply post_ret. split; [done|]. split; [done|].
        intros [Hb|Hv]; [done|]. apply Hr in Hv. done. }
    intros best1 (Hgood1 & Hboth1 & Hsome1).
    eapply post_weaken; [apply IH; [intros; apply Hl; by right|done|done]|].
    intros best2 [Hgood2 Hsome2]. split; [done|].
    intros [Hb|(c' & Hc' & Hv')]; apply Hsome2.
    + left. apply Hsome1. by left.
    + apply elem_of_cons in Hc' as [->|Hc'].
      * left. apply Hsome1. by right.
      * right. by exists c'.
Qed.

Lemma closestReachable_spec (area : Z * Z) :
  post (closestReachable reachable size area)
       (fun r =>
          (forall t, r = Some t -> visitedAt reachable t /\ interior size t) /\
          ((exists c, interior size c /\ visitedAt reachable c) -> r <> None)).
Proof.
  unfold closestReachable.
  eapply post_bind;
    [apply closestReachable_fold; [apply elem_of_interiorCells|done|done]|].
  intros best [Hgood Hsome]. apply post_ret. split; [done|].
  intros (c & Hc & Hv). apply Hsome. right. exists c. split; [|done].
  by apply interior_interiorCells.
Qed.

Variable map : list (list Z).
Variable start : Z * Z.
Hypothesis start_interior : interior size start.
Hypothesis reachable_marks : forall c, visitedAt reachable c <-> connectedTo map start c.

(** The loop that lists the floor cells the flood fill did not reach. *)
Lemma unreachableAreas_fold (l : list (Z * Z)) (areas : list (Z * Z)) :
  post (foldM (fun (c : Z * Z) (areas : list (Z * Z)) =>
                 let* free := isFloor map c.2 c.1 in
                 if free then
                   let* r := isReachable reachable c.2 c.1 in
                   if r then ret areas else ret (areas ++ [c])
                 else ret areas)
              l areas)
       (fun areas' =>
          forall c, c ∈ areas' <->
                    c ∈ areas \/ (c ∈ l /\ passable map c /\ ~ visitedAt reachable c)).
Proof.
  revert areas. induction l as [|c l IH]; intros areas; simpl foldM.
  - apply post_ret. intros c. split; [by left|].
    intros [?|(Hc & _)]; [done|]. by apply elem_of_nil in Hc.
  - eapply post_bind with
      (P := fun areas1 =>
              forall c', c' ∈ areas1 <->
                         c' ∈ areas \/ (c' = c /\ passable map c /\ ~ visitedAt reachable c)).
    { eapply post_bind; [apply isFloor_spec|]. intros free Hfree.
      destruct free.
      - eapply post_bind; [apply isReachable_spec|]. intros r Hr.
        destruct r; apply post_ret; intros c'.
        + split; [by left|]. intros [?|(_ & _ & Hn)]; [done|]. destruct Hn. by apply Hr.
        + rewrite elem_of_app, list_elem_of_singleton. split.
          * intros [?| ->]; [by left|right]. split; [done|]. split; [by apply Hfree|].
            intros Hv. apply Hr in Hv. done.
          * intros [?|(-> & _)]; [by left|by right].
      - apply post_ret. intros c'. split; [by left|].
        intros [?|(_ & Hp & _)]; [done|]. apply Hfree in Hp. done. }
    intros areas1 H1. eapply post_weaken; [apply IH|]. intros areas2 H2 c'.
    specialize (H2 c'). specialize (H1 c'). split.
    + intros Hc. apply H2 in Hc as [Hc|(Hl & Hp & Hv)].
      * apply H1 in Hc as [Hc|(-> & Hp & Hv)]; [by left|right]. split; [by left|done].
      * right. split; [by right|done].
    + intros [Hc|(Hin & Hp & Hv)]; apply H2.
      * left. apply H1. by left.
      * apply elem_of_cons in Hin as [-> |Hin]; [left; apply H1; by right|by right].
Qed.

(** The loop that links each of them to the closest reached cell. *)
Lemma connect_fold (areas : list (Z * Z)) (g : list (list Z)) :
  (forall a, a ∈ areas -> interior size a) ->
  keeps 0 map g ->
  post (foldM (fun area map =>
                 let* closest := closestReachable reachable size area in
                 match closest with
                 | Some target => createPath map area target size
                 | None => ret map
                 end)
              areas g)
       (fun g' => carved (connectedTo g' start) g g' /\
                  forall a, a ∈ areas -> connectedTo g' start a).
Proof.
  revert g. induction areas as [|area areas IH]; intros g Hareas Hk; simpl foldM.
  - apply post_ret. split; [apply carved_refl|]. intros a Ha. by apply elem_of_nil in Ha.
  - eapply post_bind with
      (P := fun g1 => carved (connectedTo g1 start) g g1 /\ connectedTo g1 start area).
    { eapply post_bind; [apply closestReachable_spec|]. intros closest [Hgood Hsome].
      destruct closest as [target|].
      - destruct (Hgood target eq_refl) as [Hv Ht].
        eapply post_weaken; [apply createPath_connects; [apply Hareas; by left|done]|].
        intros g1 (Hk1 & Hpath & Hnew).
        assert (Htarget : connectedTo g1 start target).
        { eapply connectedTo_keeps; [exact Hk1|]. eapply connectedTo_keeps; [exact Hk|].
          by apply reachable_marks. }
        split; [|by eapply connectedTo_trans]. split; [done|].
        intros c Hc. destruct (Hnew c Hc); [by left|right]. by eapply connectedTo_trans.
      - destruct Hsome; [|done]. exists start. split; [done|].
        apply reachable_marks. constructor. }
    intros g1 [[Hk1 Hn1] Harea].
    eapply post_weaken;
      [apply IH; [intros; apply Hareas; by right|by eapply keeps_trans]|].
    intros g2 [[Hk2 Hn2] Hall]. split; [split; [by eapply keeps_trans|]|].
    + intros c Hc. destruct (Hn2 c Hc) as [Hc1|?]; [|by right].
      destruct (Hn1 c Hc1) as [?|Hconn]; [by left|right].
      by eapply connectedTo_keeps.
    + intros a Ha. apply elem_of_cons in Ha as [->|Ha]; [|by apply Hall].
      by eapply connectedTo_keeps.
Qed.

Lemma connectUnreachableAreas_connects :
  post (connectUnreachableAreas map reachable size)
       (fun map' =>
          keeps 0 map map' /\
          forall c, interior size c -> passable map' c -> connectedTo map' start c).
Proof.
  unfold connectUnreachableAreas.
  eapply post_bind; [apply unreachableAreas_fold|]. intros areas Hareas.
  eapply post_weaken; [apply connect_fold; [|apply keeps_refl]|].
  - intros a Ha. apply Hareas in Ha as [Ha|(Ha & _)]; [by apply elem_of_nil in Ha|].
    by apply elem_of_interiorCells.
  - intros map' [[Hk Hn] Hall]. split; [done|]. intros c Hint Hc.
    destruct (Hn c Hc) as [Hold|?]; [|done].
    destruct (decide (read2 reachable c.2 c.1 = Some (Some true))) as [Hv|Hv].
    + eapply connectedTo_keeps; [exact Hk|]. by apply reachable_marks.
    + apply Hall, Hareas. right. split; [by apply interior_interiorCells|done].
Qed.

End Repair.

Section GeneratorConnected.
Context `{HostMath}.
Variable size : Z.
Hypothesis size_large : 64 <= size.

Lemma setCell_carved_in (P : Z * Z -> Prop) map g y x :
  carved P map g -> P (x, y) -> post (setCell g y x 0) (carved P map).
Proof.
  intros Hg HP. eapply post_weaken; [apply setCell_carved|]. intros g' Hg'.
  eapply carved_trans; [exact Hg|]. eapply carved_weaken; [|exact Hg'].
  by intros c ->.
Qed.

Lemma createEmergencyConnections_carved map :
  post (createEmergencyConnections map size)
       (carved (fun c => c.1 = size / 2 \/ c.2 = size / 2 \/
                         (-1 <= c.1 - size / 2 <= 1 /\ -1 <= c.2 - size / 2 <= 1))
               map).
Proof.
  unfold createEmergencyConnections. cbv zeta.
  set (near := fun c : Z * Z => _).
  eapply post_bind with (P := carved near map).
  { apply post_forZ; [apply carved_refl|]. intros x g Hx Hg.
    post_step. post_step; [|by apply post_ret].
    apply setCell_carved_in; [done|]. unfold near. simpl. auto. }
  intros g1 Hg1. eapply post_bind with (P := carved near map).
  { apply post_forZ; [exact Hg1|]. intros y g Hy Hg.
    post_step. post_step; [|by apply post_ret].
    apply setCell_carved_in; [done|]. unfold near. simpl. auto. }
  intros g2 Hg2. apply post_forZ; [exact Hg2|]. intros dy g Hdy Hg.
  apply post_forZ; [exact Hg|]. intros dx g' Hdx Hg'.
  post_step; [|by apply post_ret].
  apply setCell_carved_in; [done|]. unfold near. simpl. right. right. lia.
Qed.

Lemma spawnClear_connected g dx dy :
  spawnClear size g -> -1 <= dx <= 1 -> -1 <= dy <= 1 ->
  connectedTo g (size / 2, size / 2) (size / 2 + dx, size / 2 + dy).
Proof.
  intros Hg Hdx Hdy. apply line_col with (a := size / 2).
  - apply line_row with (a := size / 2); [constructor|].
    intros x Hx. replace x with (size / 2 + (x - size / 2)) by lia.
    replace (size / 2) with (size / 2 + 0) at 3 by lia.
    apply Hg; unfold between in Hx; lia.
  - intros y Hy. replace y with (size / 2 + (y - size / 2)) by lia.
    apply Hg; unfold between in Hy; lia.
Qed.

Lemma ensureMapConnectivity_connects map :
  wfGrid size map ->
  post (ensureMapConnectivity map size)
       (fun g => forall c, interior size c -> passable g c ->
                           connectedTo g (size / 2, size / 2) c \/
                           c.1 = size / 2 \/ c.2 = size / 2).
Proof.
  intros Hmap. pose proof (midPoint_interior size size_large) as Hmid.
  unfold ensureMapConnectivity. cbv zeta.
  eapply post_bind; [by apply (floodFill_marks size map)|]. intros reachable Hmarks.
  eapply post_bind.
  { apply (connectUnreachableAreas_connects size reachable map (size / 2, size / 2));
      [|done]. unfold interior. simpl. lia. }
  intros map1 [Hk1 Hconn1].
  eapply post_weaken;
    [apply post_and;
       [apply createEmergencyConnections_carved
       |by apply createEmergencyConnections_spawnClear]|].
  intros g [[Hk Hnew] Hclear] c Hint Hc.
  destruct (Hnew c Hc) as [Hold|[Hx|[Hy|[Hbx Hby]]]]; [|by auto..|].
  - left. eapply connectedTo_keeps; [exact Hk|]. by apply Hconn1.
  - left. destruct c as [x y]. simpl in *.
    replace x with (size / 2 + (x - size / 2)) by lia.
    replace y with (size / 2 + (y - size / 2)) by lia.
    by apply spawnClear_connected.
Qed.

Lemma generateWorldMapWithTheme_connects theme :
  post (generateWorldMapWithTheme size theme)
       (fun g => forall c, interior size c -> passable g c ->
                           connectedTo g (size / 2, size / 2) c \/
                           c.1 = size / 2 \/ c.2 = size / 2).
Proof.
  unfold generateWorldMapWithTheme.
  destruct (newArray2_wf size 0) as (m0 & E0 & Hm0); [lia|].
  rewrite E0. simpl. apply post_bind_ret.
  eapply post_bind; [by apply total_post, total_fillBorders|]. intros m1 Hm1.
  eapply post_bind; [by apply total_post, total_generateRooms|]. intros m2 Hm2.
  eapply post_bind; [by apply total_post, total_generateDenseCorridors|]. intros m3 Hm3.
  eapply post_bind; [by apply total_post, total_generatePillars|]. intros m4 Hm4.
  eapply post_bind; [by apply total_post, total_generateSpecialRooms|]. intros m5 Hm5.
  by apply ensureMapConnectivity_connects.
Qed.

End GeneratorConnected.

(** ** Where the generator puts the enemies *)

Section EnemyPlacement.
Context `{HostMath}.

Lemma placeEnemies_placed n enemyCount worldMap size enemies s :
  wfGrid size worldMap ->
  Forall (enemyPlaced worldMap size) enemies ->
  post (placeEnemies n enemyCount worldMap size enemies s)
       (fun res =>
          Forall (enemyPlaced worldMap size) res.1 /\
          Z.of_nat (length res.1) <= Z.max (Z.of_nat (length enemies)) enemyCount /\
          exists new,
            res.1 = enemies ++ new /\
            res.2 = GameState.set_nextEnemyId
                      (GameState.nextEnemyId s + Z.of_nat (length new)) s /\
            (1 <= GameState.nextEnemyId s ->
             Enemy.id <$> new = seqZ (GameState.nextEnemyId s) (Z.of_nat (length new)))).
Proof.
  intros Hmap. revert enemies s.
  assert (Hstay : forall enemies s,
    exists new : list Enemy.t,
      enemies = enemies ++ new /\
      s = GameState.set_nextEnemyId
            (GameState.nextEnemyId s + Z.of_nat (length new)) s /\
      (1 <= GameState.nextEnemyId s ->
       Enemy.id <$> new = seqZ (GameState.nextEnemyId s) (Z.of_nat (length new)))).
  { intros enemies s. exists []. rewrite app_nil_r. simpl. rewrite Z.add_0_r.
    by destruct s. }
  induction n as [|n IH]; intros enemies s Hes; cbn [placeEnemies].
  - apply post_ret. cbn [fst snd]. split; [done|]. split; [lia|apply Hstay].
  - post_step; [|apply post_ret; cbn [fst snd]; split; [done|]; split; [lia|apply Hstay]].
    do 2 post_step.
    eapply post_bind; [apply isFloor_spec|]. intros free Hfree.
    eapply post_bind with
      (P := fun res : list Enemy.t * GameState.t =>
              Forall (enemyPlaced worldMap size) res.1 /\
              Z.of_nat (length res.1) <= enemyCount /\
              exists new,
                res.1 = enemies ++ new /\
                res.2 = GameState.set_nextEnemyId
                          (GameState.nextEnemyId s + Z.of_nat (length new)) s /\
                (1 <= GameState.nextEnemyId s ->
                 Enemy.id <$> new
                 = seqZ (GameState.nextEnemyId s) (Z.of_nat (length new)))).
    { assert (Hsame : Forall (enemyPlaced worldMap size) enemies /\
                      Z.of_nat (length enemies) <= enemyCount /\
                      exists new : list Enemy.t,
                        enemies = enemies ++ new /\
                        s = GameState.set_nextEnemyId
                              (GameState.nextEnemyId s + Z.of_nat (length new)) s /\
                        (1 <= GameState.nextEnemyId s ->
                         Enemy.id <$> new
                         = seqZ (GameState.nextEnemyId s) (Z.of_nat (length new)))).
      { split; [done|]. split; [zbool; lia|apply Hstay]. }
      destruct free; [|by apply post_ret].
      post_step; [|by apply post_ret].
      eapply post_bind; [by apply (floodFill_marks size worldMap)|].
      intros reachable Hmarks.
      eapply post_bind; [apply isReachable_spec|]. intros ok Hok.
      destruct ok; [|by apply post_ret].
      post_step.
      eapply post_bind with (P := fun t => t ∈ enemyTypes).
      { apply post_lift. intros t. apply index_elem_of. }
      intros enemyType Htype.
      eapply post_bind with
        (P := fun h => match enemyType with
                       | Grunt => 20 <= h <= 35
                       | Soldier => 30 <= h <= 50
                       | Captain => 45 <= h <= 70
                       | _ => False
                       end).
      { unfold enemyTypes in Htype.
        repeat (apply elem_of_cons in Htype as [-> |Htype]);
          [..|by apply elem_of_nil in Htype]; post_step; apply post_ret; lia. }
      intros maxHealth Hh. post_step. apply post_ret. cbn [fst snd].
      split; [|split].
      - apply Forall_app. split; [done|]. apply Forall_singleton.
        unfold enemyPlaced, enemyCell. cbn [Enemy.x Enemy.y]. rewrite !Qfloor_num.
        split; [by apply Hfree|]. split; [by apply Hmarks, Hok|].
        split; [done|]. split; [done|]. by exists maxHealth.
      - rewrite length_app. simpl. zbool. lia.
      - eexists [_]. split; [done|]. simpl. split; [done|].
        intros Hne. destruct (Z.eqb_spec (GameState.nextEnemyId s) 0); [lia|done]. }
    intros [es1 s1] (Hes1 & Hlen1 & new1 & E1 & E2 & Hids1).
    cbn [fst snd] in *. subst es1 s1.
    eapply post_weaken; [by apply IH|].
    intros [es2 s2] (Hes2 & Hlen2 & new2 & E1 & E2 & Hids2).
    cbn [fst snd] in *. subst es2 s2.
    split; [done|]. split; [lia|].
    exists (new1 ++ new2). split; [by rewrite app_assoc|]. split.
    + rewrite length_app, Nat2Z.inj_add. destruct s.
      unfold GameState.set_nextEnemyId. simpl. f_equal. lia.
    + intros Hne. simpl in Hids2.
      rewrite fmap_app, Hids1 by done.
      rewrite length_app, Nat2Z.inj_add, seqZ_app by lia. f_equal.
      apply Hids2. lia.
Qed.

Lemma generateRandomEnemies_placed worldMap size s :
  wfGrid size worldMap ->
  post (generateRandomEnemies worldMap size s)
       (fun res =>
          Forall (enemyPlaced worldMap size) res.1 /\
          (length res.1 <= 16)%nat /\
          res.2 = GameState.set_nextEnemyId
                    (GameState.nextEnemyId s + Z.of_nat (length res.1)) s /\
          (1 <= GameState.nextEnemyId s ->
           Enemy.id <$> res.1
           = seqZ (GameState.nextEnemyId s) (Z.of_nat (length res.1)))).
Proof.
  intros Hmap. unfold generateRandomEnemies. post_step.
  eapply post_weaken; [by apply (placeEnemies_placed _ _ worldMap size [] s Hmap)|].
  intros [es s'] (Hes & Hlen & new & E1 & E2 & Hids). cbn [fst snd] in *.
  rewrite app_nil_l in E1. subst new. split; [done|].
  split; [simpl in Hlen; lia|]. by split.
Qed.

End EnemyPlacement.

(** ** The population of a new floor *)


Section FloorPopulation.
Context `{HostMath}.





End FloorPopulation.

(** ** Connectivity: the flood fill, the carved paths and the generated map *)

Lemma floodFill_returns size map startX startY :
  wfGrid size map -> 0 <= startX < size -> 0 <= startY < size ->
  total (floodFill map startX startY size) (wfGrid size).
Proof.
  intros Hmap Hx Hy. unfold floodFill.
  destruct (newArray2_wf size false) as (v0 & E0 & Hv0); [lia|].
  rewrite E0. simpl. apply total_bind_ret.
  destruct (write2_wf size v0 startY startX true Hv0) as (v1 & E1 & Hv1); [done..|].
  rewrite E1. simpl. apply total_bind_ret.
  apply total_floodLoop; [done..|].
  destruct Hv1 as [Hlen Hrows].
  assert (Hn : Forall (fun row : list bool => length row = Z.to_nat size) v1).
  { eapply Forall_impl; [exact Hrows|]. simpl. intros. lia. }
  pose proof (unvisited_le v1 _ Hn). simpl. nia.
Qed.

Lemma demoGrid_wf : wfGrid 5 demoGrid.
Proof. split; [reflexivity|]. repeat constructor. Qed.

Lemma openGrid_wf : wfGrid 64 openGrid.
Proof. split; [reflexivity|]. by apply Forall_replicate. Qed.

(** X9.  On a [size] by [size] grid and from a start cell inside it,
    [floodFill] always returns, and the cells it marks are exactly the
    cells connected to the start: the start itself and every cell reached
    from it by steps between 4-adjacent cells that each enter a cell
    holding 0. *)
Theorem floodFill_connected (size : Z) (map : list (list Z)) (startX startY : Z) :
  wfGrid size map -> 0 <= startX < size -> 0 <= startY < size ->
  total (floodFill map startX startY size)
        (fun v => wfGrid size v /\
                  forall x y, read2 v y x = Some (Some true) <->
                              connectedTo map (startX, startY) (x, y)).
Proof.
  intros Hmap Hx Hy. apply total_and_post; [by apply floodFill_returns|].
  eapply post_weaken; [by apply (floodFill_marks size map)|].
  intros v Hv x y. apply (Hv (x, y)).
Qed.

Lemma floodFill_connected_witness :
  exists v k,
    floodFill demoGrid 1 1 5 quarter 0%nat = Some (v, k) /\
    forall x y, read2 v y x = Some (Some true) <-> connectedTo demoGrid (1, 1) (x, y).
Proof.
  destruct (floodFill_connected 5 demoGrid 1 1 demoGrid_wf ltac:(lia) ltac:(lia)
              quarter 0%nat quarter_valid) as (v & k & Hrun & _ & Hv).
  exists v, k. split; [exact Hrun|exact Hv].
Defined.

(** X10.  Between two cells strictly inside the border, [createPath]
    always returns; it turns no cell holding 0 into a wall, and in the grid
    it returns the first cell is connected to the second. *)
Theorem createPath_links (size : Z) (map : list (list Z)) (from to : Z * Z) :
  wfGrid size map -> interior size from -> interior size to ->
  total (createPath map from to size)
        (fun map' => wfGrid size map' /\
                     (forall x y, read2 map y x = Some (Some 0) ->
                                  read2 map' y x = Some (Some 0)) /\
                     connectedTo map' to from).
Proof.
  intros Hmap Hfrom Hto. apply total_and_post; [by apply total_createPath|].
  eapply post_weaken; [by apply createPath_connects|].
  intros map' (Hk & Hconn & _). split; [|done]. intros x y. apply Hk.
Qed.

Lemma createPath_links_witness :
  exists map' k,
    createPath demoGrid (1, 1) (3, 1) 5 quarter 0%nat = Some (map', k) /\
    connectedTo map' (3, 1) (1, 1).
Proof.
  assert (H1 : interior 5 (1, 1)) by (unfold interior; simpl; lia).
  assert (H3 : interior 5 (3, 1)) by (unfold interior; simpl; lia).
  destruct (createPath_links 5 demoGrid (1, 1) (3, 1) demoGrid_wf H1 H3
              quarter 0%nat quarter_valid) as (map' & k & Hrun & _ & _ & Hconn).
  exists map', k. split; [exact Hrun|exact Hconn].
Defined.

(** X11.  In the grid the themed generator returns for a size of at
    least 64, every cell holding 0 is connected to the centre
    [(size / 2, size / 2)], where the player starts, or lies on the middle
    row or the middle column. *)
Theorem generated_map_connected `{HostMath} (size : Z) (theme : string) :
  64 <= size ->
  total (generateWorldMapWithTheme size theme)
        (fun g => forall x y, read2 g y x = Some (Some 0) ->
                              connectedTo g (size / 2, size / 2) (x, y) \/
                              x = size / 2 \/ y = size / 2).
Proof.
  intros Hsize.
  eapply total_weaken;
    [apply total_and_post;
       [by apply total_generateWorldMapWithTheme
       |apply post_and;
          [by apply generateWorldMapWithTheme_border
          |by apply generateWorldMapWithTheme_connects]]|].
  intros g (Hwf & Hborder & Hconn) x y Hc.
  destruct (read2_inside size g y x 0 Hwf Hc) as [Hx Hy].
  apply (Hconn (x, y)); [|exact Hc].
  unfold interior. simpl.
  destruct (decide (x = 0 \/ x = size - 1 \/ y = 0 \/ y = size - 1)) as [Hedge|Hin];
    [|lia].
  specialize (Hborder (x, y)). rewrite border_is_wall in Hborder. simpl in Hborder.
  rewrite Hborder in Hc; [done|]. unfold onBorder. simpl. lia.
Qed.

Lemma generated_map_connected_witness :
  exists g k,
    generateWorldMapWithTheme (H := approxMath) 64 "tech_base" quarter 0%nat
      = Some (g, k) /\
    forall x y, read2 g y x = Some (Some 0) ->
                connectedTo g (64 / 2, 64 / 2) (x, y) \/ x = 64 / 2 \/ y = 64 / 2.
Proof.
  destruct (generated_map_connected (H := approxMath) 64 "tech_base" ltac:(lia)
              quarter 0%nat quarter_valid) as (g & k & Hrun & Hg).
  exists g, k. split; [exact Hrun|exact Hg].
Defined.

(** X12.  On a [size] by [size] map with [size] at least 64 and with a
    positive enemy counter, [generateRandomEnemies] always returns, with at
    most 16 enemies.  Each of them stands on a cell holding 0 that is
    connected to the centre of the map, is idle, no boss and at full health,
    which is 20 to 35 for a grunt, 30 to 50 for a soldier and 45 to 70 for a
    captain.  Their ids are consecutive from the enemy counter on, and the
    state differs from the one given in the enemy counter only, which has
    moved past them. *)
Theorem generated_enemies_placed `{HostMath} (worldMap : list (list Z)) (size : Z)
    (s : GameState.t) :
  64 <= size -> wfGrid size worldMap -> 1 <= GameState.nextEnemyId s ->
  total (generateRandomEnemies worldMap size s)
        (fun res =>
           Forall (enemyPlaced worldMap size) res.1 /\
           (length res.1 <= 16)%nat /\
           Enemy.id <$> res.1
             = seqZ (GameState.nextEnemyId s) (Z.of_nat (length res.1)) /\
           res.2 = GameState.set_nextEnemyId
                     (GameState.nextEnemyId s + Z.of_nat (length res.1)) s).
Proof.
  intros Hsize Hmap Hn.
  eapply total_weaken;
    [apply total_and_post; [by apply total_generateRandomEnemies|]|].
  - by apply generateRandomEnemies_placed.
  - intros [es s'] (_ & Hes & Hlen & E & Hids). cbn [fst snd] in *.
    split; [done|]. split; [done|]. split; [by apply Hids|done].
Qed.

Lemma generated_enemies_placed_witness :
  exists res k,
    generateRandomEnemies (H := approxMath) openGrid 64 (Manager.state demoManager)
                          quarter 0%nat = Some (res, k) /\
    Forall (enemyPlaced openGrid 64) res.1 /\ (length res.1 <= 16)%nat.
Proof.
  destruct (generated_enemies_placed (H := approxMath) openGrid 64
              (Manager.state demoManager) ltac:(lia) openGrid_wf ltac:(simpl; lia)
              quarter 0%nat quarter_valid) as (res & k & Hrun & Hes & Hlen & _).
  exists res, k. split; [exact Hrun|]. split; [exact Hes|exact Hlen].
Defined.

(** ** Enemies stay on the floor *)


Section EnemyFloor.
Context `{HostMath}.









End EnemyFloor.



Section FloorReachable.
Context `{HostMath}.












End FloorReachable.

(** ** The logic step: attack flags and pickup collection *)

Lemma tick_iter (n : nat) (f : bool) (t : Z) :
  Nat.iter n tick (f, t)
  = (if (0 <? t) && (t <=? Z.of_nat n) then false else f,
     if 0 <? t then Z.max 0 (t - Z.of_nat n) else t).
Proof.
  induction n as [|n IH].
  - change (Z.of_nat 0) with 0. simpl.
    destruct (Z.ltb_spec 0 t), (Z.leb_spec t 0); simpl; try lia; f_equal; lia.
  - rewrite Nat2Z.inj_succ, Nat.iter_succ, IH. unfold tick. simpl.
    destruct (Z.ltb_spec 0 t); simpl.
    + destruct (Z.leb_spec t (Z.of_nat n)), (Z.leb_spec t (Z.succ (Z.of_nat n)));
        try lia.
      * destruct (Z.ltb_spec 0 (Z.max 0 (t - Z.of_nat n))); [lia|]. f_equal. lia.
      * destruct (Z.ltb_spec 0 (Z.max 0 (t - Z.of_nat n))); [|lia].
        destruct (Z.eqb_spec (Z.max 0 (t - Z.of_nat n) - 1) 0); [|lia]. f_equal. lia.
      * destruct (Z.ltb_spec 0 (Z.max 0 (t - Z.of_nat n))); [|lia].
        destruct (Z.eqb_spec (Z.max 0 (t - Z.of_nat n) - 1) 0); [lia|]. f_equal. lia.
    + destruct (Z.ltb_spec 0 t); [lia|done].
Qed.

Lemma updatePlayerAttackState_ticks s :
  attackFlag (GameState.player (updatePlayerAttackState s))
    = tick (attackFlag (GameState.player s)) /\
  muzzleFlag (GameState.player (updatePlayerAttackState s))
    = tick (muzzleFlag (GameState.player s)).
Proof.
  unfold updatePlayerAttackState, attackFlag, muzzleFlag, tick. cbv zeta.
  destruct (GameState.player s). cbn -[Z.ltb Z.eqb Z.sub].
  repeat (match goal with
          | |- context [if ?c then _ else _] =>
              destruct c eqn:?; cbn -[Z.ltb Z.eqb Z.sub] in *
          end); first [done | congruence].
Qed.

Section LogicStep.
Context `{HostMath}.

Lemma collectPickup_flags pickup s :
  attackFlag (GameState.player (collectPickup pickup s)) = attackFlag (GameState.player s) /\
  muzzleFlag (GameState.player (collectPickup pickup s)) = muzzleFlag (GameState.player s).
Proof.
  unfold collectPickup.
  by destruct (Pickup.type pickup); [| |destruct (Pickup.weaponType pickup)].
Qed.

Lemma collectFrom_flags n s :
  attackFlag (GameState.player (collectFrom n s)) = attackFlag (GameState.player s) /\
  muzzleFlag (GameState.player (collectFrom n s)) = muzzleFlag (GameState.player s).
Proof.
  revert s. induction n as [|i IH]; intros s; [done|]. cbn [collectFrom].
  destruct (GameState.pickups s !! i) as [pickup|]; [|apply IH].
  destruct (Qltb _ _); [|apply IH].
  destruct (IH (GameState.set_pickups
                  (delete i (GameState.pickups (collectPickup pickup s)))
                  (collectPickup pickup s))) as [-> ->].
  apply collectPickup_flags.
Qed.

Lemma fixedUpdate_ticks s :
  GameState.gameStatus s = Playing ->
  attackFlag (GameState.player (fixedUpdate s)) = tick (attackFlag (GameState.player s)) /\
  muzzleFlag (GameState.player (fixedUpdate s)) = tick (muzzleFlag (GameState.player s)).
Proof.
  intros Hs. unfold fixedUpdate. rewrite decide_True by done.
  destruct (updatePlayerAttackState_ticks s) as [<- <-].
  destruct (collectFrom_flags (length (GameState.pickups (updatePlayerAttackState s)))
                              (updatePlayerAttackState s)) as [<- <-].
  fold (updatePickupCollection (updatePlayerAttackState s)).
  set (x := updatePickupCollection _). clearbody x.
  unfold updateGameStatus. destruct (_ <=? 0); [done|]. by destruct (_ =? _)%nat.
Qed.

Lemma fixedUpdate_iter_ticks (n : nat) s :
  (forall k, (k < n)%nat -> GameState.gameStatus (Nat.iter k fixedUpdate s) = Playing) ->
  attackFlag (GameState.player (Nat.iter n fixedUpdate s))
    = Nat.iter n tick (attackFlag (GameState.player s)) /\
  muzzleFlag (GameState.player (Nat.iter n fixedUpdate s))
    = Nat.iter n tick (muzzleFlag (GameState.player s)).
Proof.
  induction n as [|n IH]; intros Hplay; [done|]. rewrite !Nat.iter_succ.
  destruct IH as [<- <-]; [intros k Hk; apply Hplay; lia|].
  apply fixedUpdate_ticks, Hplay. lia.
Qed.

(** *** The sweep over the pickups *)

Lemma collectPickup_range pickup s pickup' :
  inPickupRange (GameState.player (collectPickup pickup s)) pickup'
  = inPickupRange (GameState.player s) pickup'.
Proof.
  unfold inPickupRange. by destruct (collectPickup_position pickup s) as (-> & -> & _).
Qed.

Lemma collectFrom_pickups n s :
  (n <= length (GameState.pickups s))%nat ->
  GameState.pickups (collectFrom n s)
    = filter (fun pickup => inPickupRange (GameState.player s) pickup = false)
             (take n (GameState.pickups s))
      ++ drop n (GameState.pickups s) /\
  Player.x (GameState.player (collectFrom n s)) = Player.x (GameState.player s) /\
  Player.y (GameState.player (collectFrom n s)) = Player.y (GameState.player s).
Proof.
  revert s. induction n as [|i IH]; intros s Hn.
  - simpl. by rewrite drop_0.
  - cbn [collectFrom].
    destruct (lookup_lt_is_Some_2 (GameState.pickups s) i ltac:(lia)) as [pickup Hi].
    rewrite Hi. rewrite (take_S_r _ _ _ Hi), filter_app.
    fold (inPickupRange (GameState.player s) pickup).
    destruct (inPickupRange (GameState.player s) pickup) eqn:Er.
    + destruct (collectPickup_position pickup s) as (Hx & Hy & Hps).
      destruct (IH (GameState.set_pickups
                      (delete i (GameState.pickups (collectPickup pickup s)))
                      (collectPickup pickup s))) as (-> & -> & ->).
      { simpl. rewrite length_delete, Hps by (rewrite Hps; eauto). lia. }
      cbn [GameState.pickups GameState.player GameState.set_pickups].
      rewrite Hps, delete_take_drop.
      rewrite take_app_length' by (rewrite length_take; lia).
      rewrite drop_app_length' by (rewrite length_take; lia).
      rewrite filter_cons_False by (by rewrite Er). rewrite filter_nil, app_nil_r.
      split; [|by split]. f_equal.
      apply list_filter_iff. intros pickup'. by rewrite collectPickup_range.
    + destruct (IH s ltac:(lia)) as (-> & -> & ->).
      rewrite filter_cons_True by done. rewrite filter_nil, (drop_S _ _ _ Hi).
      split; [|done]. by rewrite <- app_assoc.
Qed.

End LogicStep.

(** ** Pausing, progression and timers together *)

Section GameFlow.
Context `{HostMath}.

(** [progressToNextFloor] leaves the pause flag as it is. *)
Lemma progressToNextFloor_paused m :
  0 <= GameState.currentFloor (Manager.state m) ->
  post (progressToNextFloor m)
       (fun m' => GameState.isPaused (Manager.state m')
                  = GameState.isPaused (Manager.state m)).
Proof.
  intros Hfloor. unfold progressToNextFloor.
  destruct (canProgress _); [|by apply post_ret].
  set (s := Manager.state m).
  set (nextFloor := GameState.currentFloor s + 1).
  set (worldSize := Z.min (64 + nextFloor / 5 * 8) 96).
  assert (Hsize : 64 <= worldSize)
    by (apply nextWorldSize_bounds; unfold nextFloor, s; lia).
  eapply post_bind; [by apply total_post, (total_generateWorldMapWithTheme worldSize)|].
  intros worldMap Hmap. cbv zeta.
  set (s1 := GameState.set_worldSize _ _).
  eapply post_bind with
    (P := fun s2 => GameState.isPaused s2 = GameState.isPaused s).
  { destruct (Z.rem nextFloor 5 =? 0).
    - eapply post_bind; [by apply total_post, total_generateRandomEnemies|].
      intros [regular s2] [_ (n & Hid)]. simpl in Hid. subst s2.
      eapply post_bind; [apply post_true|]. intros boss _. by apply post_ret.
    - eapply post_bind; [by apply total_post, total_generateRandomEnemies|].
      intros [es s2] [_ (n & Hid)]. simpl in Hid. subst s2. by apply post_ret. }
  intros s2 Hs2.
  eapply post_bind; [apply generateRandomPickups_appended|].
  intros s3 (new & [-> _]). by apply post_ret.
Qed.

(** What [createInitialState] returns. *)
Lemma createInitialState_fresh :
  total createInitialState
        (fun s => GameState.enemies s = [] /\ GameState.pickups s = [] /\
                  GameState.currentFloor s = 1 /\ GameState.gameStatus s = Playing /\
                  GameState.isPaused s = false /\
                  Player.health (GameState.player s) = 100 /\
                  Player.weapon (GameState.player s) = Pistol).
Proof.
  unfold createInitialState. cbv zeta.
  eapply total_bind; [by apply (total_generateWorldMapWithTheme 64)|].
  intros worldMap _. by apply total_ret.
Qed.

Lemma fireTimer_last (m : Manager.t) (ts : list (Z * Callback)) (c : Callback)
    (delay : Z) :
  Manager.timers m = ts ++ [(delay, c)] ->
  fireTimer (length ts) m
  = runCallback c (Manager.mk (Manager.state m) (Manager.published m) ts).
Proof.
  intros Ht. unfold fireTimer. rewrite Ht.
  rewrite lookup_app_r, Nat.sub_diag by lia. simpl.
  rewrite delete_take_drop, take_app_length.
  rewrite drop_ge by (rewrite length_app; simpl; lia).
  by rewrite app_nil_r.
Qed.

(** Killing the only enemy there is. *)
Lemma damageEnemy_last m enemy damage :
  GameState.enemies (Manager.state m) = [enemy] ->
  (Enemy.health enemy - damage <= 0)%Q ->
  total (damageEnemy (Enemy.id enemy) damage m)
        (fun res =>
           res.1 = true /\
           exists s',
             res.2 = notifyListeners
                       (setTimeout CallCheckFloorProgression 100 (Manager.set_state s' m)) /\
             GameState.enemies s' = [] /\
             GameState.currentFloor s' = GameState.currentFloor (Manager.state m) /\
             GameState.isBossFloor s' = GameState.isBossFloor (Manager.state m)).
Proof.
  intros He Hdead. unfold damageEnemy.
  assert (Ef : findEnemyIndex (Enemy.id enemy) (GameState.enemies (Manager.state m))
               = Some (0%nat, enemy)).
  { unfold findEnemyIndex. rewrite He. simpl. by rewrite decide_True. }
  rewrite Ef. cbv zeta.
  set (enemy' := Enemy.set_hurtTimer 5 _).
  assert (Hq : Qleb (Enemy.health enemy') 0 = true).
  { unfold Qleb. apply Qle_bool_iff. simpl. unfold num. by rewrite Qred_correct. }
  rewrite Hq.
  eapply total_bind with
    (P := fun m' => exists s',
            m' = setTimeout CallCheckFloorProgression 100 (Manager.set_state s' m) /\
            GameState.enemies s' = [] /\
            GameState.currentFloor s' = GameState.currentFloor (Manager.state m) /\
            GameState.isBossFloor s' = GameState.isBossFloor (Manager.state m)).
  { eapply total_bind; [apply spawnEnemyDrops_appended|].
    intros s2 (new & [-> _] & _). apply total_ret. eexists. split; [done|].
    simpl. unfold findEnemyIndex in *.
    rewrite (list_find_insert_same _ _ 0%nat enemy enemy' Ef eq_refl).
    simpl. rewrite delete_insert_same, He. done. }
  intros m' (s' & -> & Hs'). apply total_ret. split; [done|]. by exists s'.
Qed.

Lemma checkFloorProgression_cleared m :
  GameState.enemies (Manager.state m) = [] ->
  exists s' delay,
    checkFloorProgression m
      = setTimeout CallProgressToNextFloor delay (Manager.set_state s' m) /\
    GameState.enemies s' = [] /\
    GameState.currentFloor s' = GameState.currentFloor (Manager.state m).
Proof.
  intros He. unfold checkFloorProgression. rewrite He. cbv zeta. simpl.
  destruct (GameState.isBossFloor _).
  - by eexists _, _.
  - exists (Manager.state m), 1500. by destruct m.
Qed.

(** The status is kept by the loop of logic steps once the game is over. *)
Lemma fixedLoop_over fuel s s' :
  GameState.gameStatus s <> Playing ->
  fixedLoop fuel s = Some s' -> GameState.gameStatus s' = GameState.gameStatus s.
Proof.
  revert s. induction fuel as [|fuel IH]; intros s Hs; simpl;
    destruct (Qgeb _ _); try done; try by intros [= <-].
  unfold fixedUpdate. rewrite decide_False by done. intros Hloop.
  by apply IH in Hloop.
Qed.

End GameFlow.

(** ** A new floor and the enemies on it *)





(** ** Pausing, timers and the end of the game *)

(** X15.  [progressToNextFloor] sets the status to [Playing] and leaves
    the pause flag alone: called on a paused game whose guard holds, it
    returns a game on the next floor that is still paused while its status
    is [Playing], on which [resume] and [togglePause] do nothing and [shoot]
    refuses to fire. *)
Theorem paused_progression `{HostMath} (m : Manager.t) :
  GameState.isPaused (Manager.state m) = true ->
  canProgress (Manager.state m) = true ->
  0 <= GameState.currentFloor (Manager.state m) ->
  total (progressToNextFloor m)
        (fun m' =>
           GameState.currentFloor (Manager.state m')
           = GameState.currentFloor (Manager.state m) + 1 /\
           GameState.gameStatus (Manager.state m') = Playing /\
           GameState.isPaused (Manager.state m') = true /\
           resume m' = m' /\ togglePause m' = m' /\ shoot m' = (false, m')).
Proof.
  intros Hp Hcan Hfloor.
  eapply total_weaken;
    [apply total_and_post;
       [by apply total_progressToNextFloor
       |by apply progressToNextFloor_paused]|].
  intros m' [Hadv Hp']. rewrite Hp in Hp'.
  destruct Hadv as (Hf & _ & _ & _ & _ & _ & Hs & _).
  assert (Hres : resume m' = m').
  { unfold resume. rewrite decide_False; [done|]. by rewrite Hs. }
  repeat (split; [done|]). split.
  - unfold togglePause. by rewrite Hp'.
  - unfold shoot. by rewrite Hp', orb_true_r.
Qed.

Lemma paused_progression_witness :
  exists m' k,
    progressToNextFloor (H := approxMath) (pause clearedManager) quarter 0%nat
      = Some (m', k) /\
    GameState.gameStatus (Manager.state m') = Playing /\
    GameState.isPaused (Manager.state m') = true /\
    togglePause m' = m'.
Proof.
  destruct (paused_progression (H := approxMath) (pause clearedManager) eq_refl eq_refl
              ltac:(simpl; lia) quarter 0%nat quarter_valid)
    as (m' & k & Hrun & _ & Hs & Hp & _ & Ht & _).
  exists m', k. split; [exact Hrun|]. split; [exact Hs|]. split; [exact Hp|exact Ht].
Defined.

(** X16.  After a shot, and while the status stays [Playing], the attack
    flag is up for exactly [attackDuration] logic steps and the muzzle flash
    for exactly [muzzleDuration], the durations of the weapon fired: after
    [n] steps the flags are [n < attackDuration] and [n < muzzleDuration],
    and the two timers have counted down by [n], stopping at 0. *)
Theorem attack_flags_last `{HostMath} (m : Manager.t) (n : nat) :
  (shoot m).1 = true ->
  (forall k, (k < n)%nat ->
     GameState.gameStatus (Nat.iter k fixedUpdate (Manager.state (shoot m).2)) = Playing) ->
  let stats := WEAPON_STATS (Player.weapon (GameState.player (Manager.state m))) in
  let p' := GameState.player (Nat.iter n fixedUpdate (Manager.state (shoot m).2)) in
  Player.isAttacking p' = (Z.of_nat n <? WeaponStats.attackDuration stats) /\
  Player.attackTimer p' = Z.max 0 (WeaponStats.attackDuration stats - Z.of_nat n) /\
  Player.muzzleFlash p' = (Z.of_nat n <? WeaponStats.muzzleDuration stats) /\
  Player.muzzleFlashTimer p' = Z.max 0 (WeaponStats.muzzleDuration stats - Z.of_nat n).
Proof.
  intros Hshot Hplay. cbv zeta.
  destruct (fixedUpdate_iter_ticks n _ Hplay) as [Ha Hm].
  revert Hshot Ha Hm. unfold shoot.
  destruct (_ || _); [done|]. intros _. cbv zeta. unfold attackFlag, muzzleFlag.
  cbn [fst snd Manager.state Manager.with_player Manager.set_state notifyListeners
       GameState.player GameState.set_player Player.isAttacking Player.attackTimer
       Player.muzzleFlash Player.muzzleFlashTimer Player.set_muzzleFlashTimer
       Player.set_muzzleFlash Player.set_attackTimer Player.set_isAttacking].
  rewrite !tick_iter. intros [= -> ->] [= -> ->].
  destruct (Player.weapon (GameState.player (Manager.state m))); simpl;
    repeat split;
    repeat (match goal with
            | |- context [?a <=? ?b] => destruct (Z.leb_spec a b)
            | |- context [?a <? ?b] => destruct (Z.ltb_spec a b)
            end); try done; lia.
Qed.

Lemma attack_flags_last_witness :
  let p' := GameState.player (Nat.iter 3 (fixedUpdate (H := approxMath))
                                       (Manager.state (shoot demoManager).2)) in
  Player.isAttacking p' = true /\ Player.attackTimer p' = 12 /\
  Player.muzzleFlash p' = true /\ Player.muzzleFlashTimer p' = 5.
Proof.
  refine (attack_flags_last (H := approxMath) demoManager 3 eq_refl _).
  intros k Hk. destruct k as [|[|[|k]]]; [reflexivity..|lia].
Defined.

(** X17.  The sweep of a logic step over the pickups leaves exactly the
    pickups that are not within reach of the player, in their order, and
    does not move the player: no pickup within reach is left behind and
    none out of reach is taken. *)
Theorem pickups_swept `{HostMath} (s : GameState.t) :
  let s' := updatePickupCollection s in
  GameState.pickups s'
    = filter (fun pickup => inPickupRange (GameState.player s) pickup = false)
             (GameState.pickups s) /\
  Player.x (GameState.player s') = Player.x (GameState.player s) /\
  Player.y (GameState.player s') = Player.y (GameState.player s) /\
  Forall (fun pickup => inPickupRange (GameState.player s') pickup = false)
         (GameState.pickups s').
Proof.
  cbv zeta. unfold updatePickupCollection.
  destruct (collectFrom_pickups (length (GameState.pickups s)) s (le_n _))
    as (Hps & Hx & Hy).
  rewrite firstn_all, drop_all, app_nil_r in Hps.
  split; [done|]. split; [done|]. split; [done|].
  rewrite Hps. apply Forall_forall. intros pickup Hin.
  apply list_elem_of_filter in Hin as [Hout _].
  unfold inPickupRange in *. by rewrite Hx, Hy.
Qed.

(** X18.  Killing the only enemy there is and letting the two timers
    run takes the game to the next floor: [damageEnemy] with a damage of at
    least the enemy's health starts a timer for [checkFloorProgression],
    which starts one for [progressToNextFloor]; after both have fired the
    floor number is one higher, the status is [Playing] and the pending
    timers are those there were before. *)
Theorem last_kill_advances `{HostMath} (m : Manager.t) (enemy : Enemy.t) (damage : Q) :
  GameState.enemies (Manager.state m) = [enemy] ->
  (Enemy.health enemy <= damage)%Q ->
  0 <= GameState.currentFloor (Manager.state m) ->
  total (let* res := damageEnemy (Enemy.id enemy) damage m in
         let* m1 := fireTimer (length (Manager.timers m)) res.2 in
         fireTimer (length (Manager.timers m)) m1)
        (fun m' =>
           GameState.currentFloor (Manager.state m')
           = GameState.currentFloor (Manager.state m) + 1 /\
           GameState.gameStatus (Manager.state m') = Playing /\
           Manager.timers m' = Manager.timers m).
Proof.
  intros He Hdead Hfloor.
  eapply total_bind; [apply damageEnemy_last; [exact He|lra]|].
  intros [b m1] (_ & s1 & Hm1 & Hes1 & Hf1 & _). cbn [fst snd] in *. subst m1.
  rewrite (fireTimer_last _ (Manager.timers m) CallCheckFloorProgression 100)
    by reflexivity.
  simpl runCallback. apply total_bind_ret.
  cbn [Manager.state Manager.published notifyListeners setTimeout Manager.set_state].
  match goal with
  | |- context [checkFloorProgression ?m0] =>
      destruct (checkFloorProgression_cleared m0 Hes1) as (s2 & delay & -> & Hes2 & Hf2)
  end.
  rewrite (fireTimer_last _ (Manager.timers m) CallProgressToNextFloor delay)
    by reflexivity.
  simpl runCallback.
  eapply total_weaken; [apply total_progressToNextFloor|].
  - unfold canProgress. simpl. by rewrite Hes2.
  - simpl in *. lia.
  - intros m' Hadv.
    destruct Hadv as (Hf & _ & _ & _ & _ & _ & Hs & _ & _ & _ & _ & _ & _ & _ & _ & _
                      & _ & _ & Ht).
    simpl in *. split; [lia|]. by split.
Qed.

Lemma last_kill_advances_witness :
  exists m' k,
    (let* res := damageEnemy 7 30 demoManager in
     let* m1 := fireTimer (H := approxMath) 0 res.2 in
     fireTimer (H := approxMath) 0 m1) quarter 0%nat = Some (m', k) /\
    GameState.currentFloor (Manager.state m') = 6.
Proof.
  destruct (last_kill_advances (H := approxMath) demoManager demoEnemy 30%Q eq_refl
              ltac:(unfold Qle; simpl; lia) ltac:(simpl; lia)
              quarter 0%nat quarter_valid)
    as (m' & k & Hrun & Hfloor & _).
  exists m', k. split; [exact Hrun|exact Hfloor].
Defined.

(** X19.  [reset] always returns; it puts a fresh initial state in place
    (floor 1, no enemies, no pickups, full health, the pistol in hand) and
    keeps the pending timers.  A timer for [progressToNextFloor] that was
    pending at the reset and fires after it takes the fresh game, which has
    no enemies yet, to floor 2. *)
Theorem reset_keeps_timers `{HostMath} (m : Manager.t) (i : nat) (delay : Z) :
  Manager.timers m !! i = Some (delay, CallProgressToNextFloor) ->
  total (reset m)
        (fun m' =>
           Manager.timers m' = Manager.timers m /\
           GameState.currentFloor (Manager.state m') = 1 /\
           GameState.enemies (Manager.state m') = [] /\
           GameState.pickups (Manager.state m') = [] /\
           Player.health (GameState.player (Manager.state m')) = 100 /\
           Player.weapon (GameState.player (Manager.state m')) = Pistol) /\
  total (let* m' := reset m in fireTimer i m')
        (fun m'' => GameState.currentFloor (Manager.state m'') = 2).
Proof.
  intros Hi. split.
  - unfold reset. eapply total_bind; [apply createInitialState_fresh|].
    intros s (He & Hp & Hf & _ & _ & Hh & Hw). apply total_ret. simpl. by repeat split.
  - unfold reset. eapply total_bind.
    { eapply total_bind; [apply createInitialState_fresh|].
      intros s Hs. apply total_ret.
      instantiate (1 := fun m' =>
        Manager.timers m' = Manager.timers m /\
        GameState.enemies (Manager.state m') = [] /\
        GameState.currentFloor (Manager.state m') = 1).
      simpl. by destruct Hs as (? & _ & ? & _). }
    intros m' (Ht & He & Hf). unfold fireTimer. rewrite Ht, Hi. simpl.
    eapply total_weaken; [apply total_progressToNextFloor|].
    + unfold canProgress. simpl. by rewrite He.
    + simpl. lia.
    + intros m'' Hadv. destruct Hadv as [-> _]. simpl. lia.
Qed.

Lemma reset_keeps_timers_witness :
  exists m'' k,
    (let* m' := reset (H := approxMath)
                  (setTimeout CallProgressToNextFloor 1500 demoManager) in
     fireTimer (H := approxMath) 0 m') quarter 0%nat = Some (m'', k) /\
    GameState.currentFloor (Manager.state m'') = 2.
Proof.
  destruct (proj2 (reset_keeps_timers (H := approxMath)
                     (setTimeout CallProgressToNextFloor 1500 demoManager)
                     0%nat 1500 eq_refl) quarter 0%nat quarter_valid)
    as (m'' & k & Hrun & Hfloor).
  exists m'', k. split; [exact Hrun|exact Hfloor].
Defined.

(** ** The summary of the state for the music *)

Section MusicFacts.
Context `{HostMath}.

Lemma closestEnemy_fold p (enemies : list Enemy.t) (acc : option Q) :
  let f := fun (closest : option Q) enemy =>
             match closest with
             | None => Some (enemyDistance p enemy)
             | Some c => if Qltb (enemyDistance p enemy) c
                         then Some (enemyDistance p enemy) else closest
             end in
  match foldl f acc enemies with
  | None => acc = None /\ enemies = []
  | Some c =>
      (acc = Some c \/ exists e, e ∈ enemies /\ c = enemyDistance p e) /\
      (forall a, acc = Some a -> (c <= a)%Q) /\
      Forall (fun e => (c <= enemyDistance p e)%Q) enemies
  end.
Proof.
  cbv zeta. revert acc. induction enemies as [|e enemies IH]; intros acc; simpl.
  - destruct acc as [a|]; [|done]. split; [by left|]. split; [|done].
    intros ? [= <-]. apply Qle_refl.
  - match goal with |- context [foldl ?f ?a enemies] => specialize (IH a) end.
    destruct (foldl _ _ enemies) as [c|].
    + destruct IH as (Hfrom & Hle & Hall). destruct acc as [a|].
      * destruct (Qltb (enemyDistance p e) a) eqn:Elt.
        -- apply Qltb_lt in Elt. split; [|split].
           ++ right. destruct Hfrom as [[= <-]|(e' & He' & ->)].
              ** exists e. split; [by left|done].
              ** exists e'. split; [by right|done].
           ++ intros ? [= <-]. specialize (Hle _ eq_refl). lra.
           ++ constructor; [by apply Hle|done].
        -- assert (a <= enemyDistance p e)%Q.
           { destruct (Qlt_le_dec (enemyDistance p e) a) as [Hlt|]; [|done].
             apply Qltb_lt in Hlt. congruence. }
           split; [|split].
           ++ destruct Hfrom as [?|(e' & He' & ->)]; [by left|right].
              exists e'. split; [by right|done].
           ++ done.
           ++ constructor; [|done]. specialize (Hle _ eq_refl). lra.
      * split; [|split; [done|]].
        -- right. destruct Hfrom as [[= <-]|(e' & He' & ->)].
           ++ exists e. split; [by left|done].
           ++ exists e'. split; [by right|done].
        -- constructor; [by apply Hle|done].
    + destruct IH as [Hacc _]. by destruct acc as [a|]; [destruct (Qltb _ _)|].
Qed.

End MusicFacts.

(** ** The engine: a shot *)

Lemma Math_max_le (a b : Q) : (a <= Math_max a b)%Q /\ (b <= Math_max a b)%Q.
Proof.
  unfold Math_max. destruct (Qltb a b) eqn:E.
  - apply Qltb_lt in E. split; lra.
  - split; [lra|]. destruct (Qlt_le_dec a b) as [Hlt|]; [|done].
    apply Qltb_lt in Hlt. congruence.
Qed.

Lemma Math_max_lub (a b c : Q) : (a <= c)%Q -> (b <= c)%Q -> (Math_max a b <= c)%Q.
Proof. unfold Math_max. by destruct (Qltb a b). Qed.

Lemma Math_max_mono (a b b' : Q) : (b <= b')%Q -> (Math_max a b <= Math_max a b')%Q.
Proof.
  intros Hb. apply Math_max_lub.
  - apply Math_max_le.
  - destruct (Math_max_le a b'). lra.
Qed.

Section EngineFacts.
Context `{HostMath}.


End EngineFacts.

(** X20.  In the summary [getGameStateForMusic] gives, the number of
    nearby enemies is at most the number of enemies; the closest distance is
    100 when there is no enemy and otherwise the least of the enemies'
    distances from the player, attained by one of them; and there is a
    nearby enemy exactly when the closest distance is at most 10. *)
Theorem music_state_consistent `{HostMath} (m : Manager.t) :
  let g := getGameStateForMusic m in
  let p := GameState.player (Manager.state m) in
  let enemies := GameState.enemies (Manager.state m) in
  0 <= GameStateForMusic.nearbyEnemyCount g <= GameStateForMusic.enemyCount g /\
  (0 < GameStateForMusic.nearbyEnemyCount g <->
   (GameStateForMusic.closestEnemyDistance g <= 10)%Q) /\
  (enemies = [] -> GameStateForMusic.closestEnemyDistance g = 100%Q) /\
  Forall (fun e => (GameStateForMusic.closestEnemyDistance g <= enemyDistance p e)%Q)
         enemies /\
  (enemies <> [] ->
   exists e, e ∈ enemies /\ GameStateForMusic.closestEnemyDistance g = enemyDistance p e).
Proof.
  cbv zeta. unfold getGameStateForMusic. cbv zeta. simpl.
  set (p := GameState.player (Manager.state m)).
  set (enemies := GameState.enemies (Manager.state m)).
  pose proof (closestEnemy_fold p enemies None) as Hfold. cbv zeta in Hfold.
  fold (closestEnemy p enemies) in Hfold.
  set (near := filter _ enemies).
  assert (Hnear : forall e, e ∈ near <-> e ∈ enemies /\ (enemyDistance p e <= 10)%Q).
  { intros e. unfold near. rewrite list_elem_of_filter. unfold Qleb.
    rewrite Qle_bool_iff. tauto. }
  assert (Hlen : (length near <= length enemies)%nat) by apply length_filter.
  clearbody near. split; [lia|].
  destruct (closestEnemy p enemies) as [c|].
  - destruct Hfold as ([?|(e0 & He0 & Hc)] & _ & Hall); [done|].
    split; [|split; [|split]].
    + split.
      * intros Hpos. destruct near as [|e near'] eqn:En; [simpl in Hpos; lia|].
        assert (He : e ∈ enemies /\ (enemyDistance p e <= 10)%Q)
          by (apply Hnear; by left).
        destruct He as [He Hd]. rewrite Forall_forall in Hall.
        specialize (Hall e He). lra.
      * intros Hc10.
        assert (He0' : e0 ∈ near) by (apply Hnear; split; [done|by rewrite <- Hc]).
        destruct near; [by apply elem_of_nil in He0'|]. simpl. lia.
    + intros ->. by apply elem_of_nil in He0.
    + done.
    + intros _. by exists e0.
  - destruct Hfold as [_ Hnil]. split; [|split; [|split]].
    + rewrite Hnil in Hlen. destruct near; [|simpl in Hlen; lia]. simpl.
      split; [lia|]. unfold Qle. simpl. lia.
    + done.
    + by rewrite Hnil.
    + done.
Qed.


(** X22.  The damage of a shot lies between the floor of 0.8 times the
    weapon's damage (0.3 times for the shotgun) and the weapon's damage
    itself, and does not grow with the distance of the enemy. *)
Theorem shotDamage_bounds (weapon : Weapon) (weaponDamage weaponRange : Z) (d d' : Q) :
  0 <= weaponDamage -> 0 < weaponRange -> (0 <= d)%Q -> (d <= d')%Q ->
  Qfloor (inject_Z weaponDamage * match weapon with Shotgun => 0.3 | _ => 0.8 end)
  <= shotDamage weapon weaponDamage weaponRange d' /\
  shotDamage weapon weaponDamage weaponRange d'
  <= shotDamage weapon weaponDamage weaponRange d /\
  shotDamage weapon weaponDamage weaponRange d <= weaponDamage.
Proof.
  intros HD HR Hd Hdd'.
  assert (Hz : (0 <= / inject_Z weaponRange)%Q).
  { apply Qinv_le_0_compat. unfold Qle. simpl. lia. }
  assert (HDq : (0 <= inject_Z weaponDamage)%Q) by (unfold Qle; simpl; lia).
  assert (Hfactor : forall c k : Q, (0 <= k)%Q -> (c <= 1)%Q ->
    Qfloor (inject_Z weaponDamage * c)
    <= Qfloor (inject_Z weaponDamage
               * Math_max c (1 - (d' / inject_Z weaponRange) * k)) /\
    Qfloor (inject_Z weaponDamage * Math_max c (1 - (d' / inject_Z weaponRange) * k))
    <= Qfloor (inject_Z weaponDamage
               * Math_max c (1 - (d / inject_Z weaponRange) * k)) /\
    Qfloor (inject_Z weaponDamage * Math_max c (1 - (d / inject_Z weaponRange) * k))
    <= weaponDamage).
  { intros c k Hk Hc. unfold Qdiv.
    set (z := (/ inject_Z weaponRange)%Q) in *.
    assert (Hzk : (0 <= z * k)%Q) by (by apply Qmult_le_0_compat).
    assert (Hdzk : (d * z * k <= d' * z * k)%Q).
    { rewrite <- !Qmult_assoc. by apply Qmult_le_compat_r. }
    assert (Hpos : (0 <= d * z * k)%Q).
    { rewrite <- Qmult_assoc. by apply Qmult_le_0_compat. }
    assert (Hmono : (Math_max c (1 - d' * z * k) <= Math_max c (1 - d * z * k))%Q).
    { apply Math_max_mono. lra. }
    assert (Hone : (Math_max c (1 - d * z * k) <= 1)%Q).
    { apply Math_max_lub; [done|]. lra. }
    destruct (Math_max_le c (1 - d' * z * k)) as [Hlow _].
    split; [|split].
    - apply Qfloor_resp_le. nra.
    - apply Qfloor_resp_le. nra.
    - rewrite <- (Qfloor_Z weaponDamage) at 2. apply Qfloor_resp_le. nra. }
  unfold shotDamage. destruct weapon; cbv zeta; apply Hfactor; lra.
Qed.

Lemma shotDamage_bounds_witness :
  Qfloor (inject_Z 22 * 0.3) <= shotDamage Shotgun 22 8 8 /\
  shotDamage Shotgun 22 8 8 <= shotDamage Shotgun 22 8 2 /\
  shotDamage Shotgun 22 8 2 <= 22.
Proof.
  apply (shotDamage_bounds Shotgun 22 8 2 8); [lia|lia|unfold Qle; simpl; lia..].
Defined.

(** ** Once the game is over *)

Section GameOver.
Context `{HostMath}.

Lemma placeEnemies_counter n enemyCount worldMap size enemies s :
  post (placeEnemies n enemyCount worldMap size enemies s)
       (fun res => enemyIdChanged s res.2).
Proof.
  revert enemies s. induction n as [|n IH]; intros enemies s; cbn [placeEnemies].
  - apply post_ret, enemyIdChanged_refl.
  - post_step; [|apply post_ret, enemyIdChanged_refl].
    do 2 post_step.
    eapply post_bind; [apply post_true|]. intros free _.
    eapply post_bind with
      (P := fun res : list Enemy.t * GameState.t => enemyIdChanged s res.2).
    { destruct free; [|apply post_ret, enemyIdChanged_refl].
      post_step; [|apply post_ret, enemyIdChanged_refl].
      eapply post_bind; [apply post_true|]. intros reachable _.
      eapply post_bind; [apply post_true|]. intros ok _.
      destruct ok; [|apply post_ret, enemyIdChanged_refl].
      post_step.
      eapply post_bind; [apply post_true|]. intros enemyType _.
      eapply post_bind; [apply post_true|]. intros maxHealth _.
      post_step. apply post_ret. by eexists. }
    intros [es1 s1] Hc1. eapply post_weaken; [apply IH|].
    intros [es2 s2] Hc2. by eapply enemyIdChanged_trans.
Qed.

Lemma fixedLoop_player_over fuel s s' :
  GameState.gameStatus s <> Playing ->
  fixedLoop fuel s = Some s' -> GameState.player s' = GameState.player s.
Proof.
  revert s. induction fuel as [|fuel IH]; intros s Hs; simpl;
    destruct (Qgeb _ _); try done; try by intros [= <-].
  unfold fixedUpdate. rewrite decide_False by done. intros Hloop.
  by apply IH in Hloop.
Qed.

(** The status and the player's health are kept by every call other than
    [reset], [progressToNextFloor] and the firing of a timer, once the
    status is [Victory] or [Defeat]. *)
Lemma perform_over op m :
  GameState.gameStatus (Manager.state m) = Victory \/
  GameState.gameStatus (Manager.state m) = Defeat ->
  match op with
  | OpProgressToNextFloor | OpReset | OpFireTimer _ => False
  | _ => True
  end ->
  post (perform op m)
       (fun m' =>
          GameState.gameStatus (Manager.state m') = GameState.gameStatus (Manager.state m) /\
          Player.health (GameState.player (Manager.state m'))
          = Player.health (GameState.player (Manager.state m))).
Proof.
  intros Hover Hop.
  assert (Hnp : GameState.gameStatus (Manager.state m) <> Playing)
    by (destruct Hover as [-> | ->]; done).
  assert (Hnpa : GameState.gameStatus (Manager.state m) <> Paused)
    by (destruct Hover as [-> | ->]; done).
  assert (Hguard : forall b,
            negb (bool_decide (GameState.gameStatus (Manager.state m) = Playing)) || b
            = true).
  { intros b. by rewrite bool_decide_eq_false_2. }
  destruct op; simpl in Hop; try contradiction; cbn [perform].
  - (* updateWithDeltaTime *)
    unfold updateWithDeltaTime. cbv zeta.
    destruct (GameState.isPaused _); [by apply post_ret|].
    destruct (Qeq_bool _ _).
    + eapply post_bind with
        (P := fun s' =>
           GameState.gameStatus s' = GameState.gameStatus (Manager.state m) /\
           Player.health (GameState.player s')
           = Player.health (GameState.player (Manager.state m))).
      { destruct (_ =? _)%nat; [|by apply post_ret].
        unfold initializeEnemiesAfterState.
        eapply post_bind with
          (P := fun res : list Enemy.t * GameState.t =>
                  enemyIdChanged
                    (GameState.set_lastUpdateTime currentTime (Manager.state m)) res.2).
        { unfold generateRandomEnemies. post_step. apply placeEnemies_counter. }
        intros [enemies s'] (n & Hs'). simpl in Hs'. subst s'. by apply post_ret. }
      intros s' Hs'. by apply post_ret.
    + eapply post_bind with
        (P := fun s' =>
           GameState.gameStatus s' = GameState.gameStatus (Manager.state m) /\
           Player.health (GameState.player s')
           = Player.health (GameState.player (Manager.state m))).
      { apply post_lift. intros s' Hloop.
        pose proof Hloop as Hst.
        apply fixedLoop_over in Hst; [|exact Hnp].
        apply fixedLoop_player_over in Hloop; [|exact Hnp].
        simpl in Hst, Hloop. by rewrite Hst, Hloop. }
      intros s' Hs'. by apply post_ret.
  - unfold updatePlayer. rewrite Hguard. by apply post_ret.
  - apply post_ret. unfold updateMouseLook. by rewrite Hguard.
  - apply post_ret. unfold shoot. by rewrite <- orb_assoc, Hguard.
  - unfold updateEnemies. rewrite Hguard. by apply post_ret.
  - eapply post_bind with
      (P := fun res : bool * Manager.t =>
         GameState.gameStatus (Manager.state res.2)
         = GameState.gameStatus (Manager.state m) /\
         Player.health (GameState.player (Manager.state res.2))
         = Player.health (GameState.player (Manager.state m)));
      [|intros res Hres; by apply post_ret].
    unfold damageEnemy.
    destruct (findEnemyIndex _ _) as [[i enemy]|]; [|by apply post_ret]. cbv zeta.
    eapply post_bind with
      (P := fun m' =>
         GameState.gameStatus (Manager.state m') = GameState.gameStatus (Manager.state m) /\
         Player.health (GameState.player (Manager.state m'))
         = Player.health (GameState.player (Manager.state m)));
      [|intros m' Hm'; by apply post_ret].
    destruct (Qleb _ _); [|by apply post_ret].
    eapply post_bind; [apply total_post, spawnEnemyDrops_appended|].
    intros s2 (new & [-> _] & _). apply post_ret. simpl.
    by destruct (findEnemyIndex _ _) as [[index e]|].
  - apply post_ret. unfold switchWeapon. by destruct (decide _).
  - apply post_ret. unfold pause. by rewrite decide_False.
  - apply post_ret. unfold resume. by rewrite decide_False.
  - apply post_ret. unfold togglePause, pause, resume.
    destruct (GameState.isPaused _); by rewrite decide_False.
  - apply post_ret. unfold checkFloorProgression.
    by destruct (GameState.isBossFloor _); [destruct (_ && _)|destruct (_ =? _)%nat].
Qed.

End GameOver.

(** X23.  Once the status is [Victory] or [Defeat], every call other
    than [reset], [progressToNextFloor] and the firing of a timer leaves the
    status and the player's health as they are. *)
Theorem game_over_stays `{HostMath} (op : Op) (m : Manager.t) :
  GameState.gameStatus (Manager.state m) = Victory \/
  GameState.gameStatus (Manager.state m) = Defeat ->
  match op with
  | OpProgressToNextFloor | OpReset | OpFireTimer _ => False
  | _ => True
  end ->
  post (perform op m)
       (fun m' =>
          GameState.gameStatus (Manager.state m') = GameState.gameStatus (Manager.state m) /\
          Player.health (GameState.player (Manager.state m'))
          = Player.health (GameState.player (Manager.state m))).
Proof. apply perform_over. Qed.

Lemma game_over_stays_witness :
  exists m' k,
    perform (H := approxMath) (OpDamageEnemy 7 5)
            (Manager.set_state
               (GameState.set_gameStatus Defeat (Manager.state demoManager)) demoManager)
            quarter 0%nat = Some (m', k) /\
    GameState.gameStatus (Manager.state m') = Defeat /\
    Player.health (GameState.player (Manager.state m')) = 80.
Proof.
  eexists _, _. split; [reflexivity|].
  refine (game_over_stays (H := approxMath) (OpDamageEnemy 7 5)
            (Manager.set_state
               (GameState.set_gameStatus Defeat (Manager.state demoManager)) demoManager)
            (or_intror eq_refl) I quarter 0%nat _ _ quarter_valid eq_refl).
Defined.





(** ** The map of every reachable state *)

Section MapReachable.
Context `{HostMath}.

Lemma placeEnemies_counter_random worldMap size s :
  post (generateRandomEnemies worldMap size s) (fun res => enemyIdChanged s res.2).
Proof. unfold generateRandomEnemies. post_step. apply placeEnemies_counter. Qed.

Lemma generateWorldMapWithTheme_sound size theme :
  64 <= size ->
  post (generateWorldMapWithTheme size theme)
       (fun g =>
          borderSolid size 1 g /\ spawnClear size g /\
          forall c, passable g c ->
                    connectedTo g (size / 2, size / 2) c \/
                    c.1 = size / 2 \/ c.2 = size / 2).
Proof.
  intros Hsize.
  eapply post_weaken;
    [apply post_and;
       [by apply total_post, total_generateWorldMapWithTheme
       |apply post_and;
          [by apply generateWorldMapWithTheme_border
          |apply post_and;
             [by apply generateWorldMapWithTheme_spawnClear
             |by apply generateWorldMapWithTheme_connects]]]|].
  intros g (Hwf & Hborder & Hclear & Hconn).
  rewrite border_is_wall in Hborder. split; [done|]. split; [done|].
  intros [x y] Hc. destruct (read2_inside size g y x 0 Hwf Hc) as [Hx Hy].
  apply Hconn; [|exact Hc]. unfold interior. simpl.
  destruct (decide (x = 0 \/ x = size - 1 \/ y = 0 \/ y = size - 1)) as [Hedge|Hin];
    [|lia].
  specialize (Hborder (x, y)). unfold passable in Hc. simpl in Hc, Hborder.
  rewrite Hborder in Hc; [done|]. unfold onBorder. simpl. lia.
Qed.

Lemma mapSound_frame s s' :
  GameState.worldMap s' = GameState.worldMap s ->
  GameState.worldSize s' = GameState.worldSize s ->
  mapSound s -> mapSound s'.
Proof. unfold mapSound. by intros -> ->. Qed.

Lemma collectFrom_map n s :
  GameState.worldMap (collectFrom n s) = GameState.worldMap s /\
  GameState.worldSize (collectFrom n s) = GameState.worldSize s.
Proof.
  revert s. induction n as [|i IH]; intros s; [done|]. cbn [collectFrom].
  destruct (GameState.pickups s !! i) as [pickup|]; [|apply IH].
  destruct (Qltb _ _); [|apply IH].
  destruct (IH (GameState.set_pickups
                  (delete i (GameState.pickups (collectPickup pickup s)))
                  (collectPickup pickup s))) as [-> ->].
  unfold collectPickup.
  by destruct (Pickup.type pickup); [| |destruct (Pickup.weaponType pickup)].
Qed.

Lemma fixedUpdate_map s :
  GameState.worldMap (fixedUpdate s) = GameState.worldMap s /\
  GameState.worldSize (fixedUpdate s) = GameState.worldSize s.
Proof.
  unfold fixedUpdate. case_decide; [|done].
  assert (Hx : GameState.worldMap (updatePickupCollection (updatePlayerAttackState s))
               = GameState.worldMap s /\
               GameState.worldSize (updatePickupCollection (updatePlayerAttackState s))
               = GameState.worldSize s).
  { unfold updatePickupCollection.
    by destruct (collectFrom_map
                   (length (GameState.pickups (updatePlayerAttackState s)))
                   (updatePlayerAttackState s)) as [-> ->]. }
  set (x := updatePickupCollection _) in *. clearbody x.
  unfold updateGameStatus.
  destruct (_ <=? 0); [exact Hx|]. by destruct (_ =? _)%nat.
Qed.

Lemma fixedLoop_map fuel s s' :
  mapSound s -> fixedLoop fuel s = Some s' -> mapSound s'.
Proof.
  revert s. induction fuel as [|fuel IH]; intros s Hs; simpl;
    destruct (Qgeb _ _); try done; try by intros [= <-].
  apply IH. destruct (fixedUpdate_map s) as [Hm Hz].
  by apply (mapSound_frame s).
Qed.

Lemma createInitialState_map : post createInitialState mapSound.
Proof.
  unfold createInitialState. cbv zeta.
  eapply post_bind; [by apply (generateWorldMapWithTheme_sound 64)|].
  intros worldMap Hmap. by apply post_ret.
Qed.

Lemma progressToNextFloor_map m :
  0 <= GameState.currentFloor (Manager.state m) ->
  mapSound (Manager.state m) ->
  post (progressToNextFloor m) (fun m' => mapSound (Manager.state m')).
Proof.
  intros Hfloor Hs. unfold progressToNextFloor.
  destruct (canProgress _); [|by apply post_ret].
  set (s := Manager.state m) in *.
  set (nextFloor := GameState.currentFloor s + 1).
  set (worldSize := Z.min (64 + nextFloor / 5 * 8) 96).
  assert (Hsize : 64 <= worldSize)
    by (apply nextWorldSize_bounds; unfold nextFloor; lia).
  clearbody worldSize.
  eapply post_bind; [by apply (generateWorldMapWithTheme_sound worldSize)|].
  intros worldMap Hmap. cbv zeta.
  set (s1 := GameState.set_worldSize _ _).
  eapply post_bind with
    (P := fun s2 => GameState.worldMap s2 = worldMap /\ GameState.worldSize s2 = worldSize).
  { destruct (Z.rem nextFloor 5 =? 0).
    - eapply post_bind; [apply placeEnemies_counter_random|].
      intros [regular s2] (n & Hid). simpl in Hid. subst s2.
      eapply post_bind; [apply post_true|]. intros boss _. by apply post_ret.
    - eapply post_bind; [apply placeEnemies_counter_random|].
      intros [es s2] (n & Hid). simpl in Hid. subst s2. by apply post_ret. }
  intros s2 [Hm2 Hz2].
  eapply post_bind; [apply generateRandomPickups_appended|].
  intros s3 (new & [-> _]). apply post_ret. unfold mapSound. simpl.
  by rewrite Hm2, Hz2.
Qed.

Lemma perform_map op m :
  managerInv m -> mapSound (Manager.state m) ->
  post (perform op m) (fun m' => mapSound (Manager.state m')).
Proof.
  intros Hm Hs.
  assert (Hfloor : 0 <= GameState.currentFloor (Manager.state m)).
  { destruct Hm as [(_ & _ & _ & ? & _) _]. lia. }
  destruct op; cbn [perform].
  - unfold updateWithDeltaTime. cbv zeta.
    destruct (GameState.isPaused _); [by apply post_ret|].
    destruct (Qeq_bool _ _).
    + eapply post_bind with (P := mapSound).
      { destruct (_ =? _)%nat; [|by apply post_ret].
        unfold initializeEnemiesAfterState.
        eapply post_bind; [apply placeEnemies_counter_random|].
        intros [enemies s'] (n & Hs'). simpl in Hs'. subst s'. by apply post_ret. }
      intros s' Hs'. by apply post_ret.
    + eapply post_bind with (P := mapSound).
      { apply post_lift. intros s' Hloop. eapply fixedLoop_map; [|exact Hloop]. done. }
      intros s' Hs'. by apply post_ret.
  - unfold updatePlayer. cbv zeta.
    destruct (_ || _); [by apply post_ret|].
    repeat (match goal with |- context [if ?c then _ else _] => destruct c end);
      repeat post_step; done.
  - apply post_ret. unfold updateMouseLook. by destruct (_ || _).
  - apply post_ret. unfold shoot. by destruct (_ || _).
  - unfold updateEnemies. destruct (_ || _); [by apply post_ret|].
    eapply post_bind; [apply updateEnemy_fold|]. intros s' [(Hf & _) _].
    apply post_ret. simpl. apply (mapSound_frame (Manager.state m)); [..|done];
      by rewrite Hf.
  - eapply post_bind with (P := fun res => mapSound (Manager.state res.2));
      [|intros res Hres; by apply post_ret].
    unfold damageEnemy.
    destruct (findEnemyIndex _ _) as [[i enemy]|]; [|by apply post_ret]. cbv zeta.
    eapply post_bind with (P := fun m' => mapSound (Manager.state m'));
      [|intros m' Hm'; by apply post_ret].
    destruct (Qleb _ _); [|by apply post_ret].
    eapply post_bind; [apply total_post, spawnEnemyDrops_appended|].
    intros s2 (new & [-> _] & _). apply post_ret. simpl.
    by destruct (findEnemyIndex _ _) as [[index e]|].
  - apply post_ret. unfold switchWeapon. by destruct (decide _).
  - apply post_ret. unfold pause. by destruct (decide _).
  - apply post_ret. unfold resume. by destruct (decide _).
  - apply post_ret. unfold togglePause, pause, resume.
    by destruct (GameState.isPaused _); destruct (decide _).
  - by apply progressToNextFloor_map.
  - apply post_ret. unfold checkFloorProgression.
    by destruct (GameState.isBossFloor _); [destruct (_ && _)|destruct (_ =? _)%nat].
  - unfold reset. eapply post_bind; [apply createInitialState_map|].
    intros s' Hs'. by apply post_ret.
  - unfold fireTimer.
    destruct (Manager.timers m !! i) as [[delay c]|]; [|by apply post_ret].
    destruct c; simpl.
    + apply post_ret. unfold checkFloorProgression. simpl.
      by destruct (GameState.isBossFloor _); [destruct (_ && _)|destruct (_ =? _)%nat].
    + by apply (progressToNextFloor_map
                  (Manager.mk (Manager.state m) (Manager.published m)
                              (delete i (Manager.timers m)))).
Qed.

Lemma reachable_map m : Reachable m -> mapSound (Manager.state m).
Proof.
  induction 1 as [r m k Hr Hnew | op r m m' k Hreach IH Hr Hcall].
  - eapply (post_bind createInitialState (fun s => ret (Manager.mk s [] []))
              mapSound (fun m' => mapSound (Manager.state m')));
      [apply createInitialState_map | intros s' Hs'; by apply post_ret | done | done].
  - eapply perform_map; [by apply reachable_inv|exact IH|done|done].
Qed.

End MapReachable.

(** X25.  In every reachable state the map is enclosed and connected as
    the generator leaves it: the outermost rows and columns hold wall type 1
    in every cell, and every cell holding 0 is connected to the centre of
    the map or lies on the middle row or the middle column. *)
Theorem map_stays_sound `{HostMath} (m : Manager.t) :
  Reachable m ->
  let s := Manager.state m in
  let size := GameState.worldSize s in
  let g := GameState.worldMap s in
  (forall x y, 0 <= x < size -> 0 <= y < size ->
               x = 0 \/ x = size - 1 \/ y = 0 \/ y = size - 1 ->
               read2 g y x = Some (Some 1)) /\
  (forall x y, read2 g y x = Some (Some 0) ->
               connectedTo g (size / 2, size / 2) (x, y) \/
               x = size / 2 \/ y = size / 2).
Proof.
  intros Hm. destruct (reachable_map m Hm) as (Hborder & _ & Hconn). cbv zeta. split.
  - intros x y Hx Hy Hedge. by apply (Hborder (x, y)).
  - intros x y Hc. by apply (Hconn (x, y)).
Qed.

Lemma map_stays_sound_witness :
  exists m, freshManager = Some m /\
    let s := Manager.state m in
    let size := GameState.worldSize s in
    let g := GameState.worldMap s in
    (forall x y, 0 <= x < size -> 0 <= y < size ->
                 x = 0 \/ x = size - 1 \/ y = 0 \/ y = size - 1 ->
                 read2 g y x = Some (Some 1)) /\
    (forall x y, read2 g y x = Some (Some 0) ->
                 connectedTo g (size / 2, size / 2) (x, y) \/
                 x = size / 2 \/ y = size / 2).
Proof.
  pose proof freshManager_returns as Hret.
  destruct freshManager as [m|] eqn:E; [|discriminate].
  exists m. split; [reflexivity|].
  apply (map_stays_sound (H := approxMath) m), freshManager_reachable, E.
Defined.
